(** * Connecting-subgraph extraction (vg, [algorithms/extract_connecting_graph.cpp])

    A shallow embedding of [vg::algorithms::extract_connecting_graph] and the
    properties of it that the specification states.

    Conventions of the embedding.
    - [id_t], [off_t] and [int64_t] values are [Z]; signed overflow is
      undefined in C++ and is not modelled.  Index arithmetic that the source
      performs in [size_t] wraps modulo 2^64 ([to_size_t]).
    - [std::unordered_map<id_t, LocalNode>] is a [gmap Z LocalNode];
      [operator[]] inserts a default node when the key is absent ([touch]).
    - C++ exceptions ([std::out_of_range] of [substr]), undefined behaviour
      (dereferencing or erasing [end()], resizing a vector that is being
      iterated) and exhaustion of the fuel that bounds the [while] loops are
      the three constructors of [error]. *)

From stdpp Require Import gmap strings list.
From Stdlib Require Import ZArith Lia Ascii.

Local Open Scope Z_scope.

(** ** Errors and the result monad *)

Inductive error : Type :=
| out_of_range          (* std::out_of_range thrown by std::string::substr *)
| undefined_behaviour   (* use of an end() iterator, invalidated iteration *)
| out_of_fuel.          (* the bound on loop iterations was reached *)

Inductive res (A : Type) : Type :=
| Ok (a : A)
| Err (e : error).
Arguments Ok {A} a.
Arguments Err {A} e.

Definition bind {A B : Type} (m : res A) (k : A → res B) : res B :=
  match m with Ok a => k a | Err e => Err e end.

Notation "'let*' x ':=' m 'in' k" := (bind m (λ x, k))
  (at level 10, x pattern, m at level 100, k at level 200).

(** ** Basic types *)

Abbreviation id_t := Z.
(** An oriented node: [(node id, is reverse?)]. *)
Abbreviation handle_t := (Z * bool)%type.
(** An edge as stored on a node: [(node id, is reversing?)]. *)
Abbreviation edge_t := (Z * bool)%type.

Record pos_t : Type := make_pos_t { id : Z; is_rev : bool; offset : Z }.

Definition set_id (p : pos_t) (i : Z) : pos_t :=
  {| id := i; is_rev := is_rev p; offset := offset p |}.

Record LocalNode : Type := mkLocalNode {
  sequence : string;
  edges_left : list edge_t;
  edges_right : list edge_t
}.

(** [LocalNode()] and [LocalNode(string sequence)]. *)
Definition LocalNode_default : LocalNode := mkLocalNode "" [] [].
Definition LocalNode_of (s : string) : LocalNode := mkLocalNode s [] [].

Inductive colocation_t : Type :=
| SeparateNodes | SharedNodeReachable | SharedNodeUnreachable | SharedNodeReverse.

#[export] Instance colocation_eq_dec : EqDecision colocation_t.
Proof. solve_decision. Defined.

(** ** Strings *)

Definition to_size_t (z : Z) : Z := z mod 2 ^ 64.

Definition string_size (s : string) : Z := Z.of_nat (String.length s).

(** [s.substr(pos, n)]: throws when [pos > s.size()], otherwise the characters
    [[pos, pos + min(n, size - pos))].  Both arguments are [size_t]. *)
Definition substr (s : string) (pos n : Z) : res string :=
  let pos := to_size_t pos in
  let n := to_size_t n in
  if string_size s <? pos then Err out_of_range
  else Ok (String.substring (Z.to_nat pos) (Z.to_nat (Z.min n (string_size s - pos))) s).

Section trimming.
Variable include_terminal_positions : bool.

  (** The [bool] promoted to an integer. *)
Local Abbreviation T := (Z.b2z include_terminal_positions).

  (** get sequence to the right *)
Definition trimmed_seq_right (seq : string) (offset : Z) (rev : bool) : res string :=
    if rev then substr seq 0 (string_size seq - offset - 1 + T)
    else substr seq (offset + 1 - T) (string_size seq - offset - 1 + T).

  (** get sequence to the left *)
Definition trimmed_seq_left (seq : string) (offset : Z) (rev : bool) : res string :=
    if rev then substr seq (string_size seq - offset - T) (offset + T)
    else substr seq 0 (offset + T).

  (** The in-place cut of the shared node in the [SharedNodeReachable] case of
      step 4. *)
Definition shared_cut (seq : string) (pos_1 pos_2 : pos_t) : res string :=
    if is_rev pos_1
    then substr seq (string_size seq - offset pos_2 - T)
                    (offset pos_2 - offset pos_1 - 1 + 2 * T)
    else substr seq (offset pos_1 + 1 - T)
                    (offset pos_2 - offset pos_1 - 1 + 2 * T).

Definition colocation (pos_1 pos_2 : pos_t) : colocation_t :=
    if id pos_1 =? id pos_2 then
      if Bool.eqb (is_rev pos_1) (is_rev pos_2) then
        if offset pos_1 <? offset pos_2 + T
        then SharedNodeReachable else SharedNodeUnreachable
      else SharedNodeReverse
    else SeparateNodes.
End trimming.

(** ** The internal graph *)

Inductive side : Type := Left | Right.

#[export] Instance side_eq_dec : EqDecision side.
Proof. solve_decision. Defined.

Definition flip_side (s : side) : side :=
  match s with Left => Right | Right => Left end.

(** [b ? edges_left : edges_right] *)
Definition left_if (b : bool) : side := if b then Left else Right.
(** [b ? edges_right : edges_left] *)
Definition right_if (b : bool) : side := if b then Right else Left.

Definition edges_of (s : side) (n : LocalNode) : list edge_t :=
  match s with Left => edges_left n | Right => edges_right n end.

Definition with_edges (s : side) (l : list edge_t) (n : LocalNode) : LocalNode :=
  match s with
  | Left => mkLocalNode (sequence n) l (edges_right n)
  | Right => mkLocalNode (sequence n) (edges_left n) l
  end.

Definition with_sequence (str : string) (n : LocalNode) : LocalNode :=
  mkLocalNode str (edges_left n) (edges_right n).

Abbreviation graph_t := (gmap Z LocalNode).

(** The node that [graph[k]] refers to. *)
Definition node_at (g : graph_t) (k : Z) : LocalNode :=
  default LocalNode_default (g !! k).

(** The effect of [graph[k]] on the map: a default node appears when [k] is
    not a key. *)
Definition touch (k : Z) (g : graph_t) : graph_t :=
  match g !! k with Some _ => g | None => <[k := LocalNode_default]> g end.

Definition edges_at (g : graph_t) (k : Z) (s : side) : list edge_t :=
  edges_of s (node_at g k).

Definition set_edges (k : Z) (s : side) (l : list edge_t) (g : graph_t) : graph_t :=
  <[k := with_edges s l (node_at g k)]> g.

(** [graph[k].edges_s.push_back(e)] *)
Definition push_edge (k : Z) (s : side) (e : edge_t) (g : graph_t) : graph_t :=
  set_edges k s (edges_at g k s ++ [e]) g.

(** [edge.first = j] for the [i]-th element of [graph[k].edges_s]. *)
Definition set_edge_first (k : Z) (s : side) (i : nat) (j : Z) (g : graph_t) : graph_t :=
  set_edges k s (alter (λ e : edge_t, (j, e.2)) i (edges_at g k s)) g.

Definition set_sequence (k : Z) (str : string) (g : graph_t) : graph_t :=
  <[k := with_sequence str (node_at g k)]> g.

(** ** The source graph *)

(** The part of the [HandleGraph] interface that the algorithm calls.  A
    handle is the pair that [get_id] and [get_is_reverse] project.
    [follow_edges h go_left] lists the handles that the C++ iteratee is called
    with, in order. *)
Record HandleGraph : Type := {
  get_sequence : handle_t → string;
  follow_edges : handle_t → bool → list handle_t;
  edge_handle : handle_t → handle_t → handle_t * handle_t
}.

Definition get_handle (i : Z) (rev : bool) : handle_t := (i, rev).
Definition get_id (h : handle_t) : Z := h.1.
Definition get_is_reverse (h : handle_t) : bool := h.2.
Definition forward (h : handle_t) : handle_t := (h.1, false).

(** ** The filtered priority queue *)

Record Traversal : Type := mkTraversal { handle : handle_t; dist : Z }.

(** Modelled from the spec: [FilteredPriorityQueue] is declared outside the
    translated file.  It is a minimum-priority queue on [dist] paired with the
    set of keys that were ever inserted; inserting a key that is in the set is
    dropped; [clear] empties both.  Among traversals of equal distance the one
    inserted first is on top (the specification leaves the tie-break open). *)
Record FilteredPriorityQueue : Type := mkQueue {
  items : list Traversal;
  queued : gset handle_t
}.

Definition queue_empty : FilteredPriorityQueue := mkQueue [] ∅.

Definition emplace (h : handle_t) (d : Z) (q : FilteredPriorityQueue) : FilteredPriorityQueue :=
  if bool_decide (h ∈ queued q) then q
  else mkQueue (items q ++ [mkTraversal h d]) ({[h]} ∪ queued q).

Fixpoint extract_min (l : list Traversal) : option (Traversal * list Traversal) :=
  match l with
  | [] => None
  | x :: l' =>
    match extract_min l' with
    | None => Some (x, [])
    | Some (y, r) => if dist x <=? dist y then Some (x, l') else Some (y, x :: r)
    end
  end.

(** [top()] followed by [pop()]. *)
Definition pop (q : FilteredPriorityQueue) : option (Traversal * FilteredPriorityQueue) :=
  match extract_min (items q) with
  | None => None
  | Some (t, r) => Some (t, mkQueue r (queued q))
  end.

(** ** The output graph *)

Record Node : Type := mkNode { node_id : Z; node_sequence : string }.
Record Edge : Type := mkEdge { from : Z; to : Z; from_start : bool; to_end : bool }.
Record Graph : Type := mkGraph { node : list Node; edge : list Edge }.

Definition node_size (g : Graph) : nat := length (node g).
Definition edge_size (g : Graph) : nat := length (edge g).
Definition add_node (n : Node) (g : Graph) : Graph := mkGraph (node g ++ [n]) (edge g).
Definition add_edge (e : Edge) (g : Graph) : Graph := mkGraph (node g) (edge g ++ [e]).

(** What a call does: it ends the process through [exit], it returns the
    translator and leaves the output graph in some state, or it fails with one
    of the conditions of [error]. *)
Inductive outcome : Type :=
| Exited (status : Z) (cerr : string)
| Returned (id_trans : gmap Z Z) (g : Graph)
| Failed (e : error).

(** ** The local variables of [extract_connecting_graph] *)

Record state : Type := mkState {
  graph : graph_t;
  id_trans : gmap Z Z;
  observed_edges : gset (handle_t * handle_t);
  queue : FilteredPriorityQueue;
  skip_handles : gset handle_t;
  max_id : Z;
  found_target : bool;
  next_id : Z;
  duplicate_node_1 : Z;
  duplicate_node_2 : Z;
  pos_1 : pos_t;
  pos_2 : pos_t
}.

Definition set_graph (g : graph_t) (st : state) : state :=
  mkState g (id_trans st) (observed_edges st) (queue st) (skip_handles st) (max_id st)
          (found_target st) (next_id st) (duplicate_node_1 st) (duplicate_node_2 st)
          (pos_1 st) (pos_2 st).
Definition set_id_trans (m : gmap Z Z) (st : state) : state :=
  mkState (graph st) m (observed_edges st) (queue st) (skip_handles st) (max_id st)
          (found_target st) (next_id st) (duplicate_node_1 st) (duplicate_node_2 st)
          (pos_1 st) (pos_2 st).
Definition set_queue (q : FilteredPriorityQueue) (st : state) : state :=
  mkState (graph st) (id_trans st) (observed_edges st) q (skip_handles st) (max_id st)
          (found_target st) (next_id st) (duplicate_node_1 st) (duplicate_node_2 st)
          (pos_1 st) (pos_2 st).
Definition set_skip_handles (s : gset handle_t) (st : state) : state :=
  mkState (graph st) (id_trans st) (observed_edges st) (queue st) s (max_id st)
          (found_target st) (next_id st) (duplicate_node_1 st) (duplicate_node_2 st)
          (pos_1 st) (pos_2 st).
Definition set_found_target (b : bool) (st : state) : state :=
  mkState (graph st) (id_trans st) (observed_edges st) (queue st) (skip_handles st) (max_id st)
          b (next_id st) (duplicate_node_1 st) (duplicate_node_2 st)
          (pos_1 st) (pos_2 st).
Definition set_next_id (n : Z) (st : state) : state :=
  mkState (graph st) (id_trans st) (observed_edges st) (queue st) (skip_handles st) (max_id st)
          (found_target st) n (duplicate_node_1 st) (duplicate_node_2 st)
          (pos_1 st) (pos_2 st).
Definition set_duplicates (d1 d2 : Z) (st : state) : state :=
  mkState (graph st) (id_trans st) (observed_edges st) (queue st) (skip_handles st) (max_id st)
          (found_target st) (next_id st) d1 d2 (pos_1 st) (pos_2 st).
Definition set_pos_1 (p : pos_t) (st : state) : state :=
  mkState (graph st) (id_trans st) (observed_edges st) (queue st) (skip_handles st) (max_id st)
          (found_target st) (next_id st) (duplicate_node_1 st) (duplicate_node_2 st)
          p (pos_2 st).
Definition set_pos_2 (p : pos_t) (st : state) : state :=
  mkState (graph st) (id_trans st) (observed_edges st) (queue st) (skip_handles st) (max_id st)
          (found_target st) (next_id st) (duplicate_node_1 st) (duplicate_node_2 st)
          (pos_1 st) p.

(** ** Steps 1 and 2: the searches *)

Section searches.
Variable source : HandleGraph.
  (** [forward_max_len] and [backward_max_len]. *)
Variables forward_max_len backward_max_len : Z.

  (** The iteratee of [follow_edges] in the forward search, for the edge from
      [trav.handle] to [next]. *)
Definition forward_visit (trav : Traversal) (st : state) (next : handle_t) : state :=
    (* get the orientation and id of the other side of the edge *)
    let next_node := get_id next in
    let next_rev := get_is_reverse next in
    let found_target' :=
      found_target st || ((next_node =? id (pos_2 st)) && Bool.eqb next_rev (is_rev (pos_2 st))) in
    let max_id' := Z.max (max_id st) next_node in
    (* make sure the node is in *)
    let g1 := match graph st !! next_node with
              | Some _ => graph st
              | None => <[next_node := LocalNode_of (get_sequence source (forward next))]> (graph st)
              end in
    (* distance to the end of this node *)
    let dist_thru := dist trav + string_size (sequence (node_at g1 next_node)) in
    let queue' :=
      if negb (bool_decide (next ∈ skip_handles st)) && (dist_thru <=? forward_max_len)
      then emplace next dist_thru (queue st) else queue st in
    let reversing := xorb (get_is_reverse (handle trav)) next_rev in
    let canonical_edge := edge_handle source (handle trav) next in
    if bool_decide (canonical_edge ∈ observed_edges st) then
      mkState g1 (id_trans st) (observed_edges st) queue' (skip_handles st) max_id'
              found_target' (next_id st) (duplicate_node_1 st) (duplicate_node_2 st)
              (pos_1 st) (pos_2 st)
    else
      (* add this edge to the edge list on the current node *)
      let g2 := push_edge (get_id (handle trav)) (left_if (get_is_reverse (handle trav)))
                          (next_node, reversing) g1 in
      (* add to other node, but if it is a self-loop to the same side don't add it twice *)
      let g3 := if negb ((get_id (handle trav) =? next_node) && reversing)
                then push_edge next_node (right_if next_rev) (get_id (handle trav), reversing) g2
                else g2 in
      mkState g3 (id_trans st) ({[canonical_edge]} ∪ observed_edges st) queue'
              (skip_handles st) max_id' found_target' (next_id st)
              (duplicate_node_1 st) (duplicate_node_2 st) (pos_1 st) (pos_2 st).

  (** One turn of the [while (!queue.empty())] loop of the forward search, for
      the traversal that was popped. *)
Definition forward_step (trav : Traversal) (st : state) : state :=
    foldl (forward_visit trav)
          (set_graph (touch (get_id (handle trav)) (graph st)) st)
          (follow_edges source (handle trav) false).

Fixpoint forward_loop (fuel : nat) (st : state) : res state :=
    match pop (queue st) with
    | None => Ok st
    | Some (trav, q) =>
      match fuel with
      | O => Err out_of_fuel
      | S fuel' => forward_loop fuel' (forward_step trav (set_queue q st))
      end
    end.

  (** The iteratee of [follow_edges] in the backward search. *)
Definition backward_visit (trav : Traversal) (st : state) (next : handle_t) : state :=
    let next_node := get_id next in
    let next_rev := get_is_reverse next in
    let max_id' := Z.max (max_id st) next_node in
    (* make sure the node is in the graph *)
    let g1 := match graph st !! next_node with
              | Some _ => graph st
              | None => <[next_node := LocalNode_of (get_sequence source (forward next))]> (graph st)
              end in
    (* distance to the end of this node *)
    let dist_thru := dist trav + string_size (sequence (node_at g1 next_node)) in
    let queue' :=
      if negb (bool_decide (next ∈ skip_handles st)) && (dist_thru <=? forward_max_len)
      then emplace next dist_thru (queue st) else queue st in
    (* is the edge reversing? *)
    let reversing := xorb (get_is_reverse (handle trav)) next_rev in
    let canonical_edge := edge_handle source (handle trav) next in
    if bool_decide (canonical_edge ∈ observed_edges st) then
      mkState g1 (id_trans st) (observed_edges st) queue' (skip_handles st) max_id'
              (found_target st) (next_id st) (duplicate_node_1 st) (duplicate_node_2 st)
              (pos_1 st) (pos_2 st)
    else
      let g2 := push_edge (get_id (handle trav)) (left_if (get_is_reverse (handle trav)))
                          (next_node, reversing) g1 in
      let g3 := if negb ((get_id (handle trav) =? next_node) && reversing)
                then push_edge next_node (right_if next_rev) (get_id (handle trav), reversing) g2
                else g2 in
      mkState g3 (id_trans st) ({[canonical_edge]} ∪ observed_edges st) queue'
              (skip_handles st) max_id' (found_target st) (next_id st)
              (duplicate_node_1 st) (duplicate_node_2 st) (pos_1 st) (pos_2 st).

Definition backward_step (trav : Traversal) (st : state) : state :=
    foldl (backward_visit trav) st (follow_edges source (handle trav) false).

Fixpoint backward_loop (fuel : nat) (st : state) : res state :=
    match pop (queue st) with
    | None => Ok st
    | Some (trav, q) =>
      match fuel with
      | O => Err out_of_fuel
      | S fuel' => backward_loop fuel' (backward_step trav (set_queue q st))
      end
    end.
End searches.

(** ** Loops over an edge list of the graph *)

(** [for (pair<id_t, bool>& edge : v)] where [v] is the vector that [sel]
    reads from the loop state.  The body receives the index of the element
    and its current value.  Resizing [v] in the body invalidates the iterators
    of the loop. *)
Fixpoint for_edges_from {S : Type} (sel : S → list edge_t) (len : nat)
    (body : nat → edge_t → S → res S) (idxs : list nat) (s : S) : res S :=
  match idxs with
  | [] => Ok s
  | i :: idxs' =>
    match sel s !! i with
    | None => Err undefined_behaviour
    | Some e =>
      let* s' := body i e s in
      if decide (length (sel s') = len) then for_edges_from sel len body idxs' s'
      else Err undefined_behaviour
    end
  end.

Definition for_each_edge {S : Type} (sel : S → list edge_t)
    (body : nat → edge_t → S → res S) (s : S) : res S :=
  for_edges_from sel (length (sel s)) body (seq 0 (length (sel s))) s.

(** Index of the first element equal to [e]: [std::find]. *)
Fixpoint find_edge (e : edge_t) (l : list edge_t) : option nat :=
  match l with
  | [] => None
  | x :: l' => if decide (x = e) then Some O else S <$> find_edge e l'
  end.

(** The element that [std::find(v.begin(), v.end(), e)] points to gets [first = j],
    for [v = graph[k].edges_s]. *)
Definition retarget_edge (k : Z) (s : side) (e : edge_t) (j : Z) (g : graph_t) : res graph_t :=
  match find_edge e (edges_at g k s) with
  | None => Err undefined_behaviour
  | Some i => Ok (set_edge_first k s i j g)
  end.

(** [v.erase(std::find(v.begin(), v.end(), e))] on [v = graph[k].edges_s]. *)
Definition erase_edge (k : Z) (s : side) (e : edge_t) (g : graph_t) : res graph_t :=
  match find_edge e (edges_at g k s) with
  | None => Err undefined_behaviour
  | Some i => Ok (set_edges k s (delete i (edges_at g k s)) g)
  end.

(** [in_cycle_1] and [in_cycle_2]: edges were traversed on both sides. *)
Definition in_cycle (g : graph_t) (k : Z) : bool :=
  negb (bool_decide (edges_at g k Left = []) || bool_decide (edges_at g k Right = [])).

(** ** Step 3: duplicating nodes *)

Section duplication.
Variable include_terminal_positions : bool.

  (** [SeparateNodes], the block under [if (in_cycle_1)]. *)
Definition duplicate_separate_1 (st : state) : res state :=
    let id_1 := id (pos_1 st) in
    let new_id := next_id st in
    let g := touch id_1 (graph st) in
    let g := <[new_id := LocalNode_of (sequence (node_at g id_1))]> g in
    let* (g, add_looping_connection) :=
      for_each_edge (λ s : graph_t * bool, edges_at s.1 id_1 Right)
        (λ (i : nat) (edge : edge_t) (s : graph_t * bool),
           let '(g, looping) := s in
           if (edge.1 =? id_1) && edge.2 then
             (* this is a reversing self loop, move it onto the cyclic node *)
             let g := set_edge_first id_1 Right i new_id g in
             let g := push_edge new_id Right (id_1, edge.2) g in
             let g := push_edge new_id Right (new_id, edge.2) g in
             Ok (g, looping)
           else if edge.1 =? id_1 then
             (* this is a non reversing self loop *)
             let g := push_edge new_id Right (new_id, edge.2) g in
             let g := push_edge new_id Left (new_id, edge.2) g in
             Ok (g, true)
           else
             (* copy the edge and add a backward reference *)
             let g := push_edge edge.1 (right_if edge.2) (new_id, edge.2) g in
             let g := push_edge new_id Right (edge.1, edge.2) g in
             Ok (g, looping))
        (g, false) in
    let* (g, add_looping_connection) :=
      for_each_edge (λ s : graph_t * bool, edges_at s.1 id_1 Left)
        (λ (i : nat) (edge : edge_t) (s : graph_t * bool),
           let '(g, looping) := s in
           if (edge.1 =? id_1) && edge.2 then
             let g := set_edge_first id_1 Left i new_id g in
             let g := push_edge new_id Left (id_1, edge.2) g in
             let g := push_edge new_id Left (new_id, edge.2) g in
             Ok (g, looping)
           else if negb (edge.1 =? id_1) then
             let g := push_edge edge.1 (left_if edge.2) (new_id, edge.2) g in
             let g := push_edge new_id Left (edge.1, edge.2) g in
             Ok (g, looping)
           else Ok (g, looping))
        (g, add_looping_connection) in
    let g :=
      if add_looping_connection then
        let g := push_edge new_id (right_if (is_rev (pos_1 st))) (id_1, false) g in
        push_edge id_1 (left_if (is_rev (pos_1 st))) (new_id, false) g
      else g in
    (* record the translation *)
    Ok (set_next_id (new_id + 1) (set_id_trans (<[new_id := id_1]> (id_trans st)) (set_graph g st))).

  (** [SeparateNodes], the block under [if (in_cycle_2)]. *)
Definition duplicate_separate_2 (st : state) : res state :=
    let id_2 := id (pos_2 st) in
    let new_id := next_id st in
    let g := touch id_2 (graph st) in
    let g := <[new_id := LocalNode_of (sequence (node_at g id_2))]> g in
    let* (g, add_looping_connection) :=
      for_each_edge (λ s : graph_t * bool, edges_at s.1 id_2 Right)
        (λ (i : nat) (edge : edge_t) (s : graph_t * bool),
           let '(g, looping) := s in
           if (edge.1 =? id_2) && edge.2 then
             let g := set_edge_first id_2 Right i new_id g in
             let g := push_edge new_id Right (id_2, edge.2) g in
             let g := push_edge new_id Right (new_id, edge.2) g in
             Ok (g, looping)
           else if edge.1 =? id_2 then
             let g := push_edge new_id Right (new_id, edge.2) g in
             let g := push_edge new_id Left (new_id, edge.2) g in
             Ok (g, true)
           else
             let g := push_edge edge.1 (right_if edge.2) (new_id, edge.2) g in
             let g := push_edge new_id Right (edge.1, edge.2) g in
             Ok (g, looping))
        (g, false) in
    let* (g, add_looping_connection) :=
      for_each_edge (λ s : graph_t * bool, edges_at s.1 id_2 Left)
        (λ (i : nat) (edge : edge_t) (s : graph_t * bool),
           let '(g, looping) := s in
           if (edge.1 =? id_2) && edge.2 then
             (* this is a reversing self loop, move it onto the cyclic node *)
             let g := set_edge_first id_2 Left i new_id g in
             (* add a backwards reference to the original node:
                the source passes id(pos_1) here *)
             let g := push_edge new_id Left (id (pos_1 st), edge.2) g in
             (* add a copy of the edge onto the cyclic node *)
             let g := push_edge new_id Left (new_id, edge.2) g in
             Ok (g, looping)
           else if negb (edge.1 =? id_2) then
             let g := push_edge edge.1 (left_if edge.2) (new_id, edge.2) g in
             let g := push_edge new_id Left (edge.1, edge.2) g in
             Ok (g, looping)
           else Ok (g, looping))
        (g, add_looping_connection) in
    let g :=
      if add_looping_connection then
        let g := push_edge new_id (left_if (is_rev (pos_2 st))) (id_2, false) g in
        push_edge id_2 (right_if (is_rev (pos_2 st))) (new_id, false) g
      else g in
    Ok (set_next_id (new_id + 1) (set_id_trans (<[new_id := id_2]> (id_trans st)) (set_graph g st))).

  (** [SharedNodeReachable], under [if (in_cycle_1)]. *)
Definition duplicate_shared_reachable (st : state) : res state :=
    let id_1 := id (pos_1 st) in
    let rev_1 := is_rev (pos_1 st) in
    let g := touch id_1 (graph st) in
    (* make a node for the righthand side of the traversal *)
    let righthand_id := next_id st in
    let* seq_r := trimmed_seq_right include_terminal_positions
               (sequence (node_at g id_1)) (offset (pos_1 st)) rev_1 in
    let g := <[righthand_id := LocalNode_of seq_r]> g in
    (* move over the edges going out of the side that the traversal leaves *)
    let moved := edges_at g id_1 (left_if rev_1) in
    let g := set_edges id_1 (left_if rev_1) [] g in
    let g := set_edges righthand_id (left_if rev_1) moved g in
    (* update the edge references for the new node *)
    let* g := for_each_edge (λ g : graph_t, edges_at g righthand_id (left_if rev_1))
          (λ (i : nat) (edge : edge_t) (g : graph_t),
             if (edge.1 =? id_1) && edge.2 then
               Ok (set_edge_first righthand_id (left_if rev_1) i righthand_id g)
             else
               (* update the backward reference *)
               retarget_edge edge.1 (right_if (xorb rev_1 edge.2)) (id_1, edge.2)
                             righthand_id g)
          g in
    let trans := <[righthand_id := id_1]> (id_trans st) in
    (* make a node for the lefthand side of the traversal *)
    let lefthand_id := righthand_id + 1 in
    let* seq_l := trimmed_seq_left include_terminal_positions
               (sequence (node_at g id_1)) (offset (pos_2 st)) (is_rev (pos_2 st)) in
    let g := <[lefthand_id := LocalNode_of seq_l]> g in
    let moved := edges_at g id_1 (right_if rev_1) in
    let g := set_edges id_1 (right_if rev_1) [] g in
    let g := set_edges lefthand_id (right_if rev_1) moved g in
    let* g := for_each_edge (λ g : graph_t, edges_at g lefthand_id (right_if rev_1))
          (λ (i : nat) (edge : edge_t) (g : graph_t),
             let g := if edge.1 =? id_1
                      then set_edge_first lefthand_id (right_if rev_1) i lefthand_id g
                      else g in
             let first := if edge.1 =? id_1 then lefthand_id else edge.1 in
             if negb ((first =? lefthand_id) && edge.2) then
               (* update the backward reference unless this is a reversing self loop *)
               retarget_edge first (left_if (xorb rev_1 edge.2)) (id_1, edge.2)
                             lefthand_id g
             else Ok g)
          g in
    let trans := <[lefthand_id := id_1]> trans in
    (* now duplicate the node to preserve the cycles that go through it *)
    let cycle_id := lefthand_id + 1 in
    let g := <[cycle_id := LocalNode_of (sequence (node_at g id_1))]> g in
    let out := left_if rev_1 in
    let inc := right_if rev_1 in
    let* (g, add_looping_connection) :=
      for_each_edge (λ s : graph_t * bool, edges_at s.1 righthand_id (left_if rev_1))
        (λ (i : nat) (edge : edge_t) (s : graph_t * bool),
           let '(g, looping) := s in
           if edge.1 =? righthand_id then
             (* this must be a reversing self loop, move it onto the cyclic node *)
             let g := set_edge_first righthand_id (left_if rev_1) i cycle_id g in
             let g := push_edge cycle_id out (righthand_id, edge.2) g in
             let g := push_edge cycle_id out (cycle_id, edge.2) g in
             Ok (g, looping)
           else if edge.1 =? lefthand_id then
             (* there is a non reversing self loop, mark it now *)
             Ok (g, true)
           else
             let g := push_edge edge.1 (right_if (xorb rev_1 edge.2)) (cycle_id, edge.2) g in
             let g := push_edge cycle_id out (edge.1, edge.2) g in
             Ok (g, looping))
        (g, false) in
    let* (g, add_looping_connection) :=
      for_each_edge (λ s : graph_t * bool, edges_at s.1 lefthand_id (right_if rev_1))
        (λ (i : nat) (edge : edge_t) (s : graph_t * bool),
           let '(g, looping) := s in
           if edge.1 =? lefthand_id then
             let g := set_edge_first lefthand_id (right_if rev_1) i cycle_id g in
             let g := push_edge cycle_id inc (lefthand_id, edge.2) g in
             let g := push_edge cycle_id inc (cycle_id, edge.2) g in
             Ok (g, looping)
           else if negb (edge.1 =? righthand_id) then
             let g := push_edge edge.1 (left_if (xorb rev_1 edge.2)) (cycle_id, edge.2) g in
             let g := push_edge cycle_id inc (edge.1, edge.2) g in
             Ok (g, looping)
           else Ok (g, looping))
        (g, add_looping_connection) in
    let g :=
      if add_looping_connection then
        (* add an edge from the righthand side to the cyclic node *)
        let g := push_edge righthand_id (left_if rev_1) (cycle_id, false) g in
        let g := push_edge cycle_id inc (righthand_id, false) g in
        (* add an edge from the lefthand side to the cyclic node *)
        let g := push_edge lefthand_id (right_if rev_1) (cycle_id, false) g in
        let g := push_edge cycle_id out (lefthand_id, false) g in
        (* add an edge for the nonreversing self loop on only the cyclic node *)
        let g := push_edge cycle_id out (cycle_id, false) g in
        push_edge cycle_id inc (cycle_id, false) g
      else g in
    let trans := <[cycle_id := id_1]> trans in
    Ok (set_duplicates righthand_id lefthand_id
          (set_next_id (cycle_id + 1) (set_id_trans trans (set_graph g st)))).

  (** [SharedNodeUnreachable]: the node is duplicated whether or not it is in
      a cycle. *)
Definition duplicate_shared_unreachable (st : state) : res state :=
    let id_1 := id (pos_1 st) in
    let rev_1 := is_rev (pos_1 st) in
    let new_id := next_id st in
    let g := touch id_1 (graph st) in
    let g := <[new_id := LocalNode_of (sequence (node_at g id_1))]> g in
    let outgoing := left_if rev_1 in
    let incoming := right_if rev_1 in
    let* (g, add_looping_connection) :=
      for_each_edge (λ s : graph_t * bool, edges_at s.1 id_1 outgoing)
        (λ (i : nat) (edge : edge_t) (s : graph_t * bool),
           let '(g, looping) := s in
           if (edge.1 =? id_1) && edge.2 then
             (* this is a reversing self loop, move it onto the cyclic node *)
             let g := set_edge_first id_1 outgoing i new_id g in
             let g := push_edge new_id outgoing (id_1, edge.2) g in
             let g := push_edge new_id outgoing (new_id, edge.2) g in
             Ok (g, looping)
           else if edge.1 =? id_1 then
             (* this is a non reversing self loop, mark it *)
             Ok (g, true)
           else
             let g := push_edge edge.1 (right_if (xorb rev_1 edge.2)) (new_id, edge.2) g in
             let g := push_edge new_id outgoing (edge.1, edge.2) g in
             Ok (g, looping))
        (g, false) in
    let* (g, add_looping_connection) :=
      for_each_edge (λ s : graph_t * bool, edges_at s.1 id_1 incoming)
        (λ (i : nat) (edge : edge_t) (s : graph_t * bool),
           let '(g, looping) := s in
           if (edge.1 =? id_1) && edge.2 then
             let g := set_edge_first id_1 incoming i new_id g in
             let g := push_edge new_id incoming (id_1, edge.2) g in
             let g := push_edge new_id incoming (new_id, edge.2) g in
             Ok (g, looping)
           else if negb (edge.1 =? id_1) then
             let g := push_edge edge.1 (left_if (xorb rev_1 edge.2)) (new_id, edge.2) g in
             let g := push_edge new_id incoming (edge.1, edge.2) g in
             Ok (g, looping)
           else Ok (g, looping))
        (g, add_looping_connection) in
    let g :=
      if add_looping_connection then
        (* add edge outward to new node *)
        let g := push_edge id_1 outgoing (new_id, false) g in
        let g := push_edge new_id incoming (id_1, false) g in
        (* edge inward from new node *)
        let g := push_edge id_1 incoming (new_id, false) g in
        let g := push_edge new_id outgoing (id_1, false) g in
        (* add cycle from new node to itself *)
        let g := push_edge new_id outgoing (new_id, false) g in
        push_edge new_id incoming (new_id, false) g
      else g in
    Ok (set_next_id (new_id + 1) (set_id_trans (<[new_id := id_1]> (id_trans st)) (set_graph g st))).

  (** [SharedNodeReverse], under [if (in_cycle_1)]. *)
Definition duplicate_shared_reverse (st : state) : res state :=
    let id_1 := id (pos_1 st) in
    let rev_1 := is_rev (pos_1 st) in
    let new_id := next_id st in
    let g := touch id_1 (graph st) in
    let g := <[new_id := LocalNode_of (sequence (node_at g id_1))]> g in
    let outgoing := left_if rev_1 in
    let incoming := right_if rev_1 in
    let* (g, add_reversing_connection, add_looping_connection) :=
      for_each_edge (λ s : graph_t * bool * bool, edges_at s.1.1 id_1 outgoing)
        (λ (i : nat) (edge : edge_t) (s : graph_t * bool * bool),
           let '(g, reversing, looping) := s in
           if (edge.1 =? id_1) && edge.2 then
             (* this is a reversing self loop *)
             Ok (g, true, looping)
           else if edge.1 =? id_1 then
             (* this is a non reversing self loop *)
             Ok (g, reversing, true)
           else
             (* copy the edge and add a backward reference *)
             let g := push_edge edge.1 (right_if (xorb rev_1 edge.2)) (new_id, edge.2) g in
             let g := push_edge new_id outgoing (edge.1, edge.2) g in
             Ok (g, reversing, looping))
        (g, false, false) in
    let* g :=
      for_each_edge (λ g : graph_t, edges_at g id_1 incoming)
        (λ (i : nat) (edge : edge_t) (g : graph_t),
           if (edge.1 =? id_1) && edge.2 then
             (* this is a reversing self loop, add a copy of the edge onto the cyclic node *)
             Ok (push_edge new_id incoming (new_id, edge.2) g)
           else if negb (edge.1 =? id_1) then
             let g := push_edge edge.1 (left_if (xorb rev_1 edge.2)) (new_id, edge.2) g in
             Ok (push_edge new_id incoming (edge.1, edge.2) g)
           else Ok g)
        g in
    (* preserve cycles involving a reversing self loop *)
    let g :=
      if add_reversing_connection then
        let g := push_edge id_1 outgoing (new_id, true) g in
        let g := push_edge new_id outgoing (id_1, true) g in
        push_edge new_id outgoing (new_id, true) g
      else g in
    let g :=
      if add_looping_connection then
        let g := push_edge id_1 outgoing (new_id, false) g in
        let g := push_edge new_id incoming (id_1, false) g in
        let g := push_edge new_id outgoing (new_id, false) g in
        push_edge new_id incoming (new_id, false) g
      else g in
    Ok (set_next_id (new_id + 1) (set_id_trans (<[new_id := id_1]> (id_trans st)) (set_graph g st))).

  (** Step 3 as a whole; [colo] is the colocation computed at the start. *)
Definition duplicate_nodes (colo : colocation_t) (st : state) : res state :=
    let in_cycle_1 := in_cycle (graph st) (id (pos_1 st)) in
    let in_cycle_2 := in_cycle (touch (id (pos_1 st)) (graph st)) (id (pos_2 st)) in
    let st := set_graph (touch (id (pos_2 st)) (touch (id (pos_1 st)) (graph st))) st in
    match colo with
    | SeparateNodes =>
      let* st := if in_cycle_1 then duplicate_separate_1 st else Ok st in
      if in_cycle_2 then duplicate_separate_2 st else Ok st
    | SharedNodeReachable =>
      if in_cycle_1 then duplicate_shared_reachable st else Ok st
    | SharedNodeUnreachable => duplicate_shared_unreachable st
    | SharedNodeReverse =>
      if in_cycle_1 then duplicate_shared_reverse st else Ok st
    end.
End duplication.

(** ** Step 4: cutting nodes *)

(** The inner loop of the [SharedNodeUnreachable] case: the first element
    whose [first] is [i] gets [first = j], then [break]. *)
Fixpoint retarget_first (i j : Z) (l : list edge_t) : list edge_t :=
  match l with
  | [] => []
  | e :: l' => if e.1 =? i then (j, e.2) :: l' else e :: retarget_first i j l'
  end.

Section cutting.
Variable include_terminal_positions : bool.

Definition cut_separate (st : state) : res state :=
    let id_1 := id (pos_1 st) in
    let id_2 := id (pos_2 st) in
    let rev_1 := is_rev (pos_1 st) in
    let rev_2 := is_rev (pos_2 st) in
    let g := touch id_2 (touch id_1 (graph st)) in
    let outward_1 := right_if rev_1 in
    let outward_2 := left_if rev_2 in
    (* delete all backward edge references *)
    let* g :=
      for_each_edge (λ g : graph_t, edges_at g id_1 outward_1)
        (λ (i : nat) (edge : edge_t) (g : graph_t),
           if negb ((edge.1 =? id_1) && edge.2)
           then erase_edge edge.1 (left_if (xorb rev_1 edge.2)) (id_1, edge.2) g
           else Ok g)
        g in
    let* g :=
      for_each_edge (λ g : graph_t, edges_at g id_2 outward_2)
        (λ (i : nat) (edge : edge_t) (g : graph_t),
           if negb ((edge.1 =? id_2) && edge.2)
           then erase_edge edge.1 (right_if (xorb rev_2 edge.2)) (id_2, edge.2) g
           else Ok g)
        g in
    (* clear the original edge lists *)
    let g := set_edges id_1 outward_1 [] g in
    let g := set_edges id_2 outward_2 [] g in
    (* cut the node sequence *)
    let* seq_1 := trimmed_seq_right include_terminal_positions
                    (sequence (node_at g id_1)) (offset (pos_1 st)) rev_1 in
    let g := set_sequence id_1 seq_1 g in
    let* seq_2 := trimmed_seq_left include_terminal_positions
                    (sequence (node_at g id_2)) (offset (pos_2 st)) rev_2 in
    let g := set_sequence id_2 seq_2 g in
    Ok (set_graph g st).

Definition cut_shared_reachable (st : state) : res state :=
    let id_1 := id (pos_1 st) in
    let id_2 := id (pos_2 st) in
    let rev_1 := is_rev (pos_1 st) in
    let rev_2 := is_rev (pos_2 st) in
    let g := touch id_1 (graph st) in
    (* delete all backward edge references in both directions *)
    let* g :=
      for_each_edge (λ g : graph_t, edges_at g id_1 Right)
        (λ (i : nat) (edge : edge_t) (g : graph_t),
           if negb ((edge.1 =? id_1) && edge.2)
           then erase_edge edge.1 (left_if (xorb rev_1 edge.2)) (id_1, edge.2) g
           else Ok g)
        g in
    let* g :=
      for_each_edge (λ g : graph_t, edges_at g id_1 Left)
        (λ (i : nat) (edge : edge_t) (g : graph_t),
           if negb ((edge.1 =? id_2) && edge.2)
           then erase_edge edge.1 (right_if (xorb rev_2 edge.2)) (id_2, edge.2) g
           else Ok g)
        g in
    (* clear the node's own edge lists *)
    let g := set_edges id_1 Right [] g in
    let g := set_edges id_1 Left [] g in
    (* cut the node sequence *)
    let* seq := shared_cut include_terminal_positions
                  (sequence (node_at g id_1)) (pos_1 st) (pos_2 st) in
    Ok (set_graph (set_sequence id_1 seq g) st).

Definition cut_shared_unreachable (st : state) : res state :=
    let id_1 := id (pos_1 st) in
    let rev_1 := is_rev (pos_1 st) in
    let rev_2 := is_rev (pos_2 st) in
    let new_id := next_id st in
    let g := touch id_1 (graph st) in
    let g := <[new_id := LocalNode_of (sequence (node_at g id_1))]> g in
    (* move the edges from one side onto the new node *)
    let moved := edges_at g id_1 Right in
    let g := set_edges id_1 Right [] g in
    let g := set_edges new_id Right moved g in
    (* relabel the edges pointing back into this side *)
    let* g :=
      for_each_edge (λ g : graph_t, edges_at g new_id Right)
        (λ (i : nat) (edge : edge_t) (g : graph_t),
           Ok (set_edges edge.1 (right_if edge.2)
                 (retarget_first id_1 new_id (edges_at g edge.1 (right_if edge.2))) g))
        g in
    (* cut the sequences of the two nodes according to the search positions and
       switch the pointer for one of the positions onto the new node *)
    if rev_1 then
      let trans := <[new_id := id (pos_2 st)]> (id_trans st) in
      let* seq_1 := trimmed_seq_right include_terminal_positions
                      (sequence (node_at g id_1)) (offset (pos_1 st)) rev_1 in
      let g := set_sequence id_1 seq_1 g in
      let* seq_2 := trimmed_seq_left include_terminal_positions
                      (sequence (node_at g new_id)) (offset (pos_2 st)) rev_2 in
      let g := set_sequence new_id seq_2 g in
      Ok (set_next_id (new_id + 1)
            (set_pos_2 (set_id (pos_2 st) new_id) (set_id_trans trans (set_graph g st))))
    else
      let trans := <[new_id := id_1]> (id_trans st) in
      let* seq_1 := trimmed_seq_right include_terminal_positions
                      (sequence (node_at g new_id)) (offset (pos_1 st)) rev_1 in
      let g := set_sequence new_id seq_1 g in
      let* seq_2 := trimmed_seq_left include_terminal_positions
                      (sequence (node_at g id_1)) (offset (pos_2 st)) rev_2 in
      let g := set_sequence id_1 seq_2 g in
      Ok (set_next_id (new_id + 1)
            (set_pos_1 (set_id (pos_1 st) new_id) (set_id_trans trans (set_graph g st)))).

Definition cut_shared_reverse (st : state) : res state :=
    let id_1 := id (pos_1 st) in
    let rev_1 := is_rev (pos_1 st) in
    let rev_2 := is_rev (pos_2 st) in
    let new_id := next_id st in
    let g := touch id_1 (graph st) in
    let incoming := right_if rev_1 in
    let outgoing := left_if rev_1 in
    (* delete all backward edge references *)
    let* g :=
      for_each_edge (λ g : graph_t, edges_at g id_1 incoming)
        (λ (i : nat) (edge : edge_t) (g : graph_t),
           if negb ((edge.1 =? id_1) && edge.2)
           then erase_edge edge.1 (left_if (xorb rev_1 edge.2)) (id_1, edge.2) g
           else Ok g)
        g in
    let g := set_edges id_1 incoming [] g in
    (* now make a new node to be the sink *)
    let g := <[new_id := LocalNode_of (sequence (node_at g id_1))]> g in
    let* g :=
      for_each_edge (λ g : graph_t, edges_at g id_1 outgoing)
        (λ (i : nat) (edge : edge_t) (g : graph_t),
           if edge.1 =? id_1 then
             (* this must be a reversing self loop: change it to being a
                connecting edge between the two nodes *)
             let g := set_edge_first id_1 outgoing i new_id g in
             Ok (push_edge new_id outgoing (id_1, edge.2) g)
           else
             (* copy the edge and add a backwards reference *)
             let g := touch edge.1 g in
             let g := push_edge new_id outgoing (edge.1, edge.2) g in
             Ok (push_edge edge.1 (right_if (xorb rev_1 edge.2)) (new_id, edge.2) g))
        g in
    (* record the node translation *)
    let trans := <[new_id := id_1]> (id_trans st) in
    (* trim the sequences *)
    let* seq_1 := trimmed_seq_right include_terminal_positions
                    (sequence (node_at g id_1)) (offset (pos_1 st)) rev_1 in
    let g := set_sequence id_1 seq_1 g in
    let* seq_2 := trimmed_seq_left include_terminal_positions
                    (sequence (node_at g new_id)) (offset (pos_2 st)) rev_2 in
    let g := set_sequence new_id seq_2 g in
    (* mark the duplicated node as the new sink *)
    Ok (set_next_id (new_id + 1)
          (set_pos_2 (set_id (pos_2 st) new_id) (set_id_trans trans (set_graph g st)))).

Definition cut_nodes (colo : colocation_t) (st : state) : res state :=
    match colo with
    | SeparateNodes => cut_separate st
    | SharedNodeReachable => cut_shared_reachable st
    | SharedNodeUnreachable => cut_shared_unreachable st
    | SharedNodeReverse => cut_shared_reverse st
    end.
End cutting.

(** ** Step 5: pruning *)

(** [graph.erase] of the ids in [to_erase], with their translator entries. *)
Definition erase_nodes (to_erase : list Z) (st : state) : state :=
  set_id_trans (foldl (λ m k, delete k m) (id_trans st) to_erase)
    (set_graph (foldl (λ g k, delete k g) (graph st) to_erase) st).

(** Monadic filter: the elements for which [erase] answers [false] are kept
    ([std::remove_if] followed by [resize]). *)
Fixpoint remove_if (erase : edge_t → res bool) (l : list edge_t) : res (list edge_t) :=
  match l with
  | [] => Ok []
  | e :: l' =>
    let* b := erase e in
    let* r := remove_if erase l' in
    Ok (if b then r else e :: r)
  end.

(** [graph[k].sequence.size()] while the map is being iterated: inserting a
    key there is not defined. *)
Definition size_in_iteration (g : graph_t) (k : Z) : res Z :=
  match g !! k with
  | Some n => Ok (string_size (sequence n))
  | None => Err undefined_behaviour
  end.

Section strict_max_len.
Variable max_len : Z.

  (** One turn of the forward distance sweep. *)
Definition forward_prune_step (trav : Traversal)
      (s : graph_t * FilteredPriorityQueue * gmap handle_t Z)
      : graph_t * FilteredPriorityQueue * gmap handle_t Z :=
    let '(g, q, forward_trav_dist) := s in
    let forward_trav_dist := <[handle trav := dist trav]> forward_trav_dist in
    let rev := (handle trav).2 in
    let g := touch (handle trav).1 g in
    let '(g, q) :=
      foldl (λ (s : graph_t * FilteredPriorityQueue) (edge : edge_t),
               let g := touch edge.1 s.1 in
               (* the distance to the opposite side of this next node *)
               let dist_thru := dist trav + string_size (sequence (node_at g edge.1)) in
               (g, emplace (edge.1, xorb edge.2 rev) dist_thru s.2))
            (g, q) (edges_at g (handle trav).1 (left_if rev)) in
    (g, q, forward_trav_dist).

  (** One turn of the backward distance sweep. *)
Definition reverse_prune_step (trav : Traversal)
      (s : graph_t * FilteredPriorityQueue * gmap handle_t Z)
      : graph_t * FilteredPriorityQueue * gmap handle_t Z :=
    let '(g, q, reverse_trav_dist) := s in
    let reverse_trav_dist := <[handle trav := dist trav]> reverse_trav_dist in
    let rev := (handle trav).2 in
    let g := touch (handle trav).1 g in
    let dist_thru := dist trav + string_size (sequence (node_at g (handle trav).1)) in
    let q :=
      foldl (λ (q : FilteredPriorityQueue) (edge : edge_t),
               emplace (edge.1, xorb edge.2 rev) dist_thru q)
            q (edges_at g (handle trav).1 (left_if rev)) in
    (g, q, reverse_trav_dist).

Fixpoint prune_loop (step : Traversal → graph_t * FilteredPriorityQueue * gmap handle_t Z
                              → graph_t * FilteredPriorityQueue * gmap handle_t Z)
      (fuel : nat) (s : graph_t * FilteredPriorityQueue * gmap handle_t Z)
      : res (graph_t * FilteredPriorityQueue * gmap handle_t Z) :=
    match pop s.1.2 with
    | None => Ok s
    | Some (trav, q) =>
      match fuel with
      | O => Err out_of_fuel
      | S fuel' => prune_loop step fuel' (step trav (s.1.1, q, s.2))
      end
    end.

Section per_node.
Variables forward_trav_dist reverse_trav_dist : gmap handle_t Z.
Variable g : graph_t.

    (** [fwd.count(a) && rev.count(b) && fwd[a] + rev[b] + extra <= max_len],
        where [extra] is only evaluated when both counts hold. *)
Definition short_enough (a b : handle_t) (extra : res Z) : res bool :=
      match forward_trav_dist !! a, reverse_trav_dist !! b with
      | Some x, Some y => let* e := extra in Ok (x + y + e <=? max_len)
      | _, _ => Ok false
      end.

Definition erase_node_strict (node_id : Z) : res bool :=
      let* a := short_enough (node_id, true) (node_id, false) (Ok 0) in
      let* b := short_enough (node_id, false) (node_id, true) (Ok 0) in
      Ok (negb (a || b)).

Definition erase_right_strict (node_id : Z) (edge : edge_t) : res bool :=
      let* a := short_enough (node_id, false) (edge.1, negb edge.2)
                  (size_in_iteration g edge.1) in
      let* b := short_enough (edge.1, negb edge.2) (node_id, false)
                  (size_in_iteration g node_id) in
      Ok (negb (a || b)).

Definition erase_left_strict (node_id : Z) (edge : edge_t) : res bool :=
      let* a := short_enough (node_id, true) (edge.1, edge.2)
                  (size_in_iteration g edge.1) in
      let* b := short_enough (edge.1, edge.2) (node_id, true)
                  (size_in_iteration g node_id) in
      Ok (negb (a || b)).
End per_node.

  (** The loop over the records of [graph]: the nodes to erase are collected,
      the others lose the edges that are only on long paths. *)
Fixpoint filter_records (erase_node : Z → res bool)
      (erase_right erase_left : Z → edge_t → res bool)
      (records : list (Z * LocalNode)) (s : graph_t * list Z) : res (graph_t * list Z) :=
    match records with
    | [] => Ok s
    | (node_id, _) :: records' =>
      let '(g, to_erase) := s in
      let* erase := erase_node node_id in
      if erase then
        filter_records erase_node erase_right erase_left records' (g, to_erase ++ [node_id])
      else
        let* r := remove_if (erase_right node_id) (edges_at g node_id Right) in
        let* l := remove_if (erase_left node_id) (edges_at g node_id Left) in
        let g := set_edges node_id Left l (set_edges node_id Right r g) in
        filter_records erase_node erase_right erase_left records' (g, to_erase)
    end.

Definition prune_strict_max_len (fuel : nat) (st : state) : res state :=
    let id_1 := id (pos_1 st) in
    let id_2 := id (pos_2 st) in
    let rev_1 := is_rev (pos_1 st) in
    let rev_2 := is_rev (pos_2 st) in
    (* re-initialize the queue in the forward direction *)
    let g := touch id_1 (graph st) in
    let q := emplace (id_1, rev_1) (string_size (sequence (node_at g id_1))) queue_empty in
    (* if we duplicated the start node, add that too *)
    let '(g, q) :=
      if duplicate_node_1 st =? 0 then (g, q)
      else let g := touch (duplicate_node_1 st) g in
           (g, emplace (duplicate_node_1 st, rev_1)
                       (string_size (sequence (node_at g (duplicate_node_1 st)))) q) in
    let* (g, _, forward_trav_dist) := prune_loop forward_prune_step fuel (g, q, ∅) in
    (* re-initialize the queue *)
    let q := emplace (id_2, negb rev_2) 0 queue_empty in
    let q := if duplicate_node_2 st =? 0 then q
             else emplace (duplicate_node_2 st, negb rev_2) 0 q in
    let* (g, _, reverse_trav_dist) := prune_loop reverse_prune_step fuel (g, q, ∅) in
    let* (g, to_erase) :=
      filter_records (erase_node_strict forward_trav_dist reverse_trav_dist)
        (erase_right_strict forward_trav_dist reverse_trav_dist g)
        (erase_left_strict forward_trav_dist reverse_trav_dist g)
        (map_to_list g) (g, []) in
    (* remove the nodes *)
    Ok (erase_nodes to_erase (set_graph g st)).
End strict_max_len.

Section only_paths.
  (** One turn of a reachability search; the head of the list is the back of
      the [stack]. *)
Definition reach_step (trav : handle_t) (s : graph_t * list handle_t * gset handle_t)
      : graph_t * list handle_t * gset handle_t :=
    let '(g, stack, reachable) := s in
    let g := touch trav.1 g in
    let '(stack, reachable) :=
      foldl (λ (s : list handle_t * gset handle_t) (edge : edge_t),
               let next_trav := (edge.1, xorb edge.2 trav.2) in
               if bool_decide (next_trav ∈ s.2) then s
               else (next_trav :: s.1, {[next_trav]} ∪ s.2))
            (stack, reachable) (edges_at g trav.1 (left_if trav.2)) in
    (g, stack, reachable).

Fixpoint reach_loop (fuel : nat) (s : graph_t * list handle_t * gset handle_t)
      : res (graph_t * list handle_t * gset handle_t) :=
    match s.1.2 with
    | [] => Ok s
    | trav :: stack =>
      match fuel with
      | O => Err out_of_fuel
      | S fuel' => reach_loop fuel' (reach_step trav (s.1.1, stack, s.2))
      end
    end.

Section per_node.
Variables forward_reachable reverse_reachable : gset handle_t.

Definition on_path (a b : handle_t) : bool :=
      bool_decide (a ∈ forward_reachable) && bool_decide (b ∈ reverse_reachable).

Definition erase_node_paths (node_id : Z) : res bool :=
      Ok (negb (on_path (node_id, true) (node_id, false))
          && negb (on_path (node_id, false) (node_id, true))).

Definition erase_right_paths (node_id : Z) (edge : edge_t) : res bool :=
      Ok (negb (on_path (node_id, false) (edge.1, negb edge.2))
          && negb (on_path (edge.1, negb edge.2) (node_id, false))).

Definition erase_left_paths (node_id : Z) (edge : edge_t) : res bool :=
      Ok (negb (on_path (node_id, true) (edge.1, edge.2))
          && negb (on_path (edge.1, edge.2) (node_id, true))).
End per_node.

Definition prune_only_paths (fuel : nat) (st : state) : res state :=
    let id_1 := id (pos_1 st) in
    let id_2 := id (pos_2 st) in
    let rev_1 := is_rev (pos_1 st) in
    let rev_2 := is_rev (pos_2 st) in
    (* initialize the stack in the forward direction *)
    let stack := [(id_1, rev_1)] in
    let reachable : gset handle_t := {[(id_1, rev_1)]} in
    let '(stack, reachable) :=
      if duplicate_node_1 st =? 0 then (stack, reachable)
      else ((duplicate_node_1 st, rev_1) :: stack, {[(duplicate_node_1 st, rev_1)]} ∪ reachable) in
    let* (g, _, forward_reachable) := reach_loop fuel (graph st, stack, reachable) in
    (* re-initialize the stack in the reverse direction *)
    let stack := [(id_2, negb rev_2)] in
    let reachable : gset handle_t := {[(id_2, negb rev_2)]} in
    let '(stack, reachable) :=
      if duplicate_node_2 st =? 0 then (stack, reachable)
      else ((duplicate_node_2 st, negb rev_2) :: stack,
            {[(duplicate_node_2 st, negb rev_2)]} ∪ reachable) in
    let* (g, _, reverse_reachable) := reach_loop fuel (g, stack, reachable) in
    let* (g, to_erase) :=
      filter_records (erase_node_paths forward_reachable reverse_reachable)
        (erase_right_paths forward_reachable reverse_reachable)
        (erase_left_paths forward_reachable reverse_reachable)
        (map_to_list g) (g, []) in
    (* remove the nodes *)
    Ok (erase_nodes to_erase (set_graph g st)).
End only_paths.

Section no_additional_tips.
  (** Loop state of the tip removal: the graph, the translator, the two degree
      maps and [to_check], whose head is its front. *)
Record tips_state : Type := mkTips {
    t_graph : graph_t;
    t_id_trans : gmap Z Z;
    left_degree : gmap Z Z;
    right_degree : gmap Z Z;
    to_check : list Z
  }.

  (** [left_degree[k]--]: [left_degree] is the map that the outer loop
      iterates, a new key may not be inserted. *)
Definition decr_left (k : Z) (t : tips_state) : res tips_state :=
    match left_degree t !! k with
    | Some d => Ok (mkTips (t_graph t) (t_id_trans t) (<[k := d - 1]> (left_degree t))
                           (right_degree t) (to_check t))
    | None => Err undefined_behaviour
    end.

  (** [right_degree[k]--] *)
Definition decr_right (k : Z) (t : tips_state) : res tips_state :=
    Ok (mkTips (t_graph t) (t_id_trans t) (left_degree t)
               (<[k := default 0 (right_degree t !! k) - 1]> (right_degree t)) (to_check t)).

Definition push_front (k : Z) (t : tips_state) : tips_state :=
    mkTips (t_graph t) (t_id_trans t) (left_degree t) (right_degree t) (k :: to_check t).

  (** Erasing the tip [node_id]: [same] is the degree map to decrement for a
      reversing edge, [other] the one for a non-reversing edge. *)
Fixpoint detach (same other : Z → tips_state → res tips_state)
      (edges : list edge_t) (t : tips_state) : res tips_state :=
    match edges with
    | [] => Ok t
    | edge :: edges' =>
      let* t := (if edge.2 : bool then same edge.1 t else other edge.1 t) in
      detach same other edges' (push_front edge.1 t)
    end.

Definition remove_tip (node_id : Z) (t : tips_state) : tips_state :=
    mkTips (delete node_id (t_graph t)) (t_id_trans t) (left_degree t) (right_degree t)
           (to_check t).

Definition forget_translation (node_id : Z) (t : tips_state) : tips_state :=
    mkTips (t_graph t) (delete node_id (t_id_trans t)) (left_degree t) (right_degree t)
           (to_check t).

Variable protected : Z → bool.

  (** The [while (!to_check.empty())] loop. *)
Fixpoint check_loop (fuel : nat) (t : tips_state) : res tips_state :=
    match to_check t with
    | [] => Ok t
    | _ :: _ =>
      match fuel with
      | O => Err out_of_fuel
      | S fuel' =>
        let node_id := List.last (to_check t) 0 in
        let t := mkTips (t_graph t) (t_id_trans t) (left_degree t) (right_degree t)
                        (removelast (to_check t)) in
        if protected node_id || negb (bool_decide (is_Some (t_graph t !! node_id))) then
          (* the end nodes get a free pass, or we may have already pruned this node *)
          check_loop fuel' t
        else
          match left_degree t !! node_id with
          | None => Err undefined_behaviour
          | Some dl =>
            if dl =? 0 then
              let t := forget_translation node_id t in
              let* t := detach decr_right decr_left (edges_at (t_graph t) node_id Right) t in
              check_loop fuel' (remove_tip node_id t)
            else if default 0 (right_degree t !! node_id) =? 0 then
              let t := forget_translation node_id t in
              let* t := detach decr_left decr_right (edges_at (t_graph t) node_id Left) t in
              check_loop fuel' (remove_tip node_id t)
            else check_loop fuel' t
          end
      end
    end.

  (** The loop over the records of [left_degree]. *)
Fixpoint check_all (fuel : nat) (ids : list Z) (t : tips_state) : res tips_state :=
    match ids with
    | [] => Ok t
    | k :: ids' =>
      let* t := check_loop fuel (push_front k t) in
      check_all fuel ids' t
    end.

  (** remove edges that point to nodes we removed *)
Definition drop_dangling (g : graph_t) : graph_t :=
    let present (e : edge_t) : bool := bool_decide (is_Some (g !! e.1)) in
    (λ n, mkLocalNode (sequence n) (List.filter present (edges_left n))
                      (List.filter present (edges_right n))) <$> g.
End no_additional_tips.

Definition prune_no_additional_tips (fuel : nat) (st : state) : res state :=
  let g := graph st in
  let ldeg : gmap Z Z := (λ n, Z.of_nat (length (edges_left n))) <$> g in
  let rdeg : gmap Z Z := (λ n, Z.of_nat (length (edges_right n))) <$> g in
  let protected (k : Z) : bool :=
    (k =? id (pos_1 st)) || (k =? id (pos_2 st))
    || (k =? duplicate_node_1 st) || (k =? duplicate_node_2 st) in
  let* t := check_all protected fuel (map_to_list ldeg).*1
              (mkTips g (id_trans st) ldeg rdeg []) in
  Ok (set_id_trans (t_id_trans t) (set_graph (drop_dangling (t_graph t)) st)).

Definition prune (max_len : Z) (no_additional_tips only_paths strict_max_len : bool)
    (fuel : nat) (st : state) : res state :=
  if strict_max_len then prune_strict_max_len max_len fuel st
  else if only_paths then prune_only_paths fuel st
  else if no_additional_tips then prune_no_additional_tips fuel st
  else Ok st.

(** ** Step 6: translation to the output graph *)

(** add all remaining nodes that do not have recorded translations *)
Definition complete_translator (g : graph_t) (trans : gmap Z Z) : gmap Z Z :=
  foldl (λ (m : gmap Z Z) (r : Z * LocalNode),
           match m !! r.1 with Some _ => m | None => <[r.1 := r.1]> m end)
        trans (map_to_list g).

(** The edges that the record of [self] contributes.  Symmetry is broken so
    that an edge is not added from both of its edge lists. *)
Definition emit_left (self : Z) (l : list edge_t) : list Edge :=
  omap (λ edge : edge_t,
          if (self <? edge.1) || ((edge.1 =? self) && edge.2)
          then Some (mkEdge self edge.1 true (negb edge.2)) else None) l.

Definition emit_right (self : Z) (l : list edge_t) : list Edge :=
  omap (λ edge : edge_t,
          if self <=? edge.1
          then Some (mkEdge self edge.1 false edge.2) else None) l.

Definition emit_record (out : Graph) (r : Z * LocalNode) : Graph :=
  let out := add_node (mkNode r.1 (sequence r.2)) out in
  let out := foldl (λ o e, add_edge e o) out (emit_left r.1 (edges_left r.2)) in
  foldl (λ o e, add_edge e o) out (emit_right r.1 (edges_right r.2)).

Definition emit (g : graph_t) (out : Graph) : Graph :=
  foldl emit_record out (map_to_list g).

(** ** The whole function *)

Definition newline : string := String (Ascii.ascii_of_nat 10) EmptyString.

Section extract.
Variable fuel : nat.
Variable source : HandleGraph.
Variable max_len : Z.
Variables pos_1 pos_2 : pos_t.
Variable include_terminal_positions : bool.
Variable detect_terminal_cycles : bool.
Variables no_additional_tips only_paths strict_max_len : bool.

Definition colo : colocation_t := colocation include_terminal_positions pos_1 pos_2.

  (** The locals as they are before step 1. *)
Definition initial_state : state :=
    let graph : graph_t :=
      {[ id pos_1 := LocalNode_of (get_sequence source (get_handle (id pos_1) false)) ]} in
    let graph :=
      if negb (id pos_2 =? id pos_1)
      then <[id pos_2 := LocalNode_of (get_sequence source (get_handle (id pos_2) false))]> graph
      else graph in
    let skip_handles : gset handle_t := {[ get_handle (id pos_1) (is_rev pos_1) ]} in
    (* mark final position for skipping unless that's the only way to find
       terminal cycles *)
    let skip_handles :=
      if negb (bool_decide (colo = SharedNodeReverse) && detect_terminal_cycles)
      then {[ get_handle (id pos_2) (is_rev pos_2) ]} ∪ skip_handles
      else skip_handles in
    mkState graph ∅ ∅ queue_empty skip_handles (Z.max (id pos_1) (id pos_2)) false
            0 0 0 pos_1 pos_2.

  (** the distance to the ends of the starting nodes *)
Definition first_traversal_length : Z :=
    string_size (sequence (node_at (graph initial_state) (id pos_1))) - offset pos_1.
Definition last_traversal_length : Z := offset pos_2.

  (** the max length of the part of a path preceding the final node in each
      direction *)
Definition forward_max_len : Z := max_len - last_traversal_length.
Definition backward_max_len : Z := max_len - first_traversal_length.

  (** STEP 1: FORWARD SEARCH *)
Definition forward_search (st : state) : res state :=
    if bool_decide (colo = SharedNodeReachable) then
      Ok (set_found_target (offset pos_2 - offset pos_1 <=? max_len) st)
    else
      (* if we can reach the end of this node, init the queue with it *)
      let st :=
        if first_traversal_length <=? forward_max_len
        then set_queue (emplace (get_handle (id pos_1) (is_rev pos_1))
                                first_traversal_length (queue st)) st
        else st in
      forward_loop source forward_max_len fuel st.

  (** STEP 2: BACKWARD SEARCH *)
  (** The queue and the skip set as the backward search starts. *)
Definition backward_start (st : state) : state :=
    (* initialize the queue going backward from the last position if it's reachable *)
    let q := queue_empty in
    let q := if last_traversal_length <=? backward_max_len
             then emplace (get_handle (id pos_2) (negb (is_rev pos_2)))
                          last_traversal_length q
             else q in
    (* reset the traversal list to skip and add the two reverse traversals *)
    let skip : gset handle_t :=
      {[ get_handle (id pos_1) (negb (is_rev pos_1)) ]}
      ∪ {[ get_handle (id pos_2) (negb (is_rev pos_2)) ]} in
    set_skip_handles skip (set_queue q st).

Definition backward_search (st : state) : res state :=
    if detect_terminal_cycles
       && (bool_decide (colo = SeparateNodes) || bool_decide (colo = SharedNodeReachable))
    then backward_loop source forward_max_len fuel (backward_start st)
    else Ok st.

  (** STEP 3: DUPLICATING NODES *)
Definition duplication (st : state) : res state :=
    (* any id this large or larger will not have conflicts *)
    let st := set_next_id (max_id st + 1) st in
    if detect_terminal_cycles
    then duplicate_nodes include_terminal_positions colo st
    else Ok st.

  (** Steps 2 to 5, run when the target was found. *)
Definition after_search (st : state) : res state :=
    let* st := backward_search st in
    let* st := duplication st in
    let* st := cut_nodes include_terminal_positions colo st in
    prune max_len no_additional_tips only_paths strict_max_len fuel st.

Definition extract_connecting_graph (g : Graph) : outcome :=
    if negb (Nat.eqb (node_size g) 0) || negb (Nat.eqb (edge_size g) 0) then
      Exited 1 ("error:[extract_connecting_graph] must extract into an empty graph"
                  +:+ newline)
    else
      match forward_search initial_state with
      | Err e => Failed e
      | Ok st =>
        (* there is no path between the nodes under the maximum distance, leave
           g empty and return an empty translator *)
        if negb (found_target st) then Returned (id_trans st) g
        else
          match after_search st with
          | Err e => Failed e
          | Ok st =>
            Returned (complete_translator (graph st) (id_trans st)) (emit (graph st) g)
          end
      end.
End extract.

(** ** A concrete source graph *)

Definition flip (h : handle_t) : handle_t := (h.1, negb h.2).

Definition as_integer (h : handle_t) : Z := 2 * h.1 + Z.b2z h.2.

Definition handle_eqb (a b : handle_t) : bool := (a.1 =? b.1) && Bool.eqb a.2 b.2.

Definition complement (c : Ascii.ascii) : Ascii.ascii :=
  if Ascii.eqb c "A"%char then "T"%char
  else if Ascii.eqb c "T"%char then "A"%char
  else if Ascii.eqb c "C"%char then "G"%char
  else if Ascii.eqb c "G"%char then "C"%char
  else c.

Definition reverse_complement (s : string) : string :=
  String.string_of_list_ascii (rev (List.map complement (String.list_ascii_of_string s))).

(** Modelled from the spec: an implementation of the handle-graph capability
    is not part of the translated file.  The graph is given by its nodes
    (forward sequences) and its edges, each an ordered pair of handles
    [(a, b)] read as "leaving [a] on its right one enters [b]", which is the
    same edge as [(flip b, flip a)].  [edge_handle] picks, of these two
    readings, the one that is smaller under [as_integer]. *)
Definition simple_graph (nodes : list (Z * string)) (edges : list (handle_t * handle_t))
    : HandleGraph :=
  let rights (h : handle_t) : list handle_t :=
    flat_map (λ e : handle_t * handle_t,
                (if handle_eqb e.1 h then [e.2] else [])
                ++ (if handle_eqb (flip e.2) h && negb (handle_eqb (flip e.2) e.1 && handle_eqb (flip e.1) e.2)
                    then [flip e.1] else []))
             edges in
  {| get_sequence h :=
       let s := default ""%string (snd <$> List.find (λ n, fst n =? h.1) nodes) in
       if h.2 then reverse_complement s else s;
     follow_edges h go_left :=
       if go_left then List.map flip (rights (flip h)) else rights h;
     edge_handle left right :=
       if as_integer (flip right) <? as_integer left then (flip right, flip left)
       else if as_integer left =? as_integer (flip right) then
         if as_integer (flip left) <? as_integer right then (flip right, flip left)
         else (left, right)
       else (left, right) |}.

Definition empty_graph : Graph := mkGraph [] [].

(** The scenario of the specification: a linear chain A(ACGT), B(GGGG),
    C(TTTT) with ids 1, 2 and 3. *)
Definition chain : HandleGraph :=
  simple_graph [(1, "ACGT"); (2, "GGGG"); (3, "TTTT")]%string
               [((1, false), (2, false)); ((2, false), (3, false))].

(** A single node without edges. *)
Definition single_node : HandleGraph :=
  simple_graph [(1, "ACGT")]%string [].

(** Node 1 leads to node 2, node 2 leads to node 3, and node 2 has a reversing
    self-loop on its left side. *)
Definition left_loop : HandleGraph :=
  simple_graph [(1, "AAAA"); (2, "CCCC"); (3, "GG")]%string
               [((1, false), (2, false)); ((2, true), (2, false)); ((2, false), (3, false))].

(** Node 1 (ten bases) leads to node 2; a side branch 4, 3 leads into node 2
    as well. *)
Definition side_branch : HandleGraph :=
  simple_graph [(1, "AAAAAAAAAA"); (2, "C"); (3, "GGGGG"); (4, "T")]%string
               [((1, false), (2, false)); ((3, false), (2, false)); ((4, false), (3, false))].

(** ** The edge-mirror invariant *)

(** A side of a node. *)
Abbreviation end_t := (Z * side)%type.

(** An edge between the sides [x] and [y] is reversing iff the sides have the
    same name. *)
Definition same_side (x y : end_t) : bool := bool_decide (x.2 = y.2).

(** How often the list of side [x] records an edge to side [y]. *)
Definition stored_count (g : graph_t) (x y : end_t) : nat :=
  length (List.filter (λ e : edge_t, bool_decide (e = (y.1, same_side x y)))
                      (edges_at g x.1 x.2)).

(** The side of the neighbour on which an entry with flag [r] in the list of
    side [s] has its mirror. *)
Definition mirror_side (s : side) (r : bool) : side :=
  if r then s else flip_side s.

(** Every entry has its mirror entry: for distinct nodes [a] and [b], [(b, r)]
    is in a side list of [a] iff [(a, r)] is in the corresponding side list of
    [b]; and a reversing self-loop is recorded once on its side. *)
Definition edge_mirror (g : graph_t) : Prop :=
  (∀ (a b : Z) (r : bool) (s : side), a ≠ b →
     (b, r) ∈ edges_at g a s ↔ (a, r) ∈ edges_at g b (mirror_side s r))
  ∧ (∀ (a : Z) (s : side), (stored_count g (a, s) (a, s) ≤ 1)%nat).

(** The invariant with multiplicities, self-loops across a node included: the
    two sides of an edge record it equally often. *)
Definition edge_mirror_counts (g : graph_t) : Prop :=
  ∀ x y : end_t, stored_count g x y = stored_count g y x.

(** The sides that a record of the output graph joins. *)
Definition from_end (e : Edge) : end_t := (from e, if from_start e then Left else Right).
Definition to_end_of (e : Edge) : end_t := (to e, if to_end e then Right else Left).

Definition joins (x y : end_t) (e : Edge) : bool :=
  (bool_decide (from_end e = x) && bool_decide (to_end_of e = y))
  || (bool_decide (from_end e = y) && bool_decide (to_end_of e = x)).

(** How many records of the output join the sides [x] and [y]. *)
Definition emitted_count (out : Graph) (x y : end_t) : nat :=
  length (List.filter (joins x y) (edge out)).

(** ** Valid positions *)

(** The offset is inside the node's sequence, which has a length that a
    [std::string] can have. *)
Definition valid_pos (source : HandleGraph) (p : pos_t) : Prop :=
  0 ≤ offset p < string_size (get_sequence source (get_handle (id p) false))
  ∧ string_size (get_sequence source (get_handle (id p) false)) < 2 ^ 64.

(** The start index and the length of a [substr] call are inside the string. *)
Definition in_bounds (s : string) (pos n : Z) : Prop :=
  0 ≤ pos ∧ 0 ≤ n ∧ pos + n ≤ string_size s.

(** ** Outcomes as pre- and postconditions *)

(** [post m Q E]: a result of [m] satisfies [Q], a failure satisfies [E]. *)
Definition post {A : Type} (m : res A) (Q : A → Prop) (E : error → Prop) : Prop :=
  match m with Ok a => Q a | Err e => E e end.

(** [grows P g g']: the nodes of [g] are nodes of [g'], and those with an id in
    [P] have kept their sequence. *)
Definition grows (P : Z → Prop) (g g' : graph_t) : Prop :=
  ∀ (k : Z) (n : LocalNode), g !! k = Some n →
    ∃ n', g' !! k = Some n' ∧ (P k → sequence n' = sequence n).

(** What the two searches keep of the locals. *)
Definition search_frame (st st' : state) : Prop :=
  id_trans st' = id_trans st ∧ pos_1 st' = pos_1 st ∧ pos_2 st' = pos_2 st
  ∧ next_id st' = next_id st
  ∧ duplicate_node_1 st' = duplicate_node_1 st
  ∧ duplicate_node_2 st' = duplicate_node_2 st
  ∧ max_id st ≤ max_id st'
  ∧ grows (λ _, True) (graph st) (graph st').

(** A decision procedure for [edge_mirror]: every entry of every list is
    looked up on the other side. *)
Definition has_mirror (g : graph_t) (a : Z) (s : side) (e : edge_t) : bool :=
  (e.1 =? a) || bool_decide ((a, e.2) ∈ edges_at g e.1 (mirror_side s e.2)).

Definition edge_mirrorb (g : graph_t) : bool :=
  forallb (λ r : Z * LocalNode,
             forallb (has_mirror g r.1 Left) (edges_at g r.1 Left)
             && forallb (has_mirror g r.1 Right) (edges_at g r.1 Right)
             && Nat.leb (stored_count g (r.1, Left) (r.1, Left)) 1
             && Nat.leb (stored_count g (r.1, Right) (r.1, Right)) 1)
          (map_to_list g).

(** What steps 3 and 4 keep of the locals: the graph grows, and the new
    entries of the translator are nodes of the graph. *)
Definition named_in (trans trans' : gmap Z Z) (g' : graph_t) : Prop :=
  ∀ k : Z, is_Some (trans' !! k) → is_Some (trans !! k) ∨ is_Some (g' !! k).

(** The sequences that the trimming helpers are applied to are those of the
    source, at valid positions, and [c] is the colocation of the positions. *)
Definition trim_ready (T : bool) (c : colocation_t) (st : state) : Prop :=
  c = colocation T (pos_1 st) (pos_2 st)
  ∧ id (pos_1 st) < next_id st ∧ id (pos_2 st) < next_id st
  ∧ is_Some (graph st !! id (pos_1 st)) ∧ is_Some (graph st !! id (pos_2 st))
  ∧ 0 ≤ offset (pos_1 st) < string_size (sequence (node_at (graph st) (id (pos_1 st))))
  ∧ 0 ≤ offset (pos_2 st) < string_size (sequence (node_at (graph st) (id (pos_2 st))))
  ∧ string_size (sequence (node_at (graph st) (id (pos_1 st)))) < 2 ^ 64
  ∧ string_size (sequence (node_at (graph st) (id (pos_2 st)))) < 2 ^ 64.

(** A failure is not [std::out_of_range] when the precondition [V] holds. *)
Definition in_range_if (V : Prop) (e : error) : Prop := e = out_of_range → ¬ V.

(** What step 3 keeps of the locals. *)
Definition duplicated (st st' : state) : Prop :=
  grows (λ k, k < next_id st) (graph st) (graph st')
  ∧ named_in (id_trans st) (id_trans st') (graph st')
  ∧ pos_1 st' = pos_1 st ∧ pos_2 st' = pos_2 st
  ∧ next_id st ≤ next_id st'.

(** What step 4 keeps of the locals. *)
Definition cut_done (st st' : state) : Prop :=
  grows (λ _, False) (graph st) (graph st')
  ∧ named_in (id_trans st) (id_trans st') (graph st').

(** Every id that the translator names is a node of the graph. *)
Definition translator_in_graph (st : state) : Prop :=
  ∀ k : Z, is_Some (id_trans st !! k) → is_Some (graph st !! k).

(** A failure other than [std::out_of_range]. *)
Definition not_oor (e : error) : Prop := e ≠ out_of_range.

(** The tip removal keeps the translator inside the graph, and taking the
    edges of a tip off the degree maps touches neither. *)
Definition tips_ok (t : tips_state) : Prop :=
  ∀ k : Z, is_Some (t_id_trans t !! k) → is_Some (t_graph t !! k).

Definition tips_same (t t' : tips_state) : Prop :=
  t_graph t' = t_graph t ∧ t_id_trans t' = t_id_trans t.

(** The node and the edges that a record of the graph contributes to the
    output. *)
Definition record_node (r : Z * LocalNode) : Node := mkNode r.1 (sequence r.2).
Definition record_edges (r : Z * LocalNode) : list Edge :=
  emit_left r.1 (edges_left r.2) ++ emit_right r.1 (edges_right r.2).

(** The ids of the nodes of an output graph. *)
Definition node_ids (out : Graph) : gset Z := list_to_set (node_id <$> node out).

(** What the steps after the forward search establish: the translator names
    nodes of the graph; and when the colocation is [SharedNodeUnreachable] and
    nothing is pruned, the graph has the cut node and the node split off it. *)
Definition extracted (source : HandleGraph) (p1 p2 : pos_t) (T tips paths strict : bool)
    (st' : state) : Prop :=
  translator_in_graph st'
  ∧ (tips = false → paths = false → strict = false →
     colo p1 p2 T = SharedNodeUnreachable →
     valid_pos source p1 → valid_pos source p2 → (2 ≤ size (graph st'))%nat).

(** A record of the output that leaves side [x] and enters side [y]. *)
Definition directed (x y : end_t) (e : Edge) : bool :=
  bool_decide (from_end e = x) && bool_decide (to_end_of e = y).

(** Whether the list of side [x] is the one that emits the edges to side [y]:
    the symmetry-breaking rule of step 6. *)
Definition emits (x y : end_t) : bool :=
  match x.2 with
  | Left => (x.1 <? y.1) || ((y.1 =? x.1) && same_side x y)
  | Right => x.1 <=? y.1
  end.

(** A decision procedure for [edge_mirror_counts]. *)
Definition count_edge (e : edge_t) (l : list edge_t) : nat :=
  length (List.filter (λ e' : edge_t, bool_decide (e' = e)) l).

Definition mirrored_entry (g : graph_t) (a : Z) (s : side) (e : edge_t) : bool :=
  Nat.eqb (count_edge e (edges_at g a s))
          (count_edge (a, e.2) (edges_at g e.1 (mirror_side s e.2))).

Definition edge_mirror_countsb (g : graph_t) : bool :=
  forallb (λ r : Z * LocalNode,
             forallb (mirrored_entry g r.1 Left) (edges_at g r.1 Left)
             && forallb (mirrored_entry g r.1 Right) (edges_at g r.1 Right))
          (map_to_list g).

(** Two nodes joined right-to-left, the second with a reversing self-loop on
    its right side and the first with a non-reversing self-loop. *)
Definition small_graph : graph_t :=
  list_to_map
    [(1, mkLocalNode "A" [(1, false)] [(2, false); (1, false)]);
     (2, mkLocalNode "C" [(1, false)] [(2, true)])].

(** ** Finite sources *)

(** [H] holds every handle that can be reached: following an edge out of a
    handle of [H] leads to a handle of [H]. *)
Definition handles_closed (source : HandleGraph) (hs : gset handle_t) : Prop :=
  ∀ h h' : handle_t, h ∈ hs → h' ∈ follow_edges source h false → h' ∈ hs.

(** The queue holds handles of [hs] that were recorded as queued. *)
Definition queue_within (hs : gset handle_t) (q : FilteredPriorityQueue) : Prop :=
  queued q ⊆ hs ∧ ∀ t : Traversal, t ∈ items q → handle t ∈ hs.

(** The number of turns that a search can still take: the handles that were
    never queued, and the traversals that wait in the queue. *)
Definition queue_measure (hs : gset handle_t) (q : FilteredPriorityQueue) : nat :=
  (size (hs ∖ queued q) + length (items q))%nat.

(** A turn of a search does not queue more than it takes from the handles
    that were never queued. *)
Definition turn_fits (hs : gset handle_t) (st st' : state) : Prop :=
  queue_within hs (queue st')
  ∧ (queue_measure hs (queue st') ≤ queue_measure hs (queue st))%nat.

(** [l] lists handles of the source graph and holds, with each of them, the
    handles that [follow_edges] reaches from it. *)
Definition handles_listed (source : HandleGraph) (l : list handle_t) : Prop :=
  Forall (λ h, Forall (λ h', h' ∈ l) (follow_edges source h false)) l.

(** ** Frames of the later steps *)

(** The entries that steps 3 and 4 add to the translator: ids from [next_id]
    on, each for the node of one of the two positions. *)
Definition translates_ends (st st' : state) : Prop :=
  ∀ k v : Z, id_trans st' !! k = Some v →
    id_trans st !! k = Some v
    ∨ (next_id st ≤ k ∧ (v = id (pos_1 st) ∨ v = id (pos_2 st))).

(** Step 3 adds such entries and keeps the positions. *)
Definition duplicated_ends (st st' : state) : Prop :=
  translates_ends st st' ∧ next_id st ≤ next_id st'
  ∧ pos_1 st' = pos_1 st ∧ pos_2 st' = pos_2 st.

(** Step 5 takes entries out of the translator and adds none. *)
Definition translator_shrinks (trans trans' : gmap Z Z) : Prop :=
  ∀ k v : Z, trans' !! k = Some v → trans !! k = Some v.

(** What the tip removal does to the graph and the translator: nodes are
    erased whole, never a protected one, and the translator loses the
    entries of the erased nodes and no other. *)
Definition tips_erased (protected : Z → bool) (t t' : tips_state) : Prop :=
  (∀ (k : Z) (n : LocalNode), t_graph t' !! k = Some n → t_graph t !! k = Some n)
  ∧ (∀ k : Z, protected k = true → t_graph t' !! k = t_graph t !! k)
  ∧ translator_shrinks (t_id_trans t) (t_id_trans t')
  ∧ (∀ k v : Z, t_id_trans t !! k = Some v → is_Some (t_graph t' !! k) →
       t_id_trans t' !! k = Some v)
  ∧ (∀ k : Z, is_Some (t_graph t !! k) → t_graph t' !! k = None →
       t_id_trans t' !! k = None).

(** ** What the searches maintain *)

(** The orientation in which a traversal leaves a node through side [s]. *)
Definition side_rev (s : side) : bool :=
  match s with Left => true | Right => false end.

(** The invariant of the two search loops: no id of the graph exceeds
    [max_id]; every edge entry names a node of the graph; the traversals that
    wait in the queue are on nodes of the graph; the two ends of an edge
    record it equally often; and a reversing self-loop is recorded at most
    once, its edge being among the observed ones. *)
Definition search_inv (source : HandleGraph) (st : state) : Prop :=
  (∀ k : Z, is_Some (graph st !! k) → k ≤ max_id st)
  ∧ (∀ (a : Z) (s : side) (e : edge_t),
       e ∈ edges_at (graph st) a s → is_Some (graph st !! e.1))
  ∧ (∀ t : Traversal, t ∈ items (queue st) → is_Some (graph st !! get_id (handle t)))
  ∧ edge_mirror_counts (graph st)
  ∧ (∀ (a : Z) (s : side),
       (stored_count (graph st) (a, s) (a, s) ≤ 1)%nat
       ∧ ((0 < stored_count (graph st) (a, s) (a, s))%nat →
          edge_handle source (a, side_rev s) (a, negb (side_rev s)) ∈ observed_edges st)).

(** ** Sample inputs *)

(** Locals as they can be before step 5: the chain 1, 2, 3 between the two
    positions, and a node 4, recorded as a copy of node 2, that hangs off the
    right side of node 2. *)
Definition tip_state : state :=
  mkState
    (list_to_map
       [(1, mkLocalNode "A" [] [(2, false)]);
        (2, mkLocalNode "C" [(1, false)] [(3, false); (4, false)]);
        (3, mkLocalNode "G" [(2, false)] []);
        (4, mkLocalNode "T" [(2, false)] [])])
    {[4 := 2]} ∅ queue_empty ∅ 4 true 5 0 0 (make_pos_t 1 false 0) (make_pos_t 3 false 0).

(** ** Cutting a side *)

(** What a loop of step 4 over the list of side [X] does when it erases the
    backward reference of every entry: the nodes, their sequences and the
    list of [X] are as before, and the other lists have lost as many entries
    towards [X] as [X] has towards them. *)
Definition mirrors_erased (X : end_t) (g g' : graph_t) : Prop :=
  (∀ j : Z, is_Some (g' !! j) ↔ is_Some (g !! j))
  ∧ (∀ j : Z, sequence (node_at g' j) = sequence (node_at g j))
  ∧ edges_at g' X.1 X.2 = edges_at g X.1 X.2
  ∧ (∀ y z : end_t,
       stored_count g' y z
       = if bool_decide (z = X ∧ y ≠ X)
         then (stored_count g y X - stored_count g X y)%nat
         else stored_count g y z).

(** The graph after step 4 has no entry on the two cut sides [X1] and [X2]
    nor towards them, and is otherwise as before. *)
Definition cut_sides (X1 X2 : end_t) (g g' : graph_t) : Prop :=
  (∀ j : Z, is_Some (g' !! j) ↔ is_Some (g !! j))
  ∧ (∀ y z : end_t,
       stored_count g' y z
       = if bool_decide (y = X1 ∨ y = X2 ∨ z = X1 ∨ z = X2) then 0%nat
         else stored_count g y z).

(** Every node carries the forward sequence of the source node of its id. *)
Definition source_sequences (source : HandleGraph) (g : graph_t) : Prop :=
  ∀ (k : Z) (n : LocalNode), g !! k = Some n → sequence n = get_sequence source (k, false).

(** No edge entry names a node that is not in the graph. *)
Definition no_dangling (g : graph_t) : Prop :=
  ∀ (a : Z) (s : side) (e : edge_t), e ∈ edges_at g a s → is_Some (g !! e.1).

(** A decision procedure for [no_dangling]. *)
Definition no_danglingb (g : graph_t) : bool :=
  forallb (λ r : Z * LocalNode,
             forallb (λ e : edge_t, bool_decide (is_Some (g !! e.1)))
                     (edges_left r.2 ++ edges_right r.2))
          (map_to_list g).

(** Locals as they can be before step 4: the graph of [tip_state], with the
    first position on node 2 and the second on node 3. *)
Definition cut_state : state :=
  mkState (graph tip_state) ∅ ∅ queue_empty ∅ 4 true 5 0 0
          (make_pos_t 2 false 0) (make_pos_t 3 false 0).

(** Two nodes joined in a ring: leaving node 1 on its right one enters node 2,
    and leaving node 2 on its right one enters node 1 again. *)
Definition ring : HandleGraph :=
  simple_graph [(1, "ACGT"); (2, "GG")]%string
               [((1, false), (2, false)); ((2, false), (1, false))].

(** ** Reachability in the internal graph *)

(** The traversal that an entry [edge] of the list that [trav] leaves through
    leads to. *)
Definition next_trav (trav : handle_t) (edge : edge_t) : handle_t :=
  (edge.1, xorb edge.2 trav.2).

(** The traversals that can be reached from one of [starts] by following
    entries of the edge lists. *)
Inductive reaches (g : graph_t) (starts : gset handle_t) : handle_t → Prop :=
| reaches_start (h : handle_t) : h ∈ starts → reaches g starts h
| reaches_edge (h : handle_t) (e : edge_t) :
    reaches g starts h → e ∈ edges_at g h.1 (left_if h.2) →
    reaches g starts (next_trav h e).

(** The traversals that the two searches of the pruning to paths start from. *)
Definition forward_starts (st : state) : gset handle_t :=
  if duplicate_node_1 st =? 0 then {[ (id (pos_1 st), is_rev (pos_1 st)) ]}
  else {[ (duplicate_node_1 st, is_rev (pos_1 st)) ]}
       ∪ {[ (id (pos_1 st), is_rev (pos_1 st)) ]}.

Definition reverse_starts (st : state) : gset handle_t :=
  if duplicate_node_2 st =? 0 then {[ (id (pos_2 st), negb (is_rev (pos_2 st))) ]}
  else {[ (duplicate_node_2 st, negb (is_rev (pos_2 st))) ]}
       ∪ {[ (id (pos_2 st), negb (is_rev (pos_2 st))) ]}.

(** Both strands of every node of the graph. *)
Definition strands (g : graph_t) : gset handle_t :=
  list_to_set (flat_map (λ k : Z, [(k, true); (k, false)]) (map_to_list g).*1).

(** The body of the loop over the edges of one turn of a reachability search:
    queue up the node traversal if it hasn't been seen before. *)
Definition push_unseen (trav : handle_t) (s : list handle_t * gset handle_t) (edge : edge_t)
    : list handle_t * gset handle_t :=
  if bool_decide ((edge.1, xorb edge.2 trav.2) ∈ s.2) then s
  else ((edge.1, xorb edge.2 trav.2) :: s.1, {[(edge.1, xorb edge.2 trav.2)]} ∪ s.2).

(** What holds of the stack [S] and the set [R] of a reachability search from
    [starts] at every turn, [hs] being a set of traversals that the graph does
    not lead out of. *)
Definition reach_inv (g : graph_t) (starts hs : gset handle_t)
    (S : list handle_t) (R : gset handle_t) : Prop :=
  (∀ h, h ∈ S → h ∈ R) ∧ R ⊆ hs ∧ starts ⊆ R
  ∧ (∀ h, h ∈ R → reaches g starts h)
  ∧ (∀ h e, h ∈ R → h ∉ S → e ∈ edges_at g h.1 (left_if h.2) → next_trav h e ∈ R).

(** ** The edges of the source graph *)

(** The source graph has an edge from side [x] to side [y]: leaving a handle
    on the side [x], [follow_edges] lists a handle that is entered through the
    side [y]. *)
Definition joined (source : HandleGraph) (x y : end_t) : Prop :=
  ∃ h next : handle_t,
    next ∈ follow_edges source h false
    ∧ x = (get_id h, left_if (get_is_reverse h))
    ∧ y = (get_id next, right_if (get_is_reverse next)).

(** Every entry of the edge lists records an edge of the source graph. *)
Definition source_edges (source : HandleGraph) (g : graph_t) : Prop :=
  ∀ x y : end_t, (0 < stored_count g x y)%nat → joined source x y ∨ joined source y x.

(** Locals as they can be before step 3: the graph [small_graph], whose nodes
    are both on cycles, with both positions on node 1. *)
Definition loop_state : state :=
  mkState small_graph ∅ ∅ queue_empty ∅ 2 true 3 0 0
          (make_pos_t 1 false 0) (make_pos_t 1 false 0).

(** The number of entries of the edge lists of a graph. *)
Definition entries (g : graph_t) : nat :=
  sum_list_with (λ r : Z * LocalNode,
                   (length (edges_left r.2) + length (edges_right r.2))%nat)
                (map_to_list g).

(** What the tip removal keeps at every turn: the nodes of the graph have
    their degrees recorded, and so have the nodes that their entries name. *)
Definition degrees_known (t : tips_state) : Prop :=
  (∀ k : Z, is_Some (t_graph t !! k) → is_Some (left_degree t !! k))
  ∧ (∀ (k : Z) (n : LocalNode) (e : edge_t),
       t_graph t !! k = Some n → e ∈ edges_left n ++ edges_right n →
       is_Some (left_degree t !! e.1)).

(** A decrement that does not fail on a node whose left degree is recorded. *)
Definition steady (f : Z → tips_state → res tips_state) : Prop :=
  ∀ (k : Z) (t : tips_state), is_Some (left_degree t !! k) →
    ∃ t', f k t = Ok t' ∧ t_graph t' = t_graph t ∧ to_check t' = to_check t
          ∧ ∀ j, is_Some (left_degree t' !! j) ↔ is_Some (left_degree t !! j).

(** ** Walks in the source graph *)

(** One step of a walk: the source graph lists [h'] after [h], or, read in
    the other direction, the reverse of [h] after the reverse of [h']. *)
Definition source_step (source : HandleGraph) (h h' : handle_t) : Prop :=
  h' ∈ follow_edges source h false ∨ flip h ∈ follow_edges source (flip h') false.

Definition walk (source : HandleGraph) : handle_t → handle_t → Prop :=
  rtc (source_step source).

(** Every node of the graph is the node of a handle of [hs]. *)
Definition keys_within (hs : gset handle_t) (g : graph_t) : Prop :=
  ∀ k : Z, is_Some (g !! k) → ∃ b : bool, (k, b) ∈ hs.

(** ** Distances in the internal graph *)

(** [d] is the number of bases on a walk from one of [starts] to the
    traversal, the nodes of both included. *)
Inductive forward_dist (g : graph_t) (starts : gset handle_t) : handle_t → Z → Prop :=
| forward_dist_start (h : handle_t) :
    h ∈ starts → forward_dist g starts h (string_size (sequence (node_at g h.1)))
| forward_dist_edge (h : handle_t) (d : Z) (e : edge_t) :
    forward_dist g starts h d → e ∈ edges_at g h.1 (left_if h.2) →
    forward_dist g starts (next_trav h e) (d + string_size (sequence (node_at g e.1))).

(** [d] is the number of bases on a walk from one of [starts] to the
    traversal, the node of the traversal itself not included. *)
Inductive reverse_dist (g : graph_t) (starts : gset handle_t) : handle_t → Z → Prop :=
| reverse_dist_start (h : handle_t) : h ∈ starts → reverse_dist g starts h 0
| reverse_dist_edge (h : handle_t) (d : Z) (e : edge_t) :
    reverse_dist g starts h d → e ∈ edges_at g h.1 (left_if h.2) →
    reverse_dist g starts (next_trav h e) (d + string_size (sequence (node_at g h.1))).

(** The test of the distance filter, when both distances are recorded and
    [extra] can be read. *)
Definition within (max_len : Z) (forward_trav_dist reverse_trav_dist : gmap handle_t Z)
    (a b : handle_t) (extra : Z) : bool :=
  match forward_trav_dist !! a, reverse_trav_dist !! b with
  | Some x, Some y => x + y + extra <=? max_len
  | _, _ => false
  end.

(** There are walks from the first position to [a] and, backwards, from the
    second position to [b] that, with [extra] bases more, stay within
    [max_len]. *)
Definition short_walk (g : graph_t) (fs rs : gset handle_t) (max_len : Z)
    (a b : handle_t) (extra : Z) : Prop :=
  ∃ d1 d2 : Z, forward_dist g fs a d1 ∧ reverse_dist g rs b d2 ∧ d1 + d2 + extra ≤ max_len.

(** Locals as they are before step 4 when both positions are on the forward
    strand of node 2 and the backward search has found its predecessor,
    node 1. *)
Definition shared_state : state :=
  mkState (list_to_map [(1, mkLocalNode "ACGT" [] [(2, false)]);
                        (2, mkLocalNode "GGGG" [(1, false)] [])])
          ∅ ∅ queue_empty ∅ 2 true 3 0 0
          (make_pos_t 2 false 0) (make_pos_t 2 false 2).

(** ** Walks that the forward search follows *)




(** ** The handles that the forward search must reach *)

(** As [walk_to], for walks that enter no handle of [skip]. *)
Inductive walk_clear (source : HandleGraph) (p1 : pos_t) (skip : gset handle_t)
    : handle_t → Z → Prop :=
| walk_clear_start :
    walk_clear source p1 skip (get_handle (id p1) (is_rev p1))
      (string_size (get_sequence source (get_handle (id p1) false)) - offset p1)
| walk_clear_next (h : handle_t) (d : Z) (next : handle_t) :
    walk_clear source p1 skip h d → next ∈ follow_edges source h false → next ∉ skip →
    walk_clear source p1 skip next (d + string_size (get_sequence source (forward next))).


(** * Properties *)

(** ** The shape of results *)

Lemma post_bind {A B : Type} (m : res A) (k : A → res B)
    (Q : A → Prop) (R : B → Prop) (E : error → Prop) :
  post m Q E → (∀ a, Q a → post (k a) R E) → post (bind m k) R E.
Proof. destruct m as [a|e]; simpl; auto. Qed.

Lemma post_weaken {A : Type} (m : res A) (Q Q' : A → Prop) (E E' : error → Prop) :
  post m Q E → (∀ a, Q a → Q' a) → (∀ e, E e → E' e) → post m Q' E'.
Proof. destruct m; simpl; auto. Qed.

(** ** The precondition on the output graph *)

(** C8: a call with an output graph that already holds a node or an edge ends
    the process with status 1 and a diagnostic on standard error; nothing is
    extracted. *)
Theorem nonempty_output_graph_exits
    (fuel : nat) (source : HandleGraph) (max_len : Z) (pos_1 pos_2 : pos_t)
    (include_terminal_positions detect_terminal_cycles : bool)
    (no_additional_tips only_paths strict_max_len : bool) (g : Graph) :
  (node_size g ≠ 0 ∨ edge_size g ≠ 0)%nat →
  extract_connecting_graph fuel source max_len pos_1 pos_2 include_terminal_positions
    detect_terminal_cycles no_additional_tips only_paths strict_max_len g
  = Exited 1 ("error:[extract_connecting_graph] must extract into an empty graph" +:+ newline).
Proof.
  intros Hne. unfold extract_connecting_graph.
  destruct (Nat.eqb_spec (node_size g) 0) as [Hn|Hn];
    destruct (Nat.eqb_spec (edge_size g) 0) as [He|He]; simpl; try reflexivity.
  destruct Hne; contradiction.
Qed.

Lemma nonempty_output_graph_exits_witness :
  extract_connecting_graph 10 chain 20 (make_pos_t 1 false 1) (make_pos_t 3 false 2)
    false false false false false (mkGraph [mkNode 7 "A"] [])
  = Exited 1 ("error:[extract_connecting_graph] must extract into an empty graph" +:+ newline).
Proof.
  apply nonempty_output_graph_exits. left. vm_compute. discriminate.
Defined.

(** ** Growth of the graph *)

Lemma grows_refl P g : grows P g g.
Proof. intros k n H. eauto. Qed.

Lemma grows_trans P g1 g2 g3 : grows P g1 g2 → grows P g2 g3 → grows P g1 g3.
Proof.
  intros H12 H23 k n H. destruct (H12 k n H) as (n2 & H2 & Hs2).
  destruct (H23 k n2 H2) as (n3 & H3 & Hs3).
  exists n3. split; [done|]. intros HP. rewrite Hs3, Hs2; auto.
Qed.

Lemma grows_weaken (P P' : Z → Prop) g g' :
  (∀ k, P' k → P k) → grows P g g' → grows P' g g'.
Proof.
  intros HPP H k n Hk. destruct (H k n Hk) as (n' & ? & ?). eauto.
Qed.

Lemma node_at_Some g k n : g !! k = Some n → node_at g k = n.
Proof. unfold node_at. by intros ->. Qed.

Lemma grows_node_at (P : Z → Prop) g g' k :
  grows P g g' → is_Some (g !! k) → P k →
  sequence (node_at g' k) = sequence (node_at g k) ∧ is_Some (g' !! k).
Proof.
  intros H [n Hn] HP. destruct (H k n Hn) as (n' & Hn' & Hs).
  rewrite (node_at_Some _ _ _ Hn), (node_at_Some _ _ _ Hn'). eauto.
Qed.

Lemma sequence_with_edges s l n : sequence (with_edges s l n) = sequence n.
Proof. by destruct s. Qed.

Lemma grows_set_edges P k s l g : grows P g (set_edges k s l g).
Proof.
  intros j n Hj. unfold set_edges. destruct (decide (k = j)) as [->|Hne].
  - rewrite lookup_insert_eq. eexists. split; [done|].
    intros _. by rewrite sequence_with_edges, (node_at_Some _ _ _ Hj).
  - rewrite lookup_insert_ne by done. eauto.
Qed.

Lemma grows_push_edge P k s e g : grows P g (push_edge k s e g).
Proof. apply grows_set_edges. Qed.

Lemma grows_set_edge_first P k s i j g : grows P g (set_edge_first k s i j g).
Proof. apply grows_set_edges. Qed.

Lemma grows_touch P k g : grows P g (touch k g).
Proof.
  unfold touch. destruct (g !! k) eqn:Hk; [apply grows_refl|].
  intros j n Hj. rewrite lookup_insert_ne by congruence. eauto.
Qed.

Lemma grows_insert_fresh P k n g : g !! k = None → grows P g (<[k := n]> g).
Proof.
  intros Hk j m Hj. rewrite lookup_insert_ne by congruence. eauto.
Qed.

Lemma grows_insert_unprotected (P : Z → Prop) k n g : ¬ P k → grows P g (<[k := n]> g).
Proof.
  intros HP j m Hj. destruct (decide (k = j)) as [->|Hne].
  - rewrite lookup_insert_eq. eexists. split; [done|]. intros; contradiction.
  - rewrite lookup_insert_ne by done. eauto.
Qed.

Lemma grows_set_sequence k str g : grows (λ _, False) g (set_sequence k str g).
Proof. apply grows_insert_unprotected. tauto. Qed.

Lemma lookup_touch_same k g : is_Some (touch k g !! k).
Proof.
  unfold touch. destruct (g !! k) eqn:Hk; [by rewrite Hk|].
  rewrite lookup_insert_eq. eauto.
Qed.

Lemma node_at_touch k j g : node_at (touch k g) j = node_at g j.
Proof.
  unfold touch, node_at. destruct (g !! k) eqn:Hk; [done|].
  destruct (decide (k = j)) as [->|Hne].
  - by rewrite lookup_insert_eq, Hk.
  - by rewrite lookup_insert_ne.
Qed.

(** ** The searches keep the translator and the positions *)

Lemma search_frame_refl st : search_frame st st.
Proof. unfold search_frame. repeat split; try done; try lia; apply grows_refl. Qed.

Lemma search_frame_trans st1 st2 st3 :
  search_frame st1 st2 → search_frame st2 st3 → search_frame st1 st3.
Proof.
  unfold search_frame. intros (?&?&?&?&?&?&?&?) (?&?&?&?&?&?&?&?).
  repeat split; try congruence; try lia; eapply grows_trans; eauto.
Qed.

Lemma search_frame_forward_visit source fml trav st next :
  search_frame st (forward_visit source fml trav st next).
Proof.
  unfold forward_visit, search_frame.
  set (g1 := match graph st !! get_id next with Some _ => _ | None => _ end).
  assert (Hg1 : grows (λ _, True) (graph st) g1).
  { subst g1. destruct (graph st !! get_id next) eqn:Hn; [apply grows_refl|].
    by apply grows_insert_fresh. }
  case_bool_decide; simpl; repeat split; try done; try lia.
  eapply grows_trans; [exact Hg1|].
  eapply grows_trans; [apply grows_push_edge|].
  destruct (negb _); [apply grows_push_edge|apply grows_refl].
Qed.

Lemma search_frame_backward_visit source fml trav st next :
  search_frame st (backward_visit source fml trav st next).
Proof.
  unfold backward_visit, search_frame.
  set (g1 := match graph st !! get_id next with Some _ => _ | None => _ end).
  assert (Hg1 : grows (λ _, True) (graph st) g1).
  { subst g1. destruct (graph st !! get_id next) eqn:Hn; [apply grows_refl|].
    by apply grows_insert_fresh. }
  case_bool_decide; simpl; repeat split; try done; try lia.
  eapply grows_trans; [exact Hg1|].
  eapply grows_trans; [apply grows_push_edge|].
  destruct (negb _); [apply grows_push_edge|apply grows_refl].
Qed.

Lemma search_frame_foldl (f : state → handle_t → state) l st :
  (∀ st h, search_frame st (f st h)) → search_frame st (foldl f st l).
Proof.
  intros Hf. revert st. induction l as [|h l IH]; intros st; simpl.
  - apply search_frame_refl.
  - eapply search_frame_trans; [apply Hf|apply IH].
Qed.

Lemma search_frame_set_queue q st : search_frame st (set_queue q st).
Proof. unfold search_frame; simpl. repeat split; try done; try lia; apply grows_refl. Qed.

Lemma search_frame_set_skip_handles s st : search_frame st (set_skip_handles s st).
Proof. unfold search_frame; simpl. repeat split; try done; try lia; apply grows_refl. Qed.

Lemma search_frame_set_found_target b st : search_frame st (set_found_target b st).
Proof. unfold search_frame; simpl. repeat split; try done; try lia; apply grows_refl. Qed.

Lemma search_frame_forward_step source fml trav st :
  search_frame st (forward_step source fml trav st).
Proof.
  unfold forward_step. eapply search_frame_trans;
    [|apply search_frame_foldl; intros; apply search_frame_forward_visit].
  unfold search_frame; simpl. repeat split; try done; try lia; apply grows_touch.
Qed.

Lemma search_frame_backward_step source fml trav st :
  search_frame st (backward_step source fml trav st).
Proof.
  unfold backward_step. apply search_frame_foldl; intros; apply search_frame_backward_visit.
Qed.

Lemma search_frame_forward_loop source fml fuel st :
  post (forward_loop source fml fuel st) (search_frame st) (λ e, e = out_of_fuel).
Proof.
  revert st. induction fuel as [|fuel IH]; intros st; simpl.
  - destruct (pop (queue st)) as [[trav q]|]; simpl; [done|apply search_frame_refl].
  - destruct (pop (queue st)) as [[trav q]|]; simpl; [|apply search_frame_refl].
    eapply post_weaken; [apply IH| |done]. intros st' Hst'.
    eapply search_frame_trans; [apply search_frame_set_queue|].
    eapply search_frame_trans; [apply search_frame_forward_step|done].
Qed.

Lemma search_frame_backward_loop source fml fuel st :
  post (backward_loop source fml fuel st) (search_frame st) (λ e, e = out_of_fuel).
Proof.
  revert st. induction fuel as [|fuel IH]; intros st; simpl.
  - destruct (pop (queue st)) as [[trav q]|]; simpl; [done|apply search_frame_refl].
  - destruct (pop (queue st)) as [[trav q]|]; simpl; [|apply search_frame_refl].
    eapply post_weaken; [apply IH| |done]. intros st' Hst'.
    eapply search_frame_trans; [apply search_frame_set_queue|].
    eapply search_frame_trans; [apply search_frame_backward_step|done].
Qed.

Lemma search_frame_forward_search fuel source max_len pos_1 pos_2 T detect st :
  post (forward_search fuel source max_len pos_1 pos_2 T detect st)
       (search_frame st) (λ e, e = out_of_fuel).
Proof.
  unfold forward_search. case_bool_decide; simpl.
  - apply search_frame_set_found_target.
  - eapply post_weaken; [apply search_frame_forward_loop| |done].
    intros st' Hst'. eapply search_frame_trans; [|exact Hst'].
    destruct (_ <=? _); [apply search_frame_set_queue|apply search_frame_refl].
Qed.

Lemma search_frame_backward_search fuel source max_len pos_1 pos_2 T detect st :
  post (backward_search fuel source max_len pos_1 pos_2 T detect st)
       (search_frame st) (λ e, e = out_of_fuel).
Proof.
  unfold backward_search. destruct (_ && _); simpl; [|apply search_frame_refl].
  eapply post_weaken; [apply search_frame_backward_loop| |done].
  intros st' Hst'. eapply search_frame_trans; [|exact Hst'].
  unfold backward_start.
  eapply search_frame_trans; [apply search_frame_set_queue|apply search_frame_set_skip_handles].
Qed.

(** ** The early exit *)

(** When the forward search ends without having reached the oriented handle
    of [pos_2], the call returns the empty translator and the output graph
    as it was passed, that is, with no node and no edge. *)
Lemma early_exit
    (fuel : nat) (source : HandleGraph) (max_len : Z) (pos_1 pos_2 : pos_t)
    (include_terminal_positions detect_terminal_cycles : bool)
    (no_additional_tips only_paths strict_max_len : bool) (g : Graph) (st : state) :
  node g = [] → edge g = [] →
  forward_search fuel source max_len pos_1 pos_2 include_terminal_positions
    detect_terminal_cycles
    (initial_state source pos_1 pos_2 include_terminal_positions detect_terminal_cycles)
  = Ok st →
  found_target st = false →
  extract_connecting_graph fuel source max_len pos_1 pos_2 include_terminal_positions
    detect_terminal_cycles no_additional_tips only_paths strict_max_len g
  = Returned ∅ (mkGraph [] []).
Proof.
  intros Hn He Hfs Hft. unfold extract_connecting_graph, node_size, edge_size.
  rewrite Hn, He. simpl. rewrite Hfs, Hft. simpl.
  pose proof (search_frame_forward_search fuel source max_len pos_1 pos_2
                include_terminal_positions detect_terminal_cycles
                (initial_state source pos_1 pos_2 include_terminal_positions
                               detect_terminal_cycles)) as Hframe.
  rewrite Hfs in Hframe. destruct Hframe as (Htr & _).
  rewrite Htr. destruct g as [ns es]. simpl in *. by subst.
Qed.

(** ** Substrings *)

Lemma to_size_t_small z : 0 ≤ z < 2 ^ 64 → to_size_t z = z.
Proof. intros H. unfold to_size_t. by apply Z.mod_small. Qed.

Lemma append_nil_l (s : string) : "" +:+ s = s.
Proof. reflexivity. Qed.

Lemma append_cons (c : ascii) (a b : string) : String c a +:+ b = String c (a +:+ b).
Proof. reflexivity. Qed.

Lemma substring_split (s : string) : ∀ n m : nat,
  (n + m ≤ String.length s)%nat →
  ∃ p q : string,
    s = p +:+ String.substring n m s +:+ q
    ∧ String.length p = n ∧ String.length (String.substring n m s) = m.
Proof.
  induction s as [|c s IH]; intros n m Hle; simpl in Hle.
  - assert (n = 0%nat) as -> by lia. assert (m = 0%nat) as -> by lia.
    by exists ""%string, ""%string.
  - destruct n as [|n].
    + destruct m as [|m].
      * exists ""%string, (String c s). by destruct s.
      * destruct (IH 0%nat m) as (p & q & Heq & Hp & Hm); [lia|].
        destruct p; [|discriminate]. rewrite append_nil_l in Heq.
        exists ""%string, q. simpl. rewrite Hm, append_nil_l, append_cons.
        split; [by f_equal|done].
    + destruct (IH n m) as (p & q & Heq & Hp & Hm); [lia|].
      exists (String c p), q. simpl. rewrite Hp, append_cons.
      split; [by f_equal|done].
Qed.

(** A [substr] call whose arguments are inside the string returns the
    characters from [pos] on, [n] of them. *)
Lemma substr_in_bounds (s : string) (pos n : Z) :
  in_bounds s pos n → string_size s < 2 ^ 64 →
  ∃ p r q : string,
    substr s pos n = Ok r ∧ s = p +:+ r +:+ q
    ∧ string_size p = pos ∧ string_size r = n.
Proof.
  intros (Hpos & Hn & Hle) Hsz. unfold substr.
  rewrite !to_size_t_small by lia.
  destruct (Z.ltb_spec (string_size s) pos) as [Hlt|_]; [lia|].
  rewrite Z.min_l by lia.
  destruct (substring_split s (Z.to_nat pos) (Z.to_nat n)) as (p & q & Heq & Hp & Hr).
  { unfold string_size in Hle. lia. }
  exists p, (String.substring (Z.to_nat pos) (Z.to_nat n) s), q.
  unfold string_size. rewrite Hp, Hr. repeat split; [done|lia|lia].
Qed.

Lemma append_empty_r (s : string) : s +:+ "" = s.
Proof. induction s as [|c s IH]; [done|by rewrite append_cons, IH]. Qed.

Lemma string_size_append (a b : string) : string_size (a +:+ b) = string_size a + string_size b.
Proof.
  unfold string_size. induction a as [|c a IH].
  - rewrite append_nil_l. simpl. lia.
  - rewrite append_cons. simpl String.length. rewrite !Nat2Z.inj_succ. lia.
Qed.

Lemma string_size_0 (s : string) : string_size s = 0 → s = ""%string.
Proof. destruct s; [done|]. unfold string_size. simpl. lia. Qed.

(** ** The trimming helpers *)

(** C6: for an offset inside the sequence, with [t] the value of
    [include_terminal_positions]: right of the offset on the forward strand is
    the part of the sequence from index [offset + 1 - t] to its end, of length
    [len - offset - 1 + t]; on the reverse strand it is the prefix of that
    length; left of the offset on the forward strand is the prefix of length
    [offset + t], and on the reverse strand the suffix of that length. *)
Theorem trimming_helpers (include_terminal_positions : bool) (seq : string) (offset : Z) :
  0 ≤ offset < string_size seq → string_size seq < 2 ^ 64 →
  let len := string_size seq in
  let t := Z.b2z include_terminal_positions in
  (∃ p r : string,
     trimmed_seq_right include_terminal_positions seq offset false = Ok r
     ∧ seq = p +:+ r ∧ string_size p = offset + 1 - t
     ∧ string_size r = len - offset - 1 + t)
  ∧ (∃ r q : string,
     trimmed_seq_right include_terminal_positions seq offset true = Ok r
     ∧ seq = r +:+ q ∧ string_size r = len - offset - 1 + t)
  ∧ (∃ r q : string,
     trimmed_seq_left include_terminal_positions seq offset false = Ok r
     ∧ seq = r +:+ q ∧ string_size r = offset + t)
  ∧ (∃ p r : string,
     trimmed_seq_left include_terminal_positions seq offset true = Ok r
     ∧ seq = p +:+ r ∧ string_size r = offset + t).
Proof.
  intros Hoff Hsz len t.
  assert (Ht : 0 ≤ t ≤ 1) by (subst t; destruct include_terminal_positions; simpl; lia).
  unfold trimmed_seq_right, trimmed_seq_left. fold t. fold len.
  repeat split.
  - destruct (substr_in_bounds seq (offset + 1 - t) (len - offset - 1 + t))
      as (p & r & q & Hr & Heq & Hp & Hlen); [unfold in_bounds; lia|done|].
    exists p, r. split; [done|].
    assert (q = ""%string) as ->.
    { apply string_size_0. apply (f_equal string_size) in Heq.
      rewrite !string_size_append in Heq. fold len in Heq. lia. }
    rewrite append_empty_r in Heq. done.
  - destruct (substr_in_bounds seq 0 (len - offset - 1 + t))
      as (p & r & q & Hr & Heq & Hp & Hlen); [unfold in_bounds; lia|done|].
    exists r, q. apply string_size_0 in Hp. subst p. done.
  - destruct (substr_in_bounds seq 0 (offset + t))
      as (p & r & q & Hr & Heq & Hp & Hlen); [unfold in_bounds; lia|done|].
    exists r, q. apply string_size_0 in Hp. subst p. done.
  - destruct (substr_in_bounds seq (len - offset - t) (offset + t))
      as (p & r & q & Hr & Heq & Hp & Hlen); [unfold in_bounds; lia|done|].
    exists p, r. split; [done|].
    assert (q = ""%string) as ->.
    { apply string_size_0. apply (f_equal string_size) in Heq.
      rewrite !string_size_append in Heq. fold len in Heq. lia. }
    rewrite append_empty_r in Heq. done.
Qed.

Lemma trimming_helpers_witness :
  (∃ p r : string,
     trimmed_seq_right false "ACGT" 1 false = Ok r
     ∧ "ACGT"%string = p +:+ r ∧ string_size p = 1 + 1 - 0
     ∧ string_size r = 4 - 1 - 1 + 0)
  ∧ (∃ r q : string,
     trimmed_seq_right false "ACGT" 1 true = Ok r
     ∧ "ACGT"%string = r +:+ q ∧ string_size r = 4 - 1 - 1 + 0)
  ∧ (∃ r q : string,
     trimmed_seq_left false "ACGT" 1 false = Ok r
     ∧ "ACGT"%string = r +:+ q ∧ string_size r = 1 + 0)
  ∧ (∃ p r : string,
     trimmed_seq_left false "ACGT" 1 true = Ok r
     ∧ "ACGT"%string = p +:+ r ∧ string_size r = 1 + 0).
Proof.
  apply (trimming_helpers false "ACGT" 1); vm_compute; intuition congruence.
Defined.

(** ** The linear chain *)

(** C5: on the chain A(ACGT), B(GGGG), C(TTTT) from (A, forward, 1) to
    (C, forward, 2) with [max_len = 20] and every flag unset, the call returns
    three nodes with the sequences GT, GGGG and TT, two edges, and the
    identity translator on the three ids. *)
Theorem linear_chain_extraction (fuel : nat) :
  (2 ≤ fuel)%nat →
  ∃ (trans : gmap Z Z) (out : Graph),
    extract_connecting_graph fuel chain 20 (make_pos_t 1 false 1) (make_pos_t 3 false 2)
      false false false false false empty_graph
    = Returned trans out
    ∧ node out ≡ₚ [mkNode 1 "GT"; mkNode 2 "GGGG"; mkNode 3 "TT"]
    ∧ edge out ≡ₚ [mkEdge 1 2 false false; mkEdge 2 3 false false]
    ∧ trans = {[ 1 := 1; 2 := 2; 3 := 3 ]}.
Proof.
  intros Hfuel. destruct fuel as [|[|[|fuel]]]; [lia|lia| |].
  all: eexists _, _; (split; [vm_compute; reflexivity|]).
  all: split; [|split].
  all: try (vm_compute; reflexivity).
  all: try apply Permutation_swap.
  all: symmetry; apply (Permutation_rev [mkNode 1 "GT"; mkNode 2 "GGGG"; mkNode 3 "TT"]).
Qed.

Lemma linear_chain_extraction_witness :
  ∃ (trans : gmap Z Z) (out : Graph),
    extract_connecting_graph 2 chain 20 (make_pos_t 1 false 1) (make_pos_t 3 false 2)
      false false false false false empty_graph
    = Returned trans out
    ∧ node out ≡ₚ [mkNode 1 "GT"; mkNode 2 "GGGG"; mkNode 3 "TT"]
    ∧ edge out ≡ₚ [mkEdge 1 2 false false; mkEdge 2 3 false false]
    ∧ trans = {[ 1 := 1; 2 := 2; 3 := 3 ]}.
Proof. apply linear_chain_extraction. lia. Defined.

(** ** Checking the edge-mirror invariant *)

Lemma edges_at_absent g a s : g !! a = None → edges_at g a s = [].
Proof. unfold edges_at, node_at. intros ->. by destruct s. Qed.

Lemma mirror_side_involutive s r : mirror_side (mirror_side s r) r = s.
Proof. by destruct s, r. Qed.

Lemma edge_mirrorb_entry g a s e :
  edge_mirrorb g = true → e ∈ edges_at g a s → has_mirror g a s e = true.
Proof.
  intros Hb He. destruct (g !! a) as [n|] eqn:Ha.
  - unfold edge_mirrorb in Hb. rewrite forallb_forall in Hb.
    specialize (Hb (a, n)). simpl in Hb.
    assert (Hin : In (a, n) (map_to_list g)).
    { apply list_elem_of_In. by apply elem_of_map_to_list. }
    apply Hb in Hin. apply andb_prop in Hin as [Hin _].
    apply andb_prop in Hin as [Hin _]. apply andb_prop in Hin as [Hl Hr].
    rewrite forallb_forall in Hl, Hr.
    destruct s; [apply Hl|apply Hr]; by apply list_elem_of_In.
  - rewrite edges_at_absent in He by done. by apply elem_of_nil in He.
Qed.

Lemma edge_mirrorb_sound g : edge_mirrorb g = true → edge_mirror g.
Proof.
  intros Hb. split.
  - intros a b r s Hne. split; intros Hin.
    + pose proof (edge_mirrorb_entry g a s (b, r) Hb Hin) as Hm.
      unfold has_mirror in Hm. simpl in Hm.
      apply orb_prop in Hm as [Hm|Hm]; [lia|]. by apply bool_decide_eq_true in Hm.
    + pose proof (edge_mirrorb_entry g b _ (a, r) Hb Hin) as Hm.
      unfold has_mirror in Hm. simpl in Hm. rewrite mirror_side_involutive in Hm.
      apply orb_prop in Hm as [Hm|Hm]; [lia|]. by apply bool_decide_eq_true in Hm.
  - intros a s. destruct (g !! a) as [n|] eqn:Ha.
    + unfold edge_mirrorb in Hb. rewrite forallb_forall in Hb.
      specialize (Hb (a, n)). simpl in Hb.
      assert (Hin : In (a, n) (map_to_list g)).
      { apply list_elem_of_In. by apply elem_of_map_to_list. }
      apply Hb in Hin. apply andb_prop in Hin as [Hin Hr].
      apply andb_prop in Hin as [_ Hl].
      destruct s; [by apply Nat.leb_le in Hl|by apply Nat.leb_le in Hr].
    + unfold stored_count. rewrite edges_at_absent by done. simpl. lia.
Qed.

(** ** The budget of the backward search *)

(** C1 (the code departs from it): on the graph [side_branch] with
    [pos_1 = (1, forward, 0)], [pos_2 = (2, forward, 0)], [max_len = 12] and
    [detect_terminal_cycles] set, [backward_max_len] is 2, yet the first turn
    of the backward search enqueues the reverse traversal of node 3 at
    distance 5: the test in the loop compares with [forward_max_len], which is
    12.  The search therefore goes on to discover node 4. *)
Theorem backward_search_uses_forward_budget :
  let pos_1 := make_pos_t 1 false 0 in
  let pos_2 := make_pos_t 2 false 0 in
  ∃ (st1 st2 : state) (trav : Traversal) (q : FilteredPriorityQueue),
    forward_search 10 side_branch 12 pos_1 pos_2 false true
      (initial_state side_branch pos_1 pos_2 false true) = Ok st1
    ∧ found_target st1 = true
    ∧ colo pos_1 pos_2 false = SeparateNodes
    ∧ backward_max_len side_branch 12 pos_1 pos_2 false true = 2
    ∧ forward_max_len 12 pos_2 = 12
    ∧ pop (queue (backward_start side_branch 12 pos_1 pos_2 false true st1)) = Some (trav, q)
    ∧ items (queue (backward_step side_branch (forward_max_len 12 pos_2) trav
                      (set_queue q (backward_start side_branch 12 pos_1 pos_2 false true st1))))
      = [mkTraversal (3, true) 5]
    ∧ backward_search 10 side_branch 12 pos_1 pos_2 false true st1 = Ok st2
    ∧ is_Some (graph st2 !! 4).
Proof.
  intros pos_1 pos_2. eexists _, _, _, _.
  split; [vm_compute; reflexivity|].
  split; [reflexivity|].
  split; [reflexivity|].
  split; [reflexivity|].
  split; [reflexivity|].
  split; [vm_compute; reflexivity|].
  split; [vm_compute; reflexivity|].
  split; [vm_compute; reflexivity|].
  vm_compute. eauto.
Qed.

(** ** The invariant across the duplication of [pos_2]'s node *)

(** C2 (the code departs from it): on the graph [left_loop], where node 2
    carries a reversing self-loop on its left side and is in a cycle, with
    [pos_1 = (1, forward, 0)], [pos_2 = (2, forward, 0)] and
    [detect_terminal_cycles] set, the invariant holds after the two searches
    and is broken by step 3: the left list of node 2 then holds [(4, true)]
    while the left list of the duplicate, node 4, holds [(1, true)] in place
    of [(2, true)]. *)
Theorem duplication_breaks_edge_mirror :
  let pos_1 := make_pos_t 1 false 0 in
  let pos_2 := make_pos_t 2 false 0 in
  ∃ st1 st2 st3 : state,
    forward_search 10 left_loop 100 pos_1 pos_2 false true
      (initial_state left_loop pos_1 pos_2 false true) = Ok st1
    ∧ found_target st1 = true
    ∧ colo pos_1 pos_2 false = SeparateNodes
    ∧ backward_search 10 left_loop 100 pos_1 pos_2 false true st1 = Ok st2
    ∧ edge_mirror (graph st2)
    ∧ (2, true) ∈ edges_at (graph st2) 2 Left
    ∧ in_cycle (graph st2) 2 = true
    ∧ duplication pos_1 pos_2 false true st2 = Ok st3
    ∧ (4, true) ∈ edges_at (graph st3) 2 Left
    ∧ ((2, true) ∉ edges_at (graph st3) 4 Left)
    ∧ (1, true) ∈ edges_at (graph st3) 4 Left
    ∧ ¬ edge_mirror (graph st3).
Proof.
  intros pos_1 pos_2. eexists _, _, _.
  split; [vm_compute; reflexivity|].
  split; [reflexivity|].
  split; [reflexivity|].
  split; [vm_compute; reflexivity|].
  split; [apply edge_mirrorb_sound; vm_compute; reflexivity|].
  split; [vm_compute; apply list_elem_of_In; simpl; tauto|].
  split; [vm_compute; reflexivity|].
  split; [vm_compute; reflexivity|].
  split; [vm_compute; apply list_elem_of_In; simpl; tauto|].
  assert (Hno : (2, true) ∉ ([(1, false); (1, true); (4, true)] : list edge_t)).
  { intros Hin. apply list_elem_of_In in Hin. simpl in Hin.
    intuition congruence. }
  split; [vm_compute; exact Hno|].
  split; [vm_compute; apply list_elem_of_In; simpl; tauto|].
  intros [Hm _]. apply Hno.
  specialize (Hm 2 4 true Left ltac:(lia)). apply proj1 in Hm.
  vm_compute in Hm. apply Hm. apply list_elem_of_In; simpl; tauto.
Qed.

(** ** Loops over edge lists *)

Lemma post_for_edges_from {S : Type} (sel : S → list edge_t) (len : nat)
    (body : nat → edge_t → S → res S) (I : S → Prop) (E : error → Prop) idxs s :
  E undefined_behaviour → I s →
  (∀ i e s, I s → post (body i e s) I E) →
  post (for_edges_from sel len body idxs s) I E.
Proof.
  intros HE Hs Hbody. revert s Hs. induction idxs as [|i idxs IH]; intros s Hs; simpl.
  - done.
  - destruct (sel s !! i) as [e|]; [|done].
    eapply post_bind; [by apply Hbody|]. intros s' Hs'. simpl.
    case_decide; [by apply IH|done].
Qed.

Lemma post_for_each_edge {S : Type} (sel : S → list edge_t)
    (body : nat → edge_t → S → res S) (I : S → Prop) (E : error → Prop) s :
  E undefined_behaviour → I s →
  (∀ i e s, I s → post (body i e s) I E) →
  post (for_each_edge sel body s) I E.
Proof. apply post_for_edges_from. Qed.

Lemma grows_is_Some P g g' k : grows P g g' → is_Some (g !! k) → is_Some (g' !! k).
Proof. intros H [n Hn]. destruct (H k n Hn) as (n' & Hn' & _). eauto. Qed.

Lemma post_retarget_edge P k s e j g (E : error → Prop) :
  E undefined_behaviour → post (retarget_edge k s e j g) (grows P g) E.
Proof.
  intros HE. unfold retarget_edge. destruct (find_edge _ _); simpl; [|done].
  apply grows_set_edge_first.
Qed.

Lemma post_erase_edge P k s e g (E : error → Prop) :
  E undefined_behaviour → post (erase_edge k s e g) (grows P g) E.
Proof.
  intros HE. unfold erase_edge. destruct (find_edge _ _); simpl; [|done].
  apply grows_set_edges.
Qed.

Lemma grows_all_weaken (P : Z → Prop) g g' : grows (λ _, True) g g' → grows P g g'.
Proof. apply grows_weaken. done. Qed.

(** Peeling the primitive updates off the graph on the right of [grows], and
    going back along the facts about the loops. *)
Ltac grows_tac :=
  solve
  [ apply grows_refl
  | assumption
  | lazymatch goal with
    | |- grows _ _ (push_edge _ _ _ _) => eapply grows_trans; [|apply grows_push_edge]
    | |- grows _ _ (set_edge_first _ _ _ _ _) =>
        eapply grows_trans; [|apply grows_set_edge_first]
    | |- grows _ _ (set_edges _ _ _ _) => eapply grows_trans; [|apply grows_set_edges]
    | |- grows _ _ (touch _ _) => eapply grows_trans; [|apply grows_touch]
    | |- grows _ _ (set_sequence _ _ _) => eapply grows_trans; [|apply grows_set_sequence]
    end; grows_tac
  | lazymatch goal with
    | |- grows _ _ (if ?b then _ else _) => destruct b
    end; grows_tac
  | match goal with
    | H : grows ?P' ?a ?g |- grows ?P _ ?g =>
      eapply grows_trans;
      [|apply (grows_weaken P' P); [simpl; intros; try tauto; try lia|exact H]];
      grows_tac
    end ].

Lemma in_range_if_ub V : in_range_if V undefined_behaviour.
Proof. unfold in_range_if. discriminate. Qed.

Lemma in_range_if_fuel V : in_range_if V out_of_fuel.
Proof. unfold in_range_if. discriminate. Qed.

(** The loops of steps 3 and 4 only update edge lists: the graph grows, and a
    failure is undefined behaviour. *)
Ltac loop_grows g0 proj :=
  apply (post_for_each_edge _ _ (λ s, grows (λ _ : Z, True) g0 (proj s)));
  [ try apply in_range_if_ub; try reflexivity
  | simpl; grows_tac
  | let i := fresh "i" in let e := fresh "e" in let s := fresh "s" in
    let Hs := fresh "Hs" in
    intros i e s Hs;
    repeat match goal with s : (_ * _)%type |- _ => destruct s end;
    simpl in Hs |- *;
    repeat (match goal with
            | |- context [if ?b then _ else _] => destruct b
            end; simpl);
    try (eapply post_weaken;
         [first [apply (post_retarget_edge (λ _ : Z, True))
                |apply (post_erase_edge (λ _ : Z, True))];
          try apply in_range_if_ub; try reflexivity
         |intros ? ?; grows_tac|done]);
    simpl; grows_tac ].

Lemma named_in_insert trans k v (g : graph_t) :
  is_Some (g !! k) → named_in trans (<[k := v]> trans) g.
Proof.
  intros Hk j Hj. destruct (decide (k = j)) as [->|Hne]; [by right|].
  rewrite lookup_insert_ne in Hj by done. by left.
Qed.

Lemma named_in_insert_more trans trans' k v (g : graph_t) :
  named_in trans trans' g → is_Some (g !! k) → named_in trans (<[k := v]> trans') g.
Proof.
  intros H Hk j Hj. destruct (decide (k = j)) as [->|Hne]; [by right|].
  rewrite lookup_insert_ne in Hj by done. by apply H.
Qed.

Lemma named_in_refl trans (g : graph_t) : named_in trans trans g.
Proof. intros k Hk. by left. Qed.

(** The nodes that were inserted on the way are nodes at the end. *)
Ltac present_tac :=
  lazymatch goal with
  | |- is_Some (_ !! _) =>
    eapply (grows_is_Some (λ _, False));
    [|first [eassumption | rewrite lookup_insert_eq; eauto | apply lookup_touch_same]];
    grows_tac
  end.

(** ** Step 3 *)

Lemma duplicated_refl st : duplicated st st.
Proof.
  unfold duplicated. repeat split; try done; try lia;
    [apply grows_refl|apply named_in_refl].
Qed.

Lemma duplicated_trans st1 st2 st3 :
  duplicated st1 st2 → duplicated st2 st3 → duplicated st1 st3.
Proof.
  unfold duplicated. intros (Hg1 & Hn1 & ? & ? & ?) (Hg2 & Hn2 & ? & ? & ?).
  repeat split; try congruence; try lia.
  - eapply grows_trans; [exact Hg1|]. eapply grows_weaken; [|exact Hg2].
    simpl. intros. lia.
  - intros k Hk. destruct (Hn2 k Hk) as [Hk2|Hk3]; [|by right].
    destruct (Hn1 k Hk2) as [Hk1|Hk2']; [by left|right].
    eapply grows_is_Some; eauto.
Qed.

Lemma duplicate_separate_1_post st V :
  post (duplicate_separate_1 st) (duplicated st) (in_range_if V).
Proof.
  unfold duplicate_separate_1.
  set (P := λ k : Z, k < next_id st).
  set (g1 := <[next_id st := _]> (touch _ _)).
  assert (H01 : grows P (graph st) g1).
  { subst g1. eapply grows_trans; [apply grows_touch|].
    apply grows_insert_unprotected. unfold P. lia. }
  assert (Hnew : is_Some (g1 !! next_id st)).
  { subst g1. rewrite lookup_insert_eq. eauto. }
  eapply post_bind; [loop_grows g1 (@fst graph_t bool)|].
  intros [g2 fl2] H12. simpl in H12.
  eapply post_bind; [loop_grows g2 (@fst graph_t bool)|].
  intros [g3 fl3] H23. simpl in H23. simpl.
  unfold duplicated. simpl. repeat split; try done; try lia.
  - grows_tac.
  - apply named_in_insert. present_tac.
Qed.

Lemma duplicate_separate_2_post st V :
  post (duplicate_separate_2 st) (duplicated st) (in_range_if V).
Proof.
  unfold duplicate_separate_2.
  set (P := λ k : Z, k < next_id st).
  set (g1 := <[next_id st := _]> (touch _ _)).
  assert (H01 : grows P (graph st) g1).
  { subst g1. eapply grows_trans; [apply grows_touch|].
    apply grows_insert_unprotected. unfold P. lia. }
  assert (Hnew : is_Some (g1 !! next_id st)).
  { subst g1. rewrite lookup_insert_eq. eauto. }
  eapply post_bind; [loop_grows g1 (@fst graph_t bool)|].
  intros [g2 fl2] H12. simpl in H12.
  eapply post_bind; [loop_grows g2 (@fst graph_t bool)|].
  intros [g3 fl3] H23. simpl in H23. simpl.
  unfold duplicated. simpl. repeat split; try done; try lia.
  - grows_tac.
  - apply named_in_insert. present_tac.
Qed.

Lemma duplicate_shared_unreachable_post st V :
  post (duplicate_shared_unreachable st) (duplicated st) (in_range_if V).
Proof.
  unfold duplicate_shared_unreachable.
  set (P := λ k : Z, k < next_id st).
  set (g1 := <[next_id st := _]> (touch _ _)).
  assert (H01 : grows P (graph st) g1).
  { subst g1. eapply grows_trans; [apply grows_touch|].
    apply grows_insert_unprotected. unfold P. lia. }
  assert (Hnew : is_Some (g1 !! next_id st)).
  { subst g1. rewrite lookup_insert_eq. eauto. }
  eapply post_bind; [loop_grows g1 (@fst graph_t bool)|].
  intros [g2 fl2] H12. simpl in H12.
  eapply post_bind; [loop_grows g2 (@fst graph_t bool)|].
  intros [g3 fl3] H23. simpl in H23. simpl.
  unfold duplicated. simpl. repeat split; try done; try lia.
  - grows_tac.
  - apply named_in_insert. present_tac.
Qed.

Lemma duplicate_shared_reverse_post st V :
  post (duplicate_shared_reverse st) (duplicated st) (in_range_if V).
Proof.
  unfold duplicate_shared_reverse.
  set (P := λ k : Z, k < next_id st).
  set (g1 := <[next_id st := _]> (touch _ _)).
  assert (H01 : grows P (graph st) g1).
  { subst g1. eapply grows_trans; [apply grows_touch|].
    apply grows_insert_unprotected. unfold P. lia. }
  assert (Hnew : is_Some (g1 !! next_id st)).
  { subst g1. rewrite lookup_insert_eq. eauto. }
  eapply post_bind; [loop_grows g1 (λ s : graph_t * bool * bool, s.1.1)|].
  intros [[g2 fl2] fl2'] H12. simpl in H12.
  eapply post_bind; [loop_grows g2 (λ g : graph_t, g)|].
  intros g3 H23. simpl in H23. simpl.
  unfold duplicated. simpl. repeat split; try done; try lia.
  - grows_tac.
  - apply named_in_insert. present_tac.
Qed.

(** ** Calls of the trimming helpers at valid positions *)

Lemma b2z_range (b : bool) : 0 ≤ Z.b2z b ≤ 1.
Proof. destruct b; simpl; lia. Qed.

Lemma trimmed_seq_right_ok T seq off rev :
  0 ≤ off < string_size seq → string_size seq < 2 ^ 64 →
  ∃ r, trimmed_seq_right T seq off rev = Ok r.
Proof.
  intros Hoff Hsz. pose proof (b2z_range T). unfold trimmed_seq_right.
  destruct rev.
  - destruct (substr_in_bounds seq 0 (string_size seq - off - 1 + Z.b2z T))
      as (? & r & ? & Hr & _); [unfold in_bounds; lia|done|eauto].
  - destruct (substr_in_bounds seq (off + 1 - Z.b2z T) (string_size seq - off - 1 + Z.b2z T))
      as (? & r & ? & Hr & _); [unfold in_bounds; lia|done|eauto].
Qed.

Lemma trimmed_seq_left_ok T seq off rev :
  0 ≤ off < string_size seq → string_size seq < 2 ^ 64 →
  ∃ r, trimmed_seq_left T seq off rev = Ok r.
Proof.
  intros Hoff Hsz. pose proof (b2z_range T). unfold trimmed_seq_left.
  destruct rev.
  - destruct (substr_in_bounds seq (string_size seq - off - Z.b2z T) (off + Z.b2z T))
      as (? & r & ? & Hr & _); [unfold in_bounds; lia|done|eauto].
  - destruct (substr_in_bounds seq 0 (off + Z.b2z T))
      as (? & r & ? & Hr & _); [unfold in_bounds; lia|done|eauto].
Qed.

Lemma shared_cut_ok T seq p1 p2 :
  0 ≤ offset p1 → offset p1 < offset p2 + Z.b2z T → offset p2 < string_size seq →
  string_size seq < 2 ^ 64 →
  ∃ r, shared_cut T seq p1 p2 = Ok r.
Proof.
  intros H1 H12 H2 Hsz. pose proof (b2z_range T). unfold shared_cut.
  destruct (is_rev p1).
  - destruct (substr_in_bounds seq (string_size seq - offset p2 - Z.b2z T)
                (offset p2 - offset p1 - 1 + 2 * Z.b2z T))
      as (? & r & ? & Hr & _); [unfold in_bounds; lia|done|eauto].
  - destruct (substr_in_bounds seq (offset p1 + 1 - Z.b2z T)
                (offset p2 - offset p1 - 1 + 2 * Z.b2z T))
      as (? & r & ? & Hr & _); [unfold in_bounds; lia|done|eauto].
Qed.

Lemma post_of_ok {A : Type} (m : res A) (V : Prop) :
  (V → ∃ a, m = Ok a) → post m (λ _, True) (in_range_if V).
Proof.
  intros H. destruct m as [a|e]; simpl; [done|].
  intros _ HV. destruct (H HV) as [a Ha]. discriminate.
Qed.

Lemma colocation_separate T p1 p2 :
  colocation T p1 p2 = SeparateNodes → id p1 ≠ id p2.
Proof.
  unfold colocation. destruct (Z.eqb_spec (id p1) (id p2)); [|done].
  repeat case_match; discriminate.
Qed.

Lemma colocation_shared T p1 p2 :
  colocation T p1 p2 ≠ SeparateNodes → id p1 = id p2.
Proof.
  unfold colocation. destruct (Z.eqb_spec (id p1) (id p2)); [done|]. by intros [].
Qed.

Lemma colocation_reachable T p1 p2 :
  colocation T p1 p2 = SharedNodeReachable → offset p1 < offset p2 + Z.b2z T.
Proof.
  unfold colocation. repeat case_match; try discriminate. lia.
Qed.

Lemma grows_sequence (P : Z → Prop) g g' k :
  grows P g g' → is_Some (g !! k) → P k →
  sequence (node_at g' k) = sequence (node_at g k).
Proof. intros H Hk HP. by destruct (grows_node_at P g g' k H Hk HP). Qed.

Lemma node_at_insert k n (g : graph_t) : node_at (<[k := n]> g) k = n.
Proof. unfold node_at. by rewrite lookup_insert_eq. Qed.

Lemma node_at_insert_ne k j n (g : graph_t) : k ≠ j → node_at (<[k := n]> g) j = node_at g j.
Proof. intros. unfold node_at. by rewrite lookup_insert_ne. Qed.

Lemma duplicate_shared_reachable_post T st :
  post (duplicate_shared_reachable T st) (duplicated st)
       (in_range_if (trim_ready T SharedNodeReachable st)).
Proof.
  unfold duplicate_shared_reachable.
  set (V := trim_ready T SharedNodeReachable st).
  set (P := λ k : Z, k < next_id st).
  set (g0 := touch (id (pos_1 st)) (graph st)).
  assert (H00 : grows P (graph st) g0) by (subst g0; apply grows_touch).
  eapply post_bind.
  { apply post_of_ok. intros (Hc & Hlt1 & Hlt2 & Hin1 & Hin2 & Ho1 & Ho2 & Hs1 & Hs2).
    subst g0. rewrite node_at_touch. by apply trimmed_seq_right_ok. }
  intros seq_r _.
  set (g1 := <[next_id st := LocalNode_of seq_r]> g0).
  assert (H01 : grows P g0 g1).
  { subst g1. apply grows_insert_unprotected. unfold P. lia. }
  assert (Hr : is_Some (g1 !! next_id st)) by (subst g1; rewrite lookup_insert_eq; eauto).
  eapply post_bind; [loop_grows
    (set_edges (next_id st) (left_if (is_rev (pos_1 st)))
       (edges_at g1 (id (pos_1 st)) (left_if (is_rev (pos_1 st))))
       (set_edges (id (pos_1 st)) (left_if (is_rev (pos_1 st))) [] g1)) (λ g : graph_t, g)|].
  intros g2 H12. simpl in H12.
  assert (H02 : grows P (graph st) g2) by grows_tac.
  eapply post_bind.
  { apply post_of_ok. intros (Hc & Hlt1 & Hlt2 & Hin1 & Hin2 & Ho1 & Ho2 & Hs1 & Hs2).
    assert (Hid : id (pos_1 st) = id (pos_2 st)).
    { apply (colocation_shared T). by rewrite <- Hc. }
    rewrite (grows_sequence P (graph st) g2) by done.
    rewrite Hid. by apply trimmed_seq_left_ok. }
  intros seq_l _.
  set (g3 := <[next_id st + 1 := LocalNode_of seq_l]> g2).
  assert (H23 : grows P g2 g3).
  { subst g3. apply grows_insert_unprotected. unfold P. lia. }
  assert (Hl : is_Some (g3 !! (next_id st + 1))) by (subst g3; rewrite lookup_insert_eq; eauto).
  eapply post_bind; [loop_grows
    (set_edges (next_id st + 1) (right_if (is_rev (pos_1 st)))
       (edges_at g3 (id (pos_1 st)) (right_if (is_rev (pos_1 st))))
       (set_edges (id (pos_1 st)) (right_if (is_rev (pos_1 st))) [] g3)) (λ g : graph_t, g)|].
  intros g4 H34. simpl in H34.
  set (g5 := <[next_id st + 1 + 1 := LocalNode_of (sequence (node_at g4 (id (pos_1 st))))]> g4).
  assert (H45 : grows P g4 g5).
  { subst g5. apply grows_insert_unprotected. unfold P. lia. }
  assert (Hc : is_Some (g5 !! (next_id st + 1 + 1))) by (subst g5; rewrite lookup_insert_eq; eauto).
  eapply post_bind; [loop_grows g5 (@fst graph_t bool)|].
  intros [g6 fl6] H56. simpl in H56.
  eapply post_bind; [loop_grows g6 (@fst graph_t bool)|].
  intros [g7 fl7] H67. simpl in H67. simpl.
  unfold duplicated. simpl. repeat split; try done; try lia.
  - grows_tac.
  - repeat apply named_in_insert_more; [apply named_in_refl|..]; present_tac.
Qed.

Lemma in_range_if_weaken (V V' : Prop) e : (V → V') → in_range_if V' e → in_range_if V e.
Proof. unfold in_range_if. tauto. Qed.

Lemma trim_ready_touch T c st :
  trim_ready T c st →
  trim_ready T c (set_graph (touch (id (pos_2 st)) (touch (id (pos_1 st)) (graph st))) st).
Proof.
  unfold trim_ready. simpl. rewrite !node_at_touch.
  intros (?&?&?&Hin1&Hin2&?&?&?&?). repeat split; try done; try lia.
  - eapply (grows_is_Some (λ _, True)); [|exact Hin1]. grows_tac.
  - eapply (grows_is_Some (λ _, True)); [|exact Hin2]. grows_tac.
Qed.

Lemma duplicated_touch st :
  duplicated st (set_graph (touch (id (pos_2 st)) (touch (id (pos_1 st)) (graph st))) st).
Proof.
  unfold duplicated. simpl. repeat split; try done; try lia;
    [grows_tac|apply named_in_refl].
Qed.

Lemma duplicate_nodes_post T c st :
  post (duplicate_nodes T c st) (duplicated st) (in_range_if (trim_ready T c st)).
Proof.
  unfold duplicate_nodes.
  set (st' := set_graph _ st).
  assert (Hst' : duplicated st st') by apply duplicated_touch.
  destruct c.
  - eapply post_bind.
    + instantiate (1 := duplicated st). destruct (in_cycle _ _).
      * eapply post_weaken; [apply duplicate_separate_1_post| |done].
        intros st1 H1. eapply duplicated_trans; eauto.
      * done.
    + intros st1 H1. destruct (in_cycle _ _); [|done].
      eapply post_weaken; [apply duplicate_separate_2_post| |done].
      intros st2 H2. eapply duplicated_trans; eauto.
  - destruct (in_cycle _ _); [|done].
    eapply post_weaken; [apply duplicate_shared_reachable_post| |].
    + intros st1 H1. eapply duplicated_trans; eauto.
    + intros e. apply in_range_if_weaken. apply trim_ready_touch.
  - eapply post_weaken; [apply duplicate_shared_unreachable_post| |done].
    intros st1 H1. eapply duplicated_trans; eauto.
  - destruct (in_cycle _ _); [|done].
    eapply post_weaken; [apply duplicate_shared_reverse_post| |done].
    intros st1 H1. eapply duplicated_trans; eauto.
Qed.

(** ** Step 4 *)

Lemma node_at_set_sequence_ne k j str (g : graph_t) :
  k ≠ j → node_at (set_sequence k str g) j = node_at g j.
Proof. intros. unfold set_sequence. by apply node_at_insert_ne. Qed.

Lemma cut_separate_post T st :
  post (cut_separate T st) (cut_done st) (in_range_if (trim_ready T SeparateNodes st)).
Proof.
  unfold cut_separate.
  set (g0 := touch (id (pos_2 st)) (touch (id (pos_1 st)) (graph st))).
  eapply post_bind; [loop_grows g0 (λ g : graph_t, g)|].
  intros g1 H01. simpl in H01.
  eapply post_bind; [loop_grows g1 (λ g : graph_t, g)|].
  intros g2 H12. simpl in H12.
  set (ga := set_edges (id (pos_2 st)) _ [] (set_edges (id (pos_1 st)) _ [] g2)).
  assert (H0a : grows (λ _, True) (graph st) ga) by (subst ga g0; grows_tac).
  eapply post_bind.
  { apply post_of_ok. intros (Hc & Hlt1 & Hlt2 & Hin1 & Hin2 & Ho1 & Ho2 & Hs1 & Hs2).
    rewrite (grows_sequence _ _ _ _ H0a) by done. by apply trimmed_seq_right_ok. }
  intros seq_1 _.
  eapply post_bind.
  { apply post_of_ok. intros (Hc & Hlt1 & Hlt2 & Hin1 & Hin2 & Ho1 & Ho2 & Hs1 & Hs2).
    rewrite node_at_set_sequence_ne by (by apply (colocation_separate T)).
    rewrite (grows_sequence _ _ _ _ H0a) by done. by apply trimmed_seq_left_ok. }
  intros seq_2 _. simpl. unfold cut_done. simpl. split; [|apply named_in_refl].
  eapply grows_trans; [apply grows_all_weaken, H0a|].
  eapply grows_trans; apply grows_set_sequence.
Qed.

Lemma cut_shared_reachable_post T st :
  post (cut_shared_reachable T st) (cut_done st)
       (in_range_if (trim_ready T SharedNodeReachable st)).
Proof.
  unfold cut_shared_reachable.
  set (g0 := touch (id (pos_1 st)) (graph st)).
  eapply post_bind; [loop_grows g0 (λ g : graph_t, g)|].
  intros g1 H01. simpl in H01.
  eapply post_bind; [loop_grows g1 (λ g : graph_t, g)|].
  intros g2 H12. simpl in H12.
  set (ga := set_edges (id (pos_1 st)) Left [] (set_edges (id (pos_1 st)) Right [] g2)).
  assert (H0a : grows (λ _, True) (graph st) ga) by (subst ga g0; grows_tac).
  eapply post_bind.
  { apply post_of_ok. intros (Hc & Hlt1 & Hlt2 & Hin1 & Hin2 & Ho1 & Ho2 & Hs1 & Hs2).
    rewrite (grows_sequence _ _ _ _ H0a) by done.
    assert (Hid : id (pos_1 st) = id (pos_2 st)).
    { apply (colocation_shared T). by rewrite <- Hc. }
    symmetry in Hc. apply colocation_reachable in Hc.
    rewrite <- Hid in Ho2. apply shared_cut_ok; lia. }
  intros seq _. simpl. unfold cut_done. simpl. split; [|apply named_in_refl].
  eapply grows_trans; [apply grows_all_weaken, H0a|apply grows_set_sequence].
Qed.

Lemma cut_shared_unreachable_post T st :
  post (cut_shared_unreachable T st)
       (λ st', cut_done st st'
               ∧ is_Some (graph st' !! id (pos_1 st))
               ∧ is_Some (graph st' !! next_id st))
       (in_range_if (trim_ready T SharedNodeUnreachable st)).
Proof.
  unfold cut_shared_unreachable.
  set (g0 := touch (id (pos_1 st)) (graph st)).
  set (g1 := <[next_id st := LocalNode_of (sequence (node_at g0 (id (pos_1 st))))]> g0).
  set (ga := set_edges (next_id st) Right _ (set_edges (id (pos_1 st)) Right [] g1)).
  assert (Hin0 : is_Some (g0 !! id (pos_1 st))) by apply lookup_touch_same.
  assert (H01 : grows (λ k, k < next_id st) g0 g1).
  { subst g1. apply grows_insert_unprotected. lia. }
  assert (Hnew : is_Some (g1 !! next_id st)) by (subst g1; rewrite lookup_insert_eq; eauto).
  eapply post_bind; [loop_grows ga (λ g : graph_t, g)|].
  intros g2 Ha2. simpl in Ha2.
  assert (H12 : grows (λ _, True) g1 g2) by (subst ga; grows_tac).
  assert (H02 : grows (λ k, k < next_id st) (graph st) g2) by (subst g0; grows_tac).
  assert (Hseq0 : ∀ V : trim_ready T SharedNodeUnreachable st,
            sequence (node_at g2 (id (pos_1 st))) = sequence (node_at (graph st) (id (pos_1 st)))
            ∧ sequence (node_at g2 (next_id st)) = sequence (node_at (graph st) (id (pos_1 st)))
            ∧ id (pos_1 st) = id (pos_2 st) ∧ next_id st ≠ id (pos_1 st)).
  { intros (Hc & Hlt1 & Hlt2 & Hin1 & Hin2 & Ho1 & Ho2 & Hs1 & Hs2).
    split; [by apply (grows_sequence _ _ _ _ H02)|].
    split; [|split; [apply (colocation_shared T); by rewrite <- Hc|lia]].
    rewrite (grows_sequence _ _ _ _ H12) by done.
    subst g1. rewrite node_at_insert. simpl. subst g0. by rewrite node_at_touch. }
  assert (Hpres : ∀ g', grows (λ _, False) g2 g' →
            grows (λ _, False) (graph st) g'
            ∧ is_Some (g' !! id (pos_1 st)) ∧ is_Some (g' !! next_id st)).
  { intros g' Hg'. split; [grows_tac|]. split; present_tac. }
  destruct (is_rev (pos_1 st)).
  - eapply post_bind.
    { apply post_of_ok. intros HV. destruct (Hseq0 HV) as (-> & _).
      destruct HV as (Hc & Hlt1 & Hlt2 & Hin1 & Hin2 & Ho1 & Ho2 & Hs1 & Hs2).
      by apply trimmed_seq_right_ok. }
    intros seq_1 _.
    eapply post_bind.
    { apply post_of_ok. intros HV. destruct (Hseq0 HV) as (_ & Hs & Hid & Hne).
      rewrite node_at_set_sequence_ne by done. rewrite Hs.
      destruct HV as (Hc & Hlt1 & Hlt2 & Hin1 & Hin2 & Ho1 & Ho2 & Hs1 & Hs2).
      rewrite <- Hid in Ho2. by apply trimmed_seq_left_ok. }
    intros seq_2 _. simpl. unfold cut_done. simpl.
    destruct (Hpres (set_sequence (next_id st) seq_2
                       (set_sequence (id (pos_1 st)) seq_1 g2))) as (? & ? & ?).
    { eapply grows_trans; apply grows_set_sequence. }
    repeat split; try done. apply named_in_insert. done.
  - eapply post_bind.
    { apply post_of_ok. intros HV. destruct (Hseq0 HV) as (_ & -> & _).
      destruct HV as (Hc & Hlt1 & Hlt2 & Hin1 & Hin2 & Ho1 & Ho2 & Hs1 & Hs2).
      by apply trimmed_seq_right_ok. }
    intros seq_1 _.
    eapply post_bind.
    { apply post_of_ok. intros HV. destruct (Hseq0 HV) as (Hs & _ & Hid & Hne).
      rewrite node_at_set_sequence_ne by done. rewrite Hs.
      destruct HV as (Hc & Hlt1 & Hlt2 & Hin1 & Hin2 & Ho1 & Ho2 & Hs1 & Hs2).
      rewrite <- Hid in Ho2. by apply trimmed_seq_left_ok. }
    intros seq_2 _. simpl. unfold cut_done. simpl.
    destruct (Hpres (set_sequence (id (pos_1 st)) seq_2
                       (set_sequence (next_id st) seq_1 g2))) as (? & ? & ?).
    { eapply grows_trans; apply grows_set_sequence. }
    repeat split; try done. apply named_in_insert. done.
Qed.

Lemma cut_shared_reverse_post T st :
  post (cut_shared_reverse T st) (cut_done st)
       (in_range_if (trim_ready T SharedNodeReverse st)).
Proof.
  unfold cut_shared_reverse.
  set (g0 := touch (id (pos_1 st)) (graph st)).
  eapply post_bind; [loop_grows g0 (λ g : graph_t, g)|].
  intros g1 H01. simpl in H01.
  set (ga := set_edges (id (pos_1 st)) _ [] g1).
  set (gb := <[next_id st := LocalNode_of (sequence (node_at ga (id (pos_1 st))))]> ga).
  assert (H0a : grows (λ _, True) (graph st) ga) by (subst ga g0; grows_tac).
  assert (Hab : grows (λ k, k < next_id st) ga gb).
  { subst gb. apply grows_insert_unprotected. lia. }
  assert (Hnew : is_Some (gb !! next_id st)) by (subst gb; rewrite lookup_insert_eq; eauto).
  eapply post_bind; [loop_grows gb (λ g : graph_t, g)|].
  intros g2 Hb2. simpl in Hb2.
  assert (H02 : grows (λ k, k < next_id st) (graph st) g2) by grows_tac.
  assert (Hseq0 : ∀ V : trim_ready T SharedNodeReverse st,
            sequence (node_at g2 (id (pos_1 st))) = sequence (node_at (graph st) (id (pos_1 st)))
            ∧ sequence (node_at g2 (next_id st)) = sequence (node_at (graph st) (id (pos_1 st)))
            ∧ id (pos_1 st) = id (pos_2 st) ∧ next_id st ≠ id (pos_1 st)).
  { intros (Hc & Hlt1 & Hlt2 & Hin1 & Hin2 & Ho1 & Ho2 & Hs1 & Hs2).
    split; [by apply (grows_sequence _ _ _ _ H02)|].
    split; [|split; [apply (colocation_shared T); by rewrite <- Hc|lia]].
    rewrite (grows_sequence _ _ _ _ Hb2) by done.
    subst gb. rewrite node_at_insert. simpl.
    by apply (grows_sequence _ _ _ _ H0a). }
  eapply post_bind.
  { apply post_of_ok. intros HV. destruct (Hseq0 HV) as (-> & _).
    destruct HV as (Hc & Hlt1 & Hlt2 & Hin1 & Hin2 & Ho1 & Ho2 & Hs1 & Hs2).
    by apply trimmed_seq_right_ok. }
  intros seq_1 _.
  eapply post_bind.
  { apply post_of_ok. intros HV. destruct (Hseq0 HV) as (_ & Hs & Hid & Hne).
    rewrite node_at_set_sequence_ne by done. rewrite Hs.
    destruct HV as (Hc & Hlt1 & Hlt2 & Hin1 & Hin2 & Ho1 & Ho2 & Hs1 & Hs2).
    rewrite <- Hid in Ho2. by apply trimmed_seq_left_ok. }
  intros seq_2 _. simpl. unfold cut_done. simpl.
  assert (Hfin : grows (λ _, False) g2
            (set_sequence (next_id st) seq_2 (set_sequence (id (pos_1 st)) seq_1 g2))).
  { eapply grows_trans; apply grows_set_sequence. }
  split; [grows_tac|]. apply named_in_insert. present_tac.
Qed.

Lemma cut_nodes_post T c st :
  post (cut_nodes T c st)
       (λ st', cut_done st st'
               ∧ (c = SharedNodeUnreachable →
                  is_Some (graph st' !! id (pos_1 st)) ∧ is_Some (graph st' !! next_id st)))
       (in_range_if (trim_ready T c st)).
Proof.
  destruct c; simpl.
  - eapply post_weaken; [apply cut_separate_post| |done]. by intros st' ?.
  - eapply post_weaken; [apply cut_shared_reachable_post| |done]. by intros st' ?.
  - eapply post_weaken; [apply cut_shared_unreachable_post| |done]. by intros st' (? & ? & ?).
  - eapply post_weaken; [apply cut_shared_reverse_post| |done]. by intros st' ?.
Qed.

(** ** Step 5 *)

Lemma lookup_foldl_delete {A : Type} (l : list Z) (m : gmap Z A) (j : Z) :
  foldl (λ m k, delete k m) m l !! j = if bool_decide (j ∈ l) then None else m !! j.
Proof.
  revert m. induction l as [|k l IH]; intros m.
  - case_bool_decide as H; [by apply elem_of_nil in H|done].
  - cbn [foldl]. rewrite IH. destruct (decide (j = k)) as [->|Hne].
    + rewrite lookup_delete_eq.
      rewrite (bool_decide_eq_true_2 (k ∈ k :: l)) by left. by case_bool_decide.
    + rewrite lookup_delete_ne by done.
      destruct (decide (j ∈ l)) as [Hin|Hin].
      * rewrite !bool_decide_eq_true_2; [done|by right|done].
      * rewrite !bool_decide_eq_false_2; [done| |done].
        intros H. apply elem_of_cons in H as [?|?]; done.
Qed.

Lemma erase_nodes_in_graph to_erase st g :
  translator_in_graph st → grows (λ _, False) (graph st) g →
  translator_in_graph (erase_nodes to_erase (set_graph g st)).
Proof.
  intros Hst Hg k. unfold erase_nodes. simpl. rewrite !lookup_foldl_delete.
  case_bool_decide; [by intros [? ?]|].
  intros Hk. eapply grows_is_Some; eauto.
Qed.

Lemma post_remove_if (erase : edge_t → res bool) (E : error → Prop) l :
  (∀ e, post (erase e) (λ _, True) E) → post (remove_if erase l) (λ _, True) E.
Proof.
  intros He. induction l as [|e l IH]; simpl; [done|].
  eapply post_bind; [apply He|]. intros b _.
  eapply post_bind; [apply IH|]. by intros r _.
Qed.

Lemma post_filter_records erase_node erase_right erase_left (E : error → Prop) records g te :
  (∀ k, post (erase_node k) (λ _, True) E) →
  (∀ k e, post (erase_right k e) (λ _, True) E) →
  (∀ k e, post (erase_left k e) (λ _, True) E) →
  post (filter_records erase_node erase_right erase_left records (g, te))
       (λ s, grows (λ _, True) g s.1) E.
Proof.
  intros Hn Hr Hl. revert g te.
  induction records as [|[k n] records IH]; intros g te; simpl.
  - apply grows_refl.
  - eapply post_bind; [apply Hn|]. intros b _. destruct b.
    + apply IH.
    + eapply post_bind; [apply post_remove_if, Hr|]. intros r _.
      eapply post_bind; [apply post_remove_if, Hl|]. intros l _.
      eapply post_weaken; [apply IH| |done]. intros s Hs. simpl in Hs. grows_tac.
Qed.

Lemma post_short_enough max_len fwd rev a b extra :
  post extra (λ _, True) not_oor →
  post (short_enough max_len fwd rev a b extra) (λ _, True) not_oor.
Proof.
  intros He. unfold short_enough. destruct (fwd !! a), (rev !! b); try done.
  eapply post_bind; [exact He|]. done.
Qed.

Lemma post_size_in_iteration g k : post (size_in_iteration g k) (λ _, True) not_oor.
Proof. unfold size_in_iteration. by destruct (g !! k). Qed.

Lemma grows_forward_prune_step trav s :
  grows (λ _, True) s.1.1 (forward_prune_step trav s).1.1.
Proof.
  destruct s as [[g q] d]. unfold forward_prune_step. simpl.
  set (g0 := touch (handle trav).1 g).
  assert (H : ∀ l g1 q1, grows (λ _, True) g g1 →
            grows (λ _, True) g
              (foldl (λ (s : graph_t * FilteredPriorityQueue) (edge : edge_t),
                        (touch edge.1 s.1,
                         emplace (edge.1, xorb edge.2 (handle trav).2)
                           (dist trav + string_size (sequence (node_at (touch edge.1 s.1) edge.1)))
                           s.2)) (g1, q1) l).1).
  { induction l as [|e l IH]; intros g1 q1 Hg1; simpl; [done|].
    apply IH. grows_tac. }
  specialize (H (edges_at g0 (handle trav).1 (left_if (handle trav).2)) g0 q).
  destruct (foldl _ _ _) as [g' q']. simpl in *. apply H. subst g0. grows_tac.
Qed.

Lemma grows_reverse_prune_step trav s :
  grows (λ _, True) s.1.1 (reverse_prune_step trav s).1.1.
Proof.
  destruct s as [[g q] d]. unfold reverse_prune_step. simpl. grows_tac.
Qed.

Lemma post_prune_loop step fuel s :
  (∀ trav s, grows (λ _, True) s.1.1 (step trav s).1.1) →
  post (prune_loop step fuel s) (λ s', grows (λ _, True) s.1.1 s'.1.1) (λ e, e = out_of_fuel).
Proof.
  intros Hstep. revert s. induction fuel as [|fuel IH]; intros s; simpl.
  - destruct (pop s.1.2) as [[trav q]|]; simpl; [done|apply grows_refl].
  - destruct (pop s.1.2) as [[trav q]|]; simpl; [|apply grows_refl].
    eapply post_weaken; [apply IH| |done]. intros s' Hs'.
    eapply grows_trans; [|exact Hs']. apply (Hstep trav (s.1.1, q, s.2)).
Qed.

Lemma prune_strict_max_len_post max_len fuel st :
  translator_in_graph st →
  post (prune_strict_max_len max_len fuel st) translator_in_graph not_oor.
Proof.
  intros Hst. unfold prune_strict_max_len.
  set (g0 := touch (id (pos_1 st)) (graph st)).
  set (s0 := if duplicate_node_1 st =? 0 then _ else _).
  assert (H0 : grows (λ _, True) (graph st) s0.1).
  { subst s0 g0. destruct (_ =? _); simpl; grows_tac. }
  destruct s0 as [g1 q1]. simpl in H0.
  eapply post_bind.
  { eapply post_weaken; [apply post_prune_loop, grows_forward_prune_step| |].
    - intros s Hs. exact Hs.
    - by intros e ->. }
  intros [[g2 q2] fwd] H12. simpl in H12.
  eapply post_bind.
  { eapply post_weaken; [apply post_prune_loop, grows_reverse_prune_step| |].
    - intros s Hs. exact Hs.
    - by intros e ->. }
  intros [[g3 q3] rev] H23. simpl in H23.
  eapply post_bind.
  { apply (post_filter_records _ _ _ not_oor).
    - intros k. unfold erase_node_strict.
      eapply post_bind; [by apply post_short_enough|]. intros a _.
      eapply post_bind; [by apply post_short_enough|]. done.
    - intros k e. unfold erase_right_strict.
      eapply post_bind; [apply post_short_enough, post_size_in_iteration|]. intros a _.
      eapply post_bind; [apply post_short_enough, post_size_in_iteration|]. done.
    - intros k e. unfold erase_left_strict.
      eapply post_bind; [apply post_short_enough, post_size_in_iteration|]. intros a _.
      eapply post_bind; [apply post_short_enough, post_size_in_iteration|]. done. }
  intros [g4 te] H34. simpl in H34. simpl.
  apply erase_nodes_in_graph; [done|]. grows_tac.
Qed.

Lemma grows_reach_step trav s : grows (λ _, True) s.1.1 (reach_step trav s).1.1.
Proof.
  destruct s as [[g stack] r]. unfold reach_step. simpl.
  destruct (foldl _ _ _) as [stack' r']. simpl. grows_tac.
Qed.

Lemma post_reach_loop fuel s :
  post (reach_loop fuel s) (λ s', grows (λ _, True) s.1.1 s'.1.1) (λ e, e = out_of_fuel).
Proof.
  revert s. induction fuel as [|fuel IH]; intros s; simpl.
  - destruct s.1.2 as [|trav stack]; simpl; [apply grows_refl|done].
  - destruct s.1.2 as [|trav stack]; simpl; [apply grows_refl|].
    eapply post_weaken; [apply IH| |done]. intros s' Hs'.
    eapply grows_trans; [|exact Hs']. apply (grows_reach_step trav (s.1.1, stack, s.2)).
Qed.

Lemma prune_only_paths_post fuel st :
  translator_in_graph st →
  post (prune_only_paths fuel st) translator_in_graph not_oor.
Proof.
  intros Hst. unfold prune_only_paths.
  destruct (if duplicate_node_1 st =? 0 then _ else _) as [stack1 r1].
  eapply post_bind.
  { eapply post_weaken; [apply post_reach_loop| |].
    - intros s Hs. exact Hs.
    - by intros e ->. }
  intros [[g2 q2] fwd] H12. simpl in H12.
  destruct (if duplicate_node_2 st =? 0 then _ else _) as [stack2 r2].
  eapply post_bind.
  { eapply post_weaken; [apply post_reach_loop| |].
    - intros s Hs. exact Hs.
    - by intros e ->. }
  intros [[g3 q3] rev] H23. simpl in H23.
  eapply post_bind.
  { apply (post_filter_records _ _ _ not_oor); done. }
  intros [g4 te] H34. simpl in H34. simpl.
  apply erase_nodes_in_graph; [done|]. grows_tac.
Qed.

Lemma post_decr_left k t : post (decr_left k t) (tips_same t) not_oor.
Proof. unfold decr_left. destruct (left_degree t !! k); by simpl. Qed.

Lemma post_decr_right k t : post (decr_right k t) (tips_same t) not_oor.
Proof. by unfold decr_right. Qed.

Lemma post_detach same other edges t :
  (∀ k t, post (same k t) (tips_same t) not_oor) →
  (∀ k t, post (other k t) (tips_same t) not_oor) →
  post (detach same other edges t) (tips_same t) not_oor.
Proof.
  intros Hs Ho. revert t. induction edges as [|e edges IH]; intros t; simpl; [done|].
  eapply post_bind.
  { instantiate (1 := tips_same t). destruct e.2; [apply Hs|apply Ho]. }
  intros t1 [Hg1 Ht1].
  eapply post_weaken; [apply IH| |done].
  intros t2 [Hg2 Ht2]. simpl in *. split; congruence.
Qed.

Lemma tips_ok_remove node_id t t' :
  tips_ok t → tips_same (forget_translation node_id t) t' →
  tips_ok (remove_tip node_id t').
Proof.
  intros Hok [Hg Ht] k. unfold remove_tip. simpl. rewrite Hg, Ht. simpl.
  destruct (decide (node_id = k)) as [->|Hne].
  - rewrite lookup_delete_eq. by intros [? ?].
  - rewrite !lookup_delete_ne by done. apply Hok.
Qed.

Lemma post_check_loop protected fuel t :
  tips_ok t → post (check_loop protected fuel t) tips_ok not_oor.
Proof.
  revert t. induction fuel as [|fuel IH]; intros t Hok; simpl.
  - destruct (to_check t); by simpl.
  - set (node_id := List.last (to_check t) 0). clearbody node_id.
    set (rl := removelast (to_check t)). clearbody rl.
    set (t1 := mkTips (t_graph t) (t_id_trans t) (left_degree t) (right_degree t) rl).
    assert (Hok1 : tips_ok t1) by done.
    destruct (to_check t) as [|k0 rest]; [done|].
    destruct (_ || _); [by apply IH|].
    change (left_degree t1) with (left_degree t).
    destruct (left_degree t !! node_id) as [dl|]; [|by simpl].
    destruct (dl =? 0).
    + eapply post_bind; [apply post_detach; [apply post_decr_right|apply post_decr_left]|].
      intros t2 H2. apply IH. by eapply tips_ok_remove.
    + destruct (_ =? 0); [|by apply IH].
      eapply post_bind; [apply post_detach; [apply post_decr_left|apply post_decr_right]|].
      intros t2 H2. apply IH. by eapply tips_ok_remove.
Qed.

Lemma post_check_all protected fuel ids t :
  tips_ok t → post (check_all protected fuel ids t) tips_ok not_oor.
Proof.
  revert t. induction ids as [|k ids IH]; intros t Hok; simpl; [done|].
  eapply post_bind; [by apply post_check_loop|]. intros t1 H1. by apply IH.
Qed.

Lemma lookup_drop_dangling g k : is_Some (drop_dangling g !! k) ↔ is_Some (g !! k).
Proof. unfold drop_dangling. rewrite lookup_fmap. apply fmap_is_Some. Qed.

Lemma prune_no_additional_tips_post fuel st :
  translator_in_graph st →
  post (prune_no_additional_tips fuel st) translator_in_graph not_oor.
Proof.
  intros Hst. unfold prune_no_additional_tips.
  eapply post_bind; [apply post_check_all; exact Hst|].
  intros t Ht. simpl. intros k Hk. simpl in *. apply lookup_drop_dangling. by apply Ht.
Qed.

Lemma prune_post max_len tips paths strict fuel st :
  translator_in_graph st →
  post (prune max_len tips paths strict fuel st) translator_in_graph not_oor.
Proof.
  intros Hst. unfold prune. destruct strict; [by apply prune_strict_max_len_post|].
  destruct paths; [by apply prune_only_paths_post|].
  destruct tips; [by apply prune_no_additional_tips_post|done].
Qed.

(** ** Step 6 *)

Lemma node_foldl_add_edge (l : list Edge) (out : Graph) :
  node (foldl (λ o e, add_edge e o) out l) = node out.
Proof. revert out. induction l as [|e l IH]; intros out; simpl; [done|]. by rewrite IH. Qed.

Lemma edge_foldl_add_edge (l : list Edge) (out : Graph) :
  edge (foldl (λ o e, add_edge e o) out l) = edge out ++ l.
Proof.
  revert out. induction l as [|e l IH]; intros out; simpl.
  - by rewrite app_nil_r.
  - rewrite IH. simpl. by rewrite <- app_assoc.
Qed.

Lemma node_emit_records (l : list (Z * LocalNode)) (out : Graph) :
  node (foldl emit_record out l) = node out ++ (record_node <$> l).
Proof.
  revert out. induction l as [|r l IH]; intros out; simpl.
  - by rewrite app_nil_r.
  - rewrite IH. unfold emit_record. rewrite !node_foldl_add_edge. simpl.
    by rewrite <- app_assoc.
Qed.

Lemma edge_emit_records (l : list (Z * LocalNode)) (out : Graph) :
  edge (foldl emit_record out l) = edge out ++ concat (record_edges <$> l).
Proof.
  revert out. induction l as [|r l IH]; intros out; simpl.
  - by rewrite app_nil_r.
  - rewrite IH. unfold emit_record. rewrite !edge_foldl_add_edge. simpl.
    unfold record_edges. by rewrite <- !app_assoc.
Qed.

Lemma node_emit (g : graph_t) (out : Graph) :
  node (emit g out) = node out ++ (record_node <$> map_to_list g).
Proof. apply node_emit_records. Qed.

Lemma edge_emit (g : graph_t) (out : Graph) :
  edge (emit g out) = edge out ++ concat (record_edges <$> map_to_list g).
Proof. apply edge_emit_records. Qed.

Lemma is_Some_complete_records (l : list (Z * LocalNode)) (trans : gmap Z Z) (k : Z) :
  is_Some (foldl (λ (m : gmap Z Z) (r : Z * LocalNode),
                    match m !! r.1 with Some _ => m | None => <[r.1 := r.1]> m end)
                 trans l !! k)
  ↔ is_Some (trans !! k) ∨ k ∈ l.*1.
Proof.
  revert trans. induction l as [|r l IH]; intros trans; simpl.
  - split; [by left|]. intros [?|H]; [done|]. by apply elem_of_nil in H.
  - rewrite IH. rewrite elem_of_cons.
    destruct (trans !! r.1) eqn:Hr.
    + split; [tauto|]. intros [?|[->|?]]; eauto.
    + destruct (decide (r.1 = k)) as [<-|Hne].
      * rewrite lookup_insert_eq. split; eauto.
      * rewrite lookup_insert_ne by done. split; [tauto|]. intros [?|[?|?]]; eauto. done.
Qed.

Lemma elem_of_keys (g : graph_t) (k : Z) : k ∈ (map_to_list g).*1 ↔ is_Some (g !! k).
Proof.
  rewrite list_elem_of_fmap. split.
  - intros ([j n] & -> & Hin). apply elem_of_map_to_list in Hin. simpl. eauto.
  - intros [n Hn]. exists (k, n). split; [done|]. by apply elem_of_map_to_list.
Qed.

Lemma is_Some_complete_translator (g : graph_t) (trans : gmap Z Z) (k : Z) :
  is_Some (complete_translator g trans !! k) ↔ is_Some (trans !! k) ∨ is_Some (g !! k).
Proof. unfold complete_translator. by rewrite is_Some_complete_records, elem_of_keys. Qed.

Lemma node_ids_emit (g : graph_t) (out : Graph) :
  node out = [] → node_ids (emit g out) = dom g.
Proof.
  intros Hout. apply set_eq. intros k. unfold node_ids.
  rewrite elem_of_list_to_set, node_emit, Hout. simpl.
  rewrite <- list_fmap_compose, elem_of_dom, <- elem_of_keys. done.
Qed.

Lemma two_keys_size (g : graph_t) (a b : Z) :
  is_Some (g !! a) → is_Some (g !! b) → a ≠ b → (2 ≤ size g)%nat.
Proof.
  intros [x Hx] [y Hy] Hne.
  rewrite <- (insert_delete_id g a x) by done.
  rewrite map_size_insert_None by apply lookup_delete_eq.
  assert (Hb : delete a g !! b = Some y) by (by rewrite lookup_delete_ne).
  rewrite <- (insert_delete_id (delete a g) b y) by done.
  rewrite map_size_insert_None by apply lookup_delete_eq. lia.
Qed.

(** ** The steps in sequence *)

Lemma initial_state_facts source p1 p2 T detect :
  let init := initial_state source p1 p2 T detect in
  id_trans init = ∅ ∧ pos_1 init = p1 ∧ pos_2 init = p2
  ∧ max_id init = Z.max (id p1) (id p2)
  ∧ is_Some (graph init !! id p1) ∧ is_Some (graph init !! id p2)
  ∧ sequence (node_at (graph init) (id p1)) = get_sequence source (get_handle (id p1) false)
  ∧ sequence (node_at (graph init) (id p2)) = get_sequence source (get_handle (id p2) false).
Proof.
  unfold initial_state. simpl.
  repeat split; try done.
  - destruct (Z.eqb_spec (id p2) (id p1)) as [Heq|Hne]; simpl.
    + rewrite lookup_singleton_eq. eauto.
    + rewrite lookup_insert_ne by done. rewrite lookup_singleton_eq. eauto.
  - destruct (Z.eqb_spec (id p2) (id p1)) as [Heq|Hne]; simpl.
    + rewrite Heq, lookup_singleton_eq. eauto.
    + rewrite lookup_insert_eq. eauto.
  - unfold node_at. destruct (Z.eqb_spec (id p2) (id p1)) as [Heq|Hne]; simpl.
    + by rewrite lookup_singleton_eq.
    + rewrite lookup_insert_ne by done. by rewrite lookup_singleton_eq.
  - unfold node_at. destruct (Z.eqb_spec (id p2) (id p1)) as [Heq|Hne]; simpl.
    + by rewrite Heq, lookup_singleton_eq.
    + by rewrite lookup_insert_eq.
Qed.

Lemma ready_after_search source p1 p2 T detect st :
  search_frame (initial_state source p1 p2 T detect) st →
  valid_pos source p1 → valid_pos source p2 →
  trim_ready T (colo p1 p2 T) (set_next_id (max_id st + 1) st).
Proof.
  intros (Htr & Hp1 & Hp2 & _ & _ & _ & Hmax & Hg) [Ho1 Hs1] [Ho2 Hs2].
  destruct (initial_state_facts source p1 p2 T detect)
    as (_ & Hi1 & Hi2 & Him & Hin1 & Hin2 & Hq1 & Hq2).
  rewrite Hi1 in Hp1. rewrite Hi2 in Hp2. rewrite Him in Hmax.
  unfold trim_ready. simpl. rewrite Hp1, Hp2.
  rewrite !(grows_sequence _ _ _ _ Hg) by done. rewrite Hq1, Hq2.
  repeat split; try done; try lia.
  - eapply grows_is_Some; eauto.
  - eapply grows_is_Some; eauto.
Qed.

Lemma trim_ready_duplicated T c st st' :
  trim_ready T c st → duplicated st st' → trim_ready T c st'.
Proof.
  intros (Hc & Hlt1 & Hlt2 & Hin1 & Hin2 & Ho1 & Ho2 & Hs1 & Hs2) (Hg & _ & Hp1 & Hp2 & Hn).
  unfold trim_ready. rewrite Hp1, Hp2.
  rewrite !(grows_sequence _ _ _ _ Hg) by done.
  repeat split; try done; try lia.
  - eapply grows_is_Some; eauto.
  - eapply grows_is_Some; eauto.
Qed.

Lemma duplication_post p1 p2 T detect st :
  post (duplication p1 p2 T detect st)
       (duplicated (set_next_id (max_id st + 1) st))
       (in_range_if (trim_ready T (colo p1 p2 T) (set_next_id (max_id st + 1) st))).
Proof.
  unfold duplication. destruct detect.
  - apply duplicate_nodes_post.
  - apply duplicated_refl.
Qed.

Lemma translator_in_graph_named st st' :
  translator_in_graph st → grows (λ _, False) (graph st) (graph st') →
  named_in (id_trans st) (id_trans st') (graph st') → translator_in_graph st'.
Proof.
  intros Hst Hg Hn k Hk. destruct (Hn k Hk) as [Hk'|Hk']; [|done].
  eapply grows_is_Some; eauto.
Qed.

Lemma after_search_post fuel source max_len p1 p2 T detect tips paths strict st :
  search_frame (initial_state source p1 p2 T detect) st →
  post (after_search fuel source max_len p1 p2 T detect tips paths strict st)
       (extracted source p1 p2 T tips paths strict)
       (in_range_if (valid_pos source p1 ∧ valid_pos source p2)).
Proof.
  intros Hst. unfold after_search.
  eapply post_bind.
  { eapply post_weaken; [apply search_frame_backward_search| |].
    - intros st2 H2. exact (search_frame_trans _ _ _ Hst H2).
    - intros e ->. apply in_range_if_fuel. }
  intros st2 Hst2.
  set (st2' := set_next_id (max_id st2 + 1) st2).
  assert (Htr2 : id_trans st2' = ∅).
  { destruct Hst2 as (Htr & _).
    destruct (initial_state_facts source p1 p2 T detect) as (Hi & _).
    simpl. congruence. }
  eapply post_bind.
  { eapply post_weaken; [apply duplication_post| |].
    - intros st3 H3. exact H3.
    - intros e. apply in_range_if_weaken. intros [? ?]. by eapply ready_after_search. }
  intros st3 Hst3. fold st2' in Hst3.
  assert (Hin3 : translator_in_graph st3).
  { destruct Hst3 as (_ & Hn & _). intros k Hk. destruct (Hn k Hk) as [Hk'|Hk']; [|done].
    rewrite Htr2, lookup_empty in Hk'. by destruct Hk'. }
  assert (Hready3 : valid_pos source p1 → valid_pos source p2 →
            trim_ready T (colo p1 p2 T) st3).
  { intros ? ?. eapply trim_ready_duplicated; [|exact Hst3]. by eapply ready_after_search. }
  eapply post_bind.
  { eapply post_weaken; [apply cut_nodes_post| |].
    - intros st4 H4. exact H4.
    - intros e. apply in_range_if_weaken. intros [? ?]. by apply Hready3. }
  intros st4 ((Hg4 & Hn4) & Hun4).
  assert (Hin4 : translator_in_graph st4) by (by eapply translator_in_graph_named).
  destruct (decide (tips = false ∧ paths = false ∧ strict = false)) as [(-> & -> & ->)|Hflags].
  - simpl. split; [done|]. intros _ _ _ Hc Hv1 Hv2.
    destruct (Hun4 Hc) as [Ha Hb].
    eapply two_keys_size; [exact Ha|exact Hb|].
    destruct (Hready3 Hv1 Hv2) as (_ & Hlt & _). lia.
  - eapply post_weaken; [apply prune_post; exact Hin4| |].
    + intros st5 Hin5. split; [done|]. intros -> -> ->. by destruct Hflags.
    + intros e He. unfold in_range_if. intros ->. by destruct He.
Qed.

(** ** The translator and the emitted nodes *)

Lemma empty_graph_eta (g : Graph) : node g = [] → edge g = [] → g = mkGraph [] [].
Proof. destruct g as [ns es]. simpl. by intros -> ->. Qed.

Lemma extract_cases fuel source max_len pos_1 pos_2 T detect tips paths strict g trans out :
  extract_connecting_graph fuel source max_len pos_1 pos_2 T detect tips paths strict g
  = Returned trans out →
  node g = [] ∧ edge g = []
  ∧ ∃ st, forward_search fuel source max_len pos_1 pos_2 T detect
            (initial_state source pos_1 pos_2 T detect) = Ok st
          ∧ search_frame (initial_state source pos_1 pos_2 T detect) st
          ∧ ((found_target st = false ∧ trans = ∅ ∧ out = g)
             ∨ (found_target st = true
                ∧ ∃ st', after_search fuel source max_len pos_1 pos_2 T detect
                           tips paths strict st = Ok st'
                         ∧ trans = complete_translator (graph st') (id_trans st')
                         ∧ out = emit (graph st') g)).
Proof.
  unfold extract_connecting_graph, node_size, edge_size. intros H.
  destruct (node g) as [|? ?] eqn:Hn; [|discriminate].
  destruct (edge g) as [|? ?] eqn:He; [|discriminate].
  simpl in H. split; [done|]. split; [done|].
  pose proof (search_frame_forward_search fuel source max_len pos_1 pos_2 T detect
                (initial_state source pos_1 pos_2 T detect)) as Hframe.
  destruct (forward_search _ _ _ _ _ _ _ _) as [st|e]; [|discriminate].
  simpl in Hframe. exists st. split; [done|]. split; [done|].
  destruct (found_target st); simpl in H.
  - right. split; [done|].
    destruct (after_search _ _ _ _ _ _ _ _ _ _ _) as [st'|e]; [|discriminate].
    exists st'. by inversion H.
  - left. inversion H. subst. split; [done|]. split; [|done].
    destruct Hframe as (Htr & _).
    destruct (initial_state_facts source pos_1 pos_2 T detect) as (Hi & _).
    congruence.
Qed.

(** C9: when the call returns, the keys of the translator are exactly the ids
    of the nodes in the output graph. *)
Theorem translator_keys_are_output_nodes
    (fuel : nat) (source : HandleGraph) (max_len : Z) (pos_1 pos_2 : pos_t)
    (include_terminal_positions detect_terminal_cycles : bool)
    (no_additional_tips only_paths strict_max_len : bool)
    (g : Graph) (trans : gmap Z Z) (out : Graph) :
  extract_connecting_graph fuel source max_len pos_1 pos_2 include_terminal_positions
    detect_terminal_cycles no_additional_tips only_paths strict_max_len g
  = Returned trans out →
  dom trans = node_ids out.
Proof.
  intros H. apply extract_cases in H as (Hn & He & st & Hfs & Hframe & Hcases).
  destruct Hcases as [(Hft & -> & ->)|(Hft & st' & Has & -> & ->)].
  - unfold node_ids. rewrite Hn. simpl. apply dom_empty_L.
  - pose proof (after_search_post fuel source max_len pos_1 pos_2
                  include_terminal_positions detect_terminal_cycles no_additional_tips
                  only_paths strict_max_len st Hframe) as Hpost.
    rewrite Has in Hpost. destruct Hpost as [Hin _].
    rewrite node_ids_emit by done. apply set_eq. intros k.
    rewrite !elem_of_dom, is_Some_complete_translator.
    split; [intros [?|?]; [by apply Hin|done]|by right].
Qed.

Lemma translator_keys_are_output_nodes_witness :
  ∃ (trans : gmap Z Z) (out : Graph),
    extract_connecting_graph 10 left_loop 100 (make_pos_t 1 false 0) (make_pos_t 2 false 0)
      false true false false false empty_graph = Returned trans out
    ∧ dom trans = node_ids out.
Proof.
  eexists _, _. split; [vm_compute; reflexivity|].
  apply (translator_keys_are_output_nodes 10 left_loop 100 (make_pos_t 1 false 0)
           (make_pos_t 2 false 0) false true false false false empty_graph).
  vm_compute. reflexivity.
Defined.

(** ** Substring calls *)

(** C10: for valid positions every [substr] call of the helpers and of the
    in-place cut has its start index and its length inside the string, the
    helpers return, and no call of the procedure fails with
    [std::out_of_range]. *)
Theorem substr_calls_in_bounds
    (fuel : nat) (source : HandleGraph) (max_len : Z) (pos_1 pos_2 : pos_t)
    (include_terminal_positions detect_terminal_cycles : bool)
    (no_additional_tips only_paths strict_max_len : bool) (g : Graph) :
  valid_pos source pos_1 → valid_pos source pos_2 →
  let seq_1 := get_sequence source (get_handle (id pos_1) false) in
  let seq_2 := get_sequence source (get_handle (id pos_2) false) in
  let t := Z.b2z include_terminal_positions in
  (* trimmed_seq_right on the node of pos_1 *)
  in_bounds seq_1 0 (string_size seq_1 - offset pos_1 - 1 + t)
  ∧ in_bounds seq_1 (offset pos_1 + 1 - t) (string_size seq_1 - offset pos_1 - 1 + t)
  ∧ (∀ rev, ∃ r, trimmed_seq_right include_terminal_positions seq_1 (offset pos_1) rev = Ok r)
  (* trimmed_seq_left on the node of pos_2 *)
  ∧ in_bounds seq_2 (string_size seq_2 - offset pos_2 - t) (offset pos_2 + t)
  ∧ in_bounds seq_2 0 (offset pos_2 + t)
  ∧ (∀ rev, ∃ r, trimmed_seq_left include_terminal_positions seq_2 (offset pos_2) rev = Ok r)
  (* the cut of the shared node *)
  ∧ (colocation include_terminal_positions pos_1 pos_2 = SharedNodeReachable →
     in_bounds seq_1 (string_size seq_1 - offset pos_2 - t)
                     (offset pos_2 - offset pos_1 - 1 + 2 * t)
     ∧ in_bounds seq_1 (offset pos_1 + 1 - t) (offset pos_2 - offset pos_1 - 1 + 2 * t)
     ∧ ∃ r, shared_cut include_terminal_positions seq_1 pos_1 pos_2 = Ok r)
  (* the procedure as a whole *)
  ∧ extract_connecting_graph fuel source max_len pos_1 pos_2 include_terminal_positions
      detect_terminal_cycles no_additional_tips only_paths strict_max_len g
    ≠ Failed out_of_range.
Proof.
  intros Hv1 Hv2 seq_1 seq_2 t.
  pose proof Hv1 as [Ho1 Hs1]. pose proof Hv2 as [Ho2 Hs2]. fold seq_1 in Ho1, Hs1.
  fold seq_2 in Ho2, Hs2.
  pose proof (b2z_range include_terminal_positions) as Ht. fold t in Ht.
  split; [unfold in_bounds; lia|].
  split; [unfold in_bounds; lia|].
  split; [intros rev; by apply trimmed_seq_right_ok|].
  split; [unfold in_bounds; lia|].
  split; [unfold in_bounds; lia|].
  split; [intros rev; by apply trimmed_seq_left_ok|].
  split.
  { intros Hc. assert (Hid : id pos_1 = id pos_2).
    { apply (colocation_shared include_terminal_positions). by rewrite Hc. }
    apply colocation_reachable in Hc. fold t in Hc.
    assert (Ho2' : offset pos_2 < string_size seq_1).
    { subst seq_1 seq_2. rewrite Hid. apply Ho2. }
    split; [unfold in_bounds; lia|]. split; [unfold in_bounds; lia|].
    apply shared_cut_ok; try lia. }
  unfold extract_connecting_graph.
  destruct (_ || _); [discriminate|].
  pose proof (search_frame_forward_search fuel source max_len pos_1 pos_2
                include_terminal_positions detect_terminal_cycles
                (initial_state source pos_1 pos_2 include_terminal_positions
                               detect_terminal_cycles)) as Hframe.
  destruct (forward_search _ _ _ _ _ _ _ _) as [st|e]; simpl in Hframe.
  - destruct (negb (found_target st)); [discriminate|].
    pose proof (after_search_post fuel source max_len pos_1 pos_2
                  include_terminal_positions detect_terminal_cycles no_additional_tips
                  only_paths strict_max_len st Hframe) as Hpost.
    destruct (after_search _ _ _ _ _ _ _ _ _ _ _) as [st'|e]; [discriminate|].
    simpl in Hpost. intros [= ->]. by apply Hpost.
  - subst e. discriminate.
Qed.

Lemma substr_calls_in_bounds_witness :
  extract_connecting_graph 10 chain 20 (make_pos_t 1 false 1) (make_pos_t 3 false 2)
    false false false false false empty_graph
  ≠ Failed out_of_range.
Proof.
  apply (substr_calls_in_bounds 10 chain 20 (make_pos_t 1 false 1) (make_pos_t 3 false 2)
           false false false false false empty_graph);
    (split; [vm_compute; intuition congruence|vm_compute; reflexivity]).
Defined.

(** ** Both positions at the same place *)

(** C4 as the specification has it fails on a node without edges: nothing is
    returned, not a single empty node. *)
Lemma same_position_single_node_counterexample :
  ¬ (∃ (trans : gmap Z Z) (out : Graph) (n : Node),
       extract_connecting_graph 10 single_node 100 (make_pos_t 1 false 1)
         (make_pos_t 1 false 1) false false false false false empty_graph
       = Returned trans out
       ∧ node out = [n] ∧ node_sequence n = ""%string ∧ edge out = []).
Proof.
  intros (trans & out & n & H & Hn & _). vm_compute in H.
  inversion H; subst. discriminate.
Qed.

(** C4, amended: with both positions at the same valid place and
    [include_terminal_positions] unset, the colocation is
    [SharedNodeUnreachable]; when the forward search does not come back to
    the oriented handle, the call returns the empty translator and an output
    graph without nodes and edges; and when nothing is pruned, a returned
    output graph is either empty or has at least two nodes. *)
Theorem same_position_is_unreachable
    (fuel : nat) (source : HandleGraph) (max_len : Z) (p : pos_t)
    (detect_terminal_cycles : bool)
    (no_additional_tips only_paths strict_max_len : bool) (g : Graph) :
  valid_pos source p → node g = [] → edge g = [] →
  colo p p false = SharedNodeUnreachable
  ∧ (∀ st : state,
       forward_search fuel source max_len p p false detect_terminal_cycles
         (initial_state source p p false detect_terminal_cycles) = Ok st →
       found_target st = false →
       extract_connecting_graph fuel source max_len p p false detect_terminal_cycles
         no_additional_tips only_paths strict_max_len g
       = Returned ∅ (mkGraph [] []))
  ∧ (∀ (trans : gmap Z Z) (out : Graph),
       no_additional_tips = false → only_paths = false → strict_max_len = false →
       extract_connecting_graph fuel source max_len p p false detect_terminal_cycles
         no_additional_tips only_paths strict_max_len g
       = Returned trans out →
       (trans = ∅ ∧ out = mkGraph [] []) ∨ (2 ≤ length (node out))%nat).
Proof.
  intros Hv Hn He.
  assert (Hc : colo p p false = SharedNodeUnreachable).
  { unfold colo, colocation. rewrite Z.eqb_refl, eqb_reflx. simpl.
    destruct (Z.ltb_spec (offset p) (offset p + 0)); [lia|done]. }
  split; [done|]. split.
  - intros st Hfs Hft. unfold extract_connecting_graph, node_size, edge_size.
    rewrite Hn, He. simpl. rewrite Hfs, Hft. simpl.
    pose proof (search_frame_forward_search fuel source max_len p p false
                  detect_terminal_cycles
                  (initial_state source p p false detect_terminal_cycles)) as Hframe.
    rewrite Hfs in Hframe. destruct Hframe as (Htr & _).
    destruct (initial_state_facts source p p false detect_terminal_cycles) as (Hi & _).
    rewrite Htr, Hi. by rewrite (empty_graph_eta g).
  - intros trans out -> -> -> H.
    apply extract_cases in H as (_ & _ & st & Hfs & Hframe & Hcases).
    destruct Hcases as [(Hft & -> & ->)|(Hft & st' & Has & -> & ->)].
    + left. by rewrite (empty_graph_eta g).
    + right.
      pose proof (after_search_post fuel source max_len p p false detect_terminal_cycles
                    false false false st Hframe) as Hpost.
      rewrite Has in Hpost. destruct Hpost as [_ Hsize].
      specialize (Hsize eq_refl eq_refl eq_refl Hc Hv Hv).
      rewrite node_emit, Hn. simpl. rewrite length_fmap, length_map_to_list. done.
Qed.

Lemma same_position_is_unreachable_witness :
  colo (make_pos_t 1 false 1) (make_pos_t 1 false 1) false = SharedNodeUnreachable
  ∧ extract_connecting_graph 10 single_node 100 (make_pos_t 1 false 1)
      (make_pos_t 1 false 1) false false false false false empty_graph
    = Returned ∅ (mkGraph [] []).
Proof.
  destruct (same_position_is_unreachable 10 single_node 100 (make_pos_t 1 false 1)
              false false false false empty_graph) as (Hc & Hnone & _).
  - split; vm_compute; intuition congruence.
  - reflexivity.
  - reflexivity.
  - split; [exact Hc|]. eapply Hnone; [vm_compute; reflexivity|reflexivity].
Defined.

(** ** Emission of the edges *)

Lemma length_filter_concat {A B : Type} (P : B → bool) (f : A → list B) (l : list A) :
  (∀ a, a ∈ l → List.filter P (f a) = []) →
  List.filter P (concat (f <$> l)) = [].
Proof.
  induction l as [|a l IH]; intros H; simpl; [done|].
  rewrite List.filter_app, H by left. simpl. apply IH. intros b Hb. apply H. by right.
Qed.

Lemma filter_none {A : Type} (P : A → bool) (l : list A) :
  (∀ a, a ∈ l → P a = false) → List.filter P l = [].
Proof.
  induction l as [|a l IH]; intros H; simpl; [done|].
  rewrite H by left. apply IH. intros b Hb. apply H. by right.
Qed.

Lemma from_emit_left self l e : e ∈ emit_left self l → from_end e = (self, Left).
Proof.
  unfold emit_left. rewrite list_elem_of_omap. intros ([b r] & _ & H). simpl in H.
  destruct (_ || _); [|discriminate]. by inversion H.
Qed.

Lemma from_emit_right self l e : e ∈ emit_right self l → from_end e = (self, Right).
Proof.
  unfold emit_right. rewrite list_elem_of_omap. intros ([b r] & _ & H). simpl in H.
  destruct (_ <=? _); [|discriminate]. by inversion H.
Qed.

Lemma directed_record_other x y r :
  r.1 ≠ x.1 → List.filter (directed x y) (record_edges r) = [].
Proof.
  intros Hne. apply filter_none. intros e He. unfold record_edges in He.
  unfold directed. apply elem_of_app in He as [He|He].
  - apply from_emit_left in He. rewrite He.
    rewrite bool_decide_eq_false_2; [done|]. intros <-. done.
  - apply from_emit_right in He. rewrite He.
    rewrite bool_decide_eq_false_2; [done|]. intros <-. done.
Qed.

(** Only the record of the node of [x] contributes records that leave [x]. *)
Lemma directed_records x y (l : list (Z * LocalNode)) :
  NoDup l.*1 →
  List.filter (directed x y) (concat (record_edges <$> l))
  = match list_find (λ r, r.1 = x.1) l with
    | Some (_, r) => List.filter (directed x y) (record_edges r)
    | None => []
    end.
Proof.
  induction l as [|r l IH]; intros Hnd; [done|].
  rewrite fmap_cons in Hnd. apply NoDup_cons in Hnd as [Hr Hnd].
  rewrite fmap_cons. cbn [concat list_find]. rewrite List.filter_app.
  case_decide as Hk.
  - rewrite length_filter_concat; [by rewrite app_nil_r|].
    intros r' Hr'. apply directed_record_other. intros Heq. apply Hr.
    rewrite Hk, <- Heq. apply list_elem_of_fmap. eauto.
  - rewrite directed_record_other by done. rewrite app_nil_l, IH by done.
    by destruct (list_find _ l) as [[i r']|].
Qed.

Lemma directed_emit x y (g : graph_t) :
  List.filter (directed x y) (edge (emit g empty_graph))
  = List.filter (directed x y) (record_edges (x.1, node_at g x.1)).
Proof.
  rewrite edge_emit. simpl. rewrite directed_records by apply NoDup_fst_map_to_list.
  destruct (list_find _ _) as [[i [k n]]|] eqn:Hfind.
  - apply list_find_Some in Hfind as (Hi & Hk & _). simpl in Hk. subst k.
    apply list_elem_of_lookup_2, elem_of_map_to_list in Hi.
    by rewrite (node_at_Some _ _ _ Hi).
  - unfold node_at. destruct (g !! x.1) as [n|] eqn:Hx; [|done].
    apply list_find_None in Hfind. rewrite Forall_forall in Hfind.
    exfalso. apply (Hfind (x.1, n)); [|done]. by apply elem_of_map_to_list.
Qed.

Ltac compare_ids :=
  repeat match goal with
  | |- context [?a <? ?b] => destruct (Z.ltb_spec a b)
  | |- context [?a <=? ?b] => destruct (Z.leb_spec a b)
  | |- context [?a =? ?b] => destruct (Z.eqb_spec a b)
  end.

Ltac decide_ends :=
  repeat (case_bool_decide; simplify_eq; simpl in * ).

Lemma directed_left_entry x y self b' r :
  length (List.filter (directed x y)
            (if (self <? b') || ((b' =? self) && r)
             then [mkEdge self b' true (negb r)] else []))
  = if bool_decide (x = (self, Left)) && emits x y
       && bool_decide ((b', r) = (y.1, same_side x y))
    then 1%nat else 0%nat.
Proof.
  destruct x as [a sa], y as [b sb].
  unfold directed, emits, same_side, from_end, to_end_of. simpl.
  destruct sa, sb, r; simpl; compare_ids; simpl; decide_ends;
    compare_ids; simpl; try done; try lia.
Qed.

Lemma directed_right_entry x y self b' r :
  length (List.filter (directed x y)
            (if self <=? b' then [mkEdge self b' false r] else []))
  = if bool_decide (x = (self, Right)) && emits x y
       && bool_decide ((b', r) = (y.1, same_side x y))
    then 1%nat else 0%nat.
Proof.
  destruct x as [a sa], y as [b sb].
  unfold directed, emits, same_side, from_end, to_end_of. simpl.
  destruct sa, sb, r; simpl; compare_ids; simpl; decide_ends;
    compare_ids; simpl; try done; try lia.
Qed.

Lemma emit_left_cons self e l :
  emit_left self (e :: l)
  = (if (self <? e.1) || ((e.1 =? self) && e.2)
     then [mkEdge self e.1 true (negb e.2)] else []) ++ emit_left self l.
Proof. unfold emit_left. simpl. by destruct (_ || _). Qed.

Lemma emit_right_cons self e l :
  emit_right self (e :: l)
  = (if self <=? e.1 then [mkEdge self e.1 false e.2] else []) ++ emit_right self l.
Proof. unfold emit_right. simpl. by destruct (_ <=? _). Qed.

Lemma count_edge_cons e e' l :
  count_edge e (e' :: l) = ((if bool_decide (e' = e) then 1 else 0) + count_edge e l)%nat.
Proof. unfold count_edge. simpl. by case_bool_decide. Qed.

Lemma directed_emit_left x y self l :
  length (List.filter (directed x y) (emit_left self l))
  = if bool_decide (x = (self, Left)) && emits x y
    then count_edge (y.1, same_side x y) l else 0%nat.
Proof.
  induction l as [|[b' r] l IH].
  - simpl. by destruct (_ && _).
  - rewrite emit_left_cons, List.filter_app, length_app, IH, count_edge_cons.
    simpl. rewrite directed_left_entry.
    by destruct (bool_decide (x = _) && emits x y).
Qed.

Lemma directed_emit_right x y self l :
  length (List.filter (directed x y) (emit_right self l))
  = if bool_decide (x = (self, Right)) && emits x y
    then count_edge (y.1, same_side x y) l else 0%nat.
Proof.
  induction l as [|[b' r] l IH].
  - simpl. by destruct (_ && _).
  - rewrite emit_right_cons, List.filter_app, length_app, IH, count_edge_cons.
    simpl. rewrite directed_right_entry.
    by destruct (bool_decide (x = _) && emits x y).
Qed.

(** The records that leave side [x] for side [y]: all the stored ones when
    the list of [x] is the emitting one, none otherwise. *)
Lemma directed_count (g : graph_t) (x y : end_t) :
  length (List.filter (directed x y) (edge (emit g empty_graph)))
  = if emits x y then stored_count g x y else 0%nat.
Proof.
  rewrite directed_emit. unfold record_edges. simpl.
  rewrite List.filter_app, length_app, directed_emit_left, directed_emit_right.
  unfold stored_count, edges_at, count_edge. destruct x as [a sa]. simpl.
  destruct sa; simpl; decide_ends; destruct (emits _ _); simpl; lia.
Qed.

Lemma length_filter_or {A : Type} (P Q : A → bool) (l : list A) :
  (∀ a, P a && Q a = false) →
  length (List.filter (λ a, P a || Q a) l)
  = (length (List.filter P l) + length (List.filter Q l))%nat.
Proof.
  intros Hex. induction l as [|a l IH]; simpl; [done|].
  specialize (Hex a). destruct (P a), (Q a); simpl in *; try discriminate; lia.
Qed.

Lemma joins_directed x y (l : list Edge) :
  length (List.filter (joins x y) l)
  = if bool_decide (x = y) then length (List.filter (directed x y) l)
    else (length (List.filter (directed x y) l)
          + length (List.filter (directed y x) l))%nat.
Proof.
  case_bool_decide as Hxy.
  - subst y. f_equal. apply List.filter_ext. intros e. unfold joins, directed.
    apply orb_diag.
  - rewrite <- length_filter_or; [done|].
    intros e. unfold directed. repeat case_bool_decide; simpl; congruence.
Qed.

Lemma emits_cases x y :
  (x = y ∧ emits x y = true)
  ∨ (x ≠ y ∧ emits x y = true ∧ emits y x = false)
  ∨ (x ≠ y ∧ emits x y = false ∧ emits y x = true).
Proof.
  destruct x as [a sa], y as [b sb]. unfold emits, same_side. simpl.
  destruct (decide ((a, sa) = (b, sb))) as [[= -> ->]|Hne].
  - left. split; [done|]. destruct sb; simpl; decide_ends; compare_ids; simpl; try done; lia.
  - right. destruct sa, sb; simpl; decide_ends; compare_ids; simpl;
      try (left; repeat split; try done; lia);
      try (right; repeat split; try done; lia);
      try congruence; exfalso; apply Hne; f_equal; lia.
Qed.

(** ** The decision procedure for the mirror counts *)

Lemma count_edge_pos e l : (0 < count_edge e l)%nat ↔ e ∈ l.
Proof.
  induction l as [|e' l IH].
  - unfold count_edge. simpl. split; [lia|]. intros H. by apply elem_of_nil in H.
  - rewrite count_edge_cons, elem_of_cons. case_bool_decide; subst.
    + split; [by left|lia].
    + rewrite <- IH. split; [intros; right; lia|]. intros [?|?]; [done|lia].
Qed.

Lemma mirror_side_same x y : mirror_side x.2 (same_side x y) = y.2.
Proof.
  destruct x as [a sa], y as [b sb]. unfold same_side. simpl.
  case_bool_decide; simpl; [done|]. by destruct sa, sb.
Qed.

Lemma same_side_sym x y : same_side x y = same_side y x.
Proof. unfold same_side. by repeat case_bool_decide. Qed.

Lemma edge_mirror_countsb_entry g a s e :
  edge_mirror_countsb g = true → e ∈ edges_at g a s →
  count_edge e (edges_at g a s) = count_edge (a, e.2) (edges_at g e.1 (mirror_side s e.2)).
Proof.
  intros Hb He. destruct (g !! a) as [n|] eqn:Ha.
  - unfold edge_mirror_countsb in Hb. rewrite forallb_forall in Hb.
    specialize (Hb (a, n)). simpl in Hb.
    assert (Hin : In (a, n) (map_to_list g)).
    { apply list_elem_of_In. by apply elem_of_map_to_list. }
    apply Hb in Hin. apply andb_prop in Hin as [Hl Hr].
    rewrite forallb_forall in Hl, Hr.
    assert (Hm : mirrored_entry g a s e = true).
    { destruct s; [apply Hl|apply Hr]; by apply list_elem_of_In. }
    by apply Nat.eqb_eq in Hm.
  - rewrite edges_at_absent in He by done. by apply elem_of_nil in He.
Qed.

Lemma edge_mirror_countsb_sound g : edge_mirror_countsb g = true → edge_mirror_counts g.
Proof.
  intros Hb x y. unfold stored_count. fold (count_edge (y.1, same_side x y) (edges_at g x.1 x.2)).
  fold (count_edge (x.1, same_side y x) (edges_at g y.1 y.2)).
  destruct (decide ((y.1, same_side x y) ∈ edges_at g x.1 x.2)) as [Hin|Hin].
  - rewrite (edge_mirror_countsb_entry g _ _ _ Hb Hin). simpl.
    by rewrite mirror_side_same, same_side_sym.
  - destruct (decide ((x.1, same_side y x) ∈ edges_at g y.1 y.2)) as [Hin'|Hin'].
    + rewrite (edge_mirror_countsb_entry g _ _ _ Hb Hin'). simpl.
      by rewrite mirror_side_same, same_side_sym.
    + rewrite <- count_edge_pos in Hin, Hin'. lia.
Qed.


(** The records between two sides come from the list of one of them. *)
Lemma emitted_count_either (g : graph_t) (x y : end_t) :
  emitted_count (emit g empty_graph) x y
  = if emits x y then stored_count g x y else stored_count g y x.
Proof.
  unfold emitted_count. rewrite joins_directed, !directed_count.
  destruct (emits_cases x y) as [(-> & He)|[(Hne & He & He')|(Hne & He & He')]].
  - rewrite bool_decide_eq_true_2 by done. by rewrite He.
  - rewrite bool_decide_eq_false_2 by done. rewrite He, He'. lia.
  - rewrite bool_decide_eq_false_2 by done. by rewrite He, He'.
Qed.




(** ** Termination of the searches *)

Lemma extract_min_None l : extract_min l = None → l = [].
Proof.
  destruct l as [|x l]; [done|]. simpl.
  by destruct (extract_min l) as [[? ?]|]; [destruct (_ <=? _)|].
Qed.

Lemma extract_min_Some l t r :
  extract_min l = Some (t, r) →
  t ∈ l ∧ (∀ t', t' ∈ r → t' ∈ l) ∧ length l = S (length r).
Proof.
  revert t r. induction l as [|x l IH]; intros t r hs; simpl in hs; [done|].
  destruct (extract_min l) as [[y r']|] eqn:Hl.
  - destruct (IH y r' eq_refl) as (Hy & Hr' & Hlen).
    destruct (dist x <=? dist y); inversion hs; subst; clear hs.
    + split; [left|]. split; [by right|done].
    + split; [by right|]. split; [|simpl; lia].
      intros t' Ht'. apply elem_of_cons in Ht' as [->|Ht']; [left|right; auto].
  - apply extract_min_None in Hl. subst l. inversion hs; subst.
    split; [left|]. split; [|done]. intros t' Ht'. by apply elem_of_nil in Ht'.
Qed.

Lemma pop_measure (hs : gset handle_t) q t q' :
  queue_within hs q → pop q = Some (t, q') →
  handle t ∈ hs ∧ queue_within hs q' ∧ queue_measure hs q = S (queue_measure hs q').
Proof.
  intros [Hq Hi] Hpop. unfold pop in Hpop.
  destruct (extract_min (items q)) as [[t0 r]|] eqn:Hmin; [|discriminate].
  inversion Hpop; subst; clear Hpop.
  destruct (extract_min_Some _ _ _ Hmin) as (Ht & Hr & Hlen).
  split; [by apply Hi|]. split.
  - split; [done|]. intros t' Ht'. simpl in Ht'. apply Hi. by apply Hr.
  - unfold queue_measure. simpl. lia.
Qed.

Lemma emplace_measure (hs : gset handle_t) h d q :
  h ∈ hs → queue_within hs q →
  queue_within hs (emplace h d q) ∧ (queue_measure hs (emplace h d q) ≤ queue_measure hs q)%nat.
Proof.
  intros Hh [Hq Hi]. unfold emplace. case_bool_decide as Hin; [done|].
  split.
  - split; simpl.
    + intros k Hk. apply elem_of_union in Hk as [Hk|Hk]; [|by apply Hq].
      apply elem_of_singleton in Hk. by subst.
    + intros t Ht. apply elem_of_app in Ht as [Ht|Ht]; [auto|].
      apply list_elem_of_singleton in Ht. by subst.
  - unfold queue_measure. simpl. rewrite length_app. simpl.
    assert (Heq : hs ∖ queued q = {[h]} ∪ hs ∖ ({[h]} ∪ queued q)).
    { apply set_eq. intros k. rewrite elem_of_union, !elem_of_difference, elem_of_union,
        elem_of_singleton. destruct (decide (k = h)) as [->|]; tauto. }
    assert (Hsz : size ({[h]} ∪ hs ∖ ({[h]} ∪ queued q))
                  = (size ({[h]} : gset handle_t) + size (hs ∖ ({[h]} ∪ queued q)))%nat).
    { apply size_union. intros k Hk1 Hk2.
      apply elem_of_difference in Hk2 as [_ Hk2]. apply Hk2.
      apply elem_of_union. by left. }
    rewrite Heq, Hsz, size_singleton. lia.
Qed.

Lemma forward_visit_measure (source : HandleGraph) (fml : Z) (hs : gset handle_t) trav st next :
  next ∈ hs → queue_within hs (queue st) →
  turn_fits hs st (forward_visit source fml trav st next).
Proof.
  intros Hn Hq. unfold forward_visit, turn_fits.
  destruct (emplace_measure hs next
              (dist trav + string_size (sequence (node_at
                 match graph st !! get_id next with
                 | Some _ => graph st
                 | None => <[get_id next := LocalNode_of (get_sequence source (forward next))]>
                             (graph st)
                 end (get_id next)))) (queue st) Hn Hq) as [Hw Hm].
  case_bool_decide; simpl; destruct (_ && _); done.
Qed.

Lemma backward_visit_measure (source : HandleGraph) (fml : Z) (hs : gset handle_t) trav st next :
  next ∈ hs → queue_within hs (queue st) →
  turn_fits hs st (backward_visit source fml trav st next).
Proof.
  intros Hn Hq. unfold backward_visit, turn_fits.
  destruct (emplace_measure hs next
              (dist trav + string_size (sequence (node_at
                 match graph st !! get_id next with
                 | Some _ => graph st
                 | None => <[get_id next := LocalNode_of (get_sequence source (forward next))]>
                             (graph st)
                 end (get_id next)))) (queue st) Hn Hq) as [Hw Hm].
  case_bool_decide; simpl; destruct (_ && _); done.
Qed.

Lemma foldl_measure (f : state → handle_t → state) (hs : gset handle_t) l st :
  (∀ st h, h ∈ l → queue_within hs (queue st) → turn_fits hs st (f st h)) →
  queue_within hs (queue st) → turn_fits hs st (foldl f st l).
Proof.
  revert st. induction l as [|h l IH]; intros st Hf Hq; simpl.
  - split; [done|lia].
  - destruct (Hf st h) as [Hq1 Hm1]; [left|done|].
    destruct (IH (f st h)) as [Hq2 Hm2]; [|done|].
    + intros st' h' Hh'. apply Hf. by right.
    + split; [done|lia].
Qed.

Lemma forward_loop_returns (source : HandleGraph) (fml : Z) (hs : gset handle_t) fuel st :
  handles_closed source hs → queue_within hs (queue st) →
  (queue_measure hs (queue st) ≤ fuel)%nat →
  ∃ st', forward_loop source fml fuel st = Ok st'.
Proof.
  intros Hclosed. revert st. induction fuel as [|fuel IH]; intros st Hq Hm; simpl.
  - destruct (pop (queue st)) as [[trav q]|] eqn:Hpop; [|eauto].
    destruct (pop_measure hs _ _ _ Hq Hpop) as (_ & _ & Heq). lia.
  - destruct (pop (queue st)) as [[trav q]|] eqn:Hpop; [|eauto].
    destruct (pop_measure hs _ _ _ Hq Hpop) as (Ht & Hq' & Heq).
    assert (Hfit : turn_fits hs (set_graph (touch (get_id (handle trav)) (graph st))
                                           (set_queue q st))
                             (forward_step source fml trav (set_queue q st))).
    { unfold forward_step. apply foldl_measure; [|done].
      intros st' h Hh Hq''. apply forward_visit_measure; [|done].
      by apply (Hclosed (handle trav)). }
    destruct Hfit as [Hq2 Hm2]. simpl in Hm2. apply IH; [done|lia].
Qed.

Lemma backward_loop_returns (source : HandleGraph) (fml : Z) (hs : gset handle_t) fuel st :
  handles_closed source hs → queue_within hs (queue st) →
  (queue_measure hs (queue st) ≤ fuel)%nat →
  ∃ st', backward_loop source fml fuel st = Ok st'.
Proof.
  intros Hclosed. revert st. induction fuel as [|fuel IH]; intros st Hq Hm; simpl.
  - destruct (pop (queue st)) as [[trav q]|] eqn:Hpop; [|eauto].
    destruct (pop_measure hs _ _ _ Hq Hpop) as (_ & _ & Heq). lia.
  - destruct (pop (queue st)) as [[trav q]|] eqn:Hpop; [|eauto].
    destruct (pop_measure hs _ _ _ Hq Hpop) as (Ht & Hq' & Heq).
    assert (Hfit : turn_fits hs (set_queue q st) (backward_step source fml trav (set_queue q st))).
    { unfold backward_step.
      apply (foldl_measure _ hs _ (set_queue q st)); [|done].
      intros st' h Hh Hq''. apply backward_visit_measure; [|done].
      by apply (Hclosed (handle trav)). }
    destruct Hfit as [Hq2 Hm2]. simpl in Hm2. apply IH; [done|lia].
Qed.

Lemma queue_empty_within (hs : gset handle_t) : queue_within hs queue_empty.
Proof.
  split; simpl; [apply empty_subseteq|]. intros t Ht. by apply elem_of_nil in Ht.
Qed.

Lemma queue_empty_measure (hs : gset handle_t) : queue_measure hs queue_empty = size hs.
Proof.
  unfold queue_measure. simpl. rewrite Nat.add_0_r. f_equal. apply difference_empty_L.
Qed.

(** With as much fuel as there are handles, the forward search returns. *)
Lemma forward_search_returns (fuel : nat) (source : HandleGraph) (max_len : Z)
    (pos_1 pos_2 : pos_t) (T detect : bool) (hs : gset handle_t) :
  handles_closed source hs → get_handle (id pos_1) (is_rev pos_1) ∈ hs →
  (size hs ≤ fuel)%nat →
  ∃ st, forward_search fuel source max_len pos_1 pos_2 T detect
          (initial_state source pos_1 pos_2 T detect) = Ok st.
Proof.
  intros Hclosed Hstart Hfuel. unfold forward_search.
  case_bool_decide; [eauto|].
  apply (forward_loop_returns _ _ hs); [done| |].
  - destruct (_ <=? _); simpl; [|apply queue_empty_within].
    by apply emplace_measure; [|apply queue_empty_within].
  - destruct (_ <=? _); simpl.
    + destruct (emplace_measure hs (get_handle (id pos_1) (is_rev pos_1))
                  (first_traversal_length source pos_1 pos_2 T detect) queue_empty)
        as [_ Hm]; [done|apply queue_empty_within|].
      rewrite queue_empty_measure in Hm. lia.
    + rewrite queue_empty_measure. lia.
Qed.

(** With as much fuel as there are handles, the backward search returns. *)
Lemma backward_search_returns (fuel : nat) (source : HandleGraph) (max_len : Z)
    (pos_1 pos_2 : pos_t) (T detect : bool) (hs : gset handle_t) (st : state) :
  handles_closed source hs → get_handle (id pos_2) (negb (is_rev pos_2)) ∈ hs →
  (size hs ≤ fuel)%nat →
  ∃ st', backward_search fuel source max_len pos_1 pos_2 T detect st = Ok st'.
Proof.
  intros Hclosed Hstart Hfuel. unfold backward_search.
  destruct (_ && _); [|eauto].
  apply (backward_loop_returns _ _ hs); [done| |]; unfold backward_start; simpl.
  - destruct (_ <=? _); simpl; [|apply queue_empty_within].
    by apply emplace_measure; [|apply queue_empty_within].
  - destruct (_ <=? _); simpl.
    + destruct (emplace_measure hs (get_handle (id pos_2) (negb (is_rev pos_2)))
                  (last_traversal_length pos_2) queue_empty)
        as [_ Hm]; [done|apply queue_empty_within|].
      rewrite queue_empty_measure in Hm. lia.
    + rewrite queue_empty_measure. lia.
Qed.

Lemma size_list_to_set_le (l : list handle_t) :
  (size (list_to_set l : gset handle_t) ≤ length l)%nat.
Proof.
  induction l as [|x l IH]; simpl.
  - done.
  - rewrite size_union_alt, size_singleton.
    pose proof (subseteq_size (list_to_set l ∖ {[x]}) (list_to_set l : gset handle_t)) as Hle.
    assert ((list_to_set l ∖ {[x]} : gset handle_t) ⊆ list_to_set l) as Hsub.
    { intros k Hk. by apply elem_of_difference in Hk as [Hk _]. }
    specialize (Hle Hsub). lia.
Qed.

Lemma handles_listed_closed (source : HandleGraph) (l : list handle_t) :
  handles_listed source l → handles_closed source (list_to_set l).
Proof.
  intros Hl h h' Hh Hh'. apply elem_of_list_to_set in Hh.
  apply elem_of_list_to_set. unfold handles_listed in Hl.
  rewrite Forall_forall in Hl. specialize (Hl h Hh).
  rewrite Forall_forall in Hl. by apply Hl.
Qed.

(** ** The early exit, from the start of the call *)

(** C3: on a source graph whose handles are listed in [l], with fuel for one
    turn per handle, the forward search ends; and when it has ended without
    having reached the oriented handle of [pos_2], the call returns the empty
    translator and the output graph as it was passed, that is, with no node
    and no edge. *)
Theorem target_not_found_returns_empty
    (fuel : nat) (source : HandleGraph) (max_len : Z) (pos_1 pos_2 : pos_t)
    (include_terminal_positions detect_terminal_cycles : bool)
    (no_additional_tips only_paths strict_max_len : bool) (g : Graph)
    (l : list handle_t) :
  node g = [] → edge g = [] →
  handles_listed source l → get_handle (id pos_1) (is_rev pos_1) ∈ l →
  (length l ≤ fuel)%nat →
  ∃ st : state,
    forward_search fuel source max_len pos_1 pos_2 include_terminal_positions
      detect_terminal_cycles
      (initial_state source pos_1 pos_2 include_terminal_positions detect_terminal_cycles)
    = Ok st
    ∧ (found_target st = false →
       extract_connecting_graph fuel source max_len pos_1 pos_2 include_terminal_positions
         detect_terminal_cycles no_additional_tips only_paths strict_max_len g
       = Returned ∅ (mkGraph [] [])).
Proof.
  intros Hn He Hl Hstart Hfuel.
  destruct (forward_search_returns fuel source max_len pos_1 pos_2
              include_terminal_positions detect_terminal_cycles (list_to_set l))
    as [st Hst].
  - by apply handles_listed_closed.
  - by apply elem_of_list_to_set.
  - pose proof (size_list_to_set_le l). lia.
  - exists st. split; [done|]. intros Hft. by eapply early_exit.
Qed.

Lemma target_not_found_returns_empty_witness :
  extract_connecting_graph 10 chain 3 (make_pos_t 1 false 1) (make_pos_t 3 false 2)
    false false false false false empty_graph
  = Returned ∅ (mkGraph [] []).
Proof.
  destruct (target_not_found_returns_empty 10 chain 3 (make_pos_t 1 false 1)
              (make_pos_t 3 false 2) false false false false false empty_graph
              [(1, false); (2, false); (3, false); (3, true); (2, true); (1, true)])
    as (st & Hst & Hexit).
  - reflexivity.
  - reflexivity.
  - apply (bool_decide_unpack _). vm_compute. exact I.
  - apply (bool_decide_unpack _). vm_compute. exact I.
  - simpl. lia.
  - apply Hexit. vm_compute in Hst. by inversion Hst.
Defined.

(** ** What the steps record in the translator *)

Ltac run_binds H :=
  repeat first
    [ match type of H with
      | bind ?m _ = Ok _ => destruct m as [?x|?e]; [|discriminate H]; cbn [bind] in H
      end
    | match type of H with
      | context [match ?x with (_, _) => _ end] => is_var x; destruct x
      end
    | match type of H with
      | context [if ?b then _ else _] => destruct b
      end ].

Lemma translates_ends_insert st st' v :
  id_trans st' = <[next_id st := v]> (id_trans st) →
  v = id (pos_1 st) ∨ v = id (pos_2 st) → translates_ends st st'.
Proof.
  intros Heq Hv k w. rewrite Heq. destruct (decide (next_id st = k)) as [<-|Hne].
  - rewrite lookup_insert_eq. intros [= <-]. right. split; [lia|done].
  - rewrite lookup_insert_ne by done. by left.
Qed.

Lemma translates_ends_same st st' : id_trans st' = id_trans st → translates_ends st st'.
Proof. intros Heq k v. rewrite Heq. by left. Qed.

Lemma duplicate_separate_1_ends st st' :
  duplicate_separate_1 st = Ok st' → duplicated_ends st st'.
Proof.
  unfold duplicate_separate_1. intros H. cbv zeta in H. run_binds H.
  all: inversion H; subst; clear H; split; [|by simpl; split; [lia|]].
  all: by apply (translates_ends_insert _ _ (id (pos_1 st))); [|left].
Qed.

Lemma duplicate_separate_2_ends st st' :
  duplicate_separate_2 st = Ok st' → duplicated_ends st st'.
Proof.
  unfold duplicate_separate_2. intros H. cbv zeta in H. run_binds H.
  all: inversion H; subst; clear H; split; [|by simpl; split; [lia|]].
  all: by apply (translates_ends_insert _ _ (id (pos_2 st))); [|right].
Qed.

Lemma duplicate_shared_unreachable_ends st st' :
  duplicate_shared_unreachable st = Ok st' → duplicated_ends st st'.
Proof.
  unfold duplicate_shared_unreachable. intros H. cbv zeta in H. run_binds H.
  all: inversion H; subst; clear H; split; [|by simpl; split; [lia|]].
  all: by apply (translates_ends_insert _ _ (id (pos_1 st))); [|left].
Qed.

Lemma duplicate_shared_reverse_ends st st' :
  duplicate_shared_reverse st = Ok st' → duplicated_ends st st'.
Proof.
  unfold duplicate_shared_reverse. intros H. cbv zeta in H. run_binds H.
  all: inversion H; subst; clear H; split; [|by simpl; split; [lia|]].
  all: by apply (translates_ends_insert _ _ (id (pos_1 st))); [|left].
Qed.

Lemma duplicate_shared_reachable_ends T st st' :
  duplicate_shared_reachable T st = Ok st' → duplicated_ends st st'.
Proof.
  unfold duplicate_shared_reachable. intros H. cbv zeta in H. run_binds H.
  all: inversion H; subst; clear H; split; [|by simpl; split; [lia|]].
  all: intros k v; simpl; intros Hk.
  all: destruct (decide (k = next_id st + 1 + 1)) as [->|H2];
         [rewrite lookup_insert_eq in Hk; inversion Hk; right; split; [lia|by left]|].
  all: rewrite lookup_insert_ne in Hk by done.
  all: destruct (decide (k = next_id st + 1)) as [->|H1];
         [rewrite lookup_insert_eq in Hk; inversion Hk; right; split; [lia|by left]|].
  all: rewrite lookup_insert_ne in Hk by done.
  all: destruct (decide (k = next_id st)) as [->|H0];
         [rewrite lookup_insert_eq in Hk; inversion Hk; right; split; [lia|by left]|].
  all: rewrite lookup_insert_ne in Hk by done; by left.
Qed.

Lemma duplicated_ends_refl st : duplicated_ends st st.
Proof. split; [by apply translates_ends_same|]. split; [lia|done]. Qed.

Lemma duplicated_ends_trans st1 st2 st3 :
  duplicated_ends st1 st2 → duplicated_ends st2 st3 → duplicated_ends st1 st3.
Proof.
  intros (H12 & Hn12 & Hp12 & Hq12) (H23 & Hn23 & Hp23 & Hq23).
  split; [|split; [lia|split; congruence]].
  intros k v Hk. destruct (H23 k v Hk) as [Hk2|[Hle Hv]]; [by apply H12|].
  right. split; [lia|]. by rewrite <- Hp12, <- Hq12.
Qed.

Lemma duplicate_nodes_ends T c st st' :
  duplicate_nodes T c st = Ok st' → duplicated_ends st st'.
Proof.
  unfold duplicate_nodes. intros H. cbv zeta in H.
  set (st0 := set_graph _ st) in H.
  assert (H0 : duplicated_ends st st0).
  { subst st0. split; [by apply translates_ends_same|]. split; [simpl; lia|done]. }
  clearbody st0. apply (duplicated_ends_trans _ _ _ H0). clear H0.
  destruct c.
  - destruct (in_cycle _ _).
    + destruct (duplicate_separate_1 st0) as [st1|] eqn:H1; [|discriminate].
      cbn [bind] in H. apply duplicate_separate_1_ends in H1.
      apply (duplicated_ends_trans _ _ _ H1).
      destruct (in_cycle _ _); [by apply duplicate_separate_2_ends|].
      inversion H. apply duplicated_ends_refl.
    + cbn [bind] in H.
      destruct (in_cycle _ _); [by apply duplicate_separate_2_ends|].
      inversion H. apply duplicated_ends_refl.
  - destruct (in_cycle _ _); [by eapply duplicate_shared_reachable_ends|].
    inversion H. apply duplicated_ends_refl.
  - by apply duplicate_shared_unreachable_ends.
  - destruct (in_cycle _ _); [by apply duplicate_shared_reverse_ends|].
    inversion H. apply duplicated_ends_refl.
Qed.

Lemma cut_nodes_ends T c st st' :
  cut_nodes T c st = Ok st' → translates_ends st st' ∧ next_id st ≤ next_id st'.
Proof.
  destruct c; simpl.
  - unfold cut_separate. intros H. cbv zeta in H. run_binds H.
    inversion H; subst; clear H. split; [by apply translates_ends_same|simpl; lia].
  - unfold cut_shared_reachable. intros H. cbv zeta in H. run_binds H.
    inversion H; subst; clear H. split; [by apply translates_ends_same|simpl; lia].
  - unfold cut_shared_unreachable. intros H. cbv zeta in H.
    destruct (for_each_edge _ _ _) as [g|]; [|discriminate]. cbn [bind] in H.
    destruct (is_rev (pos_1 st)); run_binds H; inversion H; subst; clear H.
    + split; [|simpl; lia].
      by apply (translates_ends_insert _ _ (id (pos_2 st))); [|right].
    + split; [|simpl; lia].
      by apply (translates_ends_insert _ _ (id (pos_1 st))); [|left].
  - unfold cut_shared_reverse. intros H. cbv zeta in H. run_binds H.
    inversion H; subst; clear H. split; [|simpl; lia].
    by apply (translates_ends_insert _ _ (id (pos_1 st))); [|left].
Qed.

(** ** The tip removal, one erased node at a time *)

Section tip_removal.
Variable protected : Z → bool.
Variable R : tips_state → tips_state → Prop.
Hypothesis R_same : ∀ t t', t_graph t' = t_graph t → t_id_trans t' = t_id_trans t → R t t'.
Hypothesis R_trans : ∀ t1 t2 t3, R t1 t2 → R t2 t3 → R t1 t3.
Hypothesis R_erase : ∀ t t' k,
  protected k = false → is_Some (t_graph t !! k) →
  t_graph t' = delete k (t_graph t) → t_id_trans t' = delete k (t_id_trans t) → R t t'.

Lemma check_loop_erases fuel t : post (check_loop protected fuel t) (R t) (λ _, True).
Proof.
  revert t. induction fuel as [|fuel IH]; intros t; simpl.
  - destruct (to_check t); simpl; [by apply R_same|done].
  - set (node_id := List.last (to_check t) 0). clearbody node_id.
    set (rl := removelast (to_check t)). clearbody rl.
    set (t1 := mkTips (t_graph t) (t_id_trans t) (left_degree t) (right_degree t) rl).
    assert (H1 : R t t1) by (by apply R_same).
    destruct (to_check t) as [|k0 rest]; [by apply R_same|].
    destruct (protected node_id) eqn:Hp; simpl.
    { eapply post_weaken; [apply IH| |done]. intros t' Ht'. by eapply R_trans. }
    case_bool_decide as Hin; simpl.
    2:{ eapply post_weaken; [apply IH| |done]. intros t' Ht'. by eapply R_trans. }
    change (left_degree t1) with (left_degree t).
    destruct (left_degree t !! node_id) as [dl|]; [|by simpl].
    destruct (dl =? 0).
    + eapply post_bind.
      { eapply post_weaken;
          [apply post_detach; [apply post_decr_right|apply post_decr_left]| |done].
        intros a Ha. exact Ha. }
      intros t2 [Hg2 Ht2]. simpl in Hg2, Ht2. eapply post_weaken; [apply IH| |done].
      intros t' Ht'. eapply R_trans; [|exact Ht'].
      apply (R_erase _ _ node_id); simpl; try done; congruence.
    + destruct (_ =? 0).
      * eapply post_bind.
        { eapply post_weaken;
            [apply post_detach; [apply post_decr_left|apply post_decr_right]| |done].
          intros a Ha. exact Ha. }
        intros t2 [Hg2 Ht2]. simpl in Hg2, Ht2. eapply post_weaken; [apply IH| |done].
        intros t' Ht'. eapply R_trans; [|exact Ht'].
        apply (R_erase _ _ node_id); simpl; try done; congruence.
      * eapply post_weaken; [apply IH| |done]. intros t' Ht'. by eapply R_trans.
Qed.

Lemma check_all_erases fuel ids t : post (check_all protected fuel ids t) (R t) (λ _, True).
Proof.
  revert t. induction ids as [|k ids IH]; intros t; simpl; [by apply R_same|].
  eapply post_bind.
  { eapply post_weaken; [apply check_loop_erases| |done]. intros a Ha. exact Ha. }
  intros t1 H1. eapply post_weaken; [apply IH| |done].
  intros t' Ht'. eapply R_trans; [|exact Ht']. eapply R_trans; [|exact H1].
  by apply R_same.
Qed.
End tip_removal.

Lemma tips_erased_same protected t t' :
  t_graph t' = t_graph t → t_id_trans t' = t_id_trans t → tips_erased protected t t'.
Proof.
  intros Hg Ht. unfold tips_erased, translator_shrinks. rewrite Hg, Ht.
  split; [done|]. split; [done|]. split; [done|]. split; [done|].
  intros k [n Hk] Hnone. congruence.
Qed.

Lemma tips_erased_trans protected t1 t2 t3 :
  tips_erased protected t1 t2 → tips_erased protected t2 t3 → tips_erased protected t1 t3.
Proof.
  intros (Hg12 & Hp12 & Hs12 & Hk12 & He12) (Hg23 & Hp23 & Hs23 & Hk23 & He23).
  split; [|split; [|split; [|split]]].
  - intros k n Hk. by apply Hg12, Hg23.
  - intros k Hk. by rewrite Hp23, Hp12.
  - intros k v Hk. by apply Hs12, Hs23.
  - intros k v Hk [n Hn]. apply Hk23; [|by eauto]. apply Hk12; [done|].
    exists n. by apply Hg23.
  - intros k Hk1 Hk3. destruct (t_graph t2 !! k) as [n|] eqn:Hk2.
    + apply He23; [by rewrite Hk2|done].
    + destruct (t_id_trans t3 !! k) as [v|] eqn:Hv; [|done].
      apply Hs23 in Hv. by rewrite He12 in Hv.
Qed.

Lemma tips_erased_erase protected t t' k :
  protected k = false → is_Some (t_graph t !! k) →
  t_graph t' = delete k (t_graph t) → t_id_trans t' = delete k (t_id_trans t) →
  tips_erased protected t t'.
Proof.
  intros Hp _ Hg Ht. unfold tips_erased, translator_shrinks. rewrite Hg, Ht.
  split; [|split; [|split; [|split]]].
  - intros j n Hj. apply lookup_delete_Some in Hj. tauto.
  - intros j Hj. rewrite lookup_delete_ne; [done|]. intros ->. congruence.
  - intros j v Hj. apply lookup_delete_Some in Hj. tauto.
  - intros j v Hj [n Hn]. apply lookup_delete_Some in Hn as [Hne _].
    by rewrite lookup_delete_ne.
  - intros j [n Hj] Hdel. apply lookup_delete_None in Hdel as [->|Hnone].
    + apply lookup_delete_eq.
    + congruence.
Qed.

Lemma check_all_tips_erased protected fuel ids t :
  post (check_all protected fuel ids t) (tips_erased protected t) (λ _, True).
Proof.
  apply check_all_erases.
  - apply tips_erased_same.
  - apply tips_erased_trans.
  - apply tips_erased_erase.
Qed.

(** ** Step 5 takes entries out of the translator *)

Lemma translator_shrinks_erase_nodes to_erase st g :
  translator_shrinks (id_trans st) (id_trans (erase_nodes to_erase (set_graph g st))).
Proof.
  intros k v. unfold erase_nodes. simpl. rewrite lookup_foldl_delete.
  by case_bool_decide.
Qed.

Lemma prune_shrinks max_len tips paths strict fuel st st' :
  prune max_len tips paths strict fuel st = Ok st' →
  translator_shrinks (id_trans st) (id_trans st').
Proof.
  unfold prune. destruct strict; [|destruct paths; [|destruct tips]].
  - unfold prune_strict_max_len. intros H. cbv zeta in H.
    destruct (if duplicate_node_1 st =? 0 then _ else _) as [g1 q1].
    run_binds H. inversion H. apply translator_shrinks_erase_nodes.
  - unfold prune_only_paths. intros H. cbv zeta in H.
    destruct (if duplicate_node_1 st =? 0 then _ else _) as [s1 r1].
    destruct (reach_loop _ _) as [[[g2 s2] fwd]|]; [|discriminate]. cbn [bind] in H.
    destruct (if duplicate_node_2 st =? 0 then _ else _) as [s3 r3].
    run_binds H. inversion H. apply translator_shrinks_erase_nodes.
  - unfold prune_no_additional_tips. intros H. cbv zeta in H.
    pose proof (check_all_tips_erased
                  (λ k, (k =? id (pos_1 st)) || (k =? id (pos_2 st))
                        || (k =? duplicate_node_1 st) || (k =? duplicate_node_2 st))
                  fuel (map_to_list ((λ n, Z.of_nat (length (edges_left n))) <$> graph st)).*1
                  (mkTips (graph st) (id_trans st)
                     ((λ n, Z.of_nat (length (edges_left n))) <$> graph st)
                     ((λ n, Z.of_nat (length (edges_right n))) <$> graph st) [])) as Hpost.
    destruct (check_all _ _ _ _) as [t|]; [|discriminate]. cbn [bind] in H.
    inversion H. simpl. destruct Hpost as (_ & _ & Hs & _). exact Hs.
  - intros [= ->]. by intros k v.
Qed.

(** ** Lookup in the completed translator *)

Lemma lookup_complete_records (l : list (Z * LocalNode)) (trans : gmap Z Z) (k : Z) :
  foldl (λ (m : gmap Z Z) (r : Z * LocalNode),
           match m !! r.1 with Some _ => m | None => <[r.1 := r.1]> m end)
        trans l !! k
  = match trans !! k with
    | Some v => Some v
    | None => if bool_decide (k ∈ l.*1) then Some k else None
    end.
Proof.
  revert trans. induction l as [|r l IH]; intros trans; cbn [foldl].
  - rewrite (bool_decide_eq_false_2 (k ∈ [].*1)); [by destruct (trans !! k)|].
    intros H. by apply elem_of_nil in H.
  - rewrite IH, fmap_cons. destruct (trans !! r.1) eqn:Hr.
    + destruct (trans !! k) eqn:Hk; [done|].
      assert (r.1 ≠ k) by congruence.
      destruct (decide (k ∈ l.*1)) as [Hin|Hin].
      * rewrite !bool_decide_eq_true_2; [done|by right|done].
      * rewrite !bool_decide_eq_false_2; [done| |done].
        intros H'. apply elem_of_cons in H' as [?|?]; congruence.
    + destruct (decide (r.1 = k)) as [<-|Hne].
      * rewrite lookup_insert_eq, Hr. by rewrite (bool_decide_eq_true_2 (r.1 ∈ r.1 :: l.*1)) by left.
      * rewrite lookup_insert_ne by done. destruct (trans !! k); [done|].
        destruct (decide (k ∈ l.*1)) as [Hin|Hin].
        -- rewrite !bool_decide_eq_true_2; [done|by right|done].
        -- rewrite !bool_decide_eq_false_2; [done| |done].
           intros H'. apply elem_of_cons in H' as [?|?]; congruence.
Qed.

Lemma lookup_complete_translator (g : graph_t) (trans : gmap Z Z) (k : Z) :
  complete_translator g trans !! k
  = match trans !! k with
    | Some v => Some v
    | None => if bool_decide (is_Some (g !! k)) then Some k else None
    end.
Proof.
  unfold complete_translator. rewrite lookup_complete_records.
  destruct (trans !! k); [done|]. apply f_equal with (f := λ b : bool, if b then Some k else None).
  apply bool_decide_ext. apply elem_of_keys.
Qed.

(** ** The values of the translator *)

Lemma after_search_ends fuel source max_len p1 p2 T detect tips paths strict st st' :
  search_frame (initial_state source p1 p2 T detect) st →
  after_search fuel source max_len p1 p2 T detect tips paths strict st = Ok st' →
  ∀ k v : Z, id_trans st' !! k = Some v →
    Z.max (id p1) (id p2) < k ∧ (v = id p1 ∨ v = id p2).
Proof.
  intros Hst H. unfold after_search in H.
  pose proof (search_frame_backward_search fuel source max_len p1 p2 T detect st) as Hb.
  destruct (backward_search _ _ _ _ _ _ _ _) as [st2|]; [|discriminate].
  cbn [bind post] in H, Hb.
  pose proof (search_frame_trans _ _ _ Hst Hb) as (Htr & Hp1 & Hp2 & _ & _ & _ & Hmax & _).
  destruct (initial_state_facts source p1 p2 T detect) as (Hi & Hi1 & Hi2 & Him & _).
  rewrite Hi in Htr. rewrite Hi1 in Hp1. rewrite Hi2 in Hp2. rewrite Him in Hmax.
  clear Hi Hi1 Hi2 Him Hst Hb.
  destruct (duplication _ _ _ _ _) as [st3|] eqn:Hdup; [|discriminate]. cbn [bind] in H.
  assert (H3 : duplicated_ends (set_next_id (max_id st2 + 1) st2) st3).
  { unfold duplication in Hdup. destruct detect.
    - by eapply duplicate_nodes_ends.
    - inversion Hdup. apply duplicated_ends_refl. }
  destruct H3 as (H3 & Hn3 & Hp13 & Hp23). simpl in Hn3, Hp13, Hp23.
  destruct (cut_nodes _ _ _) as [st4|] eqn:Hcut; [|discriminate]. cbn [bind] in H.
  apply cut_nodes_ends in Hcut as [H4 Hn4].
  apply prune_shrinks in H.
  intros k v Hk. apply H in Hk.
  destruct (H4 k v Hk) as [Hk3|[Hle Hv]].
  - destruct (H3 k v Hk3) as [Hk2|[Hle Hv]]; simpl in Hk2 || simpl in Hle, Hv.
    + rewrite Htr in Hk2. by rewrite lookup_empty in Hk2.
    + split; [lia|]. by rewrite <- Hp1, <- Hp2.
  - split; [lia|]. by rewrite <- Hp1, <- Hp2, <- Hp13, <- Hp23.
Qed.

(** X1: an entry of the returned translator maps an id to itself, or maps a
    new id, greater than the ids of both positions, to the id of the node
    of [pos_1] or of [pos_2]. *)
Theorem translator_names_source_nodes
    (fuel : nat) (source : HandleGraph) (max_len : Z) (pos_1 pos_2 : pos_t)
    (include_terminal_positions detect_terminal_cycles : bool)
    (no_additional_tips only_paths strict_max_len : bool)
    (g : Graph) (trans : gmap Z Z) (out : Graph) (k v : Z) :
  extract_connecting_graph fuel source max_len pos_1 pos_2 include_terminal_positions
    detect_terminal_cycles no_additional_tips only_paths strict_max_len g
  = Returned trans out →
  trans !! k = Some v →
  v = k ∨ (Z.max (id pos_1) (id pos_2) < k ∧ (v = id pos_1 ∨ v = id pos_2)).
Proof.
  intros H Hk. apply extract_cases in H as (_ & _ & st & _ & Hframe & Hcases).
  destruct Hcases as [(_ & -> & _)|(_ & st' & Has & -> & _)].
  - by rewrite lookup_empty in Hk.
  - rewrite lookup_complete_translator in Hk.
    destruct (id_trans st' !! k) as [w|] eqn:Hw.
    + inversion Hk; subst. right. by eapply after_search_ends.
    + case_bool_decide; [|discriminate]. inversion Hk. by left.
Qed.

Lemma translator_names_source_nodes_witness :
  2 = 4 ∨ (Z.max 1 2 < 4 ∧ (2 = 1 ∨ 2 = 2)).
Proof.
  eapply (translator_names_source_nodes 10 left_loop 100 (make_pos_t 1 false 0)
            (make_pos_t 2 false 0) false true false false false empty_graph _ _ 4 2).
  - vm_compute. reflexivity.
  - vm_compute. reflexivity.
Defined.

(** ** The completed translator *)

(** X2: step 6 keeps every recorded translation, gives every other node of
    the graph the translation to itself, and adds no other entry. *)
Theorem complete_translator_lookup (g : graph_t) (trans : gmap Z Z) (k : Z) :
  complete_translator g trans !! k
  = match trans !! k with
    | Some v => Some v
    | None => if bool_decide (is_Some (g !! k)) then Some k else None
    end.
Proof.
  unfold complete_translator. rewrite lookup_complete_records.
  destruct (trans !! k) as [v|]; [done|].
  destruct (decide (is_Some (g !! k))) as [Hin|Hout].
  - rewrite !bool_decide_eq_true_2; [done|done|]. by apply elem_of_keys.
  - rewrite !bool_decide_eq_false_2; [done|done|]. by rewrite elem_of_keys.
Qed.

(** ** The records of the output graph *)

Lemma node_ids_records (l : list (Z * LocalNode)) : node_id <$> (record_node <$> l) = l.*1.
Proof. by rewrite <- list_fmap_compose. Qed.

Lemma elem_of_record_edges (r : Z * LocalNode) (e : Edge) :
  e ∈ record_edges r →
  from e = r.1 ∧ from e ≤ to e ∧ (from e = to e → from_start e = true → to_end e = false).
Proof.
  unfold record_edges, emit_left, emit_right. intros H.
  apply elem_of_app in H as [H|H]; apply list_elem_of_omap in H as ([b rv] & _ & H);
    simpl in H.
  - destruct (Z.ltb_spec r.1 b); simpl in H.
    + inversion H; subst; simpl. split; [done|]. split; lia.
    + destruct (Z.eqb_spec b r.1); simpl in H; [|discriminate].
      destruct rv; [|discriminate]. inversion H; subst; simpl. split; [done|]. split; [lia|done].
  - destruct (Z.leb_spec r.1 b); [|discriminate].
    inversion H; subst; simpl. split; [done|]. split; [done|]. discriminate.
Qed.

(** X3: the nodes of a returned output graph have distinct ids, and there
    are as many of them as the returned translator has entries. *)
Theorem output_nodes_are_distinct
    (fuel : nat) (source : HandleGraph) (max_len : Z) (pos_1 pos_2 : pos_t)
    (include_terminal_positions detect_terminal_cycles : bool)
    (no_additional_tips only_paths strict_max_len : bool)
    (g : Graph) (trans : gmap Z Z) (out : Graph) :
  extract_connecting_graph fuel source max_len pos_1 pos_2 include_terminal_positions
    detect_terminal_cycles no_additional_tips only_paths strict_max_len g
  = Returned trans out →
  NoDup (node_id <$> node out) ∧ length (node out) = size trans.
Proof.
  intros H. apply extract_cases in H as (Hn & He & st & _ & Hframe & Hcases).
  destruct Hcases as [(_ & -> & ->)|(_ & st' & Has & -> & ->)].
  - rewrite Hn. split; [constructor|done].
  - rewrite node_emit, Hn. simpl. rewrite node_ids_records. split.
    + apply NoDup_fst_map_to_list.
    + rewrite length_fmap, length_map_to_list.
      pose proof (after_search_post fuel source max_len pos_1 pos_2
                    include_terminal_positions detect_terminal_cycles no_additional_tips
                    only_paths strict_max_len st Hframe) as Hpost.
      rewrite Has in Hpost. destruct Hpost as [Hin _].
      rewrite <- !size_dom. f_equal. apply set_eq. intros k.
      rewrite !elem_of_dom, is_Some_complete_translator.
      split; [by right|]. intros [?|?]; [by apply Hin|done].
Qed.

Lemma output_nodes_are_distinct_witness :
  ∃ (trans : gmap Z Z) (out : Graph),
    extract_connecting_graph 10 left_loop 100 (make_pos_t 1 false 0) (make_pos_t 2 false 0)
      false true false false false empty_graph = Returned trans out
    ∧ NoDup (node_id <$> node out) ∧ length (node out) = size trans.
Proof.
  eexists _, _. split; [vm_compute; reflexivity|].
  apply (output_nodes_are_distinct 10 left_loop 100 (make_pos_t 1 false 0)
           (make_pos_t 2 false 0) false true false false false empty_graph).
  vm_compute. reflexivity.
Defined.

(** X4: every edge of a returned output graph leaves a node of that graph
    and goes to a node whose id is not smaller; an edge from a node to
    itself is never written as leaving the start and entering the end. *)
Theorem output_edges_are_oriented
    (fuel : nat) (source : HandleGraph) (max_len : Z) (pos_1 pos_2 : pos_t)
    (include_terminal_positions detect_terminal_cycles : bool)
    (no_additional_tips only_paths strict_max_len : bool)
    (g : Graph) (trans : gmap Z Z) (out : Graph) (e : Edge) :
  extract_connecting_graph fuel source max_len pos_1 pos_2 include_terminal_positions
    detect_terminal_cycles no_additional_tips only_paths strict_max_len g
  = Returned trans out →
  e ∈ edge out →
  from e ∈ node_ids out ∧ from e ≤ to e
  ∧ (from e = to e → from_start e = true → to_end e = false).
Proof.
  intros H Hin. apply extract_cases in H as (Hn & He & st & _ & Hframe & Hcases).
  destruct Hcases as [(_ & -> & ->)|(_ & st' & Has & -> & ->)].
  - rewrite He in Hin. by apply elem_of_nil in Hin.
  - rewrite edge_emit, He in Hin. simpl in Hin.
    apply list_elem_of_In, in_concat in Hin as (l & Hl & Hel).
    apply list_elem_of_In in Hl, Hel.
    apply list_elem_of_fmap in Hl as (r & -> & Hr).
    apply elem_of_record_edges in Hel as (Hfrom & Hle & Hself).
    split; [|done]. rewrite node_ids_emit by done. rewrite Hfrom.
    destruct r as [j n]. apply elem_of_map_to_list in Hr. apply elem_of_dom. simpl. eauto.
Qed.

Lemma output_edges_are_oriented_witness :
  ∃ (trans : gmap Z Z) (out : Graph),
    extract_connecting_graph 10 left_loop 100 (make_pos_t 1 false 0) (make_pos_t 2 false 0)
      false true false false false empty_graph = Returned trans out
    ∧ mkEdge 1 4 false false ∈ edge out
    ∧ from (mkEdge 1 4 false false) ∈ node_ids out
    ∧ from (mkEdge 1 4 false false) ≤ to (mkEdge 1 4 false false)
    ∧ (from (mkEdge 1 4 false false) = to (mkEdge 1 4 false false) →
       from_start (mkEdge 1 4 false false) = true → to_end (mkEdge 1 4 false false) = false).
Proof.
  eexists _, _. split; [vm_compute; reflexivity|].
  split; [vm_compute; repeat constructor|].
  eapply (output_edges_are_oriented 10 left_loop 100 (make_pos_t 1 false 0)
            (make_pos_t 2 false 0) false true false false false empty_graph).
  - vm_compute. reflexivity.
  - vm_compute. repeat constructor.
Defined.

(** ** Edge lists under the updates of the graph *)

Lemma edges_of_with_edges s s' l n :
  edges_of s' (with_edges s l n) = if decide (s' = s) then l else edges_of s' n.
Proof. by destruct s, s'. Qed.

Lemma edges_at_set_edges k s l (g : graph_t) a s' :
  edges_at (set_edges k s l g) a s'
  = if decide (a = k ∧ s' = s) then l else edges_at g a s'.
Proof.
  unfold edges_at, set_edges. destruct (decide (a = k)) as [->|Hne].
  - rewrite node_at_insert, edges_of_with_edges.
    destruct (decide (s' = s)); destruct (decide (_ ∧ _)); tauto || done.
  - rewrite node_at_insert_ne by done. destruct (decide (_ ∧ _)); tauto || done.
Qed.

Lemma edges_at_push_edge k s e (g : graph_t) a s' :
  edges_at (push_edge k s e g) a s'
  = if decide (a = k ∧ s' = s) then edges_at g k s ++ [e] else edges_at g a s'.
Proof. unfold push_edge. apply edges_at_set_edges. Qed.

Lemma edges_at_touch k (g : graph_t) a s : edges_at (touch k g) a s = edges_at g a s.
Proof. unfold edges_at. by rewrite node_at_touch. Qed.

Lemma edges_at_insert_fresh k str (g : graph_t) a s :
  g !! k = None → edges_at (<[k := LocalNode_of str]> g) a s = edges_at g a s.
Proof.
  intros Hk. unfold edges_at. destruct (decide (k = a)) as [<-|Hne].
  - rewrite node_at_insert. unfold node_at. rewrite Hk. by destruct s.
  - by rewrite node_at_insert_ne.
Qed.

Lemma is_Some_set_edges k s l (g : graph_t) j :
  is_Some (set_edges k s l g !! j) ↔ j = k ∨ is_Some (g !! j).
Proof.
  unfold set_edges. destruct (decide (k = j)) as [->|Hne].
  - rewrite lookup_insert_eq. split; eauto.
  - rewrite lookup_insert_ne by done. split; [by right|]. intros [?|?]; [congruence|done].
Qed.

Lemma is_Some_push_edge k s e (g : graph_t) j :
  is_Some (push_edge k s e g !! j) ↔ j = k ∨ is_Some (g !! j).
Proof. apply is_Some_set_edges. Qed.

Lemma stored_count_count g x y :
  stored_count g x y = count_edge (y.1, same_side x y) (edges_at g x.1 x.2).
Proof. done. Qed.

Lemma count_edge_app e l1 l2 :
  count_edge e (l1 ++ l2) = (count_edge e l1 + count_edge e l2)%nat.
Proof. unfold count_edge. by rewrite List.filter_app, length_app. Qed.

Lemma stored_count_push_edge k s e (g : graph_t) x y :
  stored_count (push_edge k s e g) x y
  = (stored_count g x y
     + if bool_decide (x = (k, s) ∧ e = (y.1, same_side x y)) then 1 else 0)%nat.
Proof.
  rewrite !stored_count_count, edges_at_push_edge. destruct x as [a s']. simpl.
  destruct (decide (a = k ∧ s' = s)) as [[-> ->]|Hne].
  - rewrite count_edge_app. f_equal. unfold count_edge. simpl.
    destruct (decide (e = (y.1, same_side (k, s) y))) as [He|He].
    + by rewrite !bool_decide_eq_true_2.
    + rewrite !bool_decide_eq_false_2; [done|tauto|done].
  - rewrite bool_decide_eq_false_2; [lia|]. intros [[= -> ->] _]. tauto.
Qed.

Lemma stored_count_ext (g g' : graph_t) :
  (∀ a s, edges_at g' a s = edges_at g a s) →
  ∀ x y, stored_count g' x y = stored_count g x y.
Proof. intros H x y. unfold stored_count. by rewrite H. Qed.

(** The link between the two forms of the invariant. *)
Lemma edge_mirror_of_counts (g : graph_t) :
  edge_mirror_counts g → (∀ a s, (stored_count g (a, s) (a, s) ≤ 1)%nat) → edge_mirror g.
Proof.
  intros Hc Hs. split; [|done]. intros a b r s Hne.
  pose proof (Hc (a, s) (b, mirror_side s r)) as H.
  rewrite !stored_count_count in H. simpl in H.
  assert (Hr : same_side (a, s) (b, mirror_side s r) = r).
  { unfold same_side, mirror_side. simpl. destruct r, s; by simpl. }
  assert (Hr' : same_side (b, mirror_side s r) (a, s) = r).
  { by rewrite same_side_sym. }
  rewrite Hr, Hr' in H. rewrite <- !count_edge_pos. lia.
Qed.

(** ** The invariant of the searches *)

Lemma elem_of_items_emplace h d q t :
  t ∈ items (emplace h d q) → t ∈ items q ∨ handle t = h.
Proof.
  unfold emplace. case_bool_decide; [by left|]. simpl.
  intros Ht. apply elem_of_app in Ht as [Ht|Ht]; [by left|].
  apply list_elem_of_singleton in Ht. subst. by right.
Qed.

Lemma backward_visit_forward_visit source fml trav st next :
  backward_visit source fml trav st next
  = set_found_target (found_target st) (forward_visit source fml trav st next).
Proof. unfold backward_visit, forward_visit. by case_bool_decide. Qed.

Lemma search_inv_set_found_target source b st :
  search_inv source st → search_inv source (set_found_target b st).
Proof. done. Qed.

Lemma search_inv_set_queue source q st :
  search_inv source st →
  (∀ t, t ∈ items q → is_Some (graph st !! get_id (handle t))) →
  search_inv source (set_queue q st).
Proof.
  intros (H1 & H2 & _ & H4 & H5) Hq.
  split; [exact H1|]. split; [exact H2|]. split; [exact Hq|]. split; [exact H4|exact H5].
Qed.

Lemma search_inv_set_skip_handles source s st :
  search_inv source st → search_inv source (set_skip_handles s st).
Proof. done. Qed.

(** The node of [next] is made sure to be in the graph. *)
Lemma ensure_node_facts (g : graph_t) (b : Z) (str : string) :
  let g1 := match g !! b with Some _ => g | None => <[b := LocalNode_of str]> g end in
  (∀ a s, edges_at g1 a s = edges_at g a s)
  ∧ (∀ j, is_Some (g1 !! j) ↔ j = b ∨ is_Some (g !! j)).
Proof.
  simpl. destruct (g !! b) as [n|] eqn:Hb.
  - split; [done|]. intros j. split; [by right|]. intros [->|?]; [by eauto|done].
  - split; [intros a s; by apply edges_at_insert_fresh|].
    intros j. destruct (decide (b = j)) as [->|Hne].
    + rewrite lookup_insert_eq. split; eauto.
    + rewrite lookup_insert_ne by done. split; [by right|]. intros [?|?]; [congruence|done].
Qed.

Lemma left_if_side_rev s : left_if (side_rev s) = s.
Proof. by destruct s. Qed.

Lemma side_rev_left_if b : side_rev (left_if b) = b.
Proof. by destruct b. Qed.

Lemma same_side_out_in (a b : Z) (rev nr : bool) :
  same_side (a, left_if rev) (b, right_if nr) = xorb rev nr.
Proof. unfold same_side. simpl. by destruct rev, nr. Qed.

(** The two entries that a newly observed edge adds are each other's mirror. *)
Lemma new_edge_counts (a b : Z) (rev nr : bool) (x y : end_t) :
  let X : end_t := (a, left_if rev) in
  let Y : end_t := (b, right_if nr) in
  let r := xorb rev nr in
  (bool_decide (x = X ∧ (b, r) = (y.1, same_side x y)) = bool_decide (x = X ∧ y = Y))
  ∧ (bool_decide (x = Y ∧ (a, r) = (y.1, same_side x y)) = bool_decide (x = Y ∧ y = X))
  ∧ (((a =? b) && r = true) ↔ X = Y).
Proof.
  simpl. destruct x as [xa xs], y as [ya ys]. unfold same_side. simpl.
  split; [|split].
  - apply bool_decide_ext.
    destruct rev, nr, xs, ys; simpl; split; intros [H1 H2]; split; try done.
    all: try (rewrite bool_decide_eq_true_2 in H2 by done).
    all: try (rewrite bool_decide_eq_false_2 in H2 by done).
    all: try congruence.
  - apply bool_decide_ext.
    destruct rev, nr, xs, ys; simpl; split; intros [H1 H2]; split; try done.
    all: try (rewrite bool_decide_eq_true_2 in H2 by done).
    all: try (rewrite bool_decide_eq_false_2 in H2 by done).
    all: try congruence.
  - split.
    + intros H. apply andb_prop in H as [Hab Hr]. apply Z.eqb_eq in Hab. subst.
      f_equal. by destruct rev, nr.
    + intros [= -> Hs]. rewrite Z.eqb_refl. simpl. by destruct rev, nr.
Qed.

Lemma mirror_increments (X Y x y : end_t) :
  ((if bool_decide (x = X ∧ y = Y) then 1 else 0)
   + (if bool_decide (X ≠ Y ∧ x = Y ∧ y = X) then 1 else 0)
   = (if bool_decide (y = X ∧ x = Y) then 1 else 0)
     + (if bool_decide (X ≠ Y ∧ y = Y ∧ x = X) then 1 else 0))%nat.
Proof.
  destruct (decide (X = Y)) as [->|Hne].
  - rewrite (bool_decide_eq_false_2 (Y ≠ Y ∧ _)) by tauto.
    rewrite (bool_decide_eq_false_2 (Y ≠ Y ∧ _)) by tauto.
    f_equal. apply f_equal with (f := λ b : bool, if b then 1%nat else 0%nat).
    apply bool_decide_ext. tauto.
  - rewrite Nat.add_comm. f_equal.
    + apply f_equal with (f := λ b : bool, if b then 1%nat else 0%nat).
      apply bool_decide_ext. tauto.
    + apply f_equal with (f := λ b : bool, if b then 1%nat else 0%nat).
      apply bool_decide_ext. tauto.
Qed.

(** The graph after a newly observed edge from [(a, rev)] to [(b, nr)] has
    been recorded. *)
Lemma observe_edge_facts (g1 : graph_t) (a b : Z) (rev nr : bool) :
  is_Some (g1 !! a) → is_Some (g1 !! b) →
  let X : end_t := (a, left_if rev) in
  let Y : end_t := (b, right_if nr) in
  let r := xorb rev nr in
  let g2 := push_edge a (left_if rev) (b, r) g1 in
  let g3 := if negb ((a =? b) && r) then push_edge b (right_if nr) (a, r) g2 else g2 in
  (∀ j, is_Some (g3 !! j) ↔ is_Some (g1 !! j))
  ∧ (∀ c s e, e ∈ edges_at g3 c s → e ∈ edges_at g1 c s ∨ e.1 = a ∨ e.1 = b)
  ∧ (∀ x y, stored_count g3 x y
            = (stored_count g1 x y
               + (if bool_decide (x = X ∧ y = Y) then 1 else 0)
               + (if bool_decide (X ≠ Y ∧ x = Y ∧ y = X) then 1 else 0))%nat).
Proof.
  intros Ha Hb. cbv zeta.
  assert (H2 : ∀ j, is_Some (push_edge a (left_if rev) (b, xorb rev nr) g1 !! j)
                    ↔ is_Some (g1 !! j)).
  { intros j. rewrite is_Some_push_edge. split; [|by right]. intros [->|?]; done. }
  destruct (new_edge_counts a b rev nr (a, left_if rev) (a, left_if rev)) as (_ & _ & HXY).
  cbv zeta in HXY.
  split; [|split].
  - intros j. destruct (negb _); [|done].
    rewrite is_Some_push_edge, H2. split; [|by right]. intros [->|?]; done.
  - intros c s e. destruct (negb _).
    + rewrite !edges_at_push_edge.
      repeat (destruct (decide (_ ∧ _)) as [[? ?]|?]);
        rewrite ?elem_of_app, ?list_elem_of_singleton; intros He;
        decompose [or] He;
        first [left; congruence | subst; simpl; tauto].
    + rewrite !edges_at_push_edge.
      repeat (destruct (decide (_ ∧ _)) as [[? ?]|?]);
        rewrite ?elem_of_app, ?list_elem_of_singleton; intros He;
        decompose [or] He;
        first [left; congruence | subst; simpl; tauto].
  - intros x y.
    destruct (new_edge_counts a b rev nr x y) as (H1 & H3 & _). cbv zeta in H1, H3.
    destruct ((a =? b) && xorb rev nr) eqn:Hself; simpl.
    + assert (HeqXY : (a, left_if rev) = (b, right_if nr)) by (by apply HXY).
      rewrite stored_count_push_edge, H1.
      rewrite (bool_decide_eq_false_2 (_ ≠ _ ∧ _)) by tauto. lia.
    + assert (HneXY : (a, left_if rev) ≠ (b, right_if nr)).
      { intros HX. apply HXY in HX. discriminate. }
      rewrite !stored_count_push_edge, H1, H3. do 2 f_equal.
      apply f_equal with (f := λ b : bool, if b then 1%nat else 0%nat).
      apply bool_decide_ext. tauto.
Qed.

Lemma search_inv_forward_visit source fml trav st next :
  search_inv source st → is_Some (graph st !! get_id (handle trav)) →
  search_inv source (forward_visit source fml trav st next).
Proof.
  intros (Hmax & Hedges & Hq & Hc & Hs) Htrav.
  destruct trav as [[a rev] d], next as [b nr]. unfold get_id in Htrav. simpl in Htrav.
  unfold forward_visit, get_id, get_is_reverse. simpl.
  pose proof (ensure_node_facts (graph st) b (get_sequence source (forward (b, nr))))
    as [Hg1e Hg1k]. cbv zeta in Hg1e, Hg1k.
  set (g1 := match graph st !! b with Some _ => graph st | None => _ end) in *.
  set (queue' := if _ && _ then _ else queue st).
  assert (Hq' : ∀ t, t ∈ items queue' → is_Some (g1 !! (handle t).1)).
  { subst queue'. intros t Ht. destruct (_ && _).
    - apply elem_of_items_emplace in Ht as [Ht| ->].
      + apply Hg1k. right. by apply Hq.
      + apply Hg1k. by left.
    - apply Hg1k. right. by apply Hq. }
  clearbody queue'.
  assert (Ha1 : is_Some (g1 !! a)) by (apply Hg1k; by right).
  assert (Hb1 : is_Some (g1 !! b)) by (apply Hg1k; by left).
  assert (Hmax1 : ∀ k, is_Some (g1 !! k) → k ≤ Z.max (max_id st) b).
  { intros k Hk. apply Hg1k in Hk as [->|Hk]; [lia|]. apply Hmax in Hk. lia. }
  assert (Hedges1 : ∀ c s e, e ∈ edges_at g1 c s → is_Some (g1 !! e.1)).
  { intros c s e. rewrite Hg1e. intros He. apply Hg1k. right. by eapply Hedges. }
  assert (Hc1 : ∀ x y, stored_count g1 x y = stored_count (graph st) x y).
  { by apply stored_count_ext. }
  clearbody g1.
  case_bool_decide as Hobs.
  - split; [exact Hmax1|]. split; [exact Hedges1|]. split; [exact Hq'|]. simpl. split.
    + intros x y. rewrite !Hc1. apply Hc.
    + intros c s. rewrite Hc1. apply Hs.
  - destruct (observe_edge_facts g1 a b rev nr Ha1 Hb1) as (Hk3 & He3 & Hc3).
    cbv zeta in Hk3, He3, Hc3.
    set (g3 := if negb _ then _ else _) in *. clearbody g3.
    split; [|split; [|split; [|split]]]; simpl.
    + intros k Hk. apply Hmax1. by apply Hk3.
    + intros c s e He. apply Hk3. apply He3 in He as [He|[->| ->]]; [by eapply Hedges1|done|done].
    + intros t Ht. apply Hk3. by apply Hq'.
    + intros x y. rewrite !Hc3, !Hc1, (Hc x y).
      pose proof (mirror_increments (a, left_if rev) (b, right_if nr) x y). lia.
    + intros c s. rewrite Hc3, Hc1.
      rewrite (bool_decide_eq_false_2 (_ ≠ _ ∧ _)) by (intros (? & ? & ?); congruence).
      destruct (Hs c s) as [Hle Hin].
      case_bool_decide as HX.
      * destruct HX as [[= -> ->] [= <- Hside]].
        assert (Hnr : nr = negb rev) by (by destruct rev, nr).
        subst nr. rewrite side_rev_left_if in Hin.
        destruct (decide (0 < stored_count (graph st) (a, left_if rev) (a, left_if rev))%nat)
          as [Hpos|Hzero]; [by apply Hin in Hpos|].
        split; [lia|]. intros _. rewrite side_rev_left_if. apply elem_of_union. left.
        by apply elem_of_singleton.
      * split; [lia|]. intros Hpos. apply elem_of_union. right. apply Hin. lia.
Qed.

Lemma search_inv_backward_visit source fml trav st next :
  search_inv source st → is_Some (graph st !! get_id (handle trav)) →
  search_inv source (backward_visit source fml trav st next).
Proof.
  intros Hst Htrav. rewrite backward_visit_forward_visit.
  apply search_inv_set_found_target. by apply search_inv_forward_visit.
Qed.

Lemma touch_present k (g : graph_t) : is_Some (g !! k) → touch k g = g.
Proof. intros [n Hn]. unfold touch. by rewrite Hn. Qed.

Lemma search_inv_foldl source (f : state → handle_t → state) (k : Z) l st :
  (∀ st h, search_frame st (f st h)) →
  (∀ st h, search_inv source st → is_Some (graph st !! k) → search_inv source (f st h)) →
  search_inv source st → is_Some (graph st !! k) →
  search_inv source (foldl f st l) ∧ is_Some (graph (foldl f st l) !! k).
Proof.
  intros Hframe Hf. revert st. induction l as [|h l IH]; intros st Hst Hk; simpl; [done|].
  apply IH; [by apply Hf|].
  destruct (Hframe st h) as (_ & _ & _ & _ & _ & _ & _ & Hg).
  by eapply grows_is_Some.
Qed.

Lemma search_inv_pop source st trav q :
  search_inv source st → pop (queue st) = Some (trav, q) →
  search_inv source (set_queue q st) ∧ is_Some (graph st !! get_id (handle trav)).
Proof.
  intros Hst Hpop. unfold pop in Hpop.
  destruct (extract_min (items (queue st))) as [[t r]|] eqn:Hmin; [|discriminate].
  inversion Hpop; subst; clear Hpop.
  destruct (extract_min_Some _ _ _ Hmin) as (Ht & Hr & _).
  pose proof Hst as (_ & _ & Hq & _). split; [|by apply Hq].
  apply search_inv_set_queue; [done|]. intros t' Ht'. simpl in Ht'. by apply Hq, Hr.
Qed.

Lemma search_inv_forward_loop source fml fuel st :
  search_inv source st →
  post (forward_loop source fml fuel st) (search_inv source) (λ _, True).
Proof.
  revert st. induction fuel as [|fuel IH]; intros st Hst; simpl.
  - by destruct (pop (queue st)) as [[trav q]|].
  - destruct (pop (queue st)) as [[trav q]|] eqn:Hpop; [|done].
    destruct (search_inv_pop _ _ _ _ Hst Hpop) as [Hst1 Htrav].
    apply IH. unfold forward_step.
    apply (search_inv_foldl source _ (get_id (handle trav))).
    + intros st0 h. apply search_frame_forward_visit.
    + intros st0 h. apply search_inv_forward_visit.
    + simpl. by rewrite touch_present.
    + simpl. by rewrite touch_present.
Qed.

Lemma search_inv_backward_loop source fml fuel st :
  search_inv source st →
  post (backward_loop source fml fuel st) (search_inv source) (λ _, True).
Proof.
  revert st. induction fuel as [|fuel IH]; intros st Hst; simpl.
  - by destruct (pop (queue st)) as [[trav q]|].
  - destruct (pop (queue st)) as [[trav q]|] eqn:Hpop; [|done].
    destruct (search_inv_pop _ _ _ _ Hst Hpop) as [Hst1 Htrav].
    apply IH. unfold backward_step.
    apply (search_inv_foldl source _ (get_id (handle trav))).
    + intros st0 h. apply search_frame_backward_visit.
    + intros st0 h. apply search_inv_backward_visit.
    + done.
    + done.
Qed.

Lemma edges_at_initial source p1 p2 T detect a s :
  edges_at (graph (initial_state source p1 p2 T detect)) a s = [].
Proof.
  unfold initial_state. simpl. unfold edges_at, node_at.
  destruct (negb _).
  - destruct (decide (id p2 = a)) as [<-|Hne2].
    + rewrite lookup_insert_eq. by destruct s.
    + rewrite lookup_insert_ne by done. destruct (decide (id p1 = a)) as [<-|Hne1].
      * rewrite lookup_singleton_eq. by destruct s.
      * rewrite lookup_singleton_ne by done. by destruct s.
  - destruct (decide (id p1 = a)) as [<-|Hne1].
    + rewrite lookup_singleton_eq. by destruct s.
    + rewrite lookup_singleton_ne by done. by destruct s.
Qed.

Lemma is_Some_initial source p1 p2 T detect k :
  is_Some (graph (initial_state source p1 p2 T detect) !! k) → k = id p1 ∨ k = id p2.
Proof.
  unfold initial_state. simpl. destruct (negb _).
  - destruct (decide (id p2 = k)) as [<-|Hne2]; [by right|].
    rewrite lookup_insert_ne by done. destruct (decide (id p1 = k)) as [<-|Hne1]; [by left|].
    rewrite lookup_singleton_ne by done. by intros [? ?].
  - destruct (decide (id p1 = k)) as [<-|Hne1]; [by left|].
    rewrite lookup_singleton_ne by done. by intros [? ?].
Qed.

Lemma search_inv_initial source p1 p2 T detect :
  search_inv source (initial_state source p1 p2 T detect).
Proof.
  assert (H0 : ∀ x y, stored_count (graph (initial_state source p1 p2 T detect)) x y = 0%nat).
  { intros x y. unfold stored_count. by rewrite edges_at_initial. }
  split; [|split; [|split; [|split]]].
  - intros k Hk. apply is_Some_initial in Hk.
    destruct (initial_state_facts source p1 p2 T detect) as (_ & _ & _ & -> & _). lia.
  - intros a s e. rewrite edges_at_initial. intros H. by apply elem_of_nil in H.
  - intros t Ht. simpl in Ht. by apply elem_of_nil in Ht.
  - intros x y. by rewrite !H0.
  - intros a s. rewrite H0. split; lia.
Qed.

Lemma search_inv_forward_search fuel source max_len p1 p2 T detect st :
  search_inv source st → is_Some (graph st !! id p1) →
  post (forward_search fuel source max_len p1 p2 T detect st) (search_inv source) (λ _, True).
Proof.
  intros Hst H1. unfold forward_search. case_bool_decide; [done|].
  apply search_inv_forward_loop. destruct (_ <=? _); [|done].
  apply search_inv_set_queue; [done|]. intros t Ht.
  pose proof Hst as (_ & _ & Hq & _).
  apply elem_of_items_emplace in Ht as [Ht| ->]; [by apply Hq|done].
Qed.

Lemma search_inv_backward_search fuel source max_len p1 p2 T detect st :
  search_inv source st → is_Some (graph st !! id p2) →
  post (backward_search fuel source max_len p1 p2 T detect st) (search_inv source) (λ _, True).
Proof.
  intros Hst H2. unfold backward_search. destruct (_ && _); [|done].
  apply search_inv_backward_loop. unfold backward_start.
  apply search_inv_set_skip_handles. apply search_inv_set_queue; [done|].
  intros t Ht. destruct (_ <=? _).
  - apply elem_of_items_emplace in Ht as [Ht| ->]; [|done].
    simpl in Ht. by apply elem_of_nil in Ht.
  - simpl in Ht. by apply elem_of_nil in Ht.
Qed.

(** The state after the two searches. *)
Lemma search_inv_after_searches fuel source max_len p1 p2 T detect st st' :
  forward_search fuel source max_len p1 p2 T detect (initial_state source p1 p2 T detect)
  = Ok st →
  backward_search fuel source max_len p1 p2 T detect st = Ok st' →
  search_inv source st ∧ search_inv source st'
  ∧ search_frame (initial_state source p1 p2 T detect) st'.
Proof.
  intros Hf Hb.
  destruct (initial_state_facts source p1 p2 T detect) as (_ & _ & _ & _ & Hi1 & Hi2 & _).
  pose proof (search_inv_forward_search fuel source max_len p1 p2 T detect _
                (search_inv_initial source p1 p2 T detect) Hi1) as Hpf.
  pose proof (search_frame_forward_search fuel source max_len p1 p2 T detect
                (initial_state source p1 p2 T detect)) as Hff.
  rewrite Hf in Hpf, Hff. simpl in Hpf, Hff.
  assert (H2 : is_Some (graph st !! id p2)).
  { destruct Hff as (_ & _ & _ & _ & _ & _ & _ & Hg). by eapply grows_is_Some. }
  pose proof (search_inv_backward_search fuel source max_len p1 p2 T detect st Hpf H2) as Hpb.
  pose proof (search_frame_backward_search fuel source max_len p1 p2 T detect st) as Hfb.
  rewrite Hb in Hpb, Hfb. simpl in Hpb, Hfb.
  split; [done|]. split; [done|]. by eapply search_frame_trans.
Qed.

(** ** The graph that the searches build *)

(** X5: whatever the source graph, the graph that the forward search builds
    and the graph after the backward search satisfy the edge-mirror
    invariant, and after both searches the two ends of every edge record it
    equally often. *)
Theorem searches_establish_edge_mirror
    (fuel : nat) (source : HandleGraph) (max_len : Z) (pos_1 pos_2 : pos_t)
    (include_terminal_positions detect_terminal_cycles : bool) (st st' : state) :
  forward_search fuel source max_len pos_1 pos_2 include_terminal_positions
    detect_terminal_cycles
    (initial_state source pos_1 pos_2 include_terminal_positions detect_terminal_cycles)
  = Ok st →
  backward_search fuel source max_len pos_1 pos_2 include_terminal_positions
    detect_terminal_cycles st = Ok st' →
  edge_mirror (graph st) ∧ edge_mirror (graph st') ∧ edge_mirror_counts (graph st').
Proof.
  intros Hf Hb.
  destruct (search_inv_after_searches _ _ _ _ _ _ _ _ _ Hf Hb) as (H1 & H2 & _).
  destruct H1 as (_ & _ & _ & Hc1 & Hs1). destruct H2 as (_ & _ & _ & Hc2 & Hs2).
  split; [|split; [|done]].
  - apply edge_mirror_of_counts; [done|]. intros a s. apply Hs1.
  - apply edge_mirror_of_counts; [done|]. intros a s. apply Hs2.
Qed.

Lemma searches_establish_edge_mirror_witness :
  ∃ st st' : state,
    forward_search 10 left_loop 100 (make_pos_t 1 false 0) (make_pos_t 2 false 0) false true
      (initial_state left_loop (make_pos_t 1 false 0) (make_pos_t 2 false 0) false true)
    = Ok st
    ∧ backward_search 10 left_loop 100 (make_pos_t 1 false 0) (make_pos_t 2 false 0)
        false true st = Ok st'
    ∧ edge_mirror (graph st) ∧ edge_mirror (graph st') ∧ edge_mirror_counts (graph st').
Proof.
  eexists _, _. split; [vm_compute; reflexivity|]. split; [vm_compute; reflexivity|].
  apply (searches_establish_edge_mirror 10 left_loop 100 (make_pos_t 1 false 0)
           (make_pos_t 2 false 0) false true).
  - vm_compute. reflexivity.
  - vm_compute. reflexivity.
Defined.

(** X6: after the two searches no node of the graph has an id above
    [max_id], so the ids that steps 3 and 4 give to new nodes are not in use,
    and every edge entry names a node of the graph. *)
Theorem searches_bound_the_ids
    (fuel : nat) (source : HandleGraph) (max_len : Z) (pos_1 pos_2 : pos_t)
    (include_terminal_positions detect_terminal_cycles : bool) (st st' : state) :
  forward_search fuel source max_len pos_1 pos_2 include_terminal_positions
    detect_terminal_cycles
    (initial_state source pos_1 pos_2 include_terminal_positions detect_terminal_cycles)
  = Ok st →
  backward_search fuel source max_len pos_1 pos_2 include_terminal_positions
    detect_terminal_cycles st = Ok st' →
  Z.max (id pos_1) (id pos_2) ≤ max_id st'
  ∧ (∀ k : Z, max_id st' < k → graph st' !! k = None)
  ∧ (∀ (a : Z) (s : side) (e : edge_t),
       e ∈ edges_at (graph st') a s → is_Some (graph st' !! e.1) ∧ e.1 ≤ max_id st').
Proof.
  intros Hf Hb.
  destruct (search_inv_after_searches _ _ _ _ _ _ _ _ _ Hf Hb) as (_ & H2 & Hframe).
  destruct H2 as (Hmax & Hedges & _).
  destruct Hframe as (_ & _ & _ & _ & _ & _ & Hle & _).
  destruct (initial_state_facts source pos_1 pos_2 include_terminal_positions
              detect_terminal_cycles) as (_ & _ & _ & Him & _).
  rewrite Him in Hle. split; [done|]. split.
  - intros k Hk. destruct (graph st' !! k) eqn:Hg; [|done].
    assert (k ≤ max_id st') by (apply Hmax; by rewrite Hg). lia.
  - intros a s e He. pose proof (Hedges a s e He) as Hin. split; [done|]. by apply Hmax.
Qed.

Lemma searches_bound_the_ids_witness :
  ∃ st st' : state,
    forward_search 10 left_loop 100 (make_pos_t 1 false 0) (make_pos_t 2 false 0) false true
      (initial_state left_loop (make_pos_t 1 false 0) (make_pos_t 2 false 0) false true)
    = Ok st
    ∧ backward_search 10 left_loop 100 (make_pos_t 1 false 0) (make_pos_t 2 false 0)
        false true st = Ok st'
    ∧ max_id st' = 3
    ∧ Z.max (id (make_pos_t 1 false 0)) (id (make_pos_t 2 false 0)) ≤ max_id st'
    ∧ (∀ k : Z, max_id st' < k → graph st' !! k = None)
    ∧ (∀ (a : Z) (s : side) (e : edge_t),
         e ∈ edges_at (graph st') a s → is_Some (graph st' !! e.1) ∧ e.1 ≤ max_id st').
Proof.
  eexists _, _. split; [vm_compute; reflexivity|]. split; [vm_compute; reflexivity|].
  split; [vm_compute; reflexivity|].
  eapply (searches_bound_the_ids 10 left_loop 100 (make_pos_t 1 false 0)
           (make_pos_t 2 false 0) false true).
  - vm_compute. reflexivity.
  - vm_compute. reflexivity.
Defined.

(** ** Both positions on one node, the second reachable from the first *)


Lemma for_each_edge_nil {S : Type} (sel : S → list edge_t)
    (body : nat → edge_t → S → res S) (s : S) :
  sel s = [] → for_each_edge sel body s = Ok s.
Proof. intros H. unfold for_each_edge. by rewrite H. Qed.


Lemma initial_graph_shared source p1 p2 T detect :
  id p1 = id p2 →
  graph (initial_state source p1 p2 T detect)
  = {[id p1 := LocalNode_of (get_sequence source (get_handle (id p1) false))]}.
Proof. intros Heq. unfold initial_state. simpl. by rewrite Heq, Z.eqb_refl. Qed.





(** ** The removal of tips *)

Lemma prune_no_additional_tips_erased fuel st st' :
  prune_no_additional_tips fuel st = Ok st' →
  ∃ t : tips_state,
    tips_erased (λ k, (k =? id (pos_1 st)) || (k =? id (pos_2 st))
                      || (k =? duplicate_node_1 st) || (k =? duplicate_node_2 st))
                (mkTips (graph st) (id_trans st)
                   ((λ n, Z.of_nat (length (edges_left n))) <$> graph st)
                   ((λ n, Z.of_nat (length (edges_right n))) <$> graph st) []) t
    ∧ st' = set_id_trans (t_id_trans t) (set_graph (drop_dangling (t_graph t)) st).
Proof.
  unfold prune_no_additional_tips. intros H. cbv zeta in H.
  pose proof (check_all_tips_erased
                (λ k, (k =? id (pos_1 st)) || (k =? id (pos_2 st))
                      || (k =? duplicate_node_1 st) || (k =? duplicate_node_2 st))
                fuel (map_to_list ((λ n, Z.of_nat (length (edges_left n))) <$> graph st)).*1
                (mkTips (graph st) (id_trans st)
                   ((λ n, Z.of_nat (length (edges_left n))) <$> graph st)
                   ((λ n, Z.of_nat (length (edges_right n))) <$> graph st) [])) as Hpost.
  destruct (check_all _ _ _ _) as [t|]; [|discriminate]. cbn [bind] in H.
  exists t. split; [exact Hpost|]. by inversion H.
Qed.

Lemma lookup_drop_dangling_Some (g : graph_t) (k : Z) (n' : LocalNode) :
  drop_dangling g !! k = Some n' →
  ∃ n, g !! k = Some n ∧ sequence n' = sequence n
       ∧ edges_left n'
         = List.filter (λ e : edge_t, bool_decide (is_Some (drop_dangling g !! e.1)))
                       (edges_left n)
       ∧ edges_right n'
         = List.filter (λ e : edge_t, bool_decide (is_Some (drop_dangling g !! e.1)))
                       (edges_right n).
Proof.
  unfold drop_dangling at 1. rewrite lookup_fmap. destruct (g !! k) as [n|]; [|done].
  simpl. intros [= <-]. exists n. split; [done|]. simpl. split; [done|].
  split; apply List.filter_ext; intros e; apply bool_decide_ext;
    by rewrite lookup_drop_dangling.
Qed.

(** X8: the removal of tips erases whole nodes: a node that is left has the
    sequence it had and, of its edge entries, those to nodes that are left, in
    their order; so no edge entry names an erased node. *)
Theorem tip_removal_leaves_no_dangling_edge (fuel : nat) (st st' : state) :
  prune_no_additional_tips fuel st = Ok st' →
  (∀ (k : Z) (n' : LocalNode), graph st' !! k = Some n' →
     ∃ n : LocalNode,
       graph st !! k = Some n ∧ sequence n' = sequence n
       ∧ edges_left n'
         = List.filter (λ e : edge_t, bool_decide (is_Some (graph st' !! e.1))) (edges_left n)
       ∧ edges_right n'
         = List.filter (λ e : edge_t, bool_decide (is_Some (graph st' !! e.1)))
                       (edges_right n))
  ∧ (∀ (a : Z) (s : side) (e : edge_t),
       e ∈ edges_at (graph st') a s → is_Some (graph st' !! e.1)).
Proof.
  intros H. apply prune_no_additional_tips_erased in H as (t & (Hsub & _) & ->). simpl.
  assert (H1 : ∀ (k : Z) (n' : LocalNode), drop_dangling (t_graph t) !! k = Some n' →
     ∃ n : LocalNode,
       graph st !! k = Some n ∧ sequence n' = sequence n
       ∧ edges_left n'
         = List.filter (λ e : edge_t, bool_decide (is_Some (drop_dangling (t_graph t) !! e.1)))
                       (edges_left n)
       ∧ edges_right n'
         = List.filter (λ e : edge_t, bool_decide (is_Some (drop_dangling (t_graph t) !! e.1)))
                       (edges_right n)).
  { intros k n' Hk. apply lookup_drop_dangling_Some in Hk as (n & Hn & Hrest).
    exists n. split; [|done]. by apply Hsub. }
  split; [exact H1|].
  intros a s e He. unfold edges_at, node_at in He.
  destruct (drop_dangling (t_graph t) !! a) as [n'|] eqn:Ha.
  - destruct (H1 a n' Ha) as (n & _ & _ & Hl & Hr). simpl in He.
    destruct s; simpl in He; [rewrite Hl in He|rewrite Hr in He];
      apply list_elem_of_In, List.filter_In in He as [_ He];
      by apply bool_decide_eq_true in He.
  - simpl in He. destruct s; by apply elem_of_nil in He.
Qed.

Lemma tip_removal_leaves_no_dangling_edge_witness :
  ∃ st' : state,
    prune_no_additional_tips 10 tip_state = Ok st'
    ∧ graph st' !! 4 = None
    ∧ (∀ (k : Z) (n' : LocalNode), graph st' !! k = Some n' →
         ∃ n : LocalNode,
           graph tip_state !! k = Some n ∧ sequence n' = sequence n
           ∧ edges_left n'
             = List.filter (λ e : edge_t, bool_decide (is_Some (graph st' !! e.1)))
                           (edges_left n)
           ∧ edges_right n'
             = List.filter (λ e : edge_t, bool_decide (is_Some (graph st' !! e.1)))
                           (edges_right n))
    ∧ (∀ (a : Z) (s : side) (e : edge_t),
         e ∈ edges_at (graph st') a s → is_Some (graph st' !! e.1)).
Proof.
  eexists. split; [vm_compute; reflexivity|]. split; [vm_compute; reflexivity|].
  apply (tip_removal_leaves_no_dangling_edge 10 tip_state). vm_compute. reflexivity.
Defined.

(** X9: the removal of tips erases neither the node of a position nor a
    duplicate made of one; it takes the entries of the erased nodes out of
    the translator and leaves the entries of the other nodes as they are. *)
Theorem tip_removal_keeps_the_ends (fuel : nat) (st st' : state) :
  prune_no_additional_tips fuel st = Ok st' →
  (∀ k : Z,
     k = id (pos_1 st) ∨ k = id (pos_2 st)
     ∨ k = duplicate_node_1 st ∨ k = duplicate_node_2 st →
     is_Some (graph st !! k) → is_Some (graph st' !! k))
  ∧ (∀ k v : Z, id_trans st' !! k = Some v → id_trans st !! k = Some v)
  ∧ (∀ k v : Z, id_trans st !! k = Some v → is_Some (graph st' !! k) →
       id_trans st' !! k = Some v)
  ∧ (∀ k : Z, is_Some (graph st !! k) → graph st' !! k = None → id_trans st' !! k = None).
Proof.
  intros H.
  apply prune_no_additional_tips_erased in H as (t & (Hsub & Hprot & Hs & Hk & He) & ->).
  simpl in *. split; [|split; [|split]].
  - intros k Hends Hin. apply lookup_drop_dangling. rewrite Hprot; [done|].
    destruct Hends as [->|[->|[->| ->]]]; rewrite Z.eqb_refl; by rewrite ?orb_true_r.
  - exact Hs.
  - intros k v Hv Hin. apply Hk; [done|]. by apply lookup_drop_dangling.
  - intros k Hin Hnone. apply He; [done|].
    destruct (t_graph t !! k) eqn:Hg; [|done].
    assert (is_Some (drop_dangling (t_graph t) !! k)) as [? ?]; [|congruence].
    apply lookup_drop_dangling. by rewrite Hg.
Qed.

Lemma tip_removal_keeps_the_ends_witness :
  ∃ st' : state,
    prune_no_additional_tips 10 tip_state = Ok st'
    ∧ (∀ k : Z,
         k = id (pos_1 tip_state) ∨ k = id (pos_2 tip_state)
         ∨ k = duplicate_node_1 tip_state ∨ k = duplicate_node_2 tip_state →
         is_Some (graph tip_state !! k) → is_Some (graph st' !! k))
    ∧ (∀ k v : Z, id_trans st' !! k = Some v → id_trans tip_state !! k = Some v)
    ∧ (∀ k v : Z, id_trans tip_state !! k = Some v → is_Some (graph st' !! k) →
         id_trans st' !! k = Some v)
    ∧ (∀ k : Z, is_Some (graph tip_state !! k) → graph st' !! k = None →
         id_trans st' !! k = None).
Proof.
  eexists. split; [vm_compute; reflexivity|].
  apply (tip_removal_keeps_the_ends 10 tip_state). vm_compute. reflexivity.
Defined.

(** ** Erasing one entry of an edge list *)

Lemma find_edge_Some e l i : find_edge e l = Some i → l !! i = Some e.
Proof.
  revert i. induction l as [|x l IH]; intros i; simpl; [done|].
  case_decide as Hx; [by intros [= <-]; subst|].
  destruct (find_edge e l) as [j|]; simpl; [|done]. intros [= <-]. by apply IH.
Qed.

Lemma find_edge_None e l : find_edge e l = None ↔ e ∉ l.
Proof.
  induction l as [|x l IH]; simpl.
  - split; [|done]. intros _ H. by apply elem_of_nil in H.
  - case_decide as Hx.
    + split; [done|]. intros H. exfalso. apply H. subst. left.
    + destruct (find_edge e l) as [j|]; simpl.
      * split; [done|]. intros H. exfalso. apply H. right.
        destruct IH as [_ IH]. destruct (decide (e ∈ l)) as [|Hn]; [done|].
        by specialize (IH Hn).
      * split; [|done]. intros _ H. apply elem_of_cons in H as [->|H]; [done|].
        by apply IH in H.
Qed.

Lemma count_edge_delete e' l i e :
  l !! i = Some e →
  count_edge e' l
  = (count_edge e' (delete i l) + if bool_decide (e = e') then 1 else 0)%nat.
Proof.
  revert i. induction l as [|x l IH]; intros i Hi; [done|].
  destruct i as [|i]; simpl in Hi.
  - inversion Hi; subst. simpl. rewrite count_edge_cons. lia.
  - simpl. rewrite !count_edge_cons, (IH i Hi). lia.
Qed.

(** [v.erase(std::find(v.begin(), v.end(), e))] takes one occurrence of [e]
    out of the list and leaves every other list as it is; it is undefined
    when [e] is not in the list. *)
Lemma erase_edge_spec k s e (g : graph_t) :
  match erase_edge k s e g with
  | Ok g' =>
    e ∈ edges_at g k s
    ∧ (∀ j, is_Some (g' !! j) ↔ j = k ∨ is_Some (g !! j))
    ∧ (∀ j, sequence (node_at g' j) = sequence (node_at g j))
    ∧ (∀ a s', (a, s') ≠ (k, s) → edges_at g' a s' = edges_at g a s')
    ∧ (∀ e', count_edge e' (edges_at g k s)
             = (count_edge e' (edges_at g' k s) + if bool_decide (e = e') then 1 else 0)%nat)
  | Err err => err = undefined_behaviour ∧ e ∉ edges_at g k s
  end.
Proof.
  unfold erase_edge. destruct (find_edge e (edges_at g k s)) as [i|] eqn:Hfind.
  - apply find_edge_Some in Hfind.
    split; [by eapply list_elem_of_lookup_2|]. split; [apply is_Some_set_edges|].
    split; [|split].
    + intros j. unfold set_edges. destruct (decide (k = j)) as [->|Hne].
      * by rewrite node_at_insert, sequence_with_edges.
      * by rewrite node_at_insert_ne.
    + intros a s' Hne. rewrite edges_at_set_edges.
      destruct (decide (_ ∧ _)) as [[-> ->]|?]; [done|done].
    + intros e'. rewrite edges_at_set_edges.
      destruct (decide (_ ∧ _)) as [_|Hn]; [|tauto]. by apply count_edge_delete.
  - split; [done|]. by apply find_edge_None.
Qed.

(** ** Loops that go through an edge list by index *)

Lemma for_edges_from_seq {S : Type} (sel : S → list edge_t) (len : nat)
    (body : nat → edge_t → S → res S) (I : nat → S → Prop) (n i : nat) (s : S) :
  (i + n = len)%nat → length (sel s) = len → I i s →
  (∀ j e s, (j < len)%nat → I j s → length (sel s) = len → sel s !! j = Some e →
     ∃ s', body j e s = Ok s' ∧ I (Datatypes.S j) s' ∧ length (sel s') = len) →
  ∃ s', for_edges_from sel len body (seq i n) s = Ok s' ∧ I len s' ∧ length (sel s') = len.
Proof.
  intros Hlen Hs HI Hbody. revert i s Hlen Hs HI.
  induction n as [|n IH]; intros i s Hlen Hs HI; simpl.
  - exists s. assert (i = len) as -> by lia. done.
  - destruct (sel s !! i) as [e|] eqn:He.
    2:{ apply lookup_ge_None in He. lia. }
    destruct (Hbody i e s) as (s' & Hb & HI' & Hs'); [lia|done|done|done|].
    rewrite Hb. cbn [bind]. rewrite decide_True by done.
    apply IH; [lia|done|done].
Qed.

Lemma for_each_edge_inv {S : Type} (sel : S → list edge_t)
    (body : nat → edge_t → S → res S) (I : nat → S → Prop) (s : S) :
  I O s →
  (∀ j e s', (j < length (sel s))%nat → I j s' → length (sel s') = length (sel s) →
     sel s' !! j = Some e →
     ∃ s'', body j e s' = Ok s'' ∧ I (Datatypes.S j) s''
            ∧ length (sel s'') = length (sel s)) →
  ∃ s', for_each_edge sel body s = Ok s' ∧ I (length (sel s)) s'.
Proof.
  intros HI Hbody. unfold for_each_edge.
  destruct (for_edges_from_seq sel (length (sel s)) body I (length (sel s)) 0 s)
    as (s' & Hs' & HI' & _); [lia|done|done|done|]. eauto.
Qed.

(** ** Counting the entries of a list towards a side *)

Lemma same_side_mirror (o : side) (r : bool) (k b : Z) :
  same_side (b, mirror_side o r) (k, o) = r.
Proof. unfold same_side, mirror_side. simpl. destruct r, o; by simpl. Qed.

Lemma same_side_to_mirror (o : side) (r : bool) (k b : Z) :
  same_side (k, o) (b, mirror_side o r) = r.
Proof. by rewrite same_side_sym, same_side_mirror. Qed.

Lemma toward_iff (X y : end_t) (e : edge_t) :
  e = (y.1, same_side X y) ↔ y = (e.1, mirror_side X.2 e.2).
Proof.
  destruct X as [k o], y as [b s], e as [c r]. unfold same_side, mirror_side. simpl.
  split.
  - intros [= -> ->]. f_equal. destruct o, s; simpl; by repeat case_bool_decide.
  - intros [= -> ->]. f_equal. destruct o, r; simpl; by repeat case_bool_decide.
Qed.

Lemma count_edge_take_S e l j x :
  l !! j = Some x →
  count_edge e (take (S j) l)
  = (count_edge e (take j l) + if bool_decide (x = e) then 1 else 0)%nat.
Proof.
  intros Hj. rewrite (take_S_r l j x Hj), count_edge_app. f_equal.
  unfold count_edge. simpl. by case_bool_decide.
Qed.

Lemma count_edge_take_le e l j : (count_edge e (take j l) ≤ count_edge e l)%nat.
Proof.
  rewrite <- (take_drop j l) at 2. rewrite count_edge_app. lia.
Qed.

Lemma count_edge_take_lt e l j :
  l !! j = Some e → (count_edge e (take j l) < count_edge e l)%nat.
Proof.
  intros Hj. pose proof (count_edge_take_le e l (S j)) as Hle.
  rewrite (count_edge_take_S e l j e Hj), bool_decide_eq_true_2 in Hle by done. lia.
Qed.

(** ** Erasing the backward references of a side *)

Lemma left_if_xorb_mirror (rev r : bool) :
  left_if (xorb rev r) = mirror_side (right_if rev) r.
Proof. by destruct rev, r. Qed.

Lemma right_if_xorb_mirror (rev r : bool) :
  right_if (xorb rev r) = mirror_side (left_if rev) r.
Proof. by destruct rev, r. Qed.

Lemma mirror_side_ne_self (o : side) (r : bool) (k b : Z) :
  (b =? k) && r = false → (b, mirror_side o r) ≠ (k, o).
Proof.
  intros H [= -> Ho]. rewrite Z.eqb_refl in H. simpl in H. subst r.
  by destruct o.
Qed.

Lemma erase_mirror_counts (k b : Z) (o : side) (r : bool) (g g' : graph_t) :
  erase_edge b (mirror_side o r) (k, r) g = Ok g' →
  ∀ y z : end_t,
    stored_count g y z
    = (stored_count g' y z
       + if bool_decide (y = (b, mirror_side o r) ∧ z = (k, o)) then 1 else 0)%nat.
Proof.
  intros H y z. pose proof (erase_edge_spec b (mirror_side o r) (k, r) g) as Hspec.
  rewrite H in Hspec. destruct Hspec as (_ & _ & _ & Hother & Hcount).
  rewrite !stored_count_count.
  destruct (decide (y = (b, mirror_side o r))) as [->|Hne].
  - simpl. rewrite Hcount. f_equal.
    apply f_equal with (f := λ c : bool, if c then 1%nat else 0%nat).
    apply bool_decide_ext. rewrite (toward_iff (b, mirror_side o r) z (k, r)). simpl.
    rewrite mirror_side_involutive. split; [by intros ->|by intros [_ ->]].
  - rewrite (Hother y.1 y.2) by (by destruct y).
    rewrite bool_decide_eq_false_2 by tauto. lia.
Qed.

Lemma erase_mirrors_loop (k : Z) (o : side) (body : nat → edge_t → graph_t → res graph_t)
    (g : graph_t) :
  (∀ i e g, body i e g = if negb ((e.1 =? k) && e.2)
                         then erase_edge e.1 (mirror_side o e.2) (k, e.2) g else Ok g) →
  (∀ e, e ∈ edges_at g k o → is_Some (g !! e.1)) →
  (∀ y, y ≠ (k, o) → (stored_count g (k, o) y ≤ stored_count g y (k, o))%nat) →
  ∃ g', for_each_edge (λ g : graph_t, edges_at g k o) body g = Ok g'
        ∧ mirrors_erased (k, o) g g'.
Proof.
  intros Hbody Hdang Hle.
  set (L := edges_at g k o).
  set (I := λ (j : nat) (gj : graph_t),
         (∀ i : Z, is_Some (gj !! i) ↔ is_Some (g !! i))
         ∧ (∀ i : Z, sequence (node_at gj i) = sequence (node_at g i))
         ∧ edges_at gj k o = L
         ∧ (∀ y z : end_t,
              stored_count g y z
              = (stored_count gj y z
                 + if bool_decide (z = (k, o) ∧ y ≠ (k, o))
                   then count_edge (y.1, same_side (k, o) y) (take j L) else 0)%nat)).
  destruct (for_each_edge_inv (λ g : graph_t, edges_at g k o) body I g)
    as (g' & Hg' & Hk' & Hs' & He' & Hc').
  - split; [done|]. split; [done|]. split; [done|].
    intros y z. rewrite take_0. unfold count_edge. simpl. case_bool_decide; lia.
  - intros j [b r] gj Hj (Hkj & Hsj & Hej & Hcj) Hlen Hlook. simpl in Hlook, Hlen.
    rewrite Hej in Hlook. rewrite Hbody. simpl.
    destruct ((b =? k) && r) eqn:Hself; simpl.
    + exists gj. split; [done|]. split; [|done].
      split; [done|]. split; [done|]. split; [done|].
      intros y z. rewrite Hcj. f_equal. case_bool_decide as Hz; [|done].
      rewrite (count_edge_take_S _ L j (b, r) Hlook).
      rewrite bool_decide_eq_false_2; [lia|].
      intros Heq. apply (toward_iff (k, o) y (b, r)) in Heq. simpl in Heq.
      apply andb_prop in Hself as [Hb Hr]. apply Z.eqb_eq in Hb. subst.
      simpl in Hz. tauto.
    + pose proof (mirror_side_ne_self o r k b Hself) as HneY.
      pose proof (erase_edge_spec b (mirror_side o r) (k, r) gj) as Hspec.
      pose proof (erase_mirror_counts k b o r gj) as Hcounts.
      destruct (erase_edge b (mirror_side o r) (k, r) gj) as [g1|err].
      * destruct Hspec as (_ & Hk1 & Hs1 & Ho1 & _).
        specialize (Hcounts g1 eq_refl).
        exists g1. split; [done|].
        assert (Hin : is_Some (g !! b)).
        { apply (Hdang (b, r)). by eapply list_elem_of_lookup_2. }
        split; [|simpl; rewrite (Ho1 k o); [by rewrite Hej|by intros Heq; apply HneY]].
        split; [|split; [|split]].
        -- intros i. rewrite Hk1, Hkj. split; [|by right]. intros [->|?]; done.
        -- intros i. by rewrite Hs1, Hsj.
        -- rewrite (Ho1 k o); [done|]. intros Heq. by apply HneY.
        -- intros y z. rewrite Hcj, Hcounts.
           rewrite (count_edge_take_S _ L j (b, r) Hlook).
           assert (Hind : (if bool_decide (y = (b, mirror_side o r) ∧ z = (k, o))
                           then 1 else 0)%nat
                          = (if bool_decide (z = (k, o) ∧ y ≠ (k, o))
                             then if bool_decide ((b, r) = (y.1, same_side (k, o) y))
                                  then 1 else 0
                             else 0)%nat).
           { destruct (decide (z = (k, o) ∧ y ≠ (k, o))) as [[-> Hy]|Hn].
             - rewrite (bool_decide_eq_true_2 ((k, o) = (k, o) ∧ y ≠ (k, o))) by done.
               apply f_equal with (f := λ c : bool, if c then 1%nat else 0%nat).
               apply bool_decide_ext. rewrite (toward_iff (k, o) y (b, r)). simpl.
               split; [by intros [-> _]|by intros ->].
             - rewrite (bool_decide_eq_false_2 (z = (k, o) ∧ y ≠ (k, o))) by done.
               rewrite bool_decide_eq_false_2; [done|].
               intros [-> ->]. apply Hn. by split. }
           rewrite Hind. repeat case_bool_decide; lia.
      * exfalso. destruct Hspec as [_ Hnot]. apply Hnot.
        apply count_edge_pos.
        pose proof (Hcj (b, mirror_side o r) (k, o)) as Hc.
        rewrite (bool_decide_eq_true_2 (_ ∧ _)) in Hc by done.
        rewrite !stored_count_count in Hc. simpl in Hc.
        rewrite same_side_mirror, same_side_to_mirror in Hc.
        pose proof (Hle (b, mirror_side o r) HneY) as Hle'.
        rewrite !stored_count_count in Hle'. simpl in Hle'.
        rewrite same_side_mirror, same_side_to_mirror in Hle'. fold L in Hle'.
        pose proof (count_edge_take_lt (b, r) L j Hlook). lia.
  - exists g'. split; [done|]. split; [done|]. split; [done|]. split; [done|].
    intros y z. specialize (Hc' y z). fold L in Hc'.
    rewrite firstn_all in Hc'.
    destruct (decide (z = (k, o) ∧ y ≠ (k, o))) as [[-> Hy]|Hn].
    + rewrite (bool_decide_eq_true_2 (_ ∧ _)) in Hc' by done.
      rewrite (bool_decide_eq_true_2 (_ ∧ _)) by done.
      rewrite (stored_count_count g (k, o) y). simpl. fold L. lia.
    + rewrite (bool_decide_eq_false_2 (_ ∧ _)) in Hc' by done.
      rewrite (bool_decide_eq_false_2 (_ ∧ _)) by done. lia.
Qed.

(** ** The sequences that the searches load *)

Lemma source_sequences_set_edges source k s l (g : graph_t) :
  is_Some (g !! k) → source_sequences source g → source_sequences source (set_edges k s l g).
Proof.
  intros [n Hn] Hg j m. unfold set_edges. destruct (decide (k = j)) as [->|Hne].
  - rewrite lookup_insert_eq. intros [= <-]. rewrite sequence_with_edges.
    rewrite (node_at_Some _ _ _ Hn). by apply Hg.
  - rewrite lookup_insert_ne by done. apply Hg.
Qed.

Lemma source_sequences_forward_visit source fml trav st next :
  is_Some (graph st !! get_id (handle trav)) →
  source_sequences source (graph st) →
  source_sequences source (graph (forward_visit source fml trav st next)).
Proof.
  intros Htrav Hg. destruct trav as [[a rev] d], next as [b nr].
  unfold get_id in Htrav. simpl in Htrav.
  unfold forward_visit, get_id, get_is_reverse. simpl.
  pose proof (ensure_node_facts (graph st) b (get_sequence source (forward (b, nr))))
    as [_ Hg1k]. cbv zeta in Hg1k.
  set (g1 := match graph st !! b with Some _ => graph st | None => _ end) in *.
  assert (Hg1 : source_sequences source g1).
  { subst g1. destruct (graph st !! b) eqn:Hb; [done|].
    intros j m. destruct (decide (b = j)) as [->|Hne].
    - rewrite lookup_insert_eq. by intros [= <-].
    - rewrite lookup_insert_ne by done. apply Hg. }
  assert (Ha1 : is_Some (g1 !! a)) by (apply Hg1k; by right).
  assert (Hb1 : is_Some (g1 !! b)) by (apply Hg1k; by left).
  clearbody g1. case_bool_decide; simpl; [done|].
  assert (H2 : source_sequences source (push_edge a (left_if rev) (b, xorb rev nr) g1)).
  { by apply source_sequences_set_edges. }
  destruct (negb _); [|done].
  apply source_sequences_set_edges; [|done]. apply is_Some_push_edge. by right.
Qed.

Lemma graph_backward_visit source fml trav st next :
  graph (backward_visit source fml trav st next) = graph (forward_visit source fml trav st next).
Proof. by rewrite backward_visit_forward_visit. Qed.

Lemma source_sequences_foldl source (f : state → handle_t → state) (k : Z) l st :
  (∀ st h, search_frame st (f st h)) →
  (∀ st h, is_Some (graph st !! k) → source_sequences source (graph st) →
           source_sequences source (graph (f st h))) →
  is_Some (graph st !! k) → source_sequences source (graph st) →
  source_sequences source (graph (foldl f st l)).
Proof.
  intros Hframe Hf. revert st. induction l as [|h l IH]; intros st Hk Hst; simpl; [done|].
  apply IH; [|by apply Hf].
  destruct (Hframe st h) as (_ & _ & _ & _ & _ & _ & _ & Hg). by eapply grows_is_Some.
Qed.

Lemma source_sequences_forward_loop source fml fuel st :
  search_inv source st → source_sequences source (graph st) →
  post (forward_loop source fml fuel st) (λ st', source_sequences source (graph st'))
       (λ _, True).
Proof.
  revert st. induction fuel as [|fuel IH]; intros st Hinv Hst; simpl.
  - by destruct (pop (queue st)) as [[trav q]|].
  - destruct (pop (queue st)) as [[trav q]|] eqn:Hpop; [|done].
    destruct (search_inv_pop _ _ _ _ Hinv Hpop) as [Hinv1 Htrav].
    apply IH.
    + unfold forward_step.
      apply (search_inv_foldl source _ (get_id (handle trav))).
      * intros st0 h. apply search_frame_forward_visit.
      * intros st0 h. apply search_inv_forward_visit.
      * simpl. by rewrite touch_present.
      * simpl. by rewrite touch_present.
    + unfold forward_step.
      apply (source_sequences_foldl source _ (get_id (handle trav))).
      * intros st0 h. apply search_frame_forward_visit.
      * intros st0 h. apply source_sequences_forward_visit.
      * simpl. by rewrite touch_present.
      * simpl. by rewrite touch_present.
Qed.

Lemma source_sequences_backward_loop source fml fuel st :
  search_inv source st → source_sequences source (graph st) →
  post (backward_loop source fml fuel st) (λ st', source_sequences source (graph st'))
       (λ _, True).
Proof.
  revert st. induction fuel as [|fuel IH]; intros st Hinv Hst; simpl.
  - by destruct (pop (queue st)) as [[trav q]|].
  - destruct (pop (queue st)) as [[trav q]|] eqn:Hpop; [|done].
    destruct (search_inv_pop _ _ _ _ Hinv Hpop) as [Hinv1 Htrav].
    apply IH.
    + unfold backward_step.
      apply (search_inv_foldl source _ (get_id (handle trav))); try done.
      * intros st0 h. apply search_frame_backward_visit.
      * intros st0 h. apply search_inv_backward_visit.
    + unfold backward_step.
      apply (source_sequences_foldl source _ (get_id (handle trav))); try done.
      * intros st0 h. apply search_frame_backward_visit.
      * intros st0 h Hk Hs. rewrite graph_backward_visit.
        by apply source_sequences_forward_visit.
Qed.

Lemma source_sequences_initial source p1 p2 T detect :
  source_sequences source (graph (initial_state source p1 p2 T detect)).
Proof.
  intros k n. unfold initial_state. simpl. destruct (negb _).
  - destruct (decide (id p2 = k)) as [<-|Hne2].
    + rewrite lookup_insert_eq. by intros [= <-].
    + rewrite lookup_insert_ne by done. destruct (decide (id p1 = k)) as [<-|Hne1].
      * rewrite lookup_singleton_eq. by intros [= <-].
      * by rewrite lookup_singleton_ne.
  - destruct (decide (id p1 = k)) as [<-|Hne1].
    + rewrite lookup_singleton_eq. by intros [= <-].
    + by rewrite lookup_singleton_ne.
Qed.

Lemma source_sequences_forward_search fuel source max_len p1 p2 T detect st :
  search_inv source st → is_Some (graph st !! id p1) →
  source_sequences source (graph st) →
  post (forward_search fuel source max_len p1 p2 T detect st)
       (λ st', source_sequences source (graph st')) (λ _, True).
Proof.
  intros Hinv H1 Hst. unfold forward_search. case_bool_decide; [done|].
  apply source_sequences_forward_loop; [|by destruct (_ <=? _)].
  destruct (_ <=? _); [|done].
  apply search_inv_set_queue; [done|]. intros t Ht.
  pose proof Hinv as (_ & _ & Hq & _).
  apply elem_of_items_emplace in Ht as [Ht| ->]; [by apply Hq|done].
Qed.

Lemma source_sequences_backward_search fuel source max_len p1 p2 T detect st :
  search_inv source st → is_Some (graph st !! id p2) →
  source_sequences source (graph st) →
  post (backward_search fuel source max_len p1 p2 T detect st)
       (λ st', source_sequences source (graph st')) (λ _, True).
Proof.
  intros Hinv H2 Hst. unfold backward_search. destruct (_ && _); [|done].
  apply source_sequences_backward_loop; [|done]. unfold backward_start.
  apply search_inv_set_skip_handles. apply search_inv_set_queue; [done|].
  intros t Ht. destruct (_ <=? _).
  - apply elem_of_items_emplace in Ht as [Ht| ->]; [|done].
    simpl in Ht. by apply elem_of_nil in Ht.
  - simpl in Ht. by apply elem_of_nil in Ht.
Qed.

Lemma source_sequences_after_searches fuel source max_len p1 p2 T detect st st' :
  forward_search fuel source max_len p1 p2 T detect (initial_state source p1 p2 T detect)
  = Ok st →
  backward_search fuel source max_len p1 p2 T detect st = Ok st' →
  source_sequences source (graph st').
Proof.
  intros Hf Hb.
  destruct (search_inv_after_searches _ _ _ _ _ _ _ _ _ Hf Hb) as (Hinv & _ & _).
  destruct (initial_state_facts source p1 p2 T detect) as (_ & _ & _ & _ & Hi1 & Hi2 & _).
  pose proof (source_sequences_forward_search fuel source max_len p1 p2 T detect _
                (search_inv_initial source p1 p2 T detect) Hi1
                (source_sequences_initial source p1 p2 T detect)) as Hpf.
  pose proof (search_frame_forward_search fuel source max_len p1 p2 T detect
                (initial_state source p1 p2 T detect)) as Hff.
  rewrite Hf in Hpf, Hff. simpl in Hpf, Hff.
  assert (H2 : is_Some (graph st !! id p2)).
  { destruct Hff as (_ & _ & _ & _ & _ & _ & _ & Hg). by eapply grows_is_Some. }
  pose proof (source_sequences_backward_search fuel source max_len p1 p2 T detect st
                Hinv H2 Hpf) as Hpb.
  by rewrite Hb in Hpb.
Qed.

(** ** Step 4 on separate nodes *)

Lemma elem_of_edges_stored (g : graph_t) (a : Z) (s : side) (e : edge_t) :
  e ∈ edges_at g a s ↔ (0 < stored_count g (a, s) (e.1, mirror_side s e.2))%nat.
Proof.
  rewrite stored_count_count. simpl. rewrite same_side_to_mirror.
  destruct e as [b r]. simpl. by rewrite count_edge_pos.
Qed.

Lemma edges_at_nil_stored (g : graph_t) (a : Z) (s : side) :
  (∀ z, stored_count g (a, s) z = 0%nat) → edges_at g a s = [].
Proof.
  intros H. destruct (edges_at g a s) as [|e l] eqn:Hl; [done|].
  assert (He : e ∈ edges_at g a s) by (rewrite Hl; left).
  apply elem_of_edges_stored in He. rewrite H in He. lia.
Qed.

Lemma edges_at_set_sequence k str (g : graph_t) a s :
  edges_at (set_sequence k str g) a s = edges_at g a s.
Proof.
  unfold edges_at, set_sequence. destruct (decide (k = a)) as [->|Hne].
  - rewrite node_at_insert. by destruct s.
  - by rewrite node_at_insert_ne.
Qed.

Lemma is_Some_set_sequence k str (g : graph_t) j :
  is_Some (set_sequence k str g !! j) ↔ j = k ∨ is_Some (g !! j).
Proof.
  unfold set_sequence. destruct (decide (k = j)) as [->|Hne].
  - rewrite lookup_insert_eq. split; eauto.
  - rewrite lookup_insert_ne by done. split; [by right|]. intros [?|?]; [congruence|done].
Qed.

Lemma node_at_set_sequence k str (g : graph_t) :
  sequence (node_at (set_sequence k str g) k) = str.
Proof. unfold set_sequence. by rewrite node_at_insert. Qed.

Lemma sequence_node_at_set_edges k s l (g : graph_t) j :
  sequence (node_at (set_edges k s l g) j) = sequence (node_at g j).
Proof.
  unfold set_edges. destruct (decide (k = j)) as [->|Hne].
  - by rewrite node_at_insert, sequence_with_edges.
  - by rewrite node_at_insert_ne.
Qed.

Lemma stored_count_clear k o (g : graph_t) y z :
  stored_count (set_edges k o [] g) y z
  = if bool_decide (y = (k, o)) then 0%nat else stored_count g y z.
Proof.
  rewrite !stored_count_count, edges_at_set_edges. destruct y as [a s]. simpl.
  destruct (decide (a = k ∧ s = o)) as [[-> ->]|Hne].
  - by rewrite bool_decide_eq_true_2.
  - rewrite bool_decide_eq_false_2; [done|]. intros [= -> ->]. tauto.
Qed.

Lemma no_dangling_stored (g g' : graph_t) :
  no_dangling g → (∀ j, is_Some (g' !! j) ↔ is_Some (g !! j)) →
  (∀ y z, (stored_count g' y z ≤ stored_count g y z)%nat) → no_dangling g'.
Proof.
  intros Hd Hk Hle a s e He. apply Hk. apply (Hd a s).
  apply elem_of_edges_stored. apply elem_of_edges_stored in He.
  pose proof (Hle (a, s) (e.1, mirror_side s e.2)). lia.
Qed.

Lemma cut_separate_spec T st :
  id (pos_1 st) ≠ id (pos_2 st) →
  is_Some (graph st !! id (pos_1 st)) → is_Some (graph st !! id (pos_2 st)) →
  edge_mirror_counts (graph st) → no_dangling (graph st) →
  0 ≤ offset (pos_1 st) < string_size (sequence (node_at (graph st) (id (pos_1 st)))) →
  string_size (sequence (node_at (graph st) (id (pos_1 st)))) < 2 ^ 64 →
  0 ≤ offset (pos_2 st) < string_size (sequence (node_at (graph st) (id (pos_2 st)))) →
  string_size (sequence (node_at (graph st) (id (pos_2 st)))) < 2 ^ 64 →
  ∃ g' : graph_t,
    cut_separate T st = Ok (set_graph g' st)
    ∧ cut_sides (id (pos_1 st), right_if (is_rev (pos_1 st)))
                (id (pos_2 st), left_if (is_rev (pos_2 st))) (graph st) g'
    ∧ trimmed_seq_right T (sequence (node_at (graph st) (id (pos_1 st))))
        (offset (pos_1 st)) (is_rev (pos_1 st))
      = Ok (sequence (node_at g' (id (pos_1 st))))
    ∧ trimmed_seq_left T (sequence (node_at (graph st) (id (pos_2 st))))
        (offset (pos_2 st)) (is_rev (pos_2 st))
      = Ok (sequence (node_at g' (id (pos_2 st))))
    ∧ (∀ j, j ≠ id (pos_1 st) → j ≠ id (pos_2 st) →
         sequence (node_at g' j) = sequence (node_at (graph st) j)).
Proof.
  intros Hne H1 H2 Hc Hd Ho1 Hs1 Ho2 Hs2. unfold cut_separate.
  set (id_1 := id (pos_1 st)) in *. set (id_2 := id (pos_2 st)) in *.
  set (rev_1 := is_rev (pos_1 st)) in *. set (rev_2 := is_rev (pos_2 st)) in *.
  set (g := graph st) in *.
  rewrite (touch_present id_1 g) by done. rewrite (touch_present id_2 g) by done.
  destruct (erase_mirrors_loop id_1 (right_if rev_1)
              (λ (i : nat) (edge : edge_t) (g : graph_t),
                 if negb ((edge.1 =? id_1) && edge.2)
                 then erase_edge edge.1 (left_if (xorb rev_1 edge.2)) (id_1, edge.2) g
                 else Ok g) g) as (g1 & Hl1 & Hk1 & Hq1 & He1 & Hc1).
  { intros i e g0. by rewrite left_if_xorb_mirror. }
  { intros e He. by eapply Hd. }
  { intros y _. by rewrite (Hc _ y). }
  rewrite Hl1. cbn [bind].
  assert (HneX : (id_1, right_if rev_1) ≠ (id_2, left_if rev_2)) by congruence.
  destruct (erase_mirrors_loop id_2 (left_if rev_2)
              (λ (i : nat) (edge : edge_t) (g : graph_t),
                 if negb ((edge.1 =? id_2) && edge.2)
                 then erase_edge edge.1 (right_if (xorb rev_2 edge.2)) (id_2, edge.2) g
                 else Ok g) g1) as (g2 & Hl2 & Hk2 & Hq2 & He2 & Hc2).
  { intros i e g0. by rewrite right_if_xorb_mirror. }
  { intros e He. apply Hk1. apply (Hd id_2 (left_if rev_2)).
    apply elem_of_edges_stored. apply elem_of_edges_stored in He.
    rewrite Hc1 in He. simpl in He. case_bool_decide as Hz; [|done].
    destruct Hz as [Hz _]. rewrite Hz. lia. }
  { intros y Hy. rewrite !Hc1.
    rewrite (bool_decide_eq_false_2 ((id_2, left_if rev_2) = _ ∧ _)) by (intros [? _]; congruence).
    pose proof (Hc (id_2, left_if rev_2) (id_1, right_if rev_1)).
    case_bool_decide; [lia|]. by rewrite (Hc _ y). }
  rewrite Hl2. cbn [bind].
  set (g3 := set_edges id_1 (right_if rev_1) [] g2).
  set (g4 := set_edges id_2 (left_if rev_2) [] g3).
  assert (Hseq4 : ∀ j, sequence (node_at g4 j) = sequence (node_at g j)).
  { intros j. subst g4 g3. by rewrite !sequence_node_at_set_edges, Hq2, Hq1. }
  destruct (trimmed_seq_right_ok T (sequence (node_at g id_1)) (offset (pos_1 st)) rev_1)
    as [seq_1 Hseq_1]; [done|done|].
  rewrite Hseq4, Hseq_1. cbn [bind].
  rewrite node_at_set_sequence_ne by done. rewrite Hseq4.
  destruct (trimmed_seq_left_ok T (sequence (node_at g id_2)) (offset (pos_2 st)) rev_2)
    as [seq_2 Hseq_2]; [done|done|].
  rewrite Hseq_2. cbn [bind].
  eexists. split; [reflexivity|]. split; [split|split; [|split]].
  - intros j. rewrite !is_Some_set_sequence. subst g4 g3.
    rewrite !is_Some_set_edges, Hk2, Hk1.
    split; [|by intros ?; repeat right]. intros [->|[->|[->|[->|?]]]]; done.
  - intros y z.
    rewrite (stored_count_ext g4) by (intros a s; by rewrite !edges_at_set_sequence).
    subst g4 g3. rewrite !stored_count_clear, Hc2, !Hc1.
    rewrite (bool_decide_eq_false_2 ((id_2, left_if rev_2) = _ ∧ _)) by (intros [? _]; congruence).
    pose proof (Hc y (id_2, left_if rev_2)) as Hsym2.
    pose proof (Hc y (id_1, right_if rev_1)) as Hsym1.
    repeat case_bool_decide; try lia; try tauto.
    all: try (exfalso; intuition congruence).
  - by rewrite node_at_set_sequence_ne, node_at_set_sequence by done.
  - by rewrite node_at_set_sequence.
  - intros j Hj1 Hj2. rewrite !node_at_set_sequence_ne by done. apply Hseq4.
Qed.

Lemma no_danglingb_sound (g : graph_t) : no_danglingb g = true → no_dangling g.
Proof.
  intros Hb a s e He. unfold edges_at, node_at in He.
  destruct (g !! a) as [n|] eqn:Ha.
  - unfold no_danglingb in Hb. rewrite forallb_forall in Hb.
    assert (Hin : In (a, n) (map_to_list g)).
    { apply list_elem_of_In. by apply elem_of_map_to_list. }
    apply Hb in Hin. rewrite forallb_forall in Hin. simpl in Hin, He.
    eapply bool_decide_eq_true_1. apply Hin. apply list_elem_of_In, elem_of_app.
    destruct s; [by left|by right].
  - simpl in He. destruct s; by apply elem_of_nil in He.
Qed.

Lemma cut_sides_counts X1 X2 (g g' : graph_t) :
  edge_mirror_counts g → cut_sides X1 X2 g g' → edge_mirror_counts g'.
Proof.
  intros Hc [_ Hs] x y. rewrite !Hs, (Hc x y).
  apply f_equal with (f := λ b : bool, if b then 0%nat else stored_count g y x).
  apply bool_decide_ext. tauto.
Qed.

Lemma cut_sides_no_dangling X1 X2 (g g' : graph_t) :
  no_dangling g → cut_sides X1 X2 g g' → no_dangling g'.
Proof.
  intros Hd [Hk Hs]. apply (no_dangling_stored g); [done|done|].
  intros y z. rewrite Hs. case_bool_decide; lia.
Qed.

Lemma cut_sides_tips X1 X2 (g g' : graph_t) :
  cut_sides X1 X2 g g' → edges_at g' X1.1 X1.2 = [] ∧ edges_at g' X2.1 X2.2 = [].
Proof.
  intros [_ Hs]. split; apply edges_at_nil_stored; intros z.
  - destruct X1 as [a s]. simpl. rewrite Hs. by rewrite bool_decide_eq_true_2 by (by left).
  - destruct X2 as [a s]. simpl. rewrite Hs.
    by rewrite bool_decide_eq_true_2 by (by right; left).
Qed.

(** X10: step 4 on separate nodes, when the two ends of every edge record
    it equally often, no entry dangles and the offsets are inside the two
    sequences: the step returns; the side of each position that faces away
    from the other one has no edge left, and no other list has an entry
    towards it; every other entry is kept; the two nodes get the trimmed
    sequences and every other node keeps its own; and the graph is again
    mirrored and without dangling entries. *)
Theorem cut_separate_makes_tips (include_terminal_positions : bool) (st : state) :
  id (pos_1 st) ≠ id (pos_2 st) →
  is_Some (graph st !! id (pos_1 st)) → is_Some (graph st !! id (pos_2 st)) →
  edge_mirror_counts (graph st) → no_dangling (graph st) →
  0 ≤ offset (pos_1 st) < string_size (sequence (node_at (graph st) (id (pos_1 st)))) →
  string_size (sequence (node_at (graph st) (id (pos_1 st)))) < 2 ^ 64 →
  0 ≤ offset (pos_2 st) < string_size (sequence (node_at (graph st) (id (pos_2 st)))) →
  string_size (sequence (node_at (graph st) (id (pos_2 st)))) < 2 ^ 64 →
  ∃ st' : state,
    cut_separate include_terminal_positions st = Ok st'
    ∧ id_trans st' = id_trans st ∧ pos_1 st' = pos_1 st ∧ pos_2 st' = pos_2 st
    ∧ edges_at (graph st') (id (pos_1 st)) (right_if (is_rev (pos_1 st))) = []
    ∧ edges_at (graph st') (id (pos_2 st)) (left_if (is_rev (pos_2 st))) = []
    ∧ cut_sides (id (pos_1 st), right_if (is_rev (pos_1 st)))
                (id (pos_2 st), left_if (is_rev (pos_2 st))) (graph st) (graph st')
    ∧ edge_mirror_counts (graph st') ∧ no_dangling (graph st')
    ∧ trimmed_seq_right include_terminal_positions
        (sequence (node_at (graph st) (id (pos_1 st)))) (offset (pos_1 st)) (is_rev (pos_1 st))
      = Ok (sequence (node_at (graph st') (id (pos_1 st))))
    ∧ trimmed_seq_left include_terminal_positions
        (sequence (node_at (graph st) (id (pos_2 st)))) (offset (pos_2 st)) (is_rev (pos_2 st))
      = Ok (sequence (node_at (graph st') (id (pos_2 st))))
    ∧ (∀ j : Z, j ≠ id (pos_1 st) → j ≠ id (pos_2 st) →
         sequence (node_at (graph st') j) = sequence (node_at (graph st) j)).
Proof.
  intros Hne H1 H2 Hc Hd Ho1 Hs1 Ho2 Hs2.
  destruct (cut_separate_spec include_terminal_positions st Hne H1 H2 Hc Hd Ho1 Hs1 Ho2 Hs2)
    as (g' & Hcut & Hsides & Hr & Hl & Hseq).
  exists (set_graph g' st). simpl.
  destruct (cut_sides_tips _ _ _ _ Hsides) as [Ht1 Ht2].
  repeat (split; [done|]).
  split; [by eapply cut_sides_counts|].
  split; [by eapply cut_sides_no_dangling|]. done.
Qed.

Lemma cut_separate_makes_tips_witness :
  ∃ st' : state,
    cut_separate false cut_state = Ok st'
    ∧ edges_at (graph st') 2 Left = []
    ∧ edges_at (graph st') 1 Right = []
    ∧ edges_at (graph st') 2 Right = [(3, false); (4, false)].
Proof.
  destruct (cut_separate_makes_tips false cut_state)
    as (st' & Hcut & _ & _ & _ & Ht1 & _).
  - vm_compute. discriminate.
  - vm_compute. eauto.
  - vm_compute. eauto.
  - apply edge_mirror_countsb_sound. vm_compute. reflexivity.
  - apply no_danglingb_sound. vm_compute. reflexivity.
  - vm_compute. intuition congruence.
  - vm_compute. reflexivity.
  - vm_compute. intuition congruence.
  - vm_compute. reflexivity.
  - exists st'. split; [exact Hcut|].
    vm_compute in Hcut. inversion Hcut. subst st'. clear.
    split; [vm_compute; reflexivity|]. split; vm_compute; reflexivity.
Defined.

(** ** Positions on separate nodes, without cycle detection and pruning *)

Lemma elem_of_edge_emit_stored (g : graph_t) (e : Edge) :
  e ∈ edge (emit g empty_graph) →
  (0 < stored_count g (from_end e) (to_end_of e))%nat
  ∨ (0 < stored_count g (to_end_of e) (from_end e))%nat.
Proof.
  intros He.
  assert (Hpos : (0 < emitted_count (emit g empty_graph) (from_end e) (to_end_of e))%nat).
  { unfold emitted_count.
    assert (Hin : In e (List.filter (joins (from_end e) (to_end_of e))
                          (edge (emit g empty_graph)))).
    { apply List.filter_In. split; [by apply list_elem_of_In|].
      unfold joins. rewrite (bool_decide_eq_true_2 (from_end e = from_end e)) by done.
      by rewrite (bool_decide_eq_true_2 (to_end_of e = to_end_of e)) by done. }
    destruct (List.filter _ _); [done|simpl; lia]. }
  rewrite emitted_count_either in Hpos. destruct (emits _ _); [by left|by right].
Qed.

Lemma elem_of_node_emit (g : graph_t) (n : Node) :
  n ∈ node (emit g empty_graph) →
  ∃ m : LocalNode, g !! node_id n = Some m ∧ node_sequence n = sequence m.
Proof.
  rewrite node_emit. simpl. intros Hn.
  apply list_elem_of_fmap in Hn as ([k m] & -> & Hkm).
  apply elem_of_map_to_list in Hkm. exists m. done.
Qed.

Lemma separate_nodes_after_search fuel source max_len p1 p2 T st :
  valid_pos source p1 → valid_pos source p2 → id p1 ≠ id p2 →
  search_inv source st → source_sequences source (graph st) →
  search_frame (initial_state source p1 p2 T false) st →
  ∃ g' : graph_t,
    after_search fuel source max_len p1 p2 T false false false false st
    = Ok (set_graph g' (set_next_id (max_id st + 1) st))
    ∧ cut_sides (id p1, right_if (is_rev p1)) (id p2, left_if (is_rev p2)) (graph st) g'
    ∧ trimmed_seq_right T (get_sequence source (id p1, false)) (offset p1) (is_rev p1)
      = Ok (sequence (node_at g' (id p1)))
    ∧ trimmed_seq_left T (get_sequence source (id p2, false)) (offset p2) (is_rev p2)
      = Ok (sequence (node_at g' (id p2)))
    ∧ (∀ j, j ≠ id p1 → j ≠ id p2 → is_Some (g' !! j) →
         sequence (node_at g' j) = get_sequence source (j, false)).
Proof.
  intros [Ho1 Hs1] [Ho2 Hs2] Hne Hinv Hseq Hframe.
  destruct (initial_state_facts source p1 p2 T false)
    as (_ & Hi1 & Hi2 & _ & Hin1 & Hin2 & _).
  destruct Hframe as (_ & Hp1 & Hp2 & _ & _ & _ & _ & Hg).
  rewrite Hi1 in Hp1. rewrite Hi2 in Hp2. clear Hi1 Hi2. subst p1 p2.
  pose proof (grows_is_Some _ _ _ _ Hg Hin1) as H1.
  pose proof (grows_is_Some _ _ _ _ Hg Hin2) as H2.
  assert (Hq1 : sequence (node_at (graph st) (id (pos_1 st)))
                = get_sequence source (id (pos_1 st), false)).
  { destruct H1 as [n Hn]. rewrite (node_at_Some _ _ _ Hn). by apply Hseq. }
  assert (Hq2 : sequence (node_at (graph st) (id (pos_2 st)))
                = get_sequence source (id (pos_2 st), false)).
  { destruct H2 as [n Hn]. rewrite (node_at_Some _ _ _ Hn). by apply Hseq. }
  destruct Hinv as (_ & Hd & _ & Hc & _).
  destruct (cut_separate_spec T (set_next_id (max_id st + 1) st))
    as (g' & Hcut & Hsides & Hr & Hl & Hother); simpl;
    try done; try (by rewrite ?Hq1, ?Hq2).
  simpl in Hcut, Hsides, Hr, Hl, Hother.
  exists g'. split; [|split; [exact Hsides|split; [by rewrite <- Hq1|split; [by rewrite <- Hq2|]]]].
  - unfold after_search, backward_search, duplication. cbn [andb bind].
    assert (Hcolo : colo (pos_1 st) (pos_2 st) T = SeparateNodes).
    { unfold colo, colocation. by rewrite (proj2 (Z.eqb_neq _ _) Hne). }
    rewrite Hcolo. cbn [cut_nodes]. rewrite Hcut. by cbn [bind prune].
  - intros j Hj1 Hj2 Hj. rewrite Hother by done.
    destruct Hsides as [Hk _]. apply Hk in Hj as [n Hn].
    rewrite (node_at_Some _ _ _ Hn). by apply Hseq.
Qed.

(** X11: positions on two different nodes, without cycle detection and
    pruning, on a source graph whose handles are listed and with fuel for
    one turn per handle: the call returns.  The translator maps every id to
    itself; the node of [pos_1] carries the part of its sequence after the
    position, the node of [pos_2] the part before the position, and every
    other node of the output the forward sequence of the source node; and no
    edge of the output is on the side of [pos_1]'s node that the search does
    not leave through, nor on the side of [pos_2]'s node that it does not
    enter through. *)
Theorem separate_nodes_extraction
    (fuel : nat) (source : HandleGraph) (max_len : Z) (pos_1 pos_2 : pos_t)
    (include_terminal_positions : bool) (g : Graph) (l : list handle_t) :
  valid_pos source pos_1 → valid_pos source pos_2 → id pos_1 ≠ id pos_2 →
  handles_listed source l → get_handle (id pos_1) (is_rev pos_1) ∈ l →
  (length l ≤ fuel)%nat →
  node g = [] → edge g = [] →
  ∃ (trans : gmap Z Z) (out : Graph),
    extract_connecting_graph fuel source max_len pos_1 pos_2 include_terminal_positions
      false false false false g = Returned trans out
    ∧ (∀ k v : Z, trans !! k = Some v → v = k)
    ∧ (∀ n : Node, n ∈ node out →
         (node_id n = id pos_1 →
          trimmed_seq_right include_terminal_positions
            (get_sequence source (id pos_1, false)) (offset pos_1) (is_rev pos_1)
          = Ok (node_sequence n))
         ∧ (node_id n = id pos_2 →
            trimmed_seq_left include_terminal_positions
              (get_sequence source (id pos_2, false)) (offset pos_2) (is_rev pos_2)
            = Ok (node_sequence n))
         ∧ (node_id n ≠ id pos_1 → node_id n ≠ id pos_2 →
            node_sequence n = get_sequence source (node_id n, false)))
    ∧ (∀ e : Edge, e ∈ edge out →
         from_end e ≠ (id pos_1, right_if (is_rev pos_1))
         ∧ to_end_of e ≠ (id pos_1, right_if (is_rev pos_1))
         ∧ from_end e ≠ (id pos_2, left_if (is_rev pos_2))
         ∧ to_end_of e ≠ (id pos_2, left_if (is_rev pos_2))).
Proof.
  intros Hv1 Hv2 Hne Hl Hstart Hfuel Hn He.
  set (T := include_terminal_positions).
  destruct (forward_search_returns fuel source max_len pos_1 pos_2 T false (list_to_set l))
    as [st Hf].
  { by apply handles_listed_closed. }
  { by apply elem_of_list_to_set. }
  { pose proof (size_list_to_set_le l). lia. }
  assert (Hb : backward_search fuel source max_len pos_1 pos_2 T false st = Ok st) by done.
  destruct (search_inv_after_searches _ _ _ _ _ _ _ _ _ Hf Hb) as (_ & Hinv & Hframe).
  pose proof (source_sequences_after_searches _ _ _ _ _ _ _ _ _ Hf Hb) as Hseq.
  unfold extract_connecting_graph, node_size, edge_size. rewrite Hn, He. simpl.
  rewrite Hf. rewrite (empty_graph_eta g Hn He).
  destruct (found_target st); simpl.
  2:{ eexists _, _. split; [reflexivity|].
      destruct Hframe as (Htr & _).
      destruct (initial_state_facts source pos_1 pos_2 T false) as (Hi & _).
      rewrite Htr, Hi. split; [intros k v Hk; by rewrite lookup_empty in Hk|].
      split; intros x Hx; by apply elem_of_nil in Hx. }
  destruct (separate_nodes_after_search fuel source max_len pos_1 pos_2 T st
              Hv1 Hv2 Hne Hinv Hseq Hframe) as (g' & Has & Hsides & Hr & Hleft & Hother).
  rewrite Has. simpl.
  eexists _, _. split; [reflexivity|].
  assert (Htr : id_trans st = ∅).
  { destruct Hframe as (Htr & _).
    destruct (initial_state_facts source pos_1 pos_2 T false) as (Hi & _). congruence. }
  rewrite Htr. split; [|split].
  - intros k v. rewrite lookup_complete_translator, lookup_empty.
    case_bool_decide; [|done]. by intros [= <-].
  - intros n Hin. apply elem_of_node_emit in Hin as (m & Hm & ->).
    rewrite <- (node_at_Some _ _ _ Hm).
    split; [by intros ->|]. split; [by intros ->|].
    intros H1 H2. apply Hother; [done|done|by rewrite Hm].
  - intros e Hin. destruct Hsides as [_ Hs].
    apply elem_of_edge_emit_stored in Hin.
    rewrite !Hs in Hin.
    repeat split; intros Heq; destruct Hin as [Hin|Hin];
      rewrite bool_decide_eq_true_2 in Hin by tauto; lia.
Qed.

Lemma separate_nodes_extraction_witness :
  ∃ (trans : gmap Z Z) (out : Graph),
    extract_connecting_graph 10 chain 20 (make_pos_t 1 false 1) (make_pos_t 3 false 2)
      false false false false false empty_graph = Returned trans out
    ∧ node out = [mkNode 3 "TT"; mkNode 2 "GGGG"; mkNode 1 "GT"].
Proof.
  destruct (separate_nodes_extraction 10 chain 20 (make_pos_t 1 false 1)
              (make_pos_t 3 false 2) false empty_graph
              [(1, false); (2, false); (3, false); (3, true); (2, true); (1, true)])
    as (trans & out & Hex & _).
  - split; vm_compute; [intuition congruence|reflexivity].
  - split; vm_compute; [intuition congruence|reflexivity].
  - vm_compute. discriminate.
  - apply (bool_decide_unpack _). vm_compute. exact I.
  - apply (bool_decide_unpack _). vm_compute. exact I.
  - simpl. lia.
  - reflexivity.
  - reflexivity.
  - exists trans, out. split; [exact Hex|].
    vm_compute in Hex. inversion Hex. reflexivity.
Defined.

(** ** Step 4 on a shared node *)

(** A loop whose body always succeeds and keeps the length of the list that
    is gone through runs to its end. *)
Lemma for_each_edge_total {S : Type} (sel : S → list edge_t)
    (body : nat → edge_t → S → res S) (I : S → Prop) (s : S) :
  I s →
  (∀ j e s', I s' → ∃ s'', body j e s' = Ok s'' ∧ I s'' ∧ length (sel s'') = length (sel s')) →
  ∃ s', for_each_edge sel body s = Ok s' ∧ I s'.
Proof.
  intros HI Hbody.
  destruct (for_each_edge_inv sel body (λ _ s', I s') s) as (s' & Hs' & HI'); [done| |eauto].
  intros j e s' _ Hs' Hlen _.
  destruct (Hbody j e s' Hs') as (s'' & Hb & HI'' & Hlen''). exists s''.
  split; [done|]. split; [done|]. congruence.
Qed.

Lemma length_retarget_first i j l : length (retarget_first i j l) = length l.
Proof.
  induction l as [|e l IH]; simpl; [done|]. destruct (e.1 =? i); simpl; [done|].
  by rewrite IH.
Qed.

Lemma length_edges_at_set_edges_same k s l (g : graph_t) a s' :
  length l = length (edges_at g k s) →
  length (edges_at (set_edges k s l g) a s') = length (edges_at g a s').
Proof.
  intros Hl. rewrite edges_at_set_edges. destruct (decide (_ ∧ _)) as [[-> ->]|?]; done.
Qed.

Lemma cut_shared_unreachable_spec T st :
  id (pos_2 st) = id (pos_1 st) →
  is_Some (graph st !! id (pos_1 st)) → graph st !! next_id st = None →
  no_dangling (graph st) →
  0 ≤ offset (pos_1 st) < string_size (sequence (node_at (graph st) (id (pos_1 st)))) →
  0 ≤ offset (pos_2 st) < string_size (sequence (node_at (graph st) (id (pos_1 st)))) →
  string_size (sequence (node_at (graph st) (id (pos_1 st)))) < 2 ^ 64 →
  ∃ st', cut_shared_unreachable T st = Ok st'
    ∧ id_trans st' = <[next_id st := id (pos_1 st)]> (id_trans st)
    ∧ (∀ j, is_Some (graph st' !! j) ↔ j = next_id st ∨ is_Some (graph st !! j))
    ∧ trimmed_seq_right T (sequence (node_at (graph st) (id (pos_1 st))))
        (offset (pos_1 st)) (is_rev (pos_1 st))
      = Ok (sequence (node_at (graph st')
                        (if is_rev (pos_1 st) then id (pos_1 st) else next_id st)))
    ∧ trimmed_seq_left T (sequence (node_at (graph st) (id (pos_1 st))))
        (offset (pos_2 st)) (is_rev (pos_2 st))
      = Ok (sequence (node_at (graph st')
                        (if is_rev (pos_1 st) then next_id st else id (pos_1 st))))
    ∧ (∀ j, j ≠ id (pos_1 st) → j ≠ next_id st →
         sequence (node_at (graph st') j) = sequence (node_at (graph st) j)).
Proof.
  intros Hid Hin Hfresh Hd Ho1 Ho2 Hsz. unfold cut_shared_unreachable.
  rewrite Hid.
  set (id_1 := id (pos_1 st)) in *. set (new_id := next_id st) in *.
  set (s0 := sequence (node_at (graph st) id_1)) in *.
  assert (Hne : new_id ≠ id_1).
  { intros Heq. rewrite Heq in Hfresh. rewrite Hfresh in Hin. by destruct Hin. }
  rewrite (touch_present id_1 (graph st)) by done. fold s0.
  rewrite (edges_at_insert_fresh new_id s0 (graph st)) by done.
  set (moved := edges_at (graph st) id_1 Right).
  set (g0 := set_edges new_id Right moved _).
  assert (Hk0 : ∀ j, is_Some (g0 !! j) ↔ j = new_id ∨ is_Some (graph st !! j)).
  { intros j. subst g0. rewrite !is_Some_set_edges.
    destruct (decide (j = new_id)) as [->|Hj].
    - rewrite lookup_insert_eq. split; eauto.
    - rewrite lookup_insert_ne by done. split; [|by intros [?|?]; [left|right; right]].
      intros [?|[->|?]]; [by left|by right|by right]. }
  assert (Hs0 : ∀ j, sequence (node_at g0 j)
                     = if decide (j = new_id) then s0 else sequence (node_at (graph st) j)).
  { intros j. subst g0. rewrite !sequence_node_at_set_edges.
    destruct (decide (j = new_id)) as [->|Hj]; [by rewrite node_at_insert|].
    by rewrite node_at_insert_ne. }
  assert (He0 : edges_at g0 new_id Right = moved).
  { subst g0. rewrite edges_at_set_edges. by rewrite decide_True. }
  clearbody g0.
  destruct (for_each_edge_inv (λ g : graph_t, edges_at g new_id Right)
              (λ (i : nat) (edge : edge_t) (g : graph_t),
                 Ok (set_edges edge.1 (right_if edge.2)
                       (retarget_first id_1 new_id (edges_at g edge.1 (right_if edge.2))) g))
              (λ (_ : nat) (g : graph_t),
                 (∀ j, is_Some (g !! j) ↔ is_Some (g0 !! j))
                 ∧ (∀ j, sequence (node_at g j) = sequence (node_at g0 j))
                 ∧ edges_at g new_id Right = moved) g0)
    as (g1 & Hg1 & Hk1 & Hs1 & _); [done| |].
  { intros j e g _ (Hk & Hs & He) _ Hlook. cbv beta in Hlook. rewrite He in Hlook.
    assert (Hpres : is_Some (graph st !! e.1)).
    { apply (Hd id_1 Right). by eapply list_elem_of_lookup_2. }
    assert (He1 : e.1 ≠ new_id).
    { intros Heq. rewrite Heq, Hfresh in Hpres. by destruct Hpres. }
    eexists. split; [reflexivity|]. split; [split; [|split]|].
    - intros i. rewrite is_Some_set_edges, Hk. split; [|by right].
      intros [->|?]; [|done]. apply Hk0. by right.
    - intros i. by rewrite sequence_node_at_set_edges.
    - rewrite edges_at_set_edges. rewrite decide_False; [done|]. intros [? _]. congruence.
    - cbv beta. rewrite He0. rewrite edges_at_set_edges.
      rewrite decide_False; [by rewrite He|]. intros [? _]. congruence. }
  rewrite Hg1. cbn [bind].
  assert (Hq1 : sequence (node_at g1 id_1) = s0).
  { rewrite Hs1, Hs0. by rewrite decide_False. }
  assert (Hq2 : sequence (node_at g1 new_id) = s0).
  { rewrite Hs1, Hs0. by rewrite decide_True. }
  assert (Hother : ∀ a b sa sb j, j ≠ id_1 → j ≠ new_id → (a = id_1 ∨ a = new_id) →
            (b = id_1 ∨ b = new_id) →
            sequence (node_at (set_sequence a sa (set_sequence b sb g1)) j)
            = sequence (node_at (graph st) j)).
  { intros a b sa sb j Hj1 Hj2 Ha Hb.
    rewrite !node_at_set_sequence_ne by (destruct Ha, Hb; congruence).
    rewrite Hs1, Hs0. by rewrite decide_False. }
  assert (Hkeys : ∀ a b sa sb j, (a = id_1 ∧ b = new_id ∨ a = new_id ∧ b = id_1) →
            is_Some (set_sequence a sa (set_sequence b sb g1) !! j)
            ↔ j = new_id ∨ is_Some (graph st !! j)).
  { intros a b sa sb j Hab. rewrite !is_Some_set_sequence, Hk1, Hk0.
    split.
    - intros [->|[->|?]]; [|destruct Hab as [[-> ->]|[-> ->]]; by eauto|done].
      destruct Hab as [[-> ->]|[-> ->]]; by eauto.
    - intros ?. by right; right. }
  destruct (trimmed_seq_right_ok T s0 (offset (pos_1 st)) (is_rev (pos_1 st)))
    as [r Hr]; [done|done|].
  destruct (trimmed_seq_left_ok T s0 (offset (pos_2 st)) (is_rev (pos_2 st)))
    as [l Hl]; [done|done|].
  destruct (is_rev (pos_1 st)) eqn:Hrev.
  - rewrite Hq1, Hr. cbn [bind]. rewrite node_at_set_sequence_ne by done.
    rewrite Hq2, Hl. cbn [bind].
    eexists. split; [reflexivity|]. simpl. split; [done|].
    split; [intros j; apply Hkeys; by right|].
    split; [by rewrite node_at_set_sequence_ne, node_at_set_sequence by done|].
    split; [by rewrite node_at_set_sequence|].
    intros j Hj1 Hj2. apply Hother; eauto.
  - rewrite Hq2, Hr. cbn [bind]. rewrite node_at_set_sequence_ne by done.
    rewrite Hq1, Hl. cbn [bind].
    eexists. split; [reflexivity|]. simpl. split; [done|].
    split; [intros j; apply Hkeys; by left|].
    split; [by rewrite node_at_set_sequence_ne, node_at_set_sequence by done|].
    split; [by rewrite node_at_set_sequence|].
    intros j Hj1 Hj2. apply Hother; eauto.
Qed.

Lemma elem_of_alter_first (j : Z) (i : nat) (l : list edge_t) (x : edge_t) :
  x ∈ alter (λ e : edge_t, (j, e.2)) i l → x ∈ l ∨ x.1 = j.
Proof.
  revert i. induction l as [|e l IH]; intros i Hx; [by left|].
  destruct i as [|i]; simpl in Hx.
  - apply elem_of_cons in Hx as [->|Hx]; [by right|]. left. by apply elem_of_cons; right.
  - apply elem_of_cons in Hx as [->|Hx]; [left; by apply elem_of_cons; left|].
    destruct (IH i Hx) as [?|?]; [left; by apply elem_of_cons; right|by right].
Qed.

Lemma left_if_ne_right_if (b : bool) : left_if b ≠ right_if b.
Proof. by destruct b. Qed.

Lemma cut_shared_reverse_spec T st :
  is_Some (graph st !! id (pos_1 st)) → graph st !! next_id st = None →
  no_dangling (graph st) → edge_mirror_counts (graph st) →
  0 ≤ offset (pos_1 st) < string_size (sequence (node_at (graph st) (id (pos_1 st)))) →
  0 ≤ offset (pos_2 st) < string_size (sequence (node_at (graph st) (id (pos_1 st)))) →
  string_size (sequence (node_at (graph st) (id (pos_1 st)))) < 2 ^ 64 →
  ∃ st', cut_shared_reverse T st = Ok st'
    ∧ id_trans st' = <[next_id st := id (pos_1 st)]> (id_trans st)
    ∧ (∀ j, is_Some (graph st' !! j) ↔ j = next_id st ∨ is_Some (graph st !! j))
    ∧ trimmed_seq_right T (sequence (node_at (graph st) (id (pos_1 st))))
        (offset (pos_1 st)) (is_rev (pos_1 st))
      = Ok (sequence (node_at (graph st') (id (pos_1 st))))
    ∧ trimmed_seq_left T (sequence (node_at (graph st) (id (pos_1 st))))
        (offset (pos_2 st)) (is_rev (pos_2 st))
      = Ok (sequence (node_at (graph st') (next_id st)))
    ∧ (∀ j, j ≠ id (pos_1 st) → j ≠ next_id st →
         sequence (node_at (graph st') j) = sequence (node_at (graph st) j)).
Proof.
  intros Hin Hfresh Hd Hc Ho1 Ho2 Hsz. unfold cut_shared_reverse.
  set (id_1 := id (pos_1 st)) in *. set (new_id := next_id st) in *.
  set (rev_1 := is_rev (pos_1 st)) in *.
  set (s0 := sequence (node_at (graph st) id_1)) in *.
  set (g := graph st) in *.
  assert (Hne : new_id ≠ id_1).
  { intros Heq. rewrite Heq in Hfresh. rewrite Hfresh in Hin. by destruct Hin. }
  rewrite (touch_present id_1 g) by done.
  destruct (erase_mirrors_loop id_1 (right_if rev_1)
              (λ (i : nat) (edge : edge_t) (g : graph_t),
                 if negb ((edge.1 =? id_1) && edge.2)
                 then erase_edge edge.1 (left_if (xorb rev_1 edge.2)) (id_1, edge.2) g
                 else Ok g) g) as (g1 & Hl1 & Hk1 & Hq1 & He1 & Hc1).
  { intros i e g0. by rewrite left_if_xorb_mirror. }
  { intros e He. by eapply Hd. }
  { intros y _. by rewrite (Hc _ y). }
  rewrite Hl1. cbn [bind].
  rewrite sequence_node_at_set_edges, Hq1. fold s0.
  set (g3 := <[new_id := LocalNode_of s0]> (set_edges id_1 (right_if rev_1) [] g1)).
  assert (Hfresh2 : set_edges id_1 (right_if rev_1) [] g1 !! new_id = None).
  { apply eq_None_not_Some. rewrite is_Some_set_edges, Hk1. intros [?|Hs]; [done|].
    rewrite Hfresh in Hs. by destruct Hs. }
  assert (Hk3 : ∀ j, is_Some (g3 !! j) ↔ j = new_id ∨ is_Some (g !! j)).
  { intros j. subst g3. destruct (decide (j = new_id)) as [->|Hj].
    - rewrite lookup_insert_eq. split; eauto.
    - rewrite lookup_insert_ne by done. rewrite is_Some_set_edges, Hk1.
      split; [intros [->|?]; by right|intros [?|?]; [done|by right]]. }
  assert (Hs3 : ∀ j, sequence (node_at g3 j)
                     = if decide (j = new_id) then s0 else sequence (node_at g j)).
  { intros j. subst g3. destruct (decide (j = new_id)) as [->|Hj].
    - by rewrite node_at_insert.
    - rewrite node_at_insert_ne by done. by rewrite sequence_node_at_set_edges, Hq1. }
  assert (He3 : ∀ e, e ∈ edges_at g3 id_1 (left_if rev_1) → is_Some (g3 !! e.1)).
  { intros e He. apply Hk3. right. subst g3.
    rewrite edges_at_insert_fresh in He by done.
    rewrite edges_at_set_edges in He.
    rewrite decide_False in He by (intros [_ ?]; by eapply left_if_ne_right_if).
    apply (Hd id_1 (left_if rev_1)).
    apply elem_of_edges_stored. apply elem_of_edges_stored in He.
    rewrite Hc1 in He. case_bool_decide as Hz; [|done].
    destruct Hz as [Hz _]. rewrite Hz. lia. }
  clearbody g3.
  destruct (for_each_edge_inv (λ g : graph_t, edges_at g id_1 (left_if rev_1))
              (λ (i : nat) (edge : edge_t) (g : graph_t),
                 if edge.1 =? id_1 then
                   Ok (push_edge new_id (left_if rev_1) (id_1, edge.2)
                         (set_edge_first id_1 (left_if rev_1) i new_id g))
                 else
                   Ok (push_edge edge.1 (right_if (xorb rev_1 edge.2)) (new_id, edge.2)
                         (push_edge new_id (left_if rev_1) (edge.1, edge.2)
                            (touch edge.1 g))))
              (λ (_ : nat) (g' : graph_t),
                 (∀ j, is_Some (g' !! j) ↔ is_Some (g3 !! j))
                 ∧ (∀ j, sequence (node_at g' j) = sequence (node_at g3 j))
                 ∧ (∀ e, e ∈ edges_at g' id_1 (left_if rev_1) → is_Some (g3 !! e.1))) g3)
    as (g4 & Hg4 & Hk4 & Hs4 & _); [done| |].
  { intros j e g' _ (Hk & Hs & He) Hlen Hlook. cbv beta in Hlook, Hlen.
    assert (Hpres : is_Some (g3 !! e.1)).
    { apply He. by eapply list_elem_of_lookup_2. }
    assert (Hnew : is_Some (g3 !! new_id)) by (apply Hk3; by left).
    assert (Hid1 : is_Some (g3 !! id_1)) by (apply Hk3; by right).
    destruct (e.1 =? id_1) eqn:Heq.
    - eexists. split; [reflexivity|]. split; [split; [|split]|].
      + intros i. unfold set_edge_first. rewrite is_Some_push_edge, is_Some_set_edges, Hk.
        split; [|by right; right]. intros [->|[->|?]]; done.
      + intros i. unfold push_edge, set_edge_first.
        by rewrite !sequence_node_at_set_edges.
      + intros x. rewrite edges_at_push_edge.
        rewrite decide_False by (intros [? _]; congruence).
        unfold set_edge_first. rewrite edges_at_set_edges, decide_True by done.
        intros Hx. apply elem_of_alter_first in Hx as [Hx|Hx]; [by apply He|].
        by rewrite Hx.
      + cbv beta. rewrite edges_at_push_edge.
        rewrite decide_False by (intros [? _]; congruence).
        unfold set_edge_first. rewrite edges_at_set_edges, decide_True by done.
        by rewrite length_alter.
    - apply Z.eqb_neq in Heq.
      assert (Hsame : edges_at
                (push_edge e.1 (right_if (xorb rev_1 e.2)) (new_id, e.2)
                   (push_edge new_id (left_if rev_1) (e.1, e.2) (touch e.1 g')))
                id_1 (left_if rev_1) = edges_at g' id_1 (left_if rev_1)).
      { rewrite !edges_at_push_edge.
        rewrite !decide_False by (intros [? _]; congruence).
        apply edges_at_touch. }
      eexists. split; [reflexivity|]. split; [split; [|split]|].
      + intros i. rewrite !is_Some_push_edge.
        rewrite (touch_present e.1 g') by (by apply Hk). rewrite Hk.
        split; [|by right; right]. intros [->|[->|?]]; done.
      + intros i. unfold push_edge.
        by rewrite !sequence_node_at_set_edges, node_at_touch.
      + intros x. rewrite Hsame. apply He.
      + cbv beta. by rewrite Hsame. }
  rewrite Hg4. cbn [bind].
  assert (Hq4 : sequence (node_at g4 id_1) = s0).
  { rewrite Hs4, Hs3. by rewrite decide_False. }
  assert (Hq5 : sequence (node_at g4 new_id) = s0).
  { rewrite Hs4, Hs3. by rewrite decide_True. }
  destruct (trimmed_seq_right_ok T s0 (offset (pos_1 st)) rev_1) as [r Hr]; [done|done|].
  destruct (trimmed_seq_left_ok T s0 (offset (pos_2 st)) (is_rev (pos_2 st)))
    as [l Hl]; [done|done|].
  rewrite Hq4, Hr. cbn [bind]. rewrite node_at_set_sequence_ne by done.
  rewrite Hq5, Hl. cbn [bind].
  eexists. split; [reflexivity|]. simpl. split; [done|]. split; [|split; [|split]].
  - intros j. rewrite !is_Some_set_sequence, Hk4, Hk3.
    split; [|by intros ?; right; right]. intros [->|[->|?]]; eauto.
  - by rewrite node_at_set_sequence_ne, node_at_set_sequence by done.
  - by rewrite node_at_set_sequence.
  - intros j Hj1 Hj2. rewrite !node_at_set_sequence_ne by done.
    rewrite Hs4, Hs3. by rewrite decide_False.
Qed.

(** ** The output when the shared node is split in two *)

Lemma node_emit_elem (g : graph_t) (k : Z) (m : LocalNode) :
  g !! k = Some m → mkNode k (sequence m) ∈ node (emit g empty_graph).
Proof.
  intros Hk. rewrite node_emit. simpl. apply list_elem_of_fmap.
  exists (k, m). split; [done|]. by apply elem_of_map_to_list.
Qed.

Lemma split_node_output (source : HandleGraph) (g0 g' : graph_t)
    (id_1 new_id a b : Z) (sr sl : res string) :
  (∀ j, is_Some (g' !! j) ↔ j = new_id ∨ is_Some (g0 !! j)) →
  sr = Ok (sequence (node_at g' a)) → sl = Ok (sequence (node_at g' b)) →
  (a = id_1 ∧ b = new_id ∨ a = new_id ∧ b = id_1) → is_Some (g0 !! id_1) →
  (∀ j, j ≠ id_1 → j ≠ new_id → sequence (node_at g' j) = sequence (node_at g0 j)) →
  source_sequences source g0 →
  complete_translator g' (<[new_id := id_1]> ∅) !! new_id = Some id_1
  ∧ (∀ k v, complete_translator g' (<[new_id := id_1]> ∅) !! k = Some v →
       k ≠ new_id → v = k)
  ∧ (∃ n, n ∈ node (emit g' empty_graph) ∧ node_id n = a ∧ sr = Ok (node_sequence n))
  ∧ (∃ n, n ∈ node (emit g' empty_graph) ∧ node_id n = b ∧ sl = Ok (node_sequence n))
  ∧ (∀ n, n ∈ node (emit g' empty_graph) → node_id n ≠ id_1 → node_id n ≠ new_id →
       node_sequence n = get_sequence source (node_id n, false)).
Proof.
  intros Hk Hr Hl Hab Hin Hother Hseq.
  assert (Hex : ∀ j, j = id_1 ∨ j = new_id →
            ∃ n, n ∈ node (emit g' empty_graph) ∧ node_id n = j
                 ∧ node_sequence n = sequence (node_at g' j)).
  { intros j Hj.
    assert (Hs : is_Some (g' !! j)) by (apply Hk; destruct Hj as [->| ->]; eauto).
    destruct Hs as [m Hm]. exists (mkNode j (sequence m)).
    split; [by apply node_emit_elem|]. split; [done|]. by rewrite (node_at_Some _ _ _ Hm). }
  split; [|split; [|split; [|split]]].
  - by rewrite lookup_complete_translator, lookup_insert_eq.
  - intros k v Hkv Hne. rewrite lookup_complete_translator in Hkv.
    rewrite lookup_insert_ne, lookup_empty in Hkv by done.
    case_bool_decide; congruence.
  - destruct (Hex a) as (n & Hn & Hi & Hs); [tauto|].
    exists n. split; [done|]. split; [done|]. by rewrite Hs.
  - destruct (Hex b) as (n & Hn & Hi & Hs); [tauto|].
    exists n. split; [done|]. split; [done|]. by rewrite Hs.
  - intros n Hn H1 H2. apply elem_of_node_emit in Hn as (m & Hm & ->).
    rewrite <- (node_at_Some _ _ _ Hm). rewrite Hother by done.
    assert (Hs : is_Some (g0 !! node_id n)).
    { assert (Hs' : is_Some (g' !! node_id n)) by (by rewrite Hm).
      apply Hk in Hs' as [?|?]; done. }
    destruct Hs as [m0 Hm0]. rewrite (node_at_Some _ _ _ Hm0). by apply Hseq.
Qed.

Lemma shared_node_search_facts source p1 p2 T st :
  valid_pos source p1 → valid_pos source p2 → id p2 = id p1 →
  search_inv source st → source_sequences source (graph st) →
  search_frame (initial_state source p1 p2 T false) st →
  pos_1 st = p1 ∧ pos_2 st = p2 ∧ id_trans st = ∅
  ∧ is_Some (graph st !! id p1) ∧ graph st !! (max_id st + 1) = None
  ∧ id p1 < max_id st + 1
  ∧ sequence (node_at (graph st) (id p1)) = get_sequence source (id p1, false).
Proof.
  intros Hv1 Hv2 Hid Hinv Hseq Hframe.
  destruct (initial_state_facts source p1 p2 T false)
    as (Hi0 & Hi1 & Hi2 & Him & Hin1 & _).
  destruct Hframe as (Htr & Hp1 & Hp2 & _ & _ & _ & Hmax & Hg).
  pose proof (grows_is_Some _ _ _ _ Hg Hin1) as H1.
  destruct Hinv as (Hle & _).
  split; [congruence|]. split; [congruence|]. split; [congruence|]. split; [done|].
  split; [|split].
  - apply eq_None_not_Some. intros Hs. apply Hle in Hs. lia.
  - rewrite Him in Hmax. lia.
  - destruct H1 as [n Hn]. rewrite (node_at_Some _ _ _ Hn). by apply Hseq.
Qed.

Lemma shared_unreachable_after_search fuel source max_len p1 p2 T st :
  valid_pos source p1 → valid_pos source p2 → id p2 = id p1 →
  is_rev p2 = is_rev p1 → offset p2 + Z.b2z T ≤ offset p1 →
  search_inv source st → source_sequences source (graph st) →
  search_frame (initial_state source p1 p2 T false) st →
  ∃ st', after_search fuel source max_len p1 p2 T false false false false st = Ok st'
    ∧ id_trans st' = <[max_id st + 1 := id p1]> ∅
    ∧ (∀ j, is_Some (graph st' !! j) ↔ j = max_id st + 1 ∨ is_Some (graph st !! j))
    ∧ trimmed_seq_right T (get_sequence source (id p1, false)) (offset p1) (is_rev p1)
      = Ok (sequence (node_at (graph st') (if is_rev p1 then id p1 else max_id st + 1)))
    ∧ trimmed_seq_left T (get_sequence source (id p1, false)) (offset p2) (is_rev p2)
      = Ok (sequence (node_at (graph st') (if is_rev p1 then max_id st + 1 else id p1)))
    ∧ (∀ j, j ≠ id p1 → j ≠ max_id st + 1 →
         sequence (node_at (graph st') j) = sequence (node_at (graph st) j)).
Proof.
  intros Hv1 Hv2 Hid Hrev Hoff Hinv Hseq Hframe.
  destruct (shared_node_search_facts source p1 p2 T st Hv1 Hv2 Hid Hinv Hseq Hframe)
    as (Hp1 & Hp2 & Htr & Hin & Hfresh & _ & Hq).
  destruct Hv1 as [Ho1 Hs1]. destruct Hv2 as [Ho2 Hs2]. rewrite Hid in Ho2.
  subst p1 p2.
  destruct Hinv as (_ & Hd & _).
  destruct (cut_shared_unreachable_spec T (set_next_id (max_id st + 1) st))
    as (st' & Hcut & Ht' & Hk' & Hr' & Hl' & Ho'); simpl;
    rewrite ?Hq; try done.
  simpl in Hcut, Ht', Hk', Hr', Hl', Ho'.
  rewrite Hq in Hr', Hl'. rewrite Htr in Ht'.
  exists st'. split; [|done].
  unfold after_search, backward_search, duplication. cbn [andb bind].
  assert (Hcolo : colo (pos_1 st) (pos_2 st) T = SharedNodeUnreachable).
  { unfold colo, colocation. rewrite Hid, Z.eqb_refl, Hrev, Bool.eqb_reflx.
    by rewrite (proj2 (Z.ltb_ge _ _) Hoff). }
  rewrite Hcolo. cbn [cut_nodes]. rewrite Hcut. by cbn [bind prune].
Qed.

Lemma shared_reverse_after_search fuel source max_len p1 p2 T st :
  valid_pos source p1 → valid_pos source p2 → id p2 = id p1 →
  is_rev p2 = negb (is_rev p1) →
  search_inv source st → source_sequences source (graph st) →
  search_frame (initial_state source p1 p2 T false) st →
  ∃ st', after_search fuel source max_len p1 p2 T false false false false st = Ok st'
    ∧ id_trans st' = <[max_id st + 1 := id p1]> ∅
    ∧ (∀ j, is_Some (graph st' !! j) ↔ j = max_id st + 1 ∨ is_Some (graph st !! j))
    ∧ trimmed_seq_right T (get_sequence source (id p1, false)) (offset p1) (is_rev p1)
      = Ok (sequence (node_at (graph st') (id p1)))
    ∧ trimmed_seq_left T (get_sequence source (id p1, false)) (offset p2) (is_rev p2)
      = Ok (sequence (node_at (graph st') (max_id st + 1)))
    ∧ (∀ j, j ≠ id p1 → j ≠ max_id st + 1 →
         sequence (node_at (graph st') j) = sequence (node_at (graph st) j)).
Proof.
  intros Hv1 Hv2 Hid Hrev Hinv Hseq Hframe.
  destruct (shared_node_search_facts source p1 p2 T st Hv1 Hv2 Hid Hinv Hseq Hframe)
    as (Hp1 & Hp2 & Htr & Hin & Hfresh & _ & Hq).
  destruct Hv1 as [Ho1 Hs1]. destruct Hv2 as [Ho2 Hs2]. rewrite Hid in Ho2.
  subst p1 p2.
  destruct Hinv as (_ & Hd & _ & Hc & _).
  destruct (cut_shared_reverse_spec T (set_next_id (max_id st + 1) st))
    as (st' & Hcut & Ht' & Hk' & Hr' & Hl' & Ho'); simpl;
    rewrite ?Hq; try done.
  simpl in Hcut, Ht', Hk', Hr', Hl', Ho'.
  rewrite Hq in Hr', Hl'. rewrite Htr in Ht'.
  exists st'. split; [|done].
  unfold after_search, backward_search, duplication. cbn [andb bind].
  assert (Hcolo : colo (pos_1 st) (pos_2 st) T = SharedNodeReverse).
  { unfold colo, colocation. rewrite Hid, Z.eqb_refl, Hrev.
    by destruct (is_rev (pos_1 st)). }
  rewrite Hcolo. cbn [cut_nodes]. rewrite Hcut. by cbn [bind prune].
Qed.

(** X12: both positions on the same strand of one node, the second not
    after the first, without cycle detection and pruning, on a source graph
    whose handles are listed and with fuel for one turn per handle: the call
    returns.  Either nothing is extracted, or the node is split in two: a
    new id, larger than the node's, is translated to the node's id; the part
    of the sequence after the first position and the part before the second
    position are the sequences of the two nodes (the new node carries the
    part after the first position on the forward strand, the part before
    the second position on the reverse strand); every other node of the
    output carries the forward sequence of the source node. *)
Theorem shared_node_unreachable_extraction
    (fuel : nat) (source : HandleGraph) (max_len : Z) (pos_1 pos_2 : pos_t)
    (include_terminal_positions : bool) (g : Graph) (l : list handle_t) :
  valid_pos source pos_1 → valid_pos source pos_2 → id pos_2 = id pos_1 →
  is_rev pos_2 = is_rev pos_1 →
  offset pos_2 + Z.b2z include_terminal_positions ≤ offset pos_1 →
  handles_listed source l → get_handle (id pos_1) (is_rev pos_1) ∈ l →
  (length l ≤ fuel)%nat →
  node g = [] → edge g = [] →
  ∃ (trans : gmap Z Z) (out : Graph),
    extract_connecting_graph fuel source max_len pos_1 pos_2 include_terminal_positions
      false false false false g = Returned trans out
    ∧ ((trans = ∅ ∧ out = g)
       ∨ ∃ new_id : Z,
           id pos_1 < new_id
           ∧ trans !! new_id = Some (id pos_1)
           ∧ (∀ k v : Z, trans !! k = Some v → k ≠ new_id → v = k)
           ∧ (∃ n : Node, n ∈ node out
                ∧ node_id n = (if is_rev pos_1 then id pos_1 else new_id)
                ∧ trimmed_seq_right include_terminal_positions
                    (get_sequence source (id pos_1, false)) (offset pos_1) (is_rev pos_1)
                  = Ok (node_sequence n))
           ∧ (∃ n : Node, n ∈ node out
                ∧ node_id n = (if is_rev pos_1 then new_id else id pos_1)
                ∧ trimmed_seq_left include_terminal_positions
                    (get_sequence source (id pos_1, false)) (offset pos_2) (is_rev pos_2)
                  = Ok (node_sequence n))
           ∧ (∀ n : Node, n ∈ node out → node_id n ≠ id pos_1 → node_id n ≠ new_id →
                node_sequence n = get_sequence source (node_id n, false))).
Proof.
  intros Hv1 Hv2 Hid Hrev Hoff Hl Hstart Hfuel Hn He.
  set (T := include_terminal_positions) in *.
  destruct (forward_search_returns fuel source max_len pos_1 pos_2 T false (list_to_set l))
    as [st Hf].
  { by apply handles_listed_closed. }
  { by apply elem_of_list_to_set. }
  { pose proof (size_list_to_set_le l). lia. }
  assert (Hb : backward_search fuel source max_len pos_1 pos_2 T false st = Ok st) by done.
  destruct (search_inv_after_searches _ _ _ _ _ _ _ _ _ Hf Hb) as (_ & Hinv & Hframe).
  pose proof (source_sequences_after_searches _ _ _ _ _ _ _ _ _ Hf Hb) as Hseq.
  unfold extract_connecting_graph, node_size, edge_size. rewrite Hn, He. simpl.
  rewrite Hf. rewrite (empty_graph_eta g Hn He).
  destruct (found_target st); simpl.
  2:{ eexists _, _. split; [reflexivity|]. left.
      destruct Hframe as (Htr & _).
      destruct (initial_state_facts source pos_1 pos_2 T false) as (Hi & _).
      by rewrite Htr, Hi. }
  destruct (shared_node_search_facts source pos_1 pos_2 T st Hv1 Hv2 Hid Hinv Hseq Hframe)
    as (_ & _ & _ & Hin & _ & Hlt & _).
  destruct (shared_unreachable_after_search fuel source max_len pos_1 pos_2 T st
              Hv1 Hv2 Hid Hrev Hoff Hinv Hseq Hframe)
    as (st' & Has & Ht' & Hk' & Hr' & Hl' & Ho').
  rewrite Has. simpl. eexists _, _. split; [reflexivity|]. right.
  exists (max_id st + 1). split; [done|]. rewrite Ht'.
  apply (split_node_output source (graph st)); try done.
  destruct (is_rev pos_1); [by left|by right].
Qed.

Lemma shared_node_unreachable_extraction_witness :
  ∃ (trans : gmap Z Z) (out : Graph),
    extract_connecting_graph 10 ring 20 (make_pos_t 1 false 2) (make_pos_t 1 false 1)
      false false false false false empty_graph = Returned trans out
    ∧ trans = {[1 := 1; 2 := 2; 3 := 1]}
    ∧ node out = [mkNode 3 "T"; mkNode 2 "GG"; mkNode 1 "A"].
Proof.
  destruct (shared_node_unreachable_extraction 10 ring 20 (make_pos_t 1 false 2)
              (make_pos_t 1 false 1) false empty_graph
              [(1, false); (2, false); (2, true); (1, true)])
    as (trans & out & Hex & _).
  - split; vm_compute; [intuition congruence|reflexivity].
  - split; vm_compute; [intuition congruence|reflexivity].
  - reflexivity.
  - reflexivity.
  - simpl. lia.
  - apply (bool_decide_unpack _). vm_compute. exact I.
  - apply (bool_decide_unpack _). vm_compute. exact I.
  - simpl. lia.
  - reflexivity.
  - reflexivity.
  - exists trans, out. split; [exact Hex|].
    vm_compute in Hex. inversion Hex. split; reflexivity.
Defined.

(** X13: the positions on the two strands of one node, without cycle
    detection and pruning, on a source graph whose handles are listed and
    with fuel for one turn per handle: the call returns.  Either nothing is
    extracted, or the node is split in two: a new id, larger than the node's,
    is translated to the node's id; the node itself carries the part of the
    sequence after the first position, the new node the part before the
    second position, and every other node of the output the forward sequence
    of the source node. *)
Theorem shared_node_reverse_extraction
    (fuel : nat) (source : HandleGraph) (max_len : Z) (pos_1 pos_2 : pos_t)
    (include_terminal_positions : bool) (g : Graph) (l : list handle_t) :
  valid_pos source pos_1 → valid_pos source pos_2 → id pos_2 = id pos_1 →
  is_rev pos_2 = negb (is_rev pos_1) →
  handles_listed source l → get_handle (id pos_1) (is_rev pos_1) ∈ l →
  (length l ≤ fuel)%nat →
  node g = [] → edge g = [] →
  ∃ (trans : gmap Z Z) (out : Graph),
    extract_connecting_graph fuel source max_len pos_1 pos_2 include_terminal_positions
      false false false false g = Returned trans out
    ∧ ((trans = ∅ ∧ out = g)
       ∨ ∃ new_id : Z,
           id pos_1 < new_id
           ∧ trans !! new_id = Some (id pos_1)
           ∧ (∀ k v : Z, trans !! k = Some v → k ≠ new_id → v = k)
           ∧ (∃ n : Node, n ∈ node out ∧ node_id n = id pos_1
                ∧ trimmed_seq_right include_terminal_positions
                    (get_sequence source (id pos_1, false)) (offset pos_1) (is_rev pos_1)
                  = Ok (node_sequence n))
           ∧ (∃ n : Node, n ∈ node out ∧ node_id n = new_id
                ∧ trimmed_seq_left include_terminal_positions
                    (get_sequence source (id pos_1, false)) (offset pos_2) (is_rev pos_2)
                  = Ok (node_sequence n))
           ∧ (∀ n : Node, n ∈ node out → node_id n ≠ id pos_1 → node_id n ≠ new_id →
                node_sequence n = get_sequence source (node_id n, false))).
Proof.
  intros Hv1 Hv2 Hid Hrev Hl Hstart Hfuel Hn He.
  set (T := include_terminal_positions) in *.
  destruct (forward_search_returns fuel source max_len pos_1 pos_2 T false (list_to_set l))
    as [st Hf].
  { by apply handles_listed_closed. }
  { by apply elem_of_list_to_set. }
  { pose proof (size_list_to_set_le l). lia. }
  assert (Hb : backward_search fuel source max_len pos_1 pos_2 T false st = Ok st) by done.
  destruct (search_inv_after_searches _ _ _ _ _ _ _ _ _ Hf Hb) as (_ & Hinv & Hframe).
  pose proof (source_sequences_after_searches _ _ _ _ _ _ _ _ _ Hf Hb) as Hseq.
  unfold extract_connecting_graph, node_size, edge_size. rewrite Hn, He. simpl.
  rewrite Hf. rewrite (empty_graph_eta g Hn He).
  destruct (found_target st); simpl.
  2:{ eexists _, _. split; [reflexivity|]. left.
      destruct Hframe as (Htr & _).
      destruct (initial_state_facts source pos_1 pos_2 T false) as (Hi & _).
      by rewrite Htr, Hi. }
  destruct (shared_node_search_facts source pos_1 pos_2 T st Hv1 Hv2 Hid Hinv Hseq Hframe)
    as (_ & _ & _ & Hin & _ & Hlt & _).
  destruct (shared_reverse_after_search fuel source max_len pos_1 pos_2 T st
              Hv1 Hv2 Hid Hrev Hinv Hseq Hframe)
    as (st' & Has & Ht' & Hk' & Hr' & Hl' & Ho').
  rewrite Has. simpl. eexists _, _. split; [reflexivity|]. right.
  exists (max_id st + 1). split; [done|]. rewrite Ht'.
  apply (split_node_output source (graph st)); try done. by left.
Qed.

Lemma shared_node_reverse_extraction_witness :
  ∃ (trans : gmap Z Z) (out : Graph),
    extract_connecting_graph 10 left_loop 20 (make_pos_t 2 true 1) (make_pos_t 2 false 1)
      false false false false false empty_graph = Returned trans out
    ∧ trans = {[1 := 1; 2 := 2; 3 := 2]}
    ∧ node out = [mkNode 3 "C"; mkNode 2 "CC"; mkNode 1 "AAAA"].
Proof.
  destruct (shared_node_reverse_extraction 10 left_loop 20 (make_pos_t 2 true 1)
              (make_pos_t 2 false 1) false empty_graph
              [(1, false); (2, false); (3, false); (3, true); (2, true); (1, true)])
    as (trans & out & Hex & _).
  - split; vm_compute; [intuition congruence|reflexivity].
  - split; vm_compute; [intuition congruence|reflexivity].
  - reflexivity.
  - reflexivity.
  - apply (bool_decide_unpack _). vm_compute. exact I.
  - apply (bool_decide_unpack _). vm_compute. exact I.
  - simpl. lia.
  - reflexivity.
  - reflexivity.
  - exists trans, out. split; [exact Hex|].
    vm_compute in Hex. inversion Hex. split; reflexivity.
Defined.

(** ** The reachability searches of the pruning to paths *)

Lemma push_unseen_foldl (trav : handle_t) (edges : list edge_t)
    (S : list handle_t) (R : gset handle_t) :
  let r := foldl (push_unseen trav) (S, R) edges in
  (∀ h, h ∈ r.2 ↔ h ∈ R ∨ ∃ e, e ∈ edges ∧ h = next_trav trav e)
  ∧ (∀ h, h ∈ r.1 ↔ h ∈ S ∨ (h ∈ r.2 ∧ h ∉ R))
  ∧ (length r.1 + size R = length S + size r.2)%nat.
Proof.
  revert S R. induction edges as [|e edges IH]; intros S R; simpl.
  - split; [|split; [|done]].
    + intros h. split; [by left|]. intros [?|(e & He & _)]; [done|].
      by apply elem_of_nil in He.
    + intros h. tauto.
  - destruct (decide ((e.1, xorb e.2 trav.2) ∈ R)) as [Hin|Hin].
    + assert (Hp : push_unseen trav (S, R) e = (S, R)).
      { unfold push_unseen. simpl. by rewrite bool_decide_eq_true_2. }
      rewrite Hp.
      destruct (IH S R) as (H1 & H2 & H3). split; [|split; [|done]].
      * intros h. rewrite H1. split.
        -- intros [?|(x & Hx & ->)]; [by left|]. right. exists x. split; [|done].
           by apply elem_of_cons; right.
        -- intros [?|(x & Hx & ->)]; [by left|].
           apply elem_of_cons in Hx as [->|Hx]; [by left|]. right. eauto.
      * done.
    + assert (Hp : push_unseen trav (S, R) e
                   = ((e.1, xorb e.2 trav.2) :: S, {[(e.1, xorb e.2 trav.2)]} ∪ R)).
      { unfold push_unseen. simpl. by rewrite bool_decide_eq_false_2. }
      rewrite Hp.
      destruct (IH ((e.1, xorb e.2 trav.2) :: S) ({[(e.1, xorb e.2 trav.2)]} ∪ R))
        as (H1 & H2 & H3).
      split; [|split].
      * intros h. rewrite H1. rewrite elem_of_union, elem_of_singleton. split.
        -- intros [[->|?]|(x & Hx & ->)].
           ++ right. exists e. split; [by apply elem_of_cons; left|done].
           ++ by left.
           ++ right. exists x. split; [by apply elem_of_cons; right|done].
        -- intros [?|(x & Hx & ->)]; [by left; right|].
           apply elem_of_cons in Hx as [->|Hx]; [by left; left|]. right. eauto.
      * intros h. rewrite H2. rewrite elem_of_cons, elem_of_union, elem_of_singleton.
        split.
        -- intros [[->|?]|[Hh Hn]].
           ++ right. split; [|done]. apply H1. left.
              apply elem_of_union. left. by apply elem_of_singleton.
           ++ by left.
           ++ right. split; [done|]. intros ?. apply Hn. by right.
        -- intros [?|[Hh Hn]]; [by left; right|].
           destruct (decide (h = (e.1, xorb e.2 trav.2))) as [->|Hne]; [by left; left|].
           right. split; [done|]. intros [?|?]; done.
      * simpl in H3. rewrite size_union in H3 by (by apply disjoint_singleton_l).
        rewrite size_singleton in H3. lia.
Qed.

Lemma reach_step_present (trav : handle_t) (g : graph_t) (S : list handle_t)
    (R : gset handle_t) :
  is_Some (g !! trav.1) →
  reach_step trav (g, S, R)
  = (g, (foldl (push_unseen trav) (S, R) (edges_at g trav.1 (left_if trav.2))).1,
        (foldl (push_unseen trav) (S, R) (edges_at g trav.1 (left_if trav.2))).2).
Proof.
  intros Hp. unfold reach_step. rewrite (touch_present _ _ Hp).
  fold (push_unseen trav). by destruct (foldl _ _ _).
Qed.

Section reach.
Variable g : graph_t.
Variables starts hs : gset handle_t.
Hypothesis hs_present : ∀ h, h ∈ hs → is_Some (g !! h.1).
Hypothesis hs_closed :
  ∀ h e, h ∈ hs → e ∈ edges_at g h.1 (left_if h.2) → next_trav h e ∈ hs.

Lemma reach_loop_inv (fuel : nat) (S : list handle_t) (R : gset handle_t) :
  reach_inv g starts hs S R → (size hs - size R + length S ≤ fuel)%nat →
  ∃ R', reach_loop fuel (g, S, R) = Ok (g, [], R') ∧ reach_inv g starts hs [] R'.
Proof.
  revert S R. induction fuel as [|fuel IH]; intros S R Hinv Hfuel.
  - destruct S as [|trav S]; [|simpl in Hfuel; lia]. exists R. done.
  - destruct S as [|trav S]; [by exists R|].
    destruct Hinv as (HS & Hsub & Hst & Hre & Hcl).
    assert (HtR : trav ∈ R) by (apply HS; by apply elem_of_cons; left).
    assert (Hths : trav ∈ hs) by (by apply Hsub).
    cbn [reach_loop fst snd]. rewrite reach_step_present by (by apply hs_present).
    destruct (push_unseen_foldl trav (edges_at g trav.1 (left_if trav.2)) S R)
      as (H1 & H2 & H3).
    set (r := foldl (push_unseen trav) (S, R) (edges_at g trav.1 (left_if trav.2))) in *.
    simpl in H1, H2, H3.
    assert (Hsub' : r.2 ⊆ hs).
    { intros h Hh. apply H1 in Hh as [?|(e & He & ->)]; [by apply Hsub|].
      by apply hs_closed. }
    assert (HRr : R ⊆ r.2) by (intros h Hh; apply H1; by left).
    apply IH.
    + split; [|split; [done|split; [|split]]].
      * intros h Hh. apply H2 in Hh as [Hh|[Hh _]]; [|done].
        apply HRr, HS. by apply elem_of_cons; right.
      * by transitivity R.
      * intros h Hh. apply H1 in Hh as [?|(e & He & ->)]; [by apply Hre|].
        apply reaches_edge; [by apply Hre|done].
      * intros h e Hh Hn He.
        destruct (decide (h = trav)) as [->|Hne].
        { apply H1. right. eauto. }
        assert (HhR : h ∈ R).
        { destruct (decide (h ∈ R)) as [?|HnR]; [done|].
          exfalso. apply Hn. apply H2. by right. }
        apply HRr. apply (Hcl h e); [done| |done].
        intros Hc. apply elem_of_cons in Hc as [?|Hc]; [done|].
        apply Hn. apply H2. by left.
    + pose proof (subseteq_size _ _ Hsub'). pose proof (subseteq_size _ _ HRr).
      pose proof (subseteq_size _ _ Hsub). simpl in Hfuel. lia.
Qed.

Lemma reach_inv_reaches (R : gset handle_t) :
  reach_inv g starts hs [] R → ∀ h, h ∈ R ↔ reaches g starts h.
Proof.
  intros (_ & _ & Hst & Hre & Hcl) h. split; [by apply Hre|].
  induction 1 as [h Hh|h e _ IH He]; [by apply Hst|].
  apply (Hcl h e); [done| |done]. by intros Hn%elem_of_nil.
Qed.
End reach.

Lemma elem_of_strands (g : graph_t) (h : handle_t) : h ∈ strands g ↔ is_Some (g !! h.1).
Proof.
  unfold strands. rewrite elem_of_list_to_set, list_elem_of_In, in_flat_map. split.
  - intros (k & Hk & Hh). apply list_elem_of_In, list_elem_of_fmap in Hk as ([k' n] & -> & Hn).
    apply elem_of_map_to_list in Hn. simpl in Hh.
    destruct Hh as [<-|[<-|[]]]; simpl; eauto.
  - intros [n Hn]. exists h.1. split.
    + apply list_elem_of_In, list_elem_of_fmap. exists (h.1, n). split; [done|].
      by apply elem_of_map_to_list.
    + destruct h as [k []]; simpl; auto.
Qed.

Lemma size_strands (g : graph_t) : (size (strands g) ≤ 2 * size g)%nat.
Proof.
  unfold strands. etransitivity; [apply size_list_to_set_le|].
  rewrite <- (length_map_to_list g), <- (length_fmap fst (map_to_list g)).
  induction ((map_to_list g).*1) as [|k l IH]; simpl; lia.
Qed.

Lemma strands_closed (g : graph_t) (h : handle_t) (e : edge_t) :
  no_dangling g → e ∈ edges_at g h.1 (left_if h.2) → next_trav h e ∈ strands g.
Proof. intros Hd He. apply elem_of_strands. simpl. by eapply Hd. Qed.

Lemma reach_inv_initial (g : graph_t) (l : list handle_t) :
  (∀ h, h ∈ l → is_Some (g !! h.1)) →
  reach_inv g (list_to_set l) (strands g) l (list_to_set l).
Proof.
  intros Hl. split; [|split; [|split; [done|split]]].
  - intros h. by rewrite elem_of_list_to_set.
  - intros h Hh. apply elem_of_strands, Hl. by apply elem_of_list_to_set in Hh.
  - intros h Hh. by apply reaches_start.
  - intros h e Hh Hn. by rewrite elem_of_list_to_set in Hh.
Qed.

Lemma reach_loop_strands (fuel : nat) (g : graph_t) (l : list handle_t) :
  no_dangling g → (∀ h, h ∈ l → is_Some (g !! h.1)) →
  (2 * size g + length l ≤ fuel)%nat →
  ∃ R : gset handle_t,
    reach_loop fuel (g, l, list_to_set l) = Ok (g, [], R)
    ∧ ∀ h, h ∈ R ↔ reaches g (list_to_set l) h.
Proof.
  intros Hd Hl Hfuel.
  destruct (reach_loop_inv g (list_to_set l) (strands g)) with (fuel := fuel) (S := l)
      (R := (list_to_set l : gset handle_t)) as (R & HR & Hinv).
  - intros h. apply elem_of_strands.
  - intros h e _. by apply strands_closed.
  - by apply reach_inv_initial.
  - pose proof (size_strands g). lia.
  - exists R. split; [done|]. by apply (reach_inv_reaches g _ (strands g)).
Qed.

(** ** The loop over the records, when the three tests do not fail *)

Lemma remove_if_pure (p : edge_t → bool) (l : list edge_t) :
  remove_if (λ e, Ok (p e)) l = Ok (List.filter (λ e, negb (p e)) l).
Proof.
  induction l as [|e l IH]; [done|]. cbn [remove_if bind]. rewrite IH. cbn [bind].
  simpl. by destruct (p e).
Qed.

Lemma filter_filter_same {A : Type} (f : A → bool) (l : list A) :
  List.filter f (List.filter f l) = List.filter f l.
Proof.
  induction l as [|x l IH]; [done|]. simpl. destruct (f x) eqn:Hx; [|done].
  simpl. by rewrite Hx, IH.
Qed.

Lemma filter_records_pure (en : Z → bool) (er el : Z → edge_t → bool)
    (recs : list (Z * LocalNode)) (g : graph_t) (te : list Z) :
  (∀ r, r ∈ recs → is_Some (g !! r.1)) →
  ∃ g' : graph_t,
    filter_records (λ k, Ok (en k)) (λ k e, Ok (er k e)) (λ k e, Ok (el k e)) recs (g, te)
    = Ok (g', te ++ List.filter en recs.*1)
    ∧ (∀ j, is_Some (g' !! j) ↔ is_Some (g !! j))
    ∧ (∀ j, sequence (node_at g' j) = sequence (node_at g j))
    ∧ (∀ j, edges_at g' j Right
            = if bool_decide (j ∈ recs.*1 ∧ en j = false)
              then List.filter (λ e, negb (er j e)) (edges_at g j Right)
              else edges_at g j Right)
    ∧ (∀ j, edges_at g' j Left
            = if bool_decide (j ∈ recs.*1 ∧ en j = false)
              then List.filter (λ e, negb (el j e)) (edges_at g j Left)
              else edges_at g j Left).
Proof.
  revert g te. induction recs as [|[k n] recs IH]; intros g te Hpres.
  - exists g. split; [simpl; by rewrite app_nil_r|]. split; [done|]. split; [done|].
    split; intros j; rewrite bool_decide_eq_false_2; try done;
      intros [Hj _]; by apply elem_of_nil in Hj.
  - assert (Hk : is_Some (g !! k)) by (apply (Hpres (k, n)); by apply elem_of_cons; left).
    cbn [filter_records bind]. destruct (en k) eqn:Hen.
    + destruct (IH g (te ++ [k])) as (g' & Hf & Hkeys & Hseq & Hr & Hl).
      { intros r Hr. apply Hpres. by apply elem_of_cons; right. }
      exists g'. split; [rewrite Hf; simpl; by rewrite Hen, <- app_assoc|].
      split; [done|]. split; [done|]. rewrite fmap_cons. cbn [fst].
      split; intros j; [rewrite Hr|rewrite Hl];
        apply f_equal with (f := λ b : bool, if b then _ else _);
        apply bool_decide_ext; rewrite elem_of_cons;
        (split; [intros [? ?]; by auto|intros [[->|?] ?]; [congruence|by auto]]).
    + rewrite !remove_if_pure. cbn [bind].
      set (g1 := set_edges k Left _ (set_edges k Right _ g)).
      assert (Hk1 : ∀ j, is_Some (g1 !! j) ↔ is_Some (g !! j)).
      { intros j. subst g1. rewrite !is_Some_set_edges.
        split; [intros [->|[->|?]]; done|by right; right]. }
      assert (Hs1 : ∀ j, sequence (node_at g1 j) = sequence (node_at g j)).
      { intros j. subst g1. by rewrite !sequence_node_at_set_edges. }
      assert (Hr1 : ∀ j, edges_at g1 j Right
                = if decide (j = k) then List.filter (λ e, negb (er k e)) (edges_at g k Right)
                  else edges_at g j Right).
      { intros j. subst g1. rewrite !edges_at_set_edges.
        rewrite (decide_False (P := j = k ∧ Right = Left)) by (by intros [_ ?]).
        destruct (decide (j = k)) as [->|Hj].
        - by rewrite decide_True.
        - rewrite decide_False; [done|]. by intros [? _]. }
      assert (Hl1 : ∀ j, edges_at g1 j Left
                = if decide (j = k) then List.filter (λ e, negb (el k e)) (edges_at g k Left)
                  else edges_at g j Left).
      { intros j. subst g1. rewrite !edges_at_set_edges.
        destruct (decide (j = k)) as [->|Hj].
        - by rewrite decide_True.
        - rewrite !decide_False; [done|by intros [? _]|by intros [? _]]. }
      clearbody g1.
      destruct (IH g1 te) as (g' & Hf & Hkeys & Hseq & Hr & Hl).
      { intros r Hr. apply Hk1, Hpres. by apply elem_of_cons; right. }
      exists g'. split; [rewrite Hf; simpl; by rewrite Hen|].
      split; [intros j; by rewrite Hkeys|]. rewrite fmap_cons. cbn [fst].
      split; [intros j; by rewrite Hseq|].
      split; intros j; [rewrite Hr, Hr1|rewrite Hl, Hl1].
      * destruct (decide (j = k)) as [->|Hj].
        -- rewrite (bool_decide_eq_true_2 (k ∈ k :: recs.*1 ∧ _))
             by (split; [by apply elem_of_cons; left|done]).
           case_bool_decide; [by rewrite filter_filter_same|done].
        -- apply f_equal with (f := λ b : bool, if b then _ else _).
           apply bool_decide_ext. rewrite elem_of_cons. split; [intros [? ?]; by auto|].
           intros [[?|?] ?]; [done|by auto].
      * destruct (decide (j = k)) as [->|Hj].
        -- rewrite (bool_decide_eq_true_2 (k ∈ k :: recs.*1 ∧ _))
             by (split; [by apply elem_of_cons; left|done]).
           case_bool_decide; [by rewrite filter_filter_same|done].
        -- apply f_equal with (f := λ b : bool, if b then _ else _).
           apply bool_decide_ext. rewrite elem_of_cons. split; [intros [? ?]; by auto|].
           intros [[?|?] ?]; [done|by auto].
Qed.

Lemma node_at_foldl_delete (l : list Z) (g : graph_t) (k : Z) :
  k ∉ l → node_at (foldl (λ g k, delete k g) g l) k = node_at g k.
Proof. intros Hk. unfold node_at. by rewrite lookup_foldl_delete, bool_decide_eq_false_2. Qed.

Lemma edges_at_foldl_delete (l : list Z) (g : graph_t) (k : Z) (s : side) :
  k ∉ l → edges_at (foldl (λ g k, delete k g) g l) k s = edges_at g k s.
Proof. intros Hk. unfold edges_at. by rewrite node_at_foldl_delete. Qed.

Lemma elem_of_filter_keys (en : Z → bool) (g : graph_t) (k : Z) :
  k ∈ List.filter en (map_to_list g).*1 ↔ is_Some (g !! k) ∧ en k = true.
Proof.
  rewrite list_elem_of_In, List.filter_In, <- list_elem_of_In, list_elem_of_fmap.
  split.
  - intros [([k' n] & -> & Hn) He]. apply elem_of_map_to_list in Hn. eauto.
  - intros [[n Hn] He]. split; [|done]. exists (k, n). split; [done|].
    by apply elem_of_map_to_list.
Qed.

Lemma forward_starts_list (st : state) :
  (if duplicate_node_1 st =? 0
   then ([(id (pos_1 st), is_rev (pos_1 st))],
         ({[(id (pos_1 st), is_rev (pos_1 st))]} : gset handle_t))
   else ((duplicate_node_1 st, is_rev (pos_1 st)) :: [(id (pos_1 st), is_rev (pos_1 st))],
         {[(duplicate_node_1 st, is_rev (pos_1 st))]}
         ∪ {[(id (pos_1 st), is_rev (pos_1 st))]}))
  = (if duplicate_node_1 st =? 0 then [(id (pos_1 st), is_rev (pos_1 st))]
     else [(duplicate_node_1 st, is_rev (pos_1 st)); (id (pos_1 st), is_rev (pos_1 st))],
     forward_starts st)
  ∧ forward_starts st
    = list_to_set (if duplicate_node_1 st =? 0 then [(id (pos_1 st), is_rev (pos_1 st))]
                   else [(duplicate_node_1 st, is_rev (pos_1 st));
                         (id (pos_1 st), is_rev (pos_1 st))]).
Proof.
  unfold forward_starts. destruct (_ =? _); (split; [done|]); simpl;
    by rewrite (right_id_L ∅ (∪)).
Qed.

Lemma reverse_starts_list (st : state) :
  (if duplicate_node_2 st =? 0
   then ([(id (pos_2 st), negb (is_rev (pos_2 st)))],
         ({[(id (pos_2 st), negb (is_rev (pos_2 st)))]} : gset handle_t))
   else ((duplicate_node_2 st, negb (is_rev (pos_2 st)))
           :: [(id (pos_2 st), negb (is_rev (pos_2 st)))],
         {[(duplicate_node_2 st, negb (is_rev (pos_2 st)))]}
         ∪ {[(id (pos_2 st), negb (is_rev (pos_2 st)))]}))
  = (if duplicate_node_2 st =? 0 then [(id (pos_2 st), negb (is_rev (pos_2 st)))]
     else [(duplicate_node_2 st, negb (is_rev (pos_2 st)));
           (id (pos_2 st), negb (is_rev (pos_2 st)))],
     reverse_starts st)
  ∧ reverse_starts st
    = list_to_set (if duplicate_node_2 st =? 0
                   then [(id (pos_2 st), negb (is_rev (pos_2 st)))]
                   else [(duplicate_node_2 st, negb (is_rev (pos_2 st)));
                         (id (pos_2 st), negb (is_rev (pos_2 st)))]).
Proof.
  unfold reverse_starts. destruct (_ =? _); (split; [done|]); simpl;
    by rewrite (right_id_L ∅ (∪)).
Qed.

(** X14: the pruning to paths, on a graph without dangling entries that has
    the nodes of the two positions and of their duplicates, with fuel for
    two turns per node and two more: it returns.  The two searches compute
    the traversals reachable from the first position and, backwards, from
    the second; a node stays iff one of its strands is reachable from the
    first position and the opposite strand from the second; a node that
    stays keeps its sequence and, in their order, the entries that lie on
    such a walk; the translator loses the entries of the erased nodes and
    no other. *)
Theorem only_paths_keeps_what_is_on_a_path (fuel : nat) (st : state) :
  no_dangling (graph st) →
  is_Some (graph st !! id (pos_1 st)) → is_Some (graph st !! id (pos_2 st)) →
  (duplicate_node_1 st ≠ 0 → is_Some (graph st !! duplicate_node_1 st)) →
  (duplicate_node_2 st ≠ 0 → is_Some (graph st !! duplicate_node_2 st)) →
  (2 * size (graph st) + 2 ≤ fuel)%nat →
  ∃ (st' : state) (F R : gset handle_t),
    prune_only_paths fuel st = Ok st'
    ∧ (∀ h, h ∈ F ↔ reaches (graph st) (forward_starts st) h)
    ∧ (∀ h, h ∈ R ↔ reaches (graph st) (reverse_starts st) h)
    ∧ (∀ k, is_Some (graph st' !! k)
            ↔ is_Some (graph st !! k)
              ∧ on_path F R (k, true) (k, false) || on_path F R (k, false) (k, true) = true)
    ∧ (∀ k, is_Some (graph st' !! k) →
         sequence (node_at (graph st') k) = sequence (node_at (graph st) k)
         ∧ edges_at (graph st') k Right
           = List.filter (λ e : edge_t, on_path F R (k, false) (e.1, negb e.2)
                                        || on_path F R (e.1, negb e.2) (k, false))
                         (edges_at (graph st) k Right)
         ∧ edges_at (graph st') k Left
           = List.filter (λ e : edge_t, on_path F R (k, true) (e.1, e.2)
                                        || on_path F R (e.1, e.2) (k, true))
                         (edges_at (graph st) k Left))
    ∧ (∀ k, is_Some (graph st !! k) → ¬ is_Some (graph st' !! k) →
         id_trans st' !! k = None)
    ∧ (∀ k, (is_Some (graph st !! k) → is_Some (graph st' !! k)) →
         id_trans st' !! k = id_trans st !! k).
Proof.
  intros Hd H1 H2 Hd1 Hd2 Hfuel. unfold prune_only_paths. cbv zeta.
  destruct (forward_starts_list st) as [-> HF]. destruct (reverse_starts_list st) as [-> HR].
  set (g := graph st) in *.
  set (l1 := if duplicate_node_1 st =? 0 then _ else _) in *.
  set (l2 := if duplicate_node_2 st =? 0 then _ else _) in *.
  destruct (reach_loop_strands fuel g l1) as (F & HlF & HFr); [done| | |].
  { intros h Hh. subst l1. destruct (Z.eqb_spec (duplicate_node_1 st) 0).
    - apply list_elem_of_singleton in Hh as ->. done.
    - apply elem_of_cons in Hh as [->|Hh]; [by apply Hd1|].
      apply list_elem_of_singleton in Hh as ->. done. }
  { subst l1. destruct (duplicate_node_1 st =? 0); simpl; lia. }
  destruct (reach_loop_strands fuel g l2) as (R & HlR & HRr); [done| | |].
  { intros h Hh. subst l2. destruct (Z.eqb_spec (duplicate_node_2 st) 0).
    - apply list_elem_of_singleton in Hh as ->. done.
    - apply elem_of_cons in Hh as [->|Hh]; [by apply Hd2|].
      apply list_elem_of_singleton in Hh as ->. done. }
  { subst l2. destruct (duplicate_node_2 st =? 0); simpl; lia. }
  rewrite HF, HlF. cbn [bind]. rewrite HR, HlR. cbn [bind].
  set (en := λ k : Z, negb (on_path F R (k, true) (k, false))
                      && negb (on_path F R (k, false) (k, true))).
  set (er := λ (k : Z) (e : edge_t), negb (on_path F R (k, false) (e.1, negb e.2))
                                     && negb (on_path F R (e.1, negb e.2) (k, false))).
  set (el := λ (k : Z) (e : edge_t), negb (on_path F R (k, true) (e.1, e.2))
                                     && negb (on_path F R (e.1, e.2) (k, true))).
  destruct (filter_records_pure en er el (map_to_list g) g [])
    as (g' & Hf & Hkeys & Hseq & Her & Hel).
  { intros [k n] Hr. apply elem_of_map_to_list in Hr. simpl. eauto. }
  assert (Hf' : filter_records (erase_node_paths F R) (erase_right_paths F R)
                  (erase_left_paths F R) (map_to_list g) (g, [])
                = Ok (g', [] ++ List.filter en (map_to_list g).*1)) by exact Hf.
  rewrite Hf'. cbn [bind app].
  set (te := List.filter en (map_to_list g).*1).
  assert (Hte : ∀ k, k ∈ te ↔ is_Some (g !! k) ∧ en k = true).
  { intros k. apply elem_of_filter_keys. }
  assert (Hen : ∀ k, en k = negb (on_path F R (k, true) (k, false)
                                  || on_path F R (k, false) (k, true))).
  { intros k. subst en. cbv beta. by rewrite negb_orb. }
  assert (Hkept : ∀ k, is_Some (foldl (λ g k, delete k g) g' te !! k)
                       ↔ is_Some (g !! k)
                         ∧ on_path F R (k, true) (k, false)
                           || on_path F R (k, false) (k, true) = true).
  { intros k. rewrite lookup_foldl_delete. case_bool_decide as Hin.
    - apply Hte in Hin as [Hp He]. rewrite Hen in He. split; [by intros [? ?]|].
      intros [_ Hk]. rewrite Hk in He. done.
    - rewrite Hkeys. split; [|by intros [? _]]. intros Hp. split; [done|].
      destruct (on_path F R (k, true) (k, false) || on_path F R (k, false) (k, true))
        eqn:Hk; [done|].
      exfalso. apply Hin, Hte. split; [done|]. by rewrite Hen, Hk. }
  eexists _, F, R. split; [reflexivity|]. split; [done|]. split; [done|].
  unfold erase_nodes. cbn [graph id_trans set_graph set_id_trans].
  split; [done|]. split; [|split].
  - intros k Hk. pose proof Hk as Hk'. apply Hkept in Hk' as [Hp Hon].
    assert (Hnot : k ∉ te).
    { intros Hin. apply Hte in Hin as [_ He]. rewrite Hen, Hon in He. done. }
    assert (Hb : bool_decide (k ∈ (map_to_list g).*1 ∧ en k = false) = true).
    { apply bool_decide_eq_true_2. split; [|by rewrite Hen, Hon].
      destruct Hp as [n Hn]. apply list_elem_of_fmap. exists (k, n). split; [done|].
      by apply elem_of_map_to_list. }
    rewrite !edges_at_foldl_delete, node_at_foldl_delete by done.
    rewrite Hseq, Her, Hel, Hb. split; [done|].
    split; apply List.filter_ext; intros e; subst er el; cbv beta;
      by rewrite negb_andb, !negb_involutive.
  - intros k Hp Hn. rewrite lookup_foldl_delete. rewrite bool_decide_eq_true_2; [done|].
    apply Hte. split; [done|]. rewrite Hen.
    destruct (on_path F R (k, true) (k, false) || on_path F R (k, false) (k, true))
      eqn:Hk; [|done].
    exfalso. apply Hn, Hkept. done.
  - intros k Hk. rewrite lookup_foldl_delete. rewrite bool_decide_eq_false_2; [done|].
    intros Hin. apply Hte in Hin as [Hp He].
    apply Hk, Hkept in Hp as [_ Hon]. rewrite Hen, Hon in He. done.
Qed.

Lemma only_paths_keeps_what_is_on_a_path_witness :
  ∃ st' : state,
    prune_only_paths 10 tip_state = Ok st'
    ∧ graph st' !! 4 = None
    ∧ id_trans st' = ∅
    ∧ edges_at (graph st') 2 Right = [(3, false)].
Proof.
  destruct (only_paths_keeps_what_is_on_a_path 10 tip_state)
    as (st' & F & R & Hp & _).
  - apply no_danglingb_sound. vm_compute. reflexivity.
  - vm_compute. eauto.
  - vm_compute. eauto.
  - intros Hne. by contradiction Hne.
  - intros Hne. by contradiction Hne.
  - vm_compute. lia.
  - exists st'. split; [exact Hp|].
    vm_compute in Hp. inversion Hp. subst st'. clear.
    split; [vm_compute; reflexivity|]. split; vm_compute; reflexivity.
Defined.

(** ** The edges that the forward search records *)

Lemma source_edges_forward_visit source fml trav st next :
  is_Some (graph st !! get_id (handle trav)) →
  next ∈ follow_edges source (handle trav) false →
  source_edges source (graph st) →
  source_edges source (graph (forward_visit source fml trav st next)).
Proof.
  intros Htrav Hnext Hg.
  assert (HXY : joined source (get_id (handle trav), left_if (get_is_reverse (handle trav)))
                  (get_id next, right_if (get_is_reverse next))).
  { exists (handle trav), next. done. }
  destruct trav as [[a rev] d], next as [b nr].
  unfold get_id, get_is_reverse in Htrav, HXY. simpl in Htrav, HXY. clear Hnext.
  unfold forward_visit, get_id, get_is_reverse. simpl.
  pose proof (ensure_node_facts (graph st) b (get_sequence source (forward (b, nr))))
    as [Hg1e Hg1k]. cbv zeta in Hg1e, Hg1k.
  set (g1 := match graph st !! b with Some _ => graph st | None => _ end) in *.
  assert (Hg1 : source_edges source g1).
  { intros x y. rewrite (stored_count_ext (graph st) g1 Hg1e). apply Hg. }
  assert (Ha1 : is_Some (g1 !! a)) by (apply Hg1k; by right).
  assert (Hb1 : is_Some (g1 !! b)) by (apply Hg1k; by left).
  clearbody g1. case_bool_decide; simpl; [done|].
  destruct (observe_edge_facts g1 a b rev nr Ha1 Hb1) as (_ & _ & Hc). cbv zeta in Hc.
  intros x y. rewrite Hc. intros Hpos.
  destruct (decide (x = (a, left_if rev) ∧ y = (b, right_if nr))) as [[-> ->]|H1];
    [by left|].
  rewrite (bool_decide_eq_false_2 _ H1) in Hpos.
  destruct (decide ((a, left_if rev) ≠ (b, right_if nr)
                    ∧ x = (b, right_if nr) ∧ y = (a, left_if rev))) as [(_ & -> & ->)|H2];
    [by right|].
  rewrite (bool_decide_eq_false_2 _ H2) in Hpos. apply Hg1. lia.
Qed.

Lemma source_edges_foldl source (f : state → handle_t → state) (k : Z) l st :
  (∀ st h, search_frame st (f st h)) →
  (∀ st h, h ∈ l → is_Some (graph st !! k) → source_edges source (graph st) →
           source_edges source (graph (f st h))) →
  is_Some (graph st !! k) → source_edges source (graph st) →
  source_edges source (graph (foldl f st l)).
Proof.
  intros Hframe. revert st. induction l as [|h l IH]; intros st Hf Hk Hst; simpl; [done|].
  apply IH.
  - intros st0 h0 Hh0. apply Hf. by apply elem_of_cons; right.
  - destruct (Hframe st h) as (_ & _ & _ & _ & _ & _ & _ & Hg). by eapply grows_is_Some.
  - apply Hf; [by apply elem_of_cons; left|done|done].
Qed.

Lemma source_edges_forward_loop source fml fuel st :
  search_inv source st → source_edges source (graph st) →
  post (forward_loop source fml fuel st) (λ st', source_edges source (graph st'))
       (λ _, True).
Proof.
  revert st. induction fuel as [|fuel IH]; intros st Hinv Hst; simpl.
  - by destruct (pop (queue st)) as [[trav q]|].
  - destruct (pop (queue st)) as [[trav q]|] eqn:Hpop; [|done].
    destruct (search_inv_pop _ _ _ _ Hinv Hpop) as [Hinv1 Htrav].
    apply IH.
    + unfold forward_step.
      apply (search_inv_foldl source _ (get_id (handle trav))).
      * intros st0 h. apply search_frame_forward_visit.
      * intros st0 h. apply search_inv_forward_visit.
      * simpl. by rewrite touch_present.
      * simpl. by rewrite touch_present.
    + unfold forward_step.
      apply (source_edges_foldl source _ (get_id (handle trav))).
      * intros st0 h. apply search_frame_forward_visit.
      * intros st0 h Hh Hk. by apply source_edges_forward_visit.
      * simpl. by rewrite touch_present.
      * simpl. by rewrite touch_present.
Qed.

Lemma source_edges_forward_search fuel source max_len p1 p2 T detect st :
  forward_search fuel source max_len p1 p2 T detect (initial_state source p1 p2 T detect)
  = Ok st →
  source_edges source (graph st).
Proof.
  intros Hf.
  assert (H0 : source_edges source (graph (initial_state source p1 p2 T detect))).
  { intros x y. unfold stored_count. rewrite edges_at_initial. simpl. lia. }
  pose proof (search_inv_initial source p1 p2 T detect) as Hinv.
  destruct (initial_state_facts source p1 p2 T detect) as (_ & _ & _ & _ & Hi1 & _).
  unfold forward_search in Hf. case_bool_decide.
  - inversion Hf. done.
  - match type of Hf with forward_loop ?src ?fml ?fu ?s = _ =>
      pose proof (source_edges_forward_loop src fml fu s) as Hpost end.
    rewrite Hf in Hpost. simpl in Hpost. apply Hpost.
    + destruct (_ <=? _); [|done].
      apply search_inv_set_queue; [done|]. intros t Ht.
      pose proof Hinv as (_ & _ & Hq & _).
      apply elem_of_items_emplace in Ht as [Ht| ->]; [by apply Hq|done].
    + by destruct (_ <=? _).
Qed.

(** X15: positions on two different nodes, without cycle detection and
    pruning.  Whenever the call returns, every edge of the output joins two
    node sides that an edge of the source graph joins, in one of its two
    readings. *)
Theorem separate_nodes_edges_are_source_edges
    (fuel : nat) (source : HandleGraph) (max_len : Z) (pos_1 pos_2 : pos_t)
    (include_terminal_positions : bool) (g : Graph) (trans : gmap Z Z) (out : Graph) :
  valid_pos source pos_1 → valid_pos source pos_2 → id pos_1 ≠ id pos_2 →
  extract_connecting_graph fuel source max_len pos_1 pos_2 include_terminal_positions
    false false false false g = Returned trans out →
  ∀ e : Edge, e ∈ edge out →
    joined source (from_end e) (to_end_of e) ∨ joined source (to_end_of e) (from_end e).
Proof.
  intros Hv1 Hv2 Hne Hex e He.
  set (T := include_terminal_positions) in *.
  destruct (extract_cases _ _ _ _ _ _ _ _ _ _ _ _ _ Hex)
    as (Hn & Hed & st & Hf & Hframe & Hcases).
  destruct Hcases as [(_ & _ & ->)|(_ & st' & Has & _ & ->)].
  { rewrite Hed in He. by apply elem_of_nil in He. }
  assert (Hb : backward_search fuel source max_len pos_1 pos_2 T false st = Ok st) by done.
  destruct (search_inv_after_searches _ _ _ _ _ _ _ _ _ Hf Hb) as (_ & Hinv & _).
  pose proof (source_sequences_after_searches _ _ _ _ _ _ _ _ _ Hf Hb) as Hseq.
  pose proof (source_edges_forward_search _ _ _ _ _ _ _ _ Hf) as Hsrc.
  destruct (separate_nodes_after_search fuel source max_len pos_1 pos_2 T st
              Hv1 Hv2 Hne Hinv Hseq Hframe) as (g' & Has' & [_ Hsides] & _).
  rewrite Has' in Has. inversion Has; subst st'. simpl in He.
  rewrite (empty_graph_eta g Hn Hed) in He.
  apply elem_of_edge_emit_stored in He. rewrite !Hsides in He.
  destruct He as [He|He]; case_bool_decide; try lia.
  - by apply Hsrc.
  - apply Hsrc in He. tauto.
Qed.

Lemma separate_nodes_edges_are_source_edges_witness :
  joined chain (from_end (mkEdge 2 3 false false)) (to_end_of (mkEdge 2 3 false false))
  ∨ joined chain (to_end_of (mkEdge 2 3 false false)) (from_end (mkEdge 2 3 false false)).
Proof.
  apply (separate_nodes_edges_are_source_edges 10 chain 20 (make_pos_t 1 false 1)
           (make_pos_t 3 false 2) false empty_graph
           {[1 := 1; 2 := 2; 3 := 3]}
           (mkGraph [mkNode 3 "TT"; mkNode 2 "GGGG"; mkNode 1 "GT"]
                    [mkEdge 2 3 false false; mkEdge 1 2 false false])).
  - split; vm_compute; [intuition congruence|reflexivity].
  - split; vm_compute; [intuition congruence|reflexivity].
  - vm_compute. discriminate.
  - vm_compute. reflexivity.
  - apply elem_of_cons. by left.
Defined.

(** ** Step 3 and the mirror entries *)

Lemma stored_count_push (k : Z) (s : side) (b : Z) (r : bool) (g : graph_t) (x y : end_t) :
  stored_count (push_edge k s (b, r) g) x y
  = (stored_count g x y
     + if bool_decide (x = (k, s) ∧ y = (b, mirror_side s r)) then 1 else 0)%nat.
Proof.
  rewrite stored_count_push_edge. f_equal.
  apply f_equal with (f := λ c : bool, if c then 1%nat else 0%nat).
  apply bool_decide_ext. split; intros [-> H]; (split; [done|]).
  - by apply (toward_iff (k, s) y (b, r)) in H.
  - by apply (toward_iff (k, s) y (b, r)).
Qed.

Lemma count_edge_alter (c : edge_t) (f : edge_t → edge_t) (i : nat) (l : list edge_t)
    (e : edge_t) :
  l !! i = Some e →
  (count_edge c (alter f i l) + (if bool_decide (e = c) then 1 else 0)
   = count_edge c l + (if bool_decide (f e = c) then 1 else 0))%nat.
Proof.
  revert i. induction l as [|x l IH]; intros i Hi; [done|].
  destruct i as [|i]; simpl in Hi.
  - inversion Hi; subst x. cbn [alter list_alter]. rewrite !count_edge_cons. lia.
  - specialize (IH i Hi). cbn [alter list_alter]. rewrite !count_edge_cons. lia.
Qed.

Lemma stored_count_set_edge_first (k : Z) (s : side) (i : nat) (j : Z) (g : graph_t)
    (e : edge_t) (x y : end_t) :
  edges_at g k s !! i = Some e →
  (stored_count (set_edge_first k s i j g) x y
   + (if bool_decide (x = (k, s) ∧ y = (e.1, mirror_side s e.2)) then 1 else 0)
   = stored_count g x y
     + (if bool_decide (x = (k, s) ∧ y = (j, mirror_side s e.2)) then 1 else 0))%nat.
Proof.
  intros Hi. rewrite !stored_count_count. unfold set_edge_first.
  rewrite edges_at_set_edges. destruct x as [a s']. simpl.
  destruct (decide (a = k ∧ s' = s)) as [[-> ->]|Hne].
  - pose proof (count_edge_alter (y.1, same_side (k, s) y) (λ e : edge_t, (j, e.2)) i
                  (edges_at g k s) e Hi) as Hc. simpl in Hc.
    assert (H1 : bool_decide ((k, s) = (k, s) ∧ y = (e.1, mirror_side s e.2))
                 = bool_decide (e = (y.1, same_side (k, s) y))).
    { apply bool_decide_ext. rewrite (toward_iff (k, s) y e). simpl. tauto. }
    assert (H2 : bool_decide ((k, s) = (k, s) ∧ y = (j, mirror_side s e.2))
                 = bool_decide ((j, e.2) = (y.1, same_side (k, s) y))).
    { apply bool_decide_ext. rewrite (toward_iff (k, s) y (j, e.2)). simpl. tauto. }
    rewrite H1, H2. lia.
  - rewrite !bool_decide_eq_false_2; [lia| |]; intros [[= -> ->] _]; tauto.
Qed.

(** An entry and its mirror entry are added. *)
Lemma mirror_push_pair (g : graph_t) (a : Z) (s : side) (b : Z) (s' : side) (r : bool) :
  s' = mirror_side s r → edge_mirror_counts g →
  edge_mirror_counts (push_edge b s' (a, r) (push_edge a s (b, r) g)).
Proof.
  intros -> Hc x y. rewrite !stored_count_push, mirror_side_involutive, (Hc x y).
  rewrite (bool_decide_ext (y = (b, mirror_side s r) ∧ x = (a, s))
                           (x = (a, s) ∧ y = (b, mirror_side s r))) by tauto.
  rewrite (bool_decide_ext (y = (a, s) ∧ x = (b, mirror_side s r))
                           (x = (b, mirror_side s r) ∧ y = (a, s))) by tauto.
  lia.
Qed.

(** A reversing self-loop is added, as one entry. *)
Lemma mirror_push_self (g : graph_t) (a : Z) (s : side) :
  edge_mirror_counts g → edge_mirror_counts (push_edge a s (a, true) g).
Proof.
  intros Hc x y. rewrite !stored_count_push, (Hc x y). simpl.
  by rewrite (bool_decide_ext (y = (a, s) ∧ x = (a, s)) (x = (a, s) ∧ y = (a, s))) by tauto.
Qed.

(** A reversing self-loop of [k] becomes an edge between [k] and [j]. *)
Lemma mirror_move_self (g : graph_t) (k j : Z) (s : side) (i : nat) :
  edges_at g k s !! i = Some (k, true) → edge_mirror_counts g →
  edge_mirror_counts (push_edge j s (k, true) (set_edge_first k s i j g)).
Proof.
  intros Hi Hc x y. rewrite !stored_count_push. simpl.
  pose proof (stored_count_set_edge_first k s i j g (k, true) x y Hi) as H1.
  pose proof (stored_count_set_edge_first k s i j g (k, true) y x Hi) as H2.
  simpl in H1, H2. pose proof (Hc x y) as H3.
  rewrite (bool_decide_ext (y = (k, s) ∧ x = (k, s)) (x = (k, s) ∧ y = (k, s))) in H2
    by tauto.
  rewrite (bool_decide_ext (y = (k, s) ∧ x = (j, s)) (x = (j, s) ∧ y = (k, s))) in H2
    by tauto.
  rewrite (bool_decide_ext (y = (j, s) ∧ x = (k, s)) (x = (k, s) ∧ y = (j, s))) by tauto.
  lia.
Qed.

Lemma mirror_insert_fresh (g : graph_t) (k : Z) (str : string) :
  g !! k = None → edge_mirror_counts g → edge_mirror_counts (<[k := LocalNode_of str]> g).
Proof.
  intros Hk Hc x y.
  rewrite !(stored_count_ext g (<[k := LocalNode_of str]> g)); [apply Hc| |];
    intros a s; by apply edges_at_insert_fresh.
Qed.

Lemma edges_at_push_edge_ne (k : Z) (s : side) (e : edge_t) (g : graph_t) (a : Z) (s' : side) :
  (a, s') ≠ (k, s) → edges_at (push_edge k s e g) a s' = edges_at g a s'.
Proof.
  intros Hne. rewrite edges_at_push_edge. rewrite decide_False; [done|].
  intros [-> ->]. done.
Qed.

Lemma length_set_edge_first (k : Z) (s : side) (i : nat) (j : Z) (g : graph_t) (a : Z)
    (s' : side) :
  length (edges_at (set_edge_first k s i j g) a s') = length (edges_at g a s').
Proof.
  unfold set_edge_first. rewrite edges_at_set_edges.
  destruct (decide _) as [[-> ->]|?]; [by rewrite length_alter|done].
Qed.

Ltac same_length :=
  cbn [fst snd];
  rewrite ?edges_at_push_edge_ne by congruence;
  rewrite ?length_set_edge_first;
  rewrite ?edges_at_push_edge_ne by congruence;
  done.

Lemma duplicate_separate_1_mirror (st : state) :
  edge_mirror_counts (graph st) → is_Some (graph st !! id (pos_1 st)) →
  graph st !! next_id st = None →
  ∃ st', duplicate_separate_1 st = Ok st' ∧ edge_mirror_counts (graph st').
Proof.
  intros Hc Hin Hfresh. unfold duplicate_separate_1.
  set (id_1 := id (pos_1 st)) in *. set (new_id := next_id st) in *.
  assert (Hne : new_id ≠ id_1).
  { intros Heq. rewrite Heq in Hfresh. rewrite Hfresh in Hin. by destruct Hin. }
  rewrite (touch_present id_1 (graph st)) by done.
  set (g0 := <[new_id := _]> (graph st)).
  assert (Hc0 : edge_mirror_counts g0) by (by apply mirror_insert_fresh).
  clearbody g0.
  destruct (for_each_edge_inv (λ s : graph_t * bool, edges_at s.1 id_1 Right)
              (λ (i : nat) (edge : edge_t) (s : graph_t * bool),
                 let '(g, looping) := s in
                 if (edge.1 =? id_1) && edge.2 then
                   Ok (push_edge new_id Right (new_id, edge.2)
                         (push_edge new_id Right (id_1, edge.2)
                            (set_edge_first id_1 Right i new_id g)), looping)
                 else if edge.1 =? id_1 then
                   Ok (push_edge new_id Left (new_id, edge.2)
                         (push_edge new_id Right (new_id, edge.2) g), true)
                 else
                   Ok (push_edge new_id Right (edge.1, edge.2)
                         (push_edge edge.1 (right_if edge.2) (new_id, edge.2) g), looping))
              (λ (_ : nat) (s : graph_t * bool), edge_mirror_counts s.1) (g0, false))
    as ([g1 l1] & Hl1 & Hc1); [done| |].
  { intros j [b r] [g looping] _ Hg Hlen Hlook. cbn [fst snd] in Hg, Hlen, Hlook.
    cbv beta iota.
    cbn [fst snd]. destruct (Z.eqb_spec b id_1) as [->|Hb]; [destruct r|]; cbn [andb].
    - eexists. split; [reflexivity|]. split; [|same_length].
      cbn [fst]. by apply mirror_push_self, mirror_move_self.
    - eexists. split; [reflexivity|]. split; [|same_length].
      cbn [fst]. by apply mirror_push_pair.
    - eexists. split; [reflexivity|]. split; [|same_length].
      cbn [fst]. apply mirror_push_pair; [by destruct r|done]. }
  rewrite Hl1. cbn [bind]. cbn [fst] in Hc1.
  destruct (for_each_edge_inv (λ s : graph_t * bool, edges_at s.1 id_1 Left)
              (λ (i : nat) (edge : edge_t) (s : graph_t * bool),
                 let '(g, looping) := s in
                 if (edge.1 =? id_1) && edge.2 then
                   Ok (push_edge new_id Left (new_id, edge.2)
                         (push_edge new_id Left (id_1, edge.2)
                            (set_edge_first id_1 Left i new_id g)), looping)
                 else if negb (edge.1 =? id_1) then
                   Ok (push_edge new_id Left (edge.1, edge.2)
                         (push_edge edge.1 (left_if edge.2) (new_id, edge.2) g), looping)
                 else Ok (g, looping))
              (λ (_ : nat) (s : graph_t * bool), edge_mirror_counts s.1) (g1, l1))
    as ([g2 l2] & Hl2 & Hc2); [done| |].
  { intros j [b r] [g looping] _ Hg Hlen Hlook. cbn [fst snd] in Hg, Hlen, Hlook.
    cbv beta iota.
    cbn [fst snd]. destruct (Z.eqb_spec b id_1) as [->|Hb]; [destruct r|]; cbn [andb negb].
    - eexists. split; [reflexivity|]. split; [|same_length].
      cbn [fst]. by apply mirror_push_self, mirror_move_self.
    - eexists. split; [reflexivity|]. done.
    - eexists. split; [reflexivity|]. split; [|same_length].
      cbn [fst]. apply mirror_push_pair; [by destruct r|done]. }
  rewrite Hl2. cbn [bind]. cbn [fst] in Hc2.
  eexists. split; [reflexivity|]. simpl. destruct l2; [|done].
  apply mirror_push_pair; [by destruct (is_rev (pos_1 st))|done].
Qed.

Lemma duplicate_shared_unreachable_mirror (st : state) :
  edge_mirror_counts (graph st) → is_Some (graph st !! id (pos_1 st)) →
  graph st !! next_id st = None →
  ∃ st', duplicate_shared_unreachable st = Ok st' ∧ edge_mirror_counts (graph st').
Proof.
  intros Hc Hin Hfresh. unfold duplicate_shared_unreachable.
  set (id_1 := id (pos_1 st)) in *. set (new_id := next_id st) in *.
  set (rev_1 := is_rev (pos_1 st)) in *.
  assert (Hne : new_id ≠ id_1).
  { intros Heq. rewrite Heq in Hfresh. rewrite Hfresh in Hin. by destruct Hin. }
  rewrite (touch_present id_1 (graph st)) by done.
  set (g0 := <[new_id := _]> (graph st)).
  assert (Hc0 : edge_mirror_counts g0) by (by apply mirror_insert_fresh).
  clearbody g0.
  destruct (for_each_edge_inv (λ s : graph_t * bool, edges_at s.1 id_1 (left_if rev_1))
              (λ (i : nat) (edge : edge_t) (s : graph_t * bool),
                 let '(g, looping) := s in
                 if (edge.1 =? id_1) && edge.2 then
                   Ok (push_edge new_id (left_if rev_1) (new_id, edge.2)
                         (push_edge new_id (left_if rev_1) (id_1, edge.2)
                            (set_edge_first id_1 (left_if rev_1) i new_id g)), looping)
                 else if edge.1 =? id_1 then Ok (g, true)
                 else
                   Ok (push_edge new_id (left_if rev_1) (edge.1, edge.2)
                         (push_edge edge.1 (right_if (xorb rev_1 edge.2)) (new_id, edge.2) g),
                       looping))
              (λ (_ : nat) (s : graph_t * bool), edge_mirror_counts s.1) (g0, false))
    as ([g1 l1] & Hl1 & Hc1); [done| |].
  { intros j [b r] [g looping] _ Hg Hlen Hlook. cbn [fst snd] in Hg, Hlen, Hlook.
    cbv beta iota.
    cbn [fst snd]. destruct (Z.eqb_spec b id_1) as [->|Hb]; [destruct r|]; cbn [andb].
    - eexists. split; [reflexivity|]. split; [|same_length].
      cbn [fst]. by apply mirror_push_self, mirror_move_self.
    - eexists. split; [reflexivity|]. done.
    - eexists. split; [reflexivity|]. split; [|same_length].
      cbn [fst]. apply mirror_push_pair; [by destruct rev_1, r|done]. }
  rewrite Hl1. cbn [bind]. cbn [fst] in Hc1.
  destruct (for_each_edge_inv (λ s : graph_t * bool, edges_at s.1 id_1 (right_if rev_1))
              (λ (i : nat) (edge : edge_t) (s : graph_t * bool),
                 let '(g, looping) := s in
                 if (edge.1 =? id_1) && edge.2 then
                   Ok (push_edge new_id (right_if rev_1) (new_id, edge.2)
                         (push_edge new_id (right_if rev_1) (id_1, edge.2)
                            (set_edge_first id_1 (right_if rev_1) i new_id g)), looping)
                 else if negb (edge.1 =? id_1) then
                   Ok (push_edge new_id (right_if rev_1) (edge.1, edge.2)
                         (push_edge edge.1 (left_if (xorb rev_1 edge.2)) (new_id, edge.2) g),
                       looping)
                 else Ok (g, looping))
              (λ (_ : nat) (s : graph_t * bool), edge_mirror_counts s.1) (g1, l1))
    as ([g2 l2] & Hl2 & Hc2); [done| |].
  { intros j [b r] [g looping] _ Hg Hlen Hlook. cbn [fst snd] in Hg, Hlen, Hlook.
    cbv beta iota.
    cbn [fst snd]. destruct (Z.eqb_spec b id_1) as [->|Hb]; [destruct r|]; cbn [andb negb].
    - eexists. split; [reflexivity|]. split; [|same_length].
      cbn [fst]. by apply mirror_push_self, mirror_move_self.
    - eexists. split; [reflexivity|]. done.
    - eexists. split; [reflexivity|]. split; [|same_length].
      cbn [fst]. apply mirror_push_pair; [by destruct rev_1, r|done]. }
  rewrite Hl2. cbn [bind]. cbn [fst] in Hc2.
  eexists. split; [reflexivity|]. simpl. destruct l2; [|done].
  apply mirror_push_pair; [by destruct rev_1|].
  apply mirror_push_pair; [by destruct rev_1|].
  apply mirror_push_pair; [by destruct rev_1|done].
Qed.

Lemma duplicate_shared_reverse_mirror (st : state) :
  edge_mirror_counts (graph st) → is_Some (graph st !! id (pos_1 st)) →
  graph st !! next_id st = None →
  ∃ st', duplicate_shared_reverse st = Ok st' ∧ edge_mirror_counts (graph st').
Proof.
  intros Hc Hin Hfresh. unfold duplicate_shared_reverse.
  set (id_1 := id (pos_1 st)) in *. set (new_id := next_id st) in *.
  set (rev_1 := is_rev (pos_1 st)) in *.
  assert (Hne : new_id ≠ id_1).
  { intros Heq. rewrite Heq in Hfresh. rewrite Hfresh in Hin. by destruct Hin. }
  rewrite (touch_present id_1 (graph st)) by done.
  set (g0 := <[new_id := _]> (graph st)).
  assert (Hc0 : edge_mirror_counts g0) by (by apply mirror_insert_fresh).
  clearbody g0.
  destruct (for_each_edge_inv
              (λ s : graph_t * bool * bool, edges_at s.1.1 id_1 (left_if rev_1))
              (λ (i : nat) (edge : edge_t) (s : graph_t * bool * bool),
                 let '(g, reversing, looping) := s in
                 if (edge.1 =? id_1) && edge.2 then Ok (g, true, looping)
                 else if edge.1 =? id_1 then Ok (g, reversing, true)
                 else
                   Ok (push_edge new_id (left_if rev_1) (edge.1, edge.2)
                         (push_edge edge.1 (right_if (xorb rev_1 edge.2)) (new_id, edge.2) g),
                       reversing, looping))
              (λ (_ : nat) (s : graph_t * bool * bool), edge_mirror_counts s.1.1)
              (g0, false, false))
    as ([[g1 r1] l1] & Hl1 & Hc1); [done| |].
  { intros j [b r] [[g reversing] looping] _ Hg Hlen Hlook.
    cbn [fst snd] in Hg, Hlen, Hlook. cbv beta iota.
    cbn [fst snd]. destruct (Z.eqb_spec b id_1) as [->|Hb]; [destruct r|]; cbn [andb].
    - eexists. split; [reflexivity|]. done.
    - eexists. split; [reflexivity|]. done.
    - eexists. split; [reflexivity|]. split; [|same_length].
      cbn [fst]. apply mirror_push_pair; [by destruct rev_1, r|done]. }
  rewrite Hl1. cbn [bind]. cbn [fst] in Hc1.
  destruct (for_each_edge_inv (λ g : graph_t, edges_at g id_1 (right_if rev_1))
              (λ (i : nat) (edge : edge_t) (g : graph_t),
                 if (edge.1 =? id_1) && edge.2 then
                   Ok (push_edge new_id (right_if rev_1) (new_id, edge.2) g)
                 else if negb (edge.1 =? id_1) then
                   Ok (push_edge new_id (right_if rev_1) (edge.1, edge.2)
                         (push_edge edge.1 (left_if (xorb rev_1 edge.2)) (new_id, edge.2) g))
                 else Ok g)
              (λ (_ : nat) (g : graph_t), edge_mirror_counts g) g1)
    as (g2 & Hl2 & Hc2); [done| |].
  { intros j [b r] g _ Hg Hlen Hlook. cbv beta in Hlen, Hlook. cbv beta.
    cbn [fst snd]. destruct (Z.eqb_spec b id_1) as [->|Hb]; [destruct r|]; cbn [andb negb].
    - eexists. split; [reflexivity|]. split; [|same_length]. by apply mirror_push_self.
    - eexists. split; [reflexivity|]. done.
    - eexists. split; [reflexivity|]. split; [|same_length].
      apply mirror_push_pair; [by destruct rev_1, r|done]. }
  rewrite Hl2. cbn [bind].
  eexists. split; [reflexivity|]. simpl.
  assert (Hc3 : edge_mirror_counts
                  (if r1
                   then push_edge new_id (left_if rev_1) (new_id, true)
                          (push_edge new_id (left_if rev_1) (id_1, true)
                             (push_edge id_1 (left_if rev_1) (new_id, true) g2))
                   else g2)).
  { destruct r1; [|done]. apply mirror_push_self. by apply mirror_push_pair. }
  destruct l1; [|done].
  apply mirror_push_pair; [by destruct rev_1|].
  apply mirror_push_pair; [by destruct rev_1|done].
Qed.

(** X16: step 3 started on a graph whose edge ends record every edge
    equally often, with the nodes of both positions in it and an unused
    [next_id].  In the cases [SharedNodeUnreachable] and [SharedNodeReverse],
    and in the case [SeparateNodes] when the node of the second position is
    not on a cycle, the duplication returns, and in its graph the two ends of
    every edge still record it equally often. *)
Theorem duplication_keeps_edge_mirror
    (include_terminal_positions : bool) (colo : colocation_t) (st : state) :
  edge_mirror_counts (graph st) →
  is_Some (graph st !! id (pos_1 st)) → is_Some (graph st !! id (pos_2 st)) →
  graph st !! next_id st = None →
  colo ≠ SharedNodeReachable →
  (colo = SeparateNodes → in_cycle (graph st) (id (pos_2 st)) = false) →
  ∃ st', duplicate_nodes include_terminal_positions colo st = Ok st'
         ∧ edge_mirror_counts (graph st').
Proof.
  intros Hc H1 H2 Hfresh Hcolo Hsep. unfold duplicate_nodes.
  rewrite (touch_present (id (pos_1 st)) (graph st)) by done.
  rewrite (touch_present (id (pos_2 st)) (graph st)) by done.
  destruct colo.
  - rewrite Hsep by done.
    destruct (in_cycle (graph st) (id (pos_1 st))); [|by eexists].
    destruct (duplicate_separate_1_mirror (set_graph (graph st) st)) as (st' & Hd & Hc');
      [done..|].
    rewrite Hd. cbn [bind]. by exists st'.
  - done.
  - by apply (duplicate_shared_unreachable_mirror (set_graph (graph st) st)).
  - destruct (in_cycle (graph st) (id (pos_1 st))); [|by eexists].
    by apply (duplicate_shared_reverse_mirror (set_graph (graph st) st)).
Qed.

Lemma duplication_keeps_edge_mirror_witness :
  ∃ st', duplicate_nodes false SharedNodeUnreachable loop_state = Ok st'
         ∧ edge_mirror_counts (graph st')
         ∧ id_trans st' = {[3 := 1]}.
Proof.
  destruct (duplication_keeps_edge_mirror false SharedNodeUnreachable loop_state)
    as (st' & Hd & Hc).
  - apply edge_mirror_countsb_sound. vm_compute. reflexivity.
  - vm_compute. eauto.
  - vm_compute. eauto.
  - vm_compute. reflexivity.
  - discriminate.
  - discriminate.
  - exists st'. split; [exact Hd|]. split; [exact Hc|].
    vm_compute in Hd. inversion Hd. reflexivity.
Defined.

(** ** The tip removal returns *)

Lemma entries_delete (g : graph_t) (k : Z) (n : LocalNode) :
  g !! k = Some n →
  entries g = (length (edges_left n) + length (edges_right n) + entries (delete k g))%nat.
Proof.
  intros Hk. unfold entries. by rewrite <- (map_to_list_delete g k n Hk).
Qed.

Lemma steady_decr_left : steady decr_left.
Proof.
  intros k t [d Hd]. unfold decr_left. rewrite Hd. eexists. split; [reflexivity|].
  simpl. split; [done|]. split; [done|]. intros j.
  destruct (decide (j = k)) as [->|Hne].
  - rewrite lookup_insert_eq, Hd. split; eauto.
  - by rewrite lookup_insert_ne.
Qed.

Lemma steady_decr_right : steady decr_right.
Proof. intros k t _. unfold decr_right. eexists. split; [reflexivity|]. done. Qed.

Lemma detach_returns (same other : Z → tips_state → res tips_state)
    (edges : list edge_t) (t : tips_state) :
  steady same → steady other →
  (∀ e, e ∈ edges → is_Some (left_degree t !! e.1)) →
  ∃ t', detach same other edges t = Ok t' ∧ t_graph t' = t_graph t
        ∧ length (to_check t') = (length (to_check t) + length edges)%nat
        ∧ ∀ j, is_Some (left_degree t' !! j) ↔ is_Some (left_degree t !! j).
Proof.
  intros Hs Ho. revert t. induction edges as [|e edges IH]; intros t He.
  - exists t. simpl. split; [done|]. split; [done|]. split; [lia|done].
  - assert (H1 : is_Some (left_degree t !! e.1)) by (apply He; by apply elem_of_cons; left).
    assert (Hf : ∃ t1, (if e.2 : bool then same e.1 t else other e.1 t) = Ok t1
                       ∧ t_graph t1 = t_graph t ∧ to_check t1 = to_check t
                       ∧ ∀ j, is_Some (left_degree t1 !! j) ↔ is_Some (left_degree t !! j)).
    { destruct e.2; [by apply Hs|by apply Ho]. }
    destruct Hf as (t1 & Hf & Hg1 & Hc1 & Hd1).
    cbn [detach]. rewrite Hf. cbn [bind].
    destruct (IH (push_front e.1 t1)) as (t' & Hd & Hg & Hl & Hk).
    { intros x Hx. simpl. apply Hd1, He. by apply elem_of_cons; right. }
    exists t'. split; [done|]. simpl in Hg, Hl, Hk. split; [congruence|].
    split; [rewrite Hl, Hc1; simpl; lia|]. intros j. by rewrite Hk, Hd1.
Qed.

Lemma length_removelast {A : Type} (l : list A) :
  l ≠ [] → length l = S (length (removelast l)).
Proof.
  intros Hl. destruct (exists_last Hl) as (l' & x & ->).
  rewrite removelast_last, length_app. simpl. lia.
Qed.

Lemma degrees_known_delete (t t2 : tips_state) (k : Z) :
  degrees_known t → t_graph t2 = t_graph t →
  (∀ j, is_Some (left_degree t2 !! j) ↔ is_Some (left_degree t !! j)) →
  degrees_known (remove_tip k t2).
Proof.
  intros [Hk He] Hg Hd. split.
  - intros j Hj. simpl in *. rewrite Hg in Hj.
    apply Hd, Hk. destruct Hj as [n Hn]. apply lookup_delete_Some in Hn as [_ Hn]. eauto.
  - intros j n e Hj Hin. simpl in *. rewrite Hg in Hj.
    apply lookup_delete_Some in Hj as [_ Hj]. apply Hd. by eapply He.
Qed.

Lemma check_loop_returns (protected : Z → bool) (fuel : nat) (t : tips_state) :
  degrees_known t →
  (length (to_check t) + entries (t_graph t) ≤ fuel)%nat →
  ∃ t', check_loop protected fuel t = Ok t' ∧ degrees_known t' ∧ to_check t' = []
        ∧ (entries (t_graph t') ≤ entries (t_graph t))%nat.
Proof.
  revert t. induction fuel as [|fuel IH]; intros t Hinv Hfuel.
  - destruct (to_check t) eqn:Hc; [|simpl in Hfuel; lia].
    exists t. simpl. rewrite Hc. done.
  - destruct (to_check t) as [|k0 rest] eqn:Hc.
    { exists t. simpl. rewrite Hc. done. }
    cbn [check_loop]. rewrite Hc. rewrite <- Hc.
    assert (Hlen : length (to_check t) = S (length (removelast (to_check t)))).
    { apply length_removelast. by rewrite Hc. }
    set (node_id := List.last (to_check t) 0). clearbody node_id.
    set (rl := removelast (to_check t)) in *. clearbody rl.
    assert (Hm : (S (length rl) + entries (t_graph t) ≤ S fuel)%nat).
    { rewrite <- Hlen, Hc. exact Hfuel. }
    set (t1 := mkTips (t_graph t) (t_id_trans t) (left_degree t) (right_degree t) rl).
    assert (Hinv1 : degrees_known t1) by done.
    assert (Hskip : ∃ t', check_loop protected fuel t1 = Ok t' ∧ degrees_known t'
                          ∧ to_check t' = []
                          ∧ (entries (t_graph t') ≤ entries (t_graph t))%nat).
    { apply (IH t1); [done|]. cbn [t1 to_check t_graph]. lia. }
    destruct (protected node_id); [done|]. cbn [orb].
    change (t_graph t1) with (t_graph t). case_bool_decide as Hin; [|done]. cbn [negb].
    destruct Hin as [n Hn].
    change (left_degree t1) with (left_degree t).
    destruct Hinv as [Hk He]. destruct (Hk node_id) as [dl Hdl]; [by eauto|].
    rewrite Hdl.
    assert (Herase : ∀ (same other : Z → tips_state → res tips_state) (s : side),
              steady same → steady other →
              ∃ t', (let* t2 := detach same other
                                  (edges_at (t_graph (forget_translation node_id t1)) node_id s)
                                  (forget_translation node_id t1) in
                     check_loop protected fuel (remove_tip node_id t2)) = Ok t'
                    ∧ degrees_known t' ∧ to_check t' = []
                    ∧ (entries (t_graph t') ≤ entries (t_graph t))%nat).
    { intros same other s Hs Ho.
      destruct (detach_returns same other
                  (edges_at (t_graph (forget_translation node_id t1)) node_id s)
                  (forget_translation node_id t1) Hs Ho) as (t2 & Hd2 & Hg2 & Hl2 & Hk2).
      { intros e Hin. simpl in *. unfold edges_at in Hin. rewrite (node_at_Some _ _ _ Hn) in Hin.
        apply (He node_id n e Hn). apply elem_of_app. destruct s; [by left|by right]. }
      rewrite Hd2. cbn [bind]. simpl in Hg2, Hl2, Hk2.
      pose proof (entries_delete (t_graph t) node_id n Hn) as Hent.
      assert (Hls : (length (edges_at (t_graph t) node_id s)
                     ≤ length (edges_left n) + length (edges_right n))%nat).
      { unfold edges_at. rewrite (node_at_Some _ _ _ Hn). destruct s; simpl; lia. }
      destruct (IH (remove_tip node_id t2)) as (t' & Hr & Hi' & Hc' & He').
      - by apply (degrees_known_delete t).
      - cbn [remove_tip to_check t_graph]. rewrite Hg2, Hl2. lia.
      - exists t'. split; [done|]. split; [done|]. split; [done|].
        simpl in He'. rewrite Hg2 in He'. lia. }
    destruct (dl =? 0).
    + apply (Herase decr_right decr_left Right);
        [apply steady_decr_right|apply steady_decr_left].
    + destruct (_ =? 0); [|done].
      apply (Herase decr_left decr_right Left);
        [apply steady_decr_left|apply steady_decr_right].
Qed.

Lemma check_all_returns (protected : Z → bool) (fuel : nat) (ids : list Z) (t : tips_state) :
  degrees_known t → to_check t = [] →
  (entries (t_graph t) + 1 ≤ fuel)%nat →
  ∃ t', check_all protected fuel ids t = Ok t'.
Proof.
  revert t. induction ids as [|k ids IH]; intros t Hinv Hc Hfuel; [by eexists|].
  cbn [check_all].
  destruct (check_loop_returns protected fuel (push_front k t)) as (t1 & H1 & Hi1 & Hc1 & He1).
  - done.
  - simpl. rewrite Hc. simpl. lia.
  - rewrite H1. cbn [bind]. apply IH; [done|done|]. simpl in He1. lia.
Qed.

(** X17: the removal of tips, on a graph whose edge entries all name nodes
    of the graph and with fuel for one turn per entry and one more, returns:
    no degree is looked up that was not recorded, and no call of the inner
    loop runs out of fuel. *)
Theorem tip_removal_returns (fuel : nat) (st : state) :
  no_dangling (graph st) → (entries (graph st) + 1 ≤ fuel)%nat →
  ∃ st' : state, prune_no_additional_tips fuel st = Ok st'.
Proof.
  intros Hd Hfuel. unfold prune_no_additional_tips.
  set (protected := λ k : Z, (k =? id (pos_1 st)) || (k =? id (pos_2 st))
                             || (k =? duplicate_node_1 st) || (k =? duplicate_node_2 st)).
  set (ldeg := (λ n : LocalNode, Z.of_nat (length (edges_left n))) <$> graph st).
  set (rdeg := (λ n : LocalNode, Z.of_nat (length (edges_right n))) <$> graph st).
  destruct (check_all_returns protected fuel (map_to_list ldeg).*1
              (mkTips (graph st) (id_trans st) ldeg rdeg [])) as [t Ht].
  - assert (Hl : ∀ k, is_Some (graph st !! k) → is_Some (ldeg !! k)).
    { intros k [n Hn]. subst ldeg. rewrite lookup_fmap, Hn. simpl. eauto. }
    split; simpl; [done|].
    intros k n e Hn He. apply Hl.
    apply elem_of_app in He as [He|He].
    + apply (Hd k Left). unfold edges_at. by rewrite (node_at_Some _ _ _ Hn).
    + apply (Hd k Right). unfold edges_at. by rewrite (node_at_Some _ _ _ Hn).
  - done.
  - done.
  - rewrite Ht. cbn [bind]. by eexists.
Qed.

Lemma tip_removal_returns_witness :
  ∃ st' : state, prune_no_additional_tips 10 tip_state = Ok st'.
Proof.
  apply (tip_removal_returns 10 tip_state).
  - apply no_danglingb_sound. vm_compute. reflexivity.
  - vm_compute. lia.
Defined.

(** ** The nodes that the forward search loads *)

Lemma keys_within_forward_visit (source : HandleGraph) (fml : Z) (hs : gset handle_t)
    (trav : Traversal) (st : state) (next : handle_t) :
  is_Some (graph st !! get_id (handle trav)) → next ∈ hs →
  keys_within hs (graph st) →
  keys_within hs (graph (forward_visit source fml trav st next)).
Proof.
  intros Htrav Hnext Hg. destruct trav as [[a rev] d], next as [b nr].
  unfold get_id in Htrav. simpl in Htrav.
  unfold forward_visit, get_id, get_is_reverse. simpl.
  pose proof (ensure_node_facts (graph st) b (get_sequence source (forward (b, nr))))
    as [_ Hg1k]. cbv zeta in Hg1k.
  set (g1 := match graph st !! b with Some _ => graph st | None => _ end) in *.
  assert (Hg1 : keys_within hs g1).
  { intros j Hj. apply Hg1k in Hj as [->|Hj]; [by exists nr|by apply Hg]. }
  assert (Ha1 : is_Some (g1 !! a)) by (apply Hg1k; by right).
  assert (Hb1 : is_Some (g1 !! b)) by (apply Hg1k; by left).
  clearbody g1. case_bool_decide; simpl; [done|].
  destruct (observe_edge_facts g1 a b rev nr Ha1 Hb1) as (Hk & _). cbv zeta in Hk.
  intros j Hj. apply Hg1. by apply Hk.
Qed.

Lemma keys_within_foldl (hs : gset handle_t) (f : state → handle_t → state) (k : Z)
    (l : list handle_t) (st : state) :
  (∀ st h, search_frame st (f st h)) →
  (∀ st h, h ∈ l → is_Some (graph st !! k) → keys_within hs (graph st) →
           keys_within hs (graph (f st h))) →
  is_Some (graph st !! k) → keys_within hs (graph st) →
  keys_within hs (graph (foldl f st l)).
Proof.
  intros Hframe. revert st. induction l as [|h l IH]; intros st Hf Hk Hst; simpl; [done|].
  apply IH.
  - intros st0 h0 Hh0. apply Hf. by apply elem_of_cons; right.
  - destruct (Hframe st h) as (_ & _ & _ & _ & _ & _ & _ & Hg). by eapply grows_is_Some.
  - apply Hf; [by apply elem_of_cons; left|done|done].
Qed.

Lemma keys_within_forward_loop (source : HandleGraph) (fml : Z) (hs : gset handle_t)
    (fuel : nat) (st : state) :
  handles_closed source hs → queue_within hs (queue st) →
  keys_within hs (graph st) →
  post (forward_loop source fml fuel st) (λ st', keys_within hs (graph st')) (λ _, True).
Proof.
  intros Hclosed. revert st. induction fuel as [|fuel IH]; intros st Hq Hst; simpl.
  - by destruct (pop (queue st)) as [[trav q]|].
  - destruct (pop (queue st)) as [[trav q]|] eqn:Hpop; [|done].
    destruct (pop_measure hs _ _ _ Hq Hpop) as (Ht & Hq' & _).
    assert (Hfit : turn_fits hs (set_graph (touch (get_id (handle trav)) (graph st))
                                           (set_queue q st))
                             (forward_step source fml trav (set_queue q st))).
    { unfold forward_step. apply foldl_measure; [|done].
      intros st' h Hh Hq''. apply forward_visit_measure; [|done].
      by apply (Hclosed (handle trav)). }
    destruct Hfit as [Hq2 _]. apply IH; [done|].
    unfold forward_step.
    assert (Htouch : keys_within hs (touch (get_id (handle trav)) (graph st))).
    { intros j Hj. unfold touch in Hj.
      destruct (graph st !! get_id (handle trav)) eqn:Hk; [by apply Hst|].
      destruct (decide (j = get_id (handle trav))) as [->|Hne].
      - exists (handle trav).2. by destruct (handle trav).
      - rewrite lookup_insert_ne in Hj by done. by apply Hst. }
    assert (Hpres : is_Some (touch (get_id (handle trav)) (graph st) !! get_id (handle trav))).
    { unfold touch. destruct (graph st !! get_id (handle trav)) eqn:Hk; [by rewrite Hk|].
      by rewrite lookup_insert_eq. }
    apply (keys_within_foldl hs _ (get_id (handle trav))); [| |done|done].
    + intros st0 h. apply search_frame_forward_visit.
    + intros st0 h Hh Hk Hs. apply keys_within_forward_visit; [done| |done].
      by apply (Hclosed (handle trav)).
Qed.

Lemma keys_within_forward_search (fuel : nat) (source : HandleGraph) (max_len : Z)
    (p1 p2 : pos_t) (T detect : bool) (hs : gset handle_t) (st : state) :
  handles_closed source hs →
  get_handle (id p1) (is_rev p1) ∈ hs → get_handle (id p2) (is_rev p2) ∈ hs →
  forward_search fuel source max_len p1 p2 T detect (initial_state source p1 p2 T detect)
  = Ok st →
  keys_within hs (graph st).
Proof.
  intros Hclosed H1 H2 Hf.
  assert (H0 : keys_within hs (graph (initial_state source p1 p2 T detect))).
  { intros k Hk. apply is_Some_initial in Hk as [->| ->]; eauto. }
  unfold forward_search in Hf. case_bool_decide.
  - inversion Hf. done.
  - match type of Hf with forward_loop ?src ?fml ?fu ?s = _ =>
      pose proof (keys_within_forward_loop src fml hs fu s Hclosed) as Hpost end.
    rewrite Hf in Hpost. simpl in Hpost. apply Hpost.
    + destruct (_ <=? _); simpl; [|apply queue_empty_within].
      by apply emplace_measure; [|apply queue_empty_within].
    + by destruct (_ <=? _).
Qed.

Lemma size_keys_within (l : list handle_t) (g : graph_t) :
  keys_within (list_to_set l) g → (size g ≤ length l)%nat.
Proof.
  intros Hk. rewrite <- (length_map_to_list g), <- (length_fmap fst (map_to_list g)).
  rewrite <- (length_fmap fst l). apply submseteq_length, NoDup_submseteq.
  - apply NoDup_fst_map_to_list.
  - intros k Hin. apply list_elem_of_fmap in Hin as ([k' n] & -> & Hn).
    apply elem_of_map_to_list in Hn. destruct (Hk k') as [b Hb]; [by eauto|].
    apply elem_of_list_to_set in Hb. apply list_elem_of_fmap. by exists (k', b).
Qed.

Lemma size_same_keys (g g' : graph_t) :
  (∀ k, is_Some (g' !! k) ↔ is_Some (g !! k)) → size g' = size g.
Proof.
  intros Hk. rewrite <- !size_dom. f_equal. apply set_eq. intros k.
  by rewrite !elem_of_dom.
Qed.

(** ** Walks of the internal graph are walks of the source graph *)

Lemma flip_twice (h : handle_t) : flip (flip h) = h.
Proof. destruct h as [k b]. unfold flip. simpl. by rewrite negb_involutive. Qed.

Lemma internal_step_source (source : HandleGraph) (g : graph_t) (h : handle_t) (e : edge_t) :
  source_edges source g → e ∈ edges_at g h.1 (left_if h.2) →
  source_step source h (next_trav h e).
Proof.
  intros Hsrc He. apply elem_of_edges_stored in He. apply Hsrc in He.
  destruct h as [a rev], e as [b r]. unfold next_trav, source_step, flip. simpl in *.
  destruct He as [([a' ra] & [b' rb] & Hin & Hx & Hy)|([a' ra] & [b' rb] & Hin & Hx & Hy)];
    unfold get_id, get_is_reverse in Hx, Hy; simpl in Hx, Hy.
  - left. inversion Hx; subst a'. inversion Hy; subst b'.
    assert (ra = rev) as -> by (by destruct ra, rev).
    assert (rb = xorb r rev) as -> by (by destruct rb, r, rev).
    done.
  - right. inversion Hx; subst a'. inversion Hy; subst b'.
    assert (ra = negb (xorb r rev)) as -> by (by destruct ra, r, rev).
    assert (rb = negb rev) as -> by (by destruct rb, rev).
    done.
Qed.

Lemma reaches_walk (source : HandleGraph) (g : graph_t) (s h : handle_t) :
  source_edges source g → reaches g {[s]} h → walk source s h.
Proof.
  intros Hsrc. induction 1 as [h Hh|h e _ IH He].
  - apply elem_of_singleton in Hh as ->. apply rtc_refl.
  - eapply rtc_r; [exact IH|]. by eapply internal_step_source.
Qed.

Lemma reaches_walk_back (source : HandleGraph) (g : graph_t) (s h : handle_t) :
  source_edges source g → reaches g {[flip s]} h → walk source (flip h) s.
Proof.
  intros Hsrc. induction 1 as [h Hh|h e _ IH He].
  - apply elem_of_singleton in Hh as ->. rewrite flip_twice. apply rtc_refl.
  - eapply rtc_l; [|exact IH].
    destruct (internal_step_source source g h e Hsrc He) as [Hs|Hs].
    + right. by rewrite !flip_twice.
    + by left.
Qed.

(** ** The nodes that the pruning to paths leaves *)

Lemma prune_only_paths_nodes (fuel : nat) (st : state) :
  no_dangling (graph st) →
  is_Some (graph st !! id (pos_1 st)) → is_Some (graph st !! id (pos_2 st)) →
  duplicate_node_1 st = 0 → duplicate_node_2 st = 0 →
  (2 * size (graph st) + 2 ≤ fuel)%nat →
  ∃ st' : state,
    prune_only_paths fuel st = Ok st'
    ∧ ∀ k, is_Some (graph st' !! k) →
        ∃ b : bool,
          reaches (graph st) {[(id (pos_1 st), is_rev (pos_1 st))]} (k, b)
          ∧ reaches (graph st) {[(id (pos_2 st), negb (is_rev (pos_2 st)))]} (k, negb b).
Proof.
  intros Hd H1 H2 Hd1 Hd2 Hfuel. unfold prune_only_paths. cbv zeta.
  rewrite Hd1, Hd2. cbn [Z.eqb].
  set (g := graph st) in *.
  destruct (reach_loop_strands fuel g [(id (pos_1 st), is_rev (pos_1 st))])
    as (F & HlF & HFr); [done| |simpl; lia|].
  { intros h Hh. apply list_elem_of_singleton in Hh as ->. done. }
  destruct (reach_loop_strands fuel g [(id (pos_2 st), negb (is_rev (pos_2 st)))])
    as (R & HlR & HRr); [done| |simpl; lia|].
  { intros h Hh. apply list_elem_of_singleton in Hh as ->. done. }
  simpl in HlF, HlR, HFr, HRr. rewrite (right_id_L ∅ (∪)) in HlF, HlR, HFr, HRr.
  rewrite HlF. cbn [bind]. rewrite HlR. cbn [bind].
  set (en := λ k : Z, negb (on_path F R (k, true) (k, false))
                      && negb (on_path F R (k, false) (k, true))).
  destruct (filter_records_pure en
              (λ (k : Z) (e : edge_t), negb (on_path F R (k, false) (e.1, negb e.2))
                                       && negb (on_path F R (e.1, negb e.2) (k, false)))
              (λ (k : Z) (e : edge_t), negb (on_path F R (k, true) (e.1, e.2))
                                       && negb (on_path F R (e.1, e.2) (k, true)))
              (map_to_list g) g [])
    as (g' & Hf & Hkeys & _).
  { intros [k n] Hr. apply elem_of_map_to_list in Hr. simpl. eauto. }
  assert (Hf' : filter_records (erase_node_paths F R) (erase_right_paths F R)
                  (erase_left_paths F R) (map_to_list g) (g, [])
                = Ok (g', [] ++ List.filter en (map_to_list g).*1)) by exact Hf.
  rewrite Hf'. cbn [bind app].
  eexists. split; [reflexivity|].
  unfold erase_nodes. cbn [graph id_trans set_graph set_id_trans].
  intros k. rewrite lookup_foldl_delete. case_bool_decide as Hin; [by intros [? ?]|].
  rewrite Hkeys. intros Hk.
  assert (Hen : en k = false).
  { destruct (en k) eqn:He; [|done]. exfalso. apply Hin. by apply elem_of_filter_keys. }
  subst en. cbv beta in Hen. apply andb_false_iff in Hen.
  unfold on_path in Hen.
  destruct Hen as [Hen|Hen]; apply negb_false_iff, andb_prop in Hen as [Ha Hb];
    apply bool_decide_eq_true_1 in Ha; apply bool_decide_eq_true_1 in Hb.
  - exists true. split; [by apply HFr|by apply HRr].
  - exists false. split; [by apply HFr|by apply HRr].
Qed.

Lemma after_search_prune (fuel : nat) (source : HandleGraph) (max_len : Z) (p1 p2 : pos_t)
    (T tips paths strict : bool) (st X : state) :
  after_search fuel source max_len p1 p2 T false false false false st = Ok X →
  after_search fuel source max_len p1 p2 T false tips paths strict st
  = prune max_len tips paths strict fuel X.
Proof.
  unfold after_search, backward_search, duplication. cbn [andb bind].
  destruct (cut_nodes _ _ _) as [c|]; cbn [bind prune]; [|discriminate].
  by intros [= ->].
Qed.

(** X18: positions on two different nodes, without cycle detection and with
    the pruning to paths, on a source graph whose handles are listed, the
    handles of both positions among them, and with fuel for two turns per
    listed handle and two more: the call returns, and every node of the
    output lies, in one of its two orientations, on a walk of the source
    graph from the handle of the first position to the handle of the
    second. *)
Theorem only_paths_extraction
    (fuel : nat) (source : HandleGraph) (max_len : Z) (pos_1 pos_2 : pos_t)
    (include_terminal_positions no_additional_tips : bool) (g : Graph) (l : list handle_t) :
  valid_pos source pos_1 → valid_pos source pos_2 → id pos_1 ≠ id pos_2 →
  handles_listed source l →
  get_handle (id pos_1) (is_rev pos_1) ∈ l → get_handle (id pos_2) (is_rev pos_2) ∈ l →
  (2 * length l + 2 ≤ fuel)%nat →
  node g = [] → edge g = [] →
  ∃ (trans : gmap Z Z) (out : Graph),
    extract_connecting_graph fuel source max_len pos_1 pos_2 include_terminal_positions
      false no_additional_tips true false g = Returned trans out
    ∧ ∀ n : Node, n ∈ node out →
        ∃ b : bool,
          walk source (id pos_1, is_rev pos_1) (node_id n, b)
          ∧ walk source (node_id n, b) (id pos_2, is_rev pos_2).
Proof.
  intros Hv1 Hv2 Hne Hl Hs1 Hs2 Hfuel Hn He.
  set (T := include_terminal_positions) in *.
  pose proof (handles_listed_closed source l Hl) as Hclosed.
  destruct (forward_search_returns fuel source max_len pos_1 pos_2 T false (list_to_set l))
    as [st Hf]; [done|by apply elem_of_list_to_set| |].
  { pose proof (size_list_to_set_le l). lia. }
  assert (Hb : backward_search fuel source max_len pos_1 pos_2 T false st = Ok st) by done.
  destruct (search_inv_after_searches _ _ _ _ _ _ _ _ _ Hf Hb) as (_ & Hinv & Hframe).
  pose proof (source_sequences_after_searches _ _ _ _ _ _ _ _ _ Hf Hb) as Hseq.
  pose proof (source_edges_forward_search _ _ _ _ _ _ _ _ Hf) as Hsrc.
  pose proof (keys_within_forward_search fuel source max_len pos_1 pos_2 T false
                (list_to_set l) st Hclosed) as Hkeys.
  specialize (Hkeys ltac:(by apply elem_of_list_to_set) ltac:(by apply elem_of_list_to_set) Hf).
  apply size_keys_within in Hkeys.
  unfold extract_connecting_graph, node_size, edge_size. rewrite Hn, He. simpl.
  rewrite Hf. rewrite (empty_graph_eta g Hn He).
  destruct (found_target st); simpl.
  2:{ eexists _, _. split; [reflexivity|]. intros n Hin. by apply elem_of_nil in Hin. }
  destruct (separate_nodes_after_search fuel source max_len pos_1 pos_2 T st
              Hv1 Hv2 Hne Hinv Hseq Hframe) as (g' & Has & Hsides & _).
  rewrite (after_search_prune _ _ _ _ _ _ no_additional_tips true false _ _ Has).
  cbn [prune].
  destruct (initial_state_facts source pos_1 pos_2 T false)
    as (_ & Hi1 & Hi2 & _ & Hin1 & Hin2 & _).
  pose proof Hframe as (_ & Hp1 & Hp2 & _ & Hdup1 & Hdup2 & _ & Hgrow).
  rewrite Hi1 in Hp1. rewrite Hi2 in Hp2.
  pose proof Hinv as (_ & Hd & _).
  pose proof Hsides as [Hk' Hcount].
  assert (Hsrc' : source_edges source g').
  { intros x y. rewrite Hcount. case_bool_decide; [lia|]. apply Hsrc. }
  destruct (prune_only_paths_nodes fuel (set_graph g' (set_next_id (max_id st + 1) st)))
    as (st' & Hpr & Hnodes).
  - simpl. eapply cut_sides_no_dangling; [exact Hd|exact Hsides].
  - simpl. rewrite Hp1. apply Hk'. by eapply grows_is_Some.
  - simpl. rewrite Hp2. apply Hk'. by eapply grows_is_Some.
  - simpl. by rewrite Hdup1.
  - simpl. by rewrite Hdup2.
  - simpl. rewrite (size_same_keys (graph st) g' Hk'). lia.
  - rewrite Hpr. simpl. eexists _, _. split; [reflexivity|].
    intros n Hin. apply elem_of_node_emit in Hin as (m & Hm & _).
    destruct (Hnodes (node_id n)) as (b & Hfw & Hbw); [by rewrite Hm|].
    simpl in Hfw, Hbw. rewrite Hp1 in Hfw. rewrite Hp2 in Hbw.
    exists b. split.
    + by apply (reaches_walk source g').
    + pose proof (reaches_walk_back source g' (id pos_2, is_rev pos_2) (node_id n, negb b)
                    Hsrc') as Hw.
      unfold flip in Hw. simpl in Hw. rewrite negb_involutive in Hw. by apply Hw.
Qed.

Lemma only_paths_extraction_witness :
  ∃ (trans : gmap Z Z) (out : Graph),
    extract_connecting_graph 30 side_branch 20 (make_pos_t 1 false 1) (make_pos_t 2 false 0)
      true false false true false empty_graph = Returned trans out
    ∧ node out = [mkNode 2 "C"; mkNode 1 "AAAAAAAAA"].
Proof.
  destruct (only_paths_extraction 30 side_branch 20 (make_pos_t 1 false 1)
              (make_pos_t 2 false 0) true false empty_graph
              [(1, false); (2, false); (3, false); (4, false);
               (4, true); (3, true); (2, true); (1, true)])
    as (trans & out & Hex & _).
  - split; vm_compute; [intuition congruence|reflexivity].
  - split; vm_compute; [intuition congruence|reflexivity].
  - vm_compute. discriminate.
  - apply (bool_decide_unpack _). vm_compute. exact I.
  - apply (bool_decide_unpack _). vm_compute. exact I.
  - apply (bool_decide_unpack _). vm_compute. exact I.
  - simpl. lia.
  - reflexivity.
  - reflexivity.
  - exists trans, out. split; [exact Hex|].
    vm_compute in Hex. inversion Hex. reflexivity.
Defined.

(** ** The distance sweeps of the pruning to a maximum length *)

Section sweep.
Variable g : graph_t.
Variable hs : gset handle_t.
Variable P : handle_t → Z → Prop.
Variable step : Traversal → graph_t * FilteredPriorityQueue * gmap handle_t Z
                → graph_t * FilteredPriorityQueue * gmap handle_t Z.
Hypothesis step_ok :
  ∀ (trav : Traversal) (q : FilteredPriorityQueue) (D : gmap handle_t Z),
    handle trav ∈ hs → P (handle trav) (dist trav) → queue_within hs q →
    (∀ t, t ∈ items q → P (handle t) (dist t)) →
    ∃ q', step trav (g, q, D) = (g, q', <[handle trav := dist trav]> D)
          ∧ queue_within hs q'
          ∧ (queue_measure hs q' ≤ queue_measure hs q)%nat
          ∧ (∀ t, t ∈ items q' → P (handle t) (dist t)).

Lemma prune_loop_sweep (fuel : nat) (q : FilteredPriorityQueue) (D : gmap handle_t Z) :
  queue_within hs q → (∀ t, t ∈ items q → P (handle t) (dist t)) →
  (∀ h d, D !! h = Some d → P h d) →
  (queue_measure hs q ≤ fuel)%nat →
  ∃ q' D', prune_loop step fuel (g, q, D) = Ok (g, q', D')
           ∧ ∀ h d, D' !! h = Some d → P h d.
Proof.
  revert q D. induction fuel as [|fuel IH]; intros q D Hq Hi HD Hm; cbn [prune_loop fst snd].
  - destruct (pop q) as [[trav q1]|] eqn:Hpop; [|by eauto].
    destruct (pop_measure hs _ _ _ Hq Hpop) as (_ & _ & Heq). lia.
  - destruct (pop q) as [[trav q1]|] eqn:Hpop; [|by eauto].
    destruct (pop_measure hs _ _ _ Hq Hpop) as (Ht & Hq1 & Heq).
    assert (Hpt : P (handle trav) (dist trav) ∧ ∀ t, t ∈ items q1 → P (handle t) (dist t)).
    { unfold pop in Hpop.
      destruct (extract_min (items q)) as [[t0 r]|] eqn:Hmin; [|discriminate].
      inversion Hpop; subst; clear Hpop.
      destruct (extract_min_Some _ _ _ Hmin) as (Hin & Hr & _).
      split; [by apply Hi|]. intros t Ht'. simpl in Ht'. by apply Hi, Hr. }
    destruct Hpt as [Hp Hi1].
    destruct (step_ok trav q1 D Ht Hp Hq1 Hi1) as (q2 & Hs & Hq2 & Hm2 & Hi2).
    rewrite Hs. apply IH; [done|done| |lia].
    intros h d. destruct (decide (h = handle trav)) as [->|Hne].
    + rewrite lookup_insert_eq. by intros [= <-].
    + rewrite lookup_insert_ne by done. apply HD.
Qed.
End sweep.

Lemma emplace_labelled (P : handle_t → Z → Prop) (h : handle_t) (d : Z)
    (q : FilteredPriorityQueue) :
  P h d → (∀ t, t ∈ items q → P (handle t) (dist t)) →
  ∀ t, t ∈ items (emplace h d q) → P (handle t) (dist t).
Proof.
  intros Hp Hi t. unfold emplace. case_bool_decide; [apply Hi|]. simpl.
  intros Ht. apply elem_of_app in Ht as [Ht|Ht]; [by apply Hi|].
  apply list_elem_of_singleton in Ht. by subst.
Qed.

Lemma forward_prune_fold (g : graph_t) (P : handle_t → Z → Prop) (trav : Traversal)
    (l : list edge_t) (q : FilteredPriorityQueue) :
  (∀ e, e ∈ l → is_Some (g !! e.1)) →
  (∀ e, e ∈ l → P (next_trav (handle trav) e)
                  (dist trav + string_size (sequence (node_at g e.1)))) →
  queue_within (strands g) q → (∀ t, t ∈ items q → P (handle t) (dist t)) →
  ∃ q', foldl (λ (s : graph_t * FilteredPriorityQueue) (edge : edge_t),
                 (touch edge.1 s.1,
                  emplace (edge.1, xorb edge.2 (handle trav).2)
                          (dist trav + string_size (sequence (node_at (touch edge.1 s.1) edge.1)))
                          s.2))
              (g, q) l = (g, q')
        ∧ queue_within (strands g) q'
        ∧ (queue_measure (strands g) q' ≤ queue_measure (strands g) q)%nat
        ∧ (∀ t, t ∈ items q' → P (handle t) (dist t)).
Proof.
  revert q. induction l as [|e l IH]; intros q Hpres Hp Hq Hi.
  - exists q. simpl. split; [done|]. split; [done|]. split; [lia|done].
  - assert (He : is_Some (g !! e.1)) by (apply Hpres; by apply elem_of_cons; left).
    cbn [foldl fst snd]. rewrite (touch_present e.1 g He).
    destruct (emplace_measure (strands g) (e.1, xorb e.2 (handle trav).2)
                (dist trav + string_size (sequence (node_at g e.1))) q) as [Hq1 Hm1];
      [by apply elem_of_strands|done|].
    destruct (IH (emplace (e.1, xorb e.2 (handle trav).2)
                          (dist trav + string_size (sequence (node_at g e.1))) q))
      as (q' & Hf & Hq' & Hm' & Hi').
    + intros x Hx. apply Hpres. by apply elem_of_cons; right.
    + intros x Hx. apply Hp. by apply elem_of_cons; right.
    + done.
    + apply emplace_labelled; [|done]. apply (Hp e). by apply elem_of_cons; left.
    + exists q'. split; [done|]. split; [done|]. split; [lia|done].
Qed.

Lemma reverse_prune_fold (g : graph_t) (P : handle_t → Z → Prop) (rev : bool) (d : Z)
    (l : list edge_t) (q : FilteredPriorityQueue) :
  (∀ e, e ∈ l → is_Some (g !! e.1)) →
  (∀ e, e ∈ l → P (e.1, xorb e.2 rev) d) →
  queue_within (strands g) q → (∀ t, t ∈ items q → P (handle t) (dist t)) →
  let q' := foldl (λ (q : FilteredPriorityQueue) (edge : edge_t),
                     emplace (edge.1, xorb edge.2 rev) d q) q l in
  queue_within (strands g) q'
  ∧ (queue_measure (strands g) q' ≤ queue_measure (strands g) q)%nat
  ∧ (∀ t, t ∈ items q' → P (handle t) (dist t)).
Proof.
  revert q. induction l as [|e l IH]; intros q Hpres Hp Hq Hi; simpl.
  - split; [done|]. split; [lia|done].
  - assert (He : is_Some (g !! e.1)) by (apply Hpres; by apply elem_of_cons; left).
    destruct (emplace_measure (strands g) (e.1, xorb e.2 rev) d q) as [Hq1 Hm1];
      [by apply elem_of_strands|done|].
    destruct (IH (emplace (e.1, xorb e.2 rev) d q)) as (Hq' & Hm' & Hi').
    + intros x Hx. apply Hpres. by apply elem_of_cons; right.
    + intros x Hx. apply Hp. by apply elem_of_cons; right.
    + done.
    + apply emplace_labelled; [|done]. apply (Hp e). by apply elem_of_cons; left.
    + split; [done|]. split; [lia|done].
Qed.

Lemma forward_prune_step_ok (g : graph_t) (starts : gset handle_t) (trav : Traversal)
    (q : FilteredPriorityQueue) (D : gmap handle_t Z) :
  no_dangling g →
  handle trav ∈ strands g → forward_dist g starts (handle trav) (dist trav) →
  queue_within (strands g) q →
  (∀ t, t ∈ items q → forward_dist g starts (handle t) (dist t)) →
  ∃ q', forward_prune_step trav (g, q, D) = (g, q', <[handle trav := dist trav]> D)
        ∧ queue_within (strands g) q'
        ∧ (queue_measure (strands g) q' ≤ queue_measure (strands g) q)%nat
        ∧ (∀ t, t ∈ items q' → forward_dist g starts (handle t) (dist t)).
Proof.
  intros Hd Ht Hp Hq Hi. apply elem_of_strands in Ht.
  unfold forward_prune_step. rewrite (touch_present _ _ Ht).
  destruct (forward_prune_fold g (forward_dist g starts) trav
              (edges_at g (handle trav).1 (left_if (handle trav).2)) q)
    as (q' & Hf & Hq' & Hm' & Hi'); [| |done|done|].
  - intros e He. by eapply Hd.
  - intros e He. by apply forward_dist_edge.
  - rewrite Hf. by exists q'.
Qed.

Lemma reverse_prune_step_ok (g : graph_t) (starts : gset handle_t) (trav : Traversal)
    (q : FilteredPriorityQueue) (D : gmap handle_t Z) :
  no_dangling g →
  handle trav ∈ strands g → reverse_dist g starts (handle trav) (dist trav) →
  queue_within (strands g) q →
  (∀ t, t ∈ items q → reverse_dist g starts (handle t) (dist t)) →
  ∃ q', reverse_prune_step trav (g, q, D) = (g, q', <[handle trav := dist trav]> D)
        ∧ queue_within (strands g) q'
        ∧ (queue_measure (strands g) q' ≤ queue_measure (strands g) q)%nat
        ∧ (∀ t, t ∈ items q' → reverse_dist g starts (handle t) (dist t)).
Proof.
  intros Hd Ht Hp Hq Hi. apply elem_of_strands in Ht.
  unfold reverse_prune_step. rewrite (touch_present _ _ Ht).
  destruct (reverse_prune_fold g (reverse_dist g starts) (handle trav).2
              (dist trav + string_size (sequence (node_at g (handle trav).1)))
              (edges_at g (handle trav).1 (left_if (handle trav).2)) q)
    as (Hq' & Hm' & Hi'); [| |done|done|].
  - intros e He. by eapply Hd.
  - intros e He. by apply (reverse_dist_edge g starts (handle trav) (dist trav) e).
  - eexists. split; [reflexivity|]. done.
Qed.

(** ** The loop over the records, when the three tests succeed on the graph *)

Lemma remove_if_agree (f : edge_t → res bool) (p : edge_t → bool) (l : list edge_t) :
  (∀ e, e ∈ l → f e = Ok (p e)) →
  remove_if f l = Ok (List.filter (λ e, negb (p e)) l).
Proof.
  induction l as [|e l IH]; intros Hf; [done|]. cbn [remove_if].
  rewrite (Hf e) by (by apply elem_of_cons; left). cbn [bind].
  rewrite IH by (intros x Hx; apply Hf; by apply elem_of_cons; right). cbn [bind].
  simpl. by destruct (p e).
Qed.

Lemma filter_records_agree (fen : Z → res bool) (fer fel : Z → edge_t → res bool)
    (en : Z → bool) (er el : Z → edge_t → bool) (P : Z → edge_t → Prop)
    (recs : list (Z * LocalNode)) (g : graph_t) (te : list Z) :
  (∀ r, r ∈ recs → fen r.1 = Ok (en r.1)) →
  (∀ k e, P k e → fer k e = Ok (er k e) ∧ fel k e = Ok (el k e)) →
  (∀ k s e, e ∈ edges_at g k s → P k e) →
  filter_records fen fer fel recs (g, te)
  = filter_records (λ k, Ok (en k)) (λ k e, Ok (er k e)) (λ k e, Ok (el k e)) recs (g, te).
Proof.
  intros Hen Hp. revert g te. induction recs as [|[k n] recs IH]; intros g te Hg; [done|].
  assert (Hk : fen k = Ok (en k)) by (apply (Hen (k, n)); by apply elem_of_cons; left).
  cbn [filter_records]. rewrite Hk. cbn [bind]. destruct (en k).
  - apply IH; [|done]. intros r Hr. apply Hen. by apply elem_of_cons; right.
  - rewrite (remove_if_agree (fer k) (er k)) by (intros e He; by apply Hp, (Hg k Right)).
    rewrite (remove_if_agree (fel k) (el k)) by (intros e He; by apply Hp, (Hg k Left)).
    rewrite !remove_if_pure. cbn [bind].
    assert (Hen' : ∀ r, r ∈ recs → fen r.1 = Ok (en r.1)).
    { intros r Hr. apply Hen. by apply elem_of_cons; right. }
    apply (IH Hen'). intros j s e. rewrite !edges_at_set_edges.
    destruct (decide (j = k ∧ s = Left)) as [[-> ->]|H1].
    + intros He. apply list_elem_of_In, List.filter_In in He as [He _].
      apply (Hg k Left). by apply list_elem_of_In.
    + destruct (decide (j = k ∧ s = Right)) as [[-> ->]|H2]; [|apply Hg].
      intros He. apply list_elem_of_In, List.filter_In in He as [He _].
      apply (Hg k Right). by apply list_elem_of_In.
Qed.

Lemma short_enough_Ok (max_len : Z) (fwd rev : gmap handle_t Z) (a b : handle_t) (x : Z) :
  short_enough max_len fwd rev a b (Ok x) = Ok (within max_len fwd rev a b x).
Proof. unfold short_enough, within. by destruct (fwd !! a), (rev !! b). Qed.

Lemma size_in_iteration_present (g : graph_t) (k : Z) :
  is_Some (g !! k) → size_in_iteration g k = Ok (string_size (sequence (node_at g k))).
Proof. intros [n Hn]. unfold size_in_iteration. by rewrite Hn, (node_at_Some _ _ _ Hn). Qed.

Lemma within_short_walk (g : graph_t) (fs rs : gset handle_t) (max_len : Z)
    (fwd rev : gmap handle_t Z) (a b : handle_t) (x : Z) :
  (∀ h d, fwd !! h = Some d → forward_dist g fs h d) →
  (∀ h d, rev !! h = Some d → reverse_dist g rs h d) →
  within max_len fwd rev a b x = true → short_walk g fs rs max_len a b x.
Proof.
  intros Hf Hr. unfold within.
  destruct (fwd !! a) as [d1|] eqn:H1; [|done]. destruct (rev !! b) as [d2|] eqn:H2; [|done].
  intros Hle. apply Z.leb_le in Hle. exists d1, d2. auto.
Qed.

Lemma forward_queue_initial (g : graph_t) (st : state) :
  is_Some (g !! id (pos_1 st)) →
  (duplicate_node_1 st ≠ 0 → is_Some (g !! duplicate_node_1 st)) →
  ∃ q1,
    (if duplicate_node_1 st =? 0
     then (g, emplace (id (pos_1 st), is_rev (pos_1 st))
                (string_size (sequence (node_at g (id (pos_1 st))))) queue_empty)
     else (touch (duplicate_node_1 st) g,
           emplace (duplicate_node_1 st, is_rev (pos_1 st))
             (string_size (sequence (node_at (touch (duplicate_node_1 st) g)
                                             (duplicate_node_1 st))))
             (emplace (id (pos_1 st), is_rev (pos_1 st))
                (string_size (sequence (node_at g (id (pos_1 st))))) queue_empty)))
    = (g, q1)
    ∧ queue_within (strands g) q1
    ∧ (queue_measure (strands g) q1 ≤ size (strands g))%nat
    ∧ (∀ t, t ∈ items q1 → forward_dist g (forward_starts st) (handle t) (dist t)).
Proof.
  intros H1 Hd1.
  set (q0 := emplace (id (pos_1 st), is_rev (pos_1 st))
               (string_size (sequence (node_at g (id (pos_1 st))))) queue_empty).
  destruct (emplace_measure (strands g) (id (pos_1 st), is_rev (pos_1 st))
              (string_size (sequence (node_at g (id (pos_1 st))))) queue_empty)
    as [Hq0 Hm0]; [by apply elem_of_strands|apply queue_empty_within|].
  rewrite queue_empty_measure in Hm0. fold q0 in Hq0, Hm0.
  assert (Hs1 : (id (pos_1 st), is_rev (pos_1 st)) ∈ forward_starts st).
  { unfold forward_starts. destruct (_ =? _); [by apply elem_of_singleton|].
    apply elem_of_union. right. by apply elem_of_singleton. }
  assert (Hi0 : ∀ t, t ∈ items q0 → forward_dist g (forward_starts st) (handle t) (dist t)).
  { apply emplace_labelled.
    - by apply (forward_dist_start g (forward_starts st) (id (pos_1 st), is_rev (pos_1 st))).
    - intros t Ht. simpl in Ht. by apply elem_of_nil in Ht. }
  destruct (Z.eqb_spec (duplicate_node_1 st) 0) as [Hz|Hnz].
  - exists q0. done.
  - rewrite (touch_present _ _ (Hd1 Hnz)).
    destruct (emplace_measure (strands g) (duplicate_node_1 st, is_rev (pos_1 st))
                (string_size (sequence (node_at g (duplicate_node_1 st)))) q0)
      as [Hq1 Hm1]; [apply elem_of_strands; by apply Hd1|done|].
    eexists. split; [reflexivity|]. split; [done|]. split; [lia|].
    apply emplace_labelled; [|done].
    apply (forward_dist_start g (forward_starts st) (duplicate_node_1 st, is_rev (pos_1 st))).
    unfold forward_starts. rewrite (proj2 (Z.eqb_neq _ _) Hnz).
    apply elem_of_union. left. by apply elem_of_singleton.
Qed.

Lemma reverse_queue_initial (g : graph_t) (st : state) :
  is_Some (g !! id (pos_2 st)) →
  (duplicate_node_2 st ≠ 0 → is_Some (g !! duplicate_node_2 st)) →
  let q1 := if duplicate_node_2 st =? 0
            then emplace (id (pos_2 st), negb (is_rev (pos_2 st))) 0 queue_empty
            else emplace (duplicate_node_2 st, negb (is_rev (pos_2 st))) 0
                   (emplace (id (pos_2 st), negb (is_rev (pos_2 st))) 0 queue_empty) in
  queue_within (strands g) q1
  ∧ (queue_measure (strands g) q1 ≤ size (strands g))%nat
  ∧ (∀ t, t ∈ items q1 → reverse_dist g (reverse_starts st) (handle t) (dist t)).
Proof.
  intros H2 Hd2.
  set (q0 := emplace (id (pos_2 st), negb (is_rev (pos_2 st))) 0 queue_empty).
  destruct (emplace_measure (strands g) (id (pos_2 st), negb (is_rev (pos_2 st))) 0
              queue_empty) as [Hq0 Hm0]; [by apply elem_of_strands|apply queue_empty_within|].
  rewrite queue_empty_measure in Hm0. fold q0 in Hq0, Hm0.
  assert (Hs2 : (id (pos_2 st), negb (is_rev (pos_2 st))) ∈ reverse_starts st).
  { unfold reverse_starts. destruct (_ =? _); [by apply elem_of_singleton|].
    apply elem_of_union. right. by apply elem_of_singleton. }
  assert (Hi0 : ∀ t, t ∈ items q0 → reverse_dist g (reverse_starts st) (handle t) (dist t)).
  { apply emplace_labelled.
    - by apply reverse_dist_start.
    - intros t Ht. simpl in Ht. by apply elem_of_nil in Ht. }
  destruct (Z.eqb_spec (duplicate_node_2 st) 0) as [Hz|Hnz]; [done|].
  destruct (emplace_measure (strands g) (duplicate_node_2 st, negb (is_rev (pos_2 st))) 0 q0)
    as [Hq1 Hm1]; [apply elem_of_strands; by apply Hd2|done|].
  split; [done|]. split; [lia|].
  apply emplace_labelled; [|done]. apply reverse_dist_start.
  unfold reverse_starts. rewrite (proj2 (Z.eqb_neq _ _) Hnz).
  apply elem_of_union. left. by apply elem_of_singleton.
Qed.

(** X19: the pruning to a maximum length, on a graph without dangling
    entries that has the nodes of the two positions and of their duplicates,
    with fuel for two turns per node: it returns.  A node stays only if it
    is on a walk from the first position to the second of at most [max_len]
    bases, counted from the recorded distances; it keeps its sequence; and an
    edge entry stays only if it is on such a walk and was an entry of the
    node before. *)
Theorem strict_max_len_keeps_short_walks (max_len : Z) (fuel : nat) (st : state) :
  no_dangling (graph st) →
  is_Some (graph st !! id (pos_1 st)) → is_Some (graph st !! id (pos_2 st)) →
  (duplicate_node_1 st ≠ 0 → is_Some (graph st !! duplicate_node_1 st)) →
  (duplicate_node_2 st ≠ 0 → is_Some (graph st !! duplicate_node_2 st)) →
  (2 * size (graph st) ≤ fuel)%nat →
  ∃ st' : state,
    prune_strict_max_len max_len fuel st = Ok st'
    ∧ (∀ k, is_Some (graph st' !! k) →
         is_Some (graph st !! k)
         ∧ sequence (node_at (graph st') k) = sequence (node_at (graph st) k)
         ∧ (short_walk (graph st) (forward_starts st) (reverse_starts st) max_len
              (k, true) (k, false) 0
            ∨ short_walk (graph st) (forward_starts st) (reverse_starts st) max_len
                (k, false) (k, true) 0))
    ∧ (∀ k e, is_Some (graph st' !! k) → e ∈ edges_at (graph st') k Right →
         e ∈ edges_at (graph st) k Right
         ∧ (short_walk (graph st) (forward_starts st) (reverse_starts st) max_len
              (k, false) (e.1, negb e.2) (string_size (sequence (node_at (graph st) e.1)))
            ∨ short_walk (graph st) (forward_starts st) (reverse_starts st) max_len
                (e.1, negb e.2) (k, false) (string_size (sequence (node_at (graph st) k)))))
    ∧ (∀ k e, is_Some (graph st' !! k) → e ∈ edges_at (graph st') k Left →
         e ∈ edges_at (graph st) k Left
         ∧ (short_walk (graph st) (forward_starts st) (reverse_starts st) max_len
              (k, true) (e.1, e.2) (string_size (sequence (node_at (graph st) e.1)))
            ∨ short_walk (graph st) (forward_starts st) (reverse_starts st) max_len
                (e.1, e.2) (k, true) (string_size (sequence (node_at (graph st) k))))).
Proof.
  intros Hd H1 H2 Hd1 Hd2 Hfuel. unfold prune_strict_max_len. cbv zeta.
  set (g := graph st) in *.
  rewrite (touch_present (id (pos_1 st)) g) by done.
  pose proof (size_strands g) as Hsz.
  destruct (forward_queue_initial g st H1 Hd1) as (q1 & -> & Hq1 & Hm1 & Hi1).
  destruct (prune_loop_sweep g (strands g) (forward_dist g (forward_starts st))
              forward_prune_step) with (fuel := fuel) (q := q1) (D := (∅ : gmap handle_t Z))
    as (q1' & fwd & Hl1 & Hfwd); [|done|done| |lia|].
  { intros trav q D. by apply forward_prune_step_ok. }
  { intros h d Hh. by rewrite lookup_empty in Hh. }
  rewrite Hl1. cbn [bind].
  destruct (reverse_queue_initial g st H2 Hd2) as (Hq2 & Hm2 & Hi2).
  set (q2 := if duplicate_node_2 st =? 0 then _ else _) in *.
  destruct (prune_loop_sweep g (strands g) (reverse_dist g (reverse_starts st))
              reverse_prune_step) with (fuel := fuel) (q := q2) (D := (∅ : gmap handle_t Z))
    as (q2' & rev & Hl2 & Hrev); [|done|done| |lia|].
  { intros trav q D. by apply reverse_prune_step_ok. }
  { intros h d Hh. by rewrite lookup_empty in Hh. }
  rewrite Hl2. cbn [bind].
  set (en := λ k : Z, negb (within max_len fwd rev (k, true) (k, false) 0
                            || within max_len fwd rev (k, false) (k, true) 0)).
  set (er := λ (k : Z) (e : edge_t),
         negb (within max_len fwd rev (k, false) (e.1, negb e.2)
                 (string_size (sequence (node_at g e.1)))
               || within max_len fwd rev (e.1, negb e.2) (k, false)
                    (string_size (sequence (node_at g k))))).
  set (el := λ (k : Z) (e : edge_t),
         negb (within max_len fwd rev (k, true) (e.1, e.2)
                 (string_size (sequence (node_at g e.1)))
               || within max_len fwd rev (e.1, e.2) (k, true)
                    (string_size (sequence (node_at g k))))).
  rewrite (filter_records_agree _ _ _ en er el
             (λ (k : Z) (e : edge_t), is_Some (g !! k) ∧ is_Some (g !! e.1))).
  2:{ intros r _. unfold erase_node_strict. rewrite !short_enough_Ok. by cbn [bind]. }
  2:{ intros k e [Hk He]. unfold erase_right_strict, erase_left_strict.
      rewrite !size_in_iteration_present by done. rewrite !short_enough_Ok. by cbn [bind]. }
  2:{ intros k s e He. split; [|by eapply Hd].
      destruct (g !! k) as [n|] eqn:Hk; [by eauto|].
      unfold edges_at, node_at in He. rewrite Hk in He. simpl in He.
      destruct s; by apply elem_of_nil in He. }
  destruct (filter_records_pure en er el (map_to_list g) g [])
    as (g' & Hf & Hkeys & Hseq & Her & Hel).
  { intros [k n] Hr. apply elem_of_map_to_list in Hr. simpl. eauto. }
  rewrite Hf. cbn [bind app].
  set (te := List.filter en (map_to_list g).*1).
  assert (Hkept : ∀ k, is_Some (foldl (λ g k, delete k g) g' te !! k) →
                       is_Some (g !! k) ∧ (k ∉ te)
                       ∧ bool_decide (k ∈ (map_to_list g).*1 ∧ en k = false) = true).
  { intros k. rewrite lookup_foldl_delete. case_bool_decide as Hin; [by intros [? ?]|].
    rewrite Hkeys. intros Hk. split; [done|]. split; [done|].
    apply bool_decide_eq_true_2. split.
    - destruct Hk as [n Hn]. apply list_elem_of_fmap. exists (k, n). split; [done|].
      by apply elem_of_map_to_list.
    - destruct (en k) eqn:He; [|done]. exfalso. apply Hin. by apply elem_of_filter_keys. }
  assert (Hw : ∀ a b x, within max_len fwd rev a b x = true →
                 short_walk g (forward_starts st) (reverse_starts st) max_len a b x).
  { intros a b x. by apply within_short_walk. }
  eexists. split; [reflexivity|].
  unfold erase_nodes. cbn [graph id_trans set_graph set_id_trans].
  split; [|split].
  - intros k Hk. apply Hkept in Hk as (Hp & Hnot & Hb).
    split; [done|]. rewrite node_at_foldl_delete by done. split; [by rewrite Hseq|].
    apply bool_decide_eq_true_1 in Hb as [_ Hen]. subst en. cbv beta in Hen.
    apply negb_false_iff, orb_prop in Hen as [Hen|Hen]; [left|right]; by apply Hw.
  - intros k e Hk. apply Hkept in Hk as (Hp & Hnot & Hb).
    rewrite edges_at_foldl_delete by done. rewrite Her, Hb.
    intros He. apply list_elem_of_In, List.filter_In in He as [He Hkeep].
    split; [by apply list_elem_of_In|]. subst er. cbv beta in Hkeep.
    apply negb_true_iff, negb_false_iff, orb_prop in Hkeep as [Hk'|Hk'];
      [left|right]; by apply Hw.
  - intros k e Hk. apply Hkept in Hk as (Hp & Hnot & Hb).
    rewrite edges_at_foldl_delete by done. rewrite Hel, Hb.
    intros He. apply list_elem_of_In, List.filter_In in He as [He Hkeep].
    split; [by apply list_elem_of_In|]. subst el. cbv beta in Hkeep.
    apply negb_true_iff, negb_false_iff, orb_prop in Hkeep as [Hk'|Hk'];
      [left|right]; by apply Hw.
Qed.

Lemma strict_max_len_keeps_short_walks_witness :
  ∃ st' : state,
    prune_strict_max_len 3 10 tip_state = Ok st'
    ∧ graph st' !! 4 = None
    ∧ edges_at (graph st') 2 Right = [(3, false)].
Proof.
  destruct (strict_max_len_keeps_short_walks 3 10 tip_state) as (st' & Hp & _).
  - apply no_danglingb_sound. vm_compute. reflexivity.
  - vm_compute. eauto.
  - vm_compute. eauto.
  - intros Hne. by contradiction Hne.
  - intros Hne. by contradiction Hne.
  - vm_compute. lia.
  - exists st'. split; [exact Hp|].
    vm_compute in Hp. inversion Hp. subst st'. clear.
    split; vm_compute; reflexivity.
Defined.

(** ** Step 4 on a shared node that has edges *)

Lemma erase_edge_cases (k : Z) (s : side) (e : edge_t) (g : graph_t) :
  erase_edge k s e g = Err undefined_behaviour
  ∨ ∃ i, erase_edge k s e g = Ok (set_edges k s (delete i (edges_at g k s)) g)
         ∧ edges_at g k s !! i = Some e.
Proof.
  unfold erase_edge. destruct (find_edge e (edges_at g k s)) as [i|] eqn:Hf; [|by left].
  right. exists i. split; [done|]. by apply find_edge_Some.
Qed.

Lemma elem_of_delete_index {A : Type} (i : nat) (l : list A) (x : A) :
  x ∈ delete i l → x ∈ l.
Proof.
  revert i. induction l as [|y l IH]; intros i; [done|]. destruct i as [|i]; simpl.
  - intros H. by apply elem_of_cons; right.
  - intros H. apply elem_of_cons in H as [->|H]; [by apply elem_of_cons; left|].
    apply elem_of_cons; right. by eapply IH.
Qed.

(** The loop over the left list of the shared node, from any index on, when
    the mirror of one of the entries to come is not where it is looked for. *)
Lemma shared_cut_loop_fails (id_1 id_2 : Z) (rev_2 : bool) (b : Z) (r : bool)
    (len i0 : nat) (idxs : list nat) (g : graph_t) :
  negb ((b =? id_2) && r) = true →
  i0 ∈ idxs →
  edges_at g id_1 Left !! i0 = Some (b, r) →
  (id_2, r) ∉ edges_at g b (right_if (xorb rev_2 r)) →
  length (edges_at g id_1 Left) = len →
  for_edges_from (λ g : graph_t, edges_at g id_1 Left) len
    (λ (i : nat) (edge : edge_t) (g : graph_t),
       if negb ((edge.1 =? id_2) && edge.2)
       then erase_edge edge.1 (right_if (xorb rev_2 edge.2)) (id_2, edge.2) g
       else Ok g)
    idxs g = Err undefined_behaviour.
Proof.
  intros Hskip. revert g. induction idxs as [|i idxs IH]; intros g Hin Hlook Hno Hlen.
  { by apply elem_of_nil in Hin. }
  cbn [for_edges_from]. cbv beta.
  destruct (edges_at g id_1 Left !! i) as [e|] eqn:He; [|done].
  destruct (decide (i = i0)) as [->|Hne].
  - rewrite Hlook in He. inversion He; subst e. cbn [fst snd]. rewrite Hskip.
    unfold erase_edge. by rewrite (proj2 (find_edge_None _ _) Hno).
  - assert (Hin' : i0 ∈ idxs).
    { apply elem_of_cons in Hin as [?|?]; [congruence|done]. }
    destruct (negb ((e.1 =? id_2) && e.2)).
    + destruct (erase_edge_cases e.1 (right_if (xorb rev_2 e.2)) (id_2, e.2) g)
        as [->|(j & -> & Hj)]; [done|].
      cbn [bind]. case_decide as Hl; [|done].
      assert (Hsame : edges_at (set_edges e.1 (right_if (xorb rev_2 e.2))
                                  (delete j (edges_at g e.1 (right_if (xorb rev_2 e.2)))) g)
                        id_1 Left = edges_at g id_1 Left).
      { rewrite edges_at_set_edges. destruct (decide _) as [[Ha Hs]|?]; [|done].
        exfalso. rewrite edges_at_set_edges, decide_True in Hl by done.
        rewrite <- Ha, <- Hs in Hl, Hj.
        rewrite length_delete in Hl by (by rewrite Hj).
        assert (j < length (edges_at g id_1 Left))%nat
          by (apply lookup_lt_is_Some; by rewrite Hj).
        lia. }
      apply IH; [done|by rewrite Hsame| |by rewrite Hsame].
      rewrite edges_at_set_edges. destruct (decide _) as [[-> <-]|?]; [|done].
      intros Hx. apply Hno. by eapply elem_of_delete_index.
    + cbn [bind]. case_decide; [|done]. by apply IH.
Qed.

(** X20: step 4 in the case [SharedNodeReachable], with the positions on
    the forward strand of a node that has no entry on its right side and, on
    its left side, an entry whose mirror is not in the list that the loop
    searches (the list of the same-named side for a non-reversing entry):
    [std::find] comes back with the end of that list and the call of
    [erase] on it is undefined. *)
Theorem shared_reachable_cut_misses_the_mirror
    (include_terminal_positions : bool) (st : state) (b : Z) (r : bool) :
  is_rev (pos_2 st) = false →
  is_Some (graph st !! id (pos_1 st)) →
  edges_at (graph st) (id (pos_1 st)) Right = [] →
  (b, r) ∈ edges_at (graph st) (id (pos_1 st)) Left →
  negb ((b =? id (pos_2 st)) && r) = true →
  (id (pos_2 st), r) ∉ edges_at (graph st) b (right_if r) →
  cut_shared_reachable include_terminal_positions st = Err undefined_behaviour.
Proof.
  intros Hrev Hin Hright Hleft Hskip Hno. unfold cut_shared_reachable.
  rewrite (touch_present _ _ Hin).
  rewrite for_each_edge_nil by done. cbn [bind].
  apply list_elem_of_lookup_1 in Hleft as [i0 Hi0].
  unfold for_each_edge.
  rewrite (shared_cut_loop_fails (id (pos_1 st)) (id (pos_2 st)) (is_rev (pos_2 st)) b r
             (length (edges_at (graph st) (id (pos_1 st)) Left)) i0); try done.
  - apply elem_of_seq. apply lookup_lt_Some in Hi0. lia.
  - by rewrite Hrev.
Qed.

Lemma shared_reachable_cut_misses_the_mirror_witness :
  cut_shared_reachable false shared_state = Err undefined_behaviour
  ∧ extract_connecting_graph 10 chain 20 (make_pos_t 2 false 0) (make_pos_t 2 false 2)
      false true false false false empty_graph = Failed undefined_behaviour.
Proof.
  split; [|vm_compute; reflexivity].
  apply (shared_reachable_cut_misses_the_mirror false shared_state 1 false).
  - reflexivity.
  - vm_compute. eauto.
  - vm_compute. reflexivity.
  - apply (bool_decide_unpack _). vm_compute. exact I.
  - reflexivity.
  - apply (bool_decide_unpack _). vm_compute. exact I.
Defined.

(** ** What the forward search has found *)







(** ** The forward search misses no walk *)


Lemma string_size_nonneg (s : string) : 0 ≤ string_size s.
Proof. unfold string_size. lia. Qed.









Lemma walk_clear_dist_ge (source : HandleGraph) (p1 : pos_t) (skip : gset handle_t)
    (h : handle_t) (d : Z) :
  walk_clear source p1 skip h d →
  string_size (get_sequence source (get_handle (id p1) false)) - offset p1 ≤ d.
Proof.
  induction 1 as [|h d next Hw IH Hn Hs]; [lia|].
  pose proof (string_size_nonneg (get_sequence source (forward next))). lia.
Qed.








